(** * L0 runtime core: values, environments, primitives, evaluator, reader

    A shallow embedding of the C sources under [cheng_c/src]
    ([l0_types.c], [l0_env.c], [l0_primitives.c], [l0_eval.c],
    [l0_parser.c], [l0_arena.c]) together with the properties the
    specification states about them and further properties of the code.

    Conventions of the embedding.
    - A [L0_Value*] that is not [NULL] is a finite tree [L0_Value];
      a function returning [L0_Value*] returns a [result] whose
      [Null] constructor is the C null pointer.  No primitive of
      [l0_primitives.c] writes into a cons cell it was given ([append]
      links the copies it has just made), so values are
      immutable; pointer identity is not observable through the
      functions embedded here (the evaluator only uses it to reuse an
      unchanged pair instead of rebuilding an equal one).
    - [L0_NIL] is the only value of type [L0_TYPE_NIL]
      ([l0_make_nil] always returns the singleton), so [l0_is_nil]
      is a tag test.
    - The process-wide error slot, the three recursion counters of
      [l0_eval.c] and the environment structures live in a [World]
      that every function threads.
    - Arena allocation is assumed to succeed: the branches that only
      run when [l0_arena_alloc] returns [NULL] are left out.
    - [long] is a 64-bit two's-complement integer with wrap-around,
      [double] is IEEE-754 binary64 ([PrimFloat.float]). *)

From Stdlib Require Import ZArith List String Ascii Bool Lia Floats Uint63 DecimalString.
From Stdlib Require DecimalPos.
Import ListNotations.
Open Scope string_scope.
Open Scope Z_scope.

(** ** l0_parser.h: the error slot *)

Inductive L0_ParseStatus : Type :=
| L0_PARSE_OK
| L0_PARSE_ERROR_UNEXPECTED_EOF
| L0_PARSE_ERROR_INVALID_SYNTAX
| L0_PARSE_ERROR_MEMORY
| L0_PARSE_ERROR_RUNTIME.

Definition status_is_ok (s : L0_ParseStatus) : bool :=
  match s with L0_PARSE_OK => true | _ => false end.

(** ** l0_types.h: the value model *)

(** An [L0_Env*] is the index of an environment structure in the world. *)
Definition L0_Env : Type := nat.

(** An [L0_PrimitiveFunc] is a code address; the world-independent
    table [host] below says what the function at an address does. *)
Definition L0_PrimitiveFunc : Type := N.

Inductive L0_Value : Type :=
| L0_NIL
| L0_Boolean (boolean : bool)
| L0_Integer (integer : Z)
| L0_Symbol (symbol : string)
| L0_Pair (car cdr : L0_Value)
| L0_String (str : string)
| L0_Primitive (name : option string) (func : option L0_PrimitiveFunc)
| L0_Closure (params body : L0_Value) (env : L0_Env)
| L0_Float (float_num : float)
| L0_Ref (referred : L0_Value).

(** The numeric value of the [L0_ValueType] tag, as printed by ["%d"]. *)
Definition type_code (v : L0_Value) : Z :=
  match v with
  | L0_NIL => 0
  | L0_Boolean _ => 1
  | L0_Integer _ => 2
  | L0_Symbol _ => 3
  | L0_Pair _ _ => 4
  | L0_String _ => 5
  | L0_Primitive _ _ => 6
  | L0_Closure _ _ _ => 7
  | L0_Float _ => 8
  | L0_Ref _ => 9
  end.

Definition l0_is_nil (v : L0_Value) : bool :=
  match v with L0_NIL => true | _ => false end.
Definition l0_is_boolean (v : L0_Value) : bool :=
  match v with L0_Boolean _ => true | _ => false end.
Definition l0_is_integer (v : L0_Value) : bool :=
  match v with L0_Integer _ => true | _ => false end.
Definition l0_is_symbol (v : L0_Value) : bool :=
  match v with L0_Symbol _ => true | _ => false end.
Definition l0_is_string (v : L0_Value) : bool :=
  match v with L0_String _ => true | _ => false end.
Definition l0_is_float (v : L0_Value) : bool :=
  match v with L0_Float _ => true | _ => false end.
Definition l0_is_pair (v : L0_Value) : bool :=
  match v with L0_Pair _ _ => true | _ => false end.
Definition l0_is_primitive (v : L0_Value) : bool :=
  match v with L0_Primitive _ _ => true | _ => false end.
Definition l0_is_closure (v : L0_Value) : bool :=
  match v with L0_Closure _ _ _ => true | _ => false end.
Definition l0_is_ref (v : L0_Value) : bool :=
  match v with L0_Ref _ => true | _ => false end.

(** [l0_is_list]: walks the cdr chain and requires it to end in nil.
    The self-reference test of the C loop cannot fire on a finite tree. *)
Fixpoint l0_is_list (v : L0_Value) : bool :=
  match v with
  | L0_NIL => true
  | L0_Pair _ d => l0_is_list d
  | _ => false
  end.

(** [l0_is_truthy]: only [#f] is false. *)
Definition l0_is_truthy (v : L0_Value) : bool :=
  match v with
  | L0_Boolean false => false
  | _ => true
  end.

(** Proper lists, as built by the reader and by [l0_eval_list]. *)
Fixpoint list_to_value (l : list L0_Value) : L0_Value :=
  match l with
  | [] => L0_NIL
  | x :: r => L0_Pair x (list_to_value r)
  end.

(** ** The world: error slot, recursion counters, environments *)

(** [struct L0_Env]: an association list of bindings (the frame, newest
    first) and the enclosing environment.  Frames are only built by
    [l0_env_define], so every binding is a (symbol . value) pair and the
    list is acyclic; the cycle detector of [l0_env_lookup] never fires. *)
Record L0_EnvStruct : Type := mkEnv {
  frame : list (string * L0_Value);
  outer : option L0_Env
}.

Record World : Type := mkWorld {
  l0_parser_error_status : L0_ParseStatus;
  l0_parser_error_message : option string;
  l0_parser_error_line : Z;
  l0_parser_error_col : Z;
  eval_depth : Z;
  eval_list_depth : Z;
  macroexpand_depth : Z;
  envs : list L0_EnvStruct
}.

Definition set_error (s : L0_ParseStatus) (m : option string) (w : World) : World :=
  mkWorld s m (l0_parser_error_line w) (l0_parser_error_col w)
          (eval_depth w) (eval_list_depth w) (macroexpand_depth w) (envs w).

Definition set_error_pos (line col : Z) (w : World) : World :=
  mkWorld (l0_parser_error_status w) (l0_parser_error_message w) line col
          (eval_depth w) (eval_list_depth w) (macroexpand_depth w) (envs w).

Definition set_eval_depth (d : Z) (w : World) : World :=
  mkWorld (l0_parser_error_status w) (l0_parser_error_message w)
          (l0_parser_error_line w) (l0_parser_error_col w)
          d (eval_list_depth w) (macroexpand_depth w) (envs w).

Definition set_eval_list_depth (d : Z) (w : World) : World :=
  mkWorld (l0_parser_error_status w) (l0_parser_error_message w)
          (l0_parser_error_line w) (l0_parser_error_col w)
          (eval_depth w) d (macroexpand_depth w) (envs w).

Definition set_macroexpand_depth (d : Z) (w : World) : World :=
  mkWorld (l0_parser_error_status w) (l0_parser_error_message w)
          (l0_parser_error_line w) (l0_parser_error_col w)
          (eval_depth w) (eval_list_depth w) d (envs w).

Definition set_envs (e : list L0_EnvStruct) (w : World) : World :=
  mkWorld (l0_parser_error_status w) (l0_parser_error_message w)
          (l0_parser_error_line w) (l0_parser_error_col w)
          (eval_depth w) (eval_list_depth w) (macroexpand_depth w) e.

Definition world_ok (w : World) : bool := status_is_ok (l0_parser_error_status w).

(** The state of a fresh process: clean slot, counters at zero, and the
    environments given. *)
Definition initial_world (e : list L0_EnvStruct) : World :=
  mkWorld L0_PARSE_OK None 1 1 0 0 0 e.

(** ** Results and the sentinel discipline *)

(** What a call returning [L0_Value*] produces: a value, the null
    sentinel, or no answer within the step budget of the model. *)
Inductive result : Type :=
| Val (v : L0_Value)
| Null
| OutOfFuel.

Definition M : Type := World -> result * World.

Definition ret (v : L0_Value) : M := fun w => (Val v, w).
Definition null : M := fun w => (Null, w).

(** [status = RUNTIME; message = strdup(msg); return NULL;] *)
Definition runtime_error (msg : string) : M :=
  fun w => (Null, set_error L0_PARSE_ERROR_RUNTIME (Some msg) w).

(** The recurring test [if (!r || l0_parser_error_status != L0_PARSE_OK)]
    after a call: on failure run [onfail] (which returns [NULL]),
    otherwise continue with the value. *)
Definition bind_or (onfail : World -> World) (m : M) (k : L0_Value -> M) : M :=
  fun w =>
    match m w with
    | (Val v, w') => if world_ok w' then k v w' else (Null, onfail w')
    | (Null, w') => (Null, onfail w')
    | (OutOfFuel, w') => (OutOfFuel, w')
    end.

(** [snprintf(buf, n, ...)] keeps at most [n - 1] characters. *)
Definition snprintf (n : nat) (s : string) : string :=
  String.substring 0 (n - 1) s.

Definition string_of_Z (z : Z) : string := NilZero.string_of_int (Z.to_int z).

(** ** l0_env.c *)

Module Env.

(** Scan of one frame, head to tail, first match wins. *)
Fixpoint frame_lookup (name : string) (fr : list (string * L0_Value)) : option L0_Value :=
  match fr with
  | [] => None
  | (s, v) :: rest => if String.eqb s name then Some v else frame_lookup name rest
  end.

(** In-place update of the first binding of [name] ([binding->cdr = value]);
    [None] when the frame has no such binding. *)
Fixpoint frame_update (name : string) (v : L0_Value) (fr : list (string * L0_Value))
  : option (list (string * L0_Value)) :=
  match fr with
  | [] => None
  | (s, old) :: rest =>
      if String.eqb s name then Some ((s, v) :: rest)
      else match frame_update name v rest with
           | Some rest' => Some ((s, old) :: rest')
           | None => None
           end
  end.

Fixpoint replace_nth {A : Type} (n : nat) (x : A) (l : list A) : list A :=
  match l, n with
  | [], _ => []
  | _ :: t, O => x :: t
  | h :: t, S n' => h :: replace_nth n' x t
  end.

(** The walk [current_env = current_env->outer] of lookup and set.
    The chain is finite because [outer] is fixed at creation and points
    to an older structure; [hops] bounds the walk by the number of
    structures. *)
Fixpoint lookup_from (hops : nat) (es : list L0_EnvStruct) (env : option L0_Env)
         (name : string) : option L0_Value :=
  match hops, env with
  | S h, Some e =>
      match nth_error es e with
      | Some s =>
          match frame_lookup name (frame s) with
          | Some v => Some v
          | None => lookup_from h es (outer s) name
          end
      | None => None
      end
  | _, _ => None
  end.

Fixpoint set_from (hops : nat) (es : list L0_EnvStruct) (env : option L0_Env)
         (name : string) (v : L0_Value) : option (list L0_EnvStruct) :=
  match hops, env with
  | S h, Some e =>
      match nth_error es e with
      | Some s =>
          match frame_update name v (frame s) with
          | Some fr' => Some (replace_nth e (mkEnv fr' (outer s)) es)
          | None => set_from h es (outer s) name v
          end
      | None => None
      end
  | _, _ => None
  end.

End Env.

(** [l0_env_create(arena, outer)]: a new structure with an empty frame. *)
Definition l0_env_create (outer_env : option L0_Env) (w : World) : L0_Env * World :=
  (List.length (envs w), set_envs (envs w ++ [mkEnv [] outer_env]) w).

(** [l0_env_extend(outer_env)] *)
Definition l0_env_extend (outer_env : L0_Env) (w : World) : L0_Env * World :=
  l0_env_create (Some outer_env) w.

(** [l0_env_lookup(env, symbol)]: [None] is the null pointer. *)
Definition l0_env_lookup (env : L0_Env) (name : string) (w : World) : option L0_Value :=
  Env.lookup_from (S (List.length (envs w))) (envs w) (Some env) name.

(** [l0_env_define(env, symbol, value)]: update in the current frame when
    the symbol is there, otherwise prepend a binding.  The function asserts
    that [symbol] is a symbol; callers pass the name.  It reports [false]
    only for a pointer that designates no structure. *)
Definition l0_env_define (env : L0_Env) (name : string) (v : L0_Value) (w : World)
  : bool * World :=
  match nth_error (envs w) env with
  | Some s =>
      let fr' := match Env.frame_update name v (frame s) with
                 | Some fr' => fr'
                 | None => (name, v) :: frame s
                 end in
      (true, set_envs (Env.replace_nth env (mkEnv fr' (outer s)) (envs w)) w)
  | None => (false, w)
  end.

(** [l0_env_set(env, symbol, value)]: update the nearest binding on the
    chain; [false] when the symbol is bound nowhere. *)
Definition l0_env_set (env : L0_Env) (name : string) (v : L0_Value) (w : World)
  : bool * World :=
  match Env.set_from (S (List.length (envs w))) (envs w) (Some env) name v with
  | Some es' => (true, set_envs es' w)
  | None => (false, w)
  end.

(** ** C arithmetic *)

Definition LONG_MIN : Z := - 2 ^ 63.
Definition LONG_MAX : Z := 2 ^ 63 - 1.

(** Reduction of an integer to the range of [long] (wrap-around). *)
Definition wrap_long (z : Z) : Z := (z + 2 ^ 63) mod 2 ^ 64 - 2 ^ 63.

(** [(double)i] for a [long] [i]: round to nearest, ties to even. *)
Definition long_to_double (i : Z) : float :=
  let z := wrap_long i in
  if z =? LONG_MIN then
    PrimFloat.opp (PrimFloat.ldshiftexp (PrimFloat.of_uint63 1%uint63) (Uint63.of_Z (63 + FloatOps.shift)))
  else if z <? 0 then PrimFloat.opp (PrimFloat.of_uint63 (Uint63.of_Z (- z)))
  else PrimFloat.of_uint63 (Uint63.of_Z z).

(** [(long)d] for a [double] [d]: truncation toward zero.  The conversion
    of a NaN, an infinity or a value outside the range of [long] is
    undefined in C; it is given the result of the x86-64 instruction
    ([LONG_MIN]). *)
Definition double_to_long (d : float) : Z :=
  match Prim2SF d with
  | S754_zero _ => 0
  | S754_finite s m e =>
      let mag := if 0 <=? e then Z.shiftl (Z.pos m) e else Z.shiftr (Z.pos m) (- e) in
      let z := if s then - mag else mag in
      if (LONG_MIN <=? z) && (z <=? LONG_MAX) then z else LONG_MIN
  | _ => LONG_MIN
  end.

(** ** l0_primitives.c *)

(** [check_arg_count(args, n, arena, prim_name)]: [true] when [args] is a
    proper list of exactly [n] elements; otherwise sets the slot. *)
Fixpoint count_args (current : L0_Value) (count : Z) : Z * L0_Value :=
  match current with
  | L0_Pair _ d => count_args d (count + 1)
  | _ => (count, current)
  end.

Definition check_arg_count (args : L0_Value) (n : Z) (prim_name : string) (w : World)
  : bool * World :=
  let '(count, last) := count_args args 0 in
  if negb (l0_is_nil last) then
    (false, set_error L0_PARSE_ERROR_RUNTIME
       (Some (snprintf 100 ("Primitive '" ++ prim_name ++ "': Argument list is not a proper list."))) w)
  else if negb (count =? n) then
    (false, set_error L0_PARSE_ERROR_RUNTIME
       (Some (snprintf 100 ("Primitive '" ++ prim_name ++ "': Expected exactly "
                            ++ string_of_Z n ++ " arguments, got " ++ string_of_Z count ++ "."))) w)
  else (true, w).

(** [get_arg(args, n, arena, prim_name)]: the [n]-th argument (from 0). *)
Fixpoint get_arg_from (current_arg_pair : L0_Value) (i : nat) (n : Z) (prim_name : string) : M :=
  match i, current_arg_pair with
  | O, L0_Pair a _ => ret a
  | O, _ =>
      fun w => (Null, set_error L0_PARSE_ERROR_RUNTIME
        (Some (snprintf 100 ("Primitive '" ++ prim_name ++ "': Expected at least "
               ++ string_of_Z (n + 1) ++ " arguments, got fewer (malformed arg list?)."))) w)
  | S i', L0_Pair _ d => get_arg_from d i' n prim_name
  | S _, _ =>
      fun w => (Null, set_error L0_PARSE_ERROR_RUNTIME
        (Some (snprintf 100 ("Primitive '" ++ prim_name ++ "': Expected at least "
               ++ string_of_Z (n + 1) ++ " arguments, got fewer."))) w)
  end.

Definition get_arg (args : L0_Value) (n : nat) (prim_name : string) : M :=
  get_arg_from args n (Z.of_nat n) prim_name.

Definition prim_cons (args : L0_Value) (env : L0_Env) : M :=
  fun w =>
    match check_arg_count args 2 "cons" w with
    | (false, w') => (Null, w')
    | (true, w') =>
        match get_arg args 0 "cons" w' with
        | (Val a, w1) =>
            match get_arg args 1 "cons" w1 with
            | (Val d, w2) => (Val (L0_Pair a d), w2)
            | r => r
            end
        | r => r
        end
    end.

Definition prim_list (args : L0_Value) (env : L0_Env) : M :=
  if l0_is_list args then ret args
  else runtime_error "Primitive 'list': Internal error - received improper argument list structure.".

Definition prim_car (args : L0_Value) (env : L0_Env) : M :=
  fun w =>
    match check_arg_count args 1 "car" w with
    | (false, w') => (Null, w')
    | (true, w') =>
        match get_arg args 0 "car" w' with
        | (Val (L0_Pair a _), w1) => (Val a, w1)
        | (Val _, w1) => runtime_error "Primitive 'car': Argument must be a pair." w1
        | r => r
        end
    end.

Definition prim_cdr (args : L0_Value) (env : L0_Env) : M :=
  fun w =>
    match check_arg_count args 1 "cdr" w with
    | (false, w') => (Null, w')
    | (true, w') =>
        match get_arg args 0 "cdr" w' with
        | (Val (L0_Pair _ d), w1) => (Val d, w1)
        | (Val _, w1) => runtime_error "Primitive 'cdr': Argument must be a pair." w1
        | r => r
        end
    end.

(** [get_numeric_as_double(val, &out, arena, prim_name)]: [Some d] stands
    for [true] with [*out = d]; [None] for [false], with the slot set. *)
Definition get_numeric_as_double (val : L0_Value) (prim_name : string) (w : World)
  : option float * World :=
  match val with
  | L0_Integer i => (Some (long_to_double i), w)
  | L0_Float f => (Some f, w)
  | _ => (None, set_error L0_PARSE_ERROR_RUNTIME
            (Some (snprintf 100 ("Primitive '" ++ prim_name
                                 ++ "': Expected integer or float argument."))) w)
  end.

(** The loop of [prim_add] with its three locals. *)
Fixpoint add_loop (current : L0_Value) (int_sum : Z) (float_sum : float) (has_float : bool) : M :=
  match current with
  | L0_Pair (L0_Float f) d =>
      let float_sum := if has_float then float_sum else long_to_double int_sum in
      add_loop d int_sum (float_sum + f)%float true
  | L0_Pair (L0_Integer i) d =>
      if has_float then add_loop d int_sum (float_sum + long_to_double i)%float has_float
      else add_loop d (wrap_long (int_sum + i)) float_sum has_float
  | L0_Pair _ _ =>
      runtime_error "Primitive '+': Arguments must be numbers (integer or float)."
  | L0_NIL =>
      if has_float then ret (L0_Float float_sum) else ret (L0_Integer int_sum)
  | _ => runtime_error "Primitive '+': Argument list is not a proper list."
  end.

Definition prim_add (args : L0_Value) (env : L0_Env) : M :=
  add_loop args 0 0%float false.

Fixpoint multiply_loop (current : L0_Value) (int_product : Z) (float_product : float)
         (has_float : bool) : M :=
  match current with
  | L0_Pair (L0_Float f) d =>
      let float_product := if has_float then float_product else long_to_double int_product in
      multiply_loop d int_product (float_product * f)%float true
  | L0_Pair (L0_Integer i) d =>
      if has_float then multiply_loop d int_product (float_product * long_to_double i)%float has_float
      else multiply_loop d (wrap_long (int_product * i)) float_product has_float
  | L0_Pair _ _ =>
      runtime_error "Primitive '*': Arguments must be numbers (integer or float)."
  | L0_NIL =>
      if has_float then ret (L0_Float float_product) else ret (L0_Integer int_product)
  | _ => runtime_error "Primitive '*': Argument list is not a proper list."
  end.

Definition prim_multiply (args : L0_Value) (env : L0_Env) : M :=
  multiply_loop args 1 1%float false.

Fixpoint subtract_loop (current : L0_Value) (int_result : Z) (float_result : float)
         (has_float : bool) : M :=
  match current with
  | L0_Pair arg d =>
      fun w =>
        match get_numeric_as_double arg "-" w with
        | (None, w') => (Null, w')
        | (Some arg_val_d, w') =>
            let promote := l0_is_float arg && negb has_float in
            let float_result := if promote then long_to_double int_result else float_result in
            let has_float := has_float || promote in
            if has_float then subtract_loop d int_result (float_result - arg_val_d)%float has_float w'
            else subtract_loop d (wrap_long (int_result - double_to_long arg_val_d))
                               float_result has_float w'
        end
  | L0_NIL =>
      if has_float then ret (L0_Float float_result) else ret (L0_Integer int_result)
  | _ => runtime_error "Primitive '-': Argument list is not a proper list."
  end.

(** For an argument list that is neither nil nor a pair the C code reads
    the car of a non-pair; here that case yields the sentinel. *)
Definition prim_subtract (args : L0_Value) (env : L0_Env) : M :=
  match args with
  | L0_NIL => runtime_error "Primitive '-': Requires at least one argument."
  | L0_Pair first_arg current =>
      fun w =>
        match get_numeric_as_double first_arg "-" w with
        | (None, w') => (Null, w')
        | (Some first_val_d, w') =>
            let has_float := l0_is_float first_arg in
            if l0_is_nil current then
              if has_float then (Val (L0_Float (- first_val_d)%float), w')
              else (Val (L0_Integer (wrap_long (- double_to_long first_val_d))), w')
            else subtract_loop current (double_to_long first_val_d) first_val_d has_float w'
        end
  | _ => null
  end.

Fixpoint divide_loop (current : L0_Value) (result_d : float) : M :=
  match current with
  | L0_Pair arg d =>
      fun w =>
        match get_numeric_as_double arg "/" w with
        | (None, w') => (Null, w')
        | (Some arg_val_d, w') =>
            if (arg_val_d =? 0)%float then runtime_error "Primitive '/': Division by zero." w'
            else divide_loop d (result_d / arg_val_d)%float w'
        end
  | L0_NIL => ret (L0_Float result_d)
  | _ => runtime_error "Primitive '/': Argument list is not a proper list."
  end.

Definition prim_divide (args : L0_Value) (env : L0_Env) : M :=
  match args with
  | L0_NIL => runtime_error "Primitive '/': Requires at least one argument."
  | L0_Pair first_arg current =>
      fun w =>
        match get_numeric_as_double first_arg "/" w with
        | (None, w') => (Null, w')
        | (Some first_val_d, w') =>
            if l0_is_nil current then
              if (first_val_d =? 0)%float then
                runtime_error "Primitive '/': Division by zero (1/0)." w'
              else (Val (L0_Float (1 / first_val_d)%float), w')
            else divide_loop current first_val_d w'
        end
  | _ => null
  end.

(** The loop of [prim_equal]: every later argument is compared with the
    first one.  [first_d] is [None] when the first argument is not a
    number ([first_is_num] false). *)
Fixpoint equal_loop (current : L0_Value) (first_d : option float) : M :=
  match current with
  | L0_Pair next d =>
      fun w =>
        let '(next_d, w') := get_numeric_as_double next "=" w in
        match first_d, next_d with
        | Some x, Some y =>
            if negb (x =? y)%float then (Val (L0_Boolean false), w')
            else equal_loop d first_d w'
        | _, _ => (Val (L0_Boolean false), set_error L0_PARSE_OK None w')
        end
  | L0_NIL => ret (L0_Boolean true)
  | _ => runtime_error "Primitive '=': Argument list is not a proper list."
  end.

Definition prim_equal (args : L0_Value) (env : L0_Env) : M :=
  match args with
  | L0_NIL => ret (L0_Boolean true)
  | L0_Pair _ L0_NIL => ret (L0_Boolean true)
  | L0_Pair first current =>
      fun w =>
        let '(first_d, w') := get_numeric_as_double first "=" w in
        equal_loop current first_d w'
  | _ => null
  end.

Fixpoint less_than_loop (current_pair : L0_Value) (prev_d : float) : M :=
  match current_pair with
  | L0_Pair current d =>
      fun w =>
        match get_numeric_as_double current "<" w with
        | (None, w') => (Null, w')
        | (Some current_d, w') =>
            if negb (prev_d <? current_d)%float then (Val (L0_Boolean false), w')
            else less_than_loop d current_d w'
        end
  | L0_NIL => ret (L0_Boolean true)
  | _ => runtime_error "Primitive '<': Argument list is not a proper list."
  end.

Definition prim_less_than (args : L0_Value) (env : L0_Env) : M :=
  match args with
  | L0_NIL => ret (L0_Boolean true)
  | L0_Pair _ L0_NIL => ret (L0_Boolean true)
  | L0_Pair prev current_pair =>
      fun w =>
        match get_numeric_as_double prev "<" w with
        | (None, w') => (Null, w')
        | (Some prev_d, w') => less_than_loop current_pair prev_d w'
        end
  | _ => null
  end.

Fixpoint greater_than_loop (current_pair : L0_Value) (prev_d : float) : M :=
  match current_pair with
  | L0_Pair current d =>
      fun w =>
        match get_numeric_as_double current ">" w with
        | (None, w') => (Null, w')
        | (Some current_d, w') =>
            if negb (current_d <? prev_d)%float then (Val (L0_Boolean false), w')
            else greater_than_loop d current_d w'
        end
  | L0_NIL => ret (L0_Boolean true)
  | _ => runtime_error "Primitive '>': Argument list is not a proper list."
  end.

Definition prim_greater_than (args : L0_Value) (env : L0_Env) : M :=
  match args with
  | L0_NIL => ret (L0_Boolean true)
  | L0_Pair _ L0_NIL => ret (L0_Boolean true)
  | L0_Pair prev current_pair =>
      fun w =>
        match get_numeric_as_double prev ">" w with
        | (None, w') => (Null, w')
        | (Some prev_d, w') => greater_than_loop current_pair prev_d w'
        end
  | _ => null
  end.

(** ** l0_eval.c *)

Inductive L0_SpecialFormType : Type :=
| SF_NONE | SF_QUOTE | SF_QUASIQUOTE | SF_IF | SF_LAMBDA | SF_DEFINE | SF_SET
| SF_LET | SF_DEFMACRO | SF_AND | SF_OR | SF_BEGIN | SF_COND | SF_UNQUOTE.

Definition get_special_form_type (sym : string) : L0_SpecialFormType :=
  if String.eqb sym "if" then SF_IF
  else if String.eqb sym "lambda" then SF_LAMBDA
  else if String.eqb sym "define" then SF_DEFINE
  else if String.eqb sym "quasiquote" then SF_QUASIQUOTE
  else if String.eqb sym "quote" then SF_QUOTE
  else if String.eqb sym "set!" then SF_SET
  else if String.eqb sym "let" then SF_LET
  else if String.eqb sym "begin" then SF_BEGIN
  else if String.eqb sym "cond" then SF_COND
  else if String.eqb sym "and" then SF_AND
  else if String.eqb sym "or" then SF_OR
  else if String.eqb sym "defmacro" then SF_DEFMACRO
  else if String.eqb sym "unquote" then SF_UNQUOTE
  else if String.eqb sym "unquote-splicing" then SF_UNQUOTE
  else SF_NONE.

Definition MAX_EVAL_DEPTH : Z := 1000.
Definition MAX_MACROEXPAND_DEPTH : Z := 500.

(** The two entry points a host primitive can call back into. *)
Record Interp : Type := mkInterp {
  interp_eval : L0_Value -> L0_Env -> M;
  interp_apply : L0_Value -> L0_Value -> L0_Env -> M
}.

(** The walk over a parameter list shared by [lambda], [define] and
    [defmacro]: all symbols and nil-terminated, or the first defect. *)
Inductive ParamsCheck : Type := ParamsOk | ParamNotSymbol | ParamsNotProper.

Fixpoint check_params (current_param : L0_Value) : ParamsCheck :=
  match current_param with
  | L0_Pair (L0_Symbol _) d => check_params d
  | L0_Pair _ _ => ParamNotSymbol
  | L0_NIL => ParamsOk
  | _ => ParamsNotProper
  end.

(** The association-list scan of the [SF_NONE] case: the cdr of the first
    entry whose car is the symbol [op_sym]; entries that are not pairs are
    skipped. *)
Fixpoint scan_macro_table (op_sym : string) (current_entry_node : L0_Value) : option L0_Value :=
  match current_entry_node with
  | L0_Pair (L0_Pair (L0_Symbol macro_name) transformer) d =>
      if String.eqb op_sym macro_name then Some transformer
      else scan_macro_table op_sym d
  | L0_Pair _ d => scan_macro_table op_sym d
  | _ => None
  end.

Section Evaluator.

(** [host f] is the C function at address [f]; it receives the
    interpreter so that [prim_eval] and [prim_apply] can re-enter it. *)
Variable host : L0_PrimitiveFunc -> Interp -> L0_Value -> L0_Env -> M.

(** The recursive calls of the evaluator. *)
Variable self : Interp.

Local Abbreviation ev := (interp_eval self).

(** [l0_eval_sequence(seq, env, arena)] *)
Fixpoint eval_sequence_loop (current_expr_node : L0_Value) (result : L0_Value)
         (env : L0_Env) : M :=
  match current_expr_node with
  | L0_Pair expr_to_eval d =>
      bind_or (fun w => w) (ev expr_to_eval env)
              (fun result => eval_sequence_loop d result env)
  | L0_NIL => ret result
  | _ => runtime_error "Body sequence is not a proper list."
  end.

Definition l0_eval_sequence (seq : L0_Value) (env : L0_Env) : M :=
  eval_sequence_loop seq L0_NIL env.

(** The binding loop of [l0_apply]: runs while both lists are pairs and
    returns the two nodes it stopped at, or [None] when a binding could
    not be made.  [l0_env_define] asserts that the parameter is a
    symbol; the closures built by the evaluator satisfy it, and a
    parameter of another type yields the failure here. *)
Fixpoint bind_params (call_env : L0_Env) (current_param_node current_arg_node : L0_Value)
         (w : World) : option (L0_Value * L0_Value) * World :=
  match current_param_node, current_arg_node with
  | L0_Pair param_sym pd, L0_Pair arg_val ad =>
      match param_sym with
      | L0_Symbol name =>
          match l0_env_define call_env name arg_val w with
          | (true, w') => bind_params call_env pd ad w'
          | (false, w') =>
              (None,
               if world_ok w' then
                 set_error L0_PARSE_ERROR_RUNTIME
                   (Some "Failed to bind argument in function call environment.") w'
               else w')
          end
      | _ => (None, w)
      end
  | _, _ => (Some (current_param_node, current_arg_node), w)
  end.

(** [l0_apply(func, args, env, arena)] *)
Definition l0_apply_body (func args : L0_Value) (env : L0_Env) : M :=
  match func with
  | L0_Primitive _ prim_func =>
      match prim_func with
      | None => runtime_error "Internal error: Primitive function pointer is NULL."
      | Some f => host f self args env
      end
  | L0_Closure params body closure_env =>
      fun w =>
        let '(call_env, w1) := l0_env_extend closure_env w in
        match bind_params call_env params args w1 with
        | (None, w2) => (Null, w2)
        | (Some (current_param_node, current_arg_node), w2) =>
            if negb (l0_is_nil current_param_node) || negb (l0_is_nil current_arg_node) then
              runtime_error "Function called with incorrect number of arguments." w2
            else l0_eval_sequence body call_env w2
        end
  | _ =>
      runtime_error
        (snprintf 100 ("Attempted to apply non-function value (type "
                       ++ string_of_Z (type_code func) ++ ")."))
  end.

(** [l0_eval_list(list, env, arena)] *)
Definition leave_list (w : World) : World :=
  set_eval_list_depth (eval_list_depth w - 1) w.

Fixpoint l0_eval_list (list : L0_Value) (env : L0_Env) : M :=
  fun w0 =>
    let w := set_eval_list_depth (eval_list_depth w0 + 1) w0 in
    if 1000 <? eval_list_depth w then
      (Null, leave_list (set_error L0_PARSE_ERROR_RUNTIME
               (Some "Stack overflow suspected in argument list evaluation.") w))
    else
      match list with
      | L0_NIL => (Val L0_NIL, leave_list w)
      | L0_Pair a d =>
          bind_or leave_list (ev a env)
            (fun first_evaled =>
               bind_or leave_list (l0_eval_list d env)
                 (fun rest_evaled w' =>
                    (Val (L0_Pair first_evaled rest_evaled), leave_list w'))) w
      | _ =>
          (Null, leave_list (set_error L0_PARSE_ERROR_RUNTIME
                   (Some "Cannot evaluate list: input is not a pair or nil.") w))
      end.

(** [l0_expand_quasiquote(template, env, arena, depth)] *)
Fixpoint l0_expand_quasiquote (template : L0_Value) (env : L0_Env) (depth : Z) : M :=
  match template with
  | L0_Pair op rest =>
      let general (depth : Z) : M :=
        bind_or (fun w => w) (l0_expand_quasiquote op env depth)
          (fun expanded_car =>
             bind_or (fun w => w) (l0_expand_quasiquote rest env depth)
               (fun expanded_cdr => ret (L0_Pair expanded_car expanded_cdr))) in
      match op with
      | L0_Symbol op_sym =>
          if String.eqb op_sym "unquote" then
            if depth =? 1 then
              match rest with
              | L0_Pair expr_to_eval L0_NIL => ev expr_to_eval env
              | _ => runtime_error "'unquote' requires exactly one argument."
              end
            else general (depth - 1)
          else if String.eqb op_sym "unquote-splicing" then
            if depth =? 1 then
              runtime_error "TODO: 'unquote-splicing' is not yet implemented."
            else general (depth - 1)
          else if String.eqb op_sym "quasiquote" then general (depth + 1)
          else general depth
      | _ => general depth
      end
  | _ => ret template
  end.

(** *** The body of [l0_eval] *)

(** [eval_depth--] *)
Definition leave (w : World) : World := set_eval_depth (eval_depth w - 1) w.

(** [eval_depth--; return r;] *)
Definition leave_with (r : result) : M := fun w => (r, leave w).

(** Set a runtime error, [eval_depth--; return NULL;] *)
Definition eval_error (msg : string) : M :=
  fun w => (Null, leave (set_error L0_PARSE_ERROR_RUNTIME (Some msg) w)).

(** [eval_depth--; return call;] (a call in tail position) *)
Definition tail (call : M) : M := fun w => call (leave w).

(** A call followed by the failure test, the failure path being
    [eval_depth--; return NULL;]. *)
Definition checked (m : M) (k : L0_Value -> M) : M := bind_or leave m k.

Definition sf_quote (args_expr : L0_Value) : M :=
  match args_expr with
  | L0_Pair x L0_NIL => leave_with (Val x)
  | _ => eval_error "Special form 'quote' requires exactly one argument."
  end.

Definition sf_quasiquote (args_expr : L0_Value) (env : L0_Env) : M :=
  match args_expr with
  | L0_Pair template_expr L0_NIL =>
      fun w =>
        let '(r, w') := l0_expand_quasiquote template_expr env 1 w in
        (r, leave w')
  | _ => eval_error "Special form 'quasiquote' requires exactly one argument."
  end.

(** [value->data.boolean]; the code reads it behind [l0_is_boolean] only. *)
Definition data_boolean (value : L0_Value) : bool :=
  match value with
  | L0_Boolean b => b
  | _ => false
  end.

(** The test of [SF_IF] is written out in the code:
    [is_true = !(l0_is_boolean(condition_result) && !condition_result->data.boolean)]. *)
Definition sf_if (args_expr : L0_Value) (env : L0_Env) : M :=
  let run (condition_expr true_expr false_expr : L0_Value) : M :=
    checked (ev condition_expr env)
      (fun condition_result =>
         let is_true :=
           negb (l0_is_boolean condition_result && negb (data_boolean condition_result)) in
         if is_true then tail (ev true_expr env)
         else tail (ev false_expr env)) in
  match args_expr with
  | L0_Pair condition_expr (L0_Pair true_expr L0_NIL) =>
      run condition_expr true_expr L0_NIL
  | L0_Pair condition_expr (L0_Pair true_expr (L0_Pair false_expr L0_NIL)) =>
      run condition_expr true_expr false_expr
  | _ =>
      eval_error "Special form 'if' requires 2 or 3 arguments: (if condition true-expr [false-expr])."
  end.

Definition sf_lambda (args_expr : L0_Value) (env : L0_Env) : M :=
  match args_expr with
  | L0_Pair params (L0_Pair b1 brest) =>
      match check_params params with
      | ParamNotSymbol => eval_error "Lambda parameters must be symbols."
      | ParamsNotProper => eval_error "Lambda parameters list is not a proper list."
      | ParamsOk => leave_with (Val (L0_Closure params (L0_Pair b1 brest) env))
      end
  | _ =>
      eval_error "Special form 'lambda' requires parameters list and at least one body expression: (lambda (params...) body...)."
  end.

(** [l0_env_define] followed by the fallback message of its callers. *)
Definition define_or (msg : string) (env : L0_Env) (name : string) (v : L0_Value) (k : M) : M :=
  fun w =>
    match l0_env_define env name v w with
    | (true, w') => k w'
    | (false, w') =>
        (Null, leave (if world_ok w' then
                        set_error L0_PARSE_ERROR_RUNTIME (Some msg) w'
                      else w'))
    end.

Definition sf_define (args_expr : L0_Value) (env : L0_Env) : M :=
  match args_expr with
  | L0_Pair target (L0_Pair value_expr L0_NIL) =>
      let rest_args := L0_Pair value_expr L0_NIL in
      match target with
      | L0_Symbol symbol =>
          checked (ev value_expr env)
            (fun value_result =>
               define_or "Failed to define variable in environment." env symbol value_result
                         (leave_with (Val L0_NIL)))
      | L0_Pair func_name_sym params =>
          let body := rest_args in
          match func_name_sym with
          | L0_Symbol func_name =>
              match check_params params with
              | ParamNotSymbol => eval_error "Function definition parameters must be symbols."
              | ParamsNotProper =>
                  eval_error "Function definition parameters list is not a proper list."
              | ParamsOk =>
                  define_or "Failed to define function in environment." env func_name
                            (L0_Closure params body env) (leave_with (Val L0_NIL))
              end
          | _ => eval_error "Function name in definition shorthand must be a symbol."
          end
      | _ =>
          eval_error "First argument to 'define' must be a symbol or a list for function definition."
      end
  | _ =>
      eval_error "Special form 'define' requires exactly two arguments: (define symbol value-expr)."
  end.

Definition sf_set (args_expr : L0_Value) (env : L0_Env) : M :=
  match args_expr with
  | L0_Pair symbol (L0_Pair value_expr L0_NIL) =>
      match symbol with
      | L0_Symbol name =>
          checked (ev value_expr env)
            (fun value_result w =>
               match l0_env_set env name value_result w with
               | (true, w') => (Val L0_NIL, leave w')
               | (false, w') => (Null, leave w')
               end)
      | _ => eval_error "First argument to 'set!' must be a symbol."
      end
  | _ =>
      eval_error "Special form 'set!' requires exactly two arguments: (set! symbol value-expr)."
  end.

(** The binding loop of [let]: values are evaluated in [env] and
    defined in [let_env]; after the loop the body runs in tail position. *)
Fixpoint let_loop (current_binding body : L0_Value) (let_env env : L0_Env) : M :=
  match current_binding with
  | L0_Pair binding_pair d =>
      match binding_pair with
      | L0_Pair var_symbol (L0_Pair val_expr L0_NIL) =>
          match var_symbol with
          | L0_Symbol name =>
              checked (ev val_expr env)
                (fun evaluated_val =>
                   define_or "Failed to define variable in let environment."
                             let_env name evaluated_val
                             (let_loop d body let_env env))
          | _ => eval_error "Let binding variable must be a symbol."
          end
      | _ => eval_error "Let binding must be a list of two elements: (symbol value-expr)."
      end
  | L0_NIL => tail (l0_eval_sequence body let_env)
  | _ => eval_error "Let bindings list is not a proper list."
  end.

Definition sf_let (args_expr : L0_Value) (env : L0_Env) : M :=
  match args_expr with
  | L0_Pair bindings (L0_Pair b1 brest) =>
      fun w =>
        let '(let_env, w') := l0_env_extend env w in
        let_loop bindings (L0_Pair b1 brest) let_env env w'
  | _ =>
      eval_error "Special form 'let' requires bindings list and at least one body expression: (let ((var val)...) body...)."
  end.

Definition sf_defmacro (args_expr : L0_Value) (env : L0_Env) : M :=
  match args_expr with
  | L0_Pair macro_name_sym (L0_Pair params (L0_Pair b1 brest)) =>
      let body := L0_Pair b1 brest in
      match macro_name_sym with
      | L0_Symbol _ =>
          match check_params params with
          | ParamNotSymbol => eval_error "Defmacro parameters must be symbols."
          | ParamsNotProper => eval_error "Defmacro parameters list is not a proper list."
          | ParamsOk =>
              let transformer_closure := L0_Closure params body env in
              fun w =>
                match l0_env_lookup env "*macro-table*" w with
                | None => eval_error "Global variable '*macro-table*' is not defined." w
                | Some current_macro_table =>
                    let new_entry := L0_Pair macro_name_sym transformer_closure in
                    let new_macro_table := L0_Pair new_entry current_macro_table in
                    match l0_env_set env "*macro-table*" new_macro_table w with
                    | (true, w') => (Val L0_NIL, leave w')
                    | (false, w') =>
                        eval_error "Failed to update '*macro-table*' binding." w'
                    end
                end
          end
      | _ => eval_error "First argument to 'defmacro' (name) must be a symbol."
      end
  | _ =>
      eval_error "Special form 'defmacro' requires name, parameters list, and at least one body expression."
  end.

Fixpoint and_loop (current_arg_node last_result : L0_Value) (env : L0_Env) : M :=
  match current_arg_node with
  | L0_Pair arg_expr d =>
      if l0_is_nil d then tail (ev arg_expr env)
      else
        checked (ev arg_expr env)
          (fun last_result =>
             match last_result with
             | L0_Boolean false => leave_with (Val last_result)
             | _ => and_loop d last_result env
             end)
  | _ => leave_with (Val last_result)
  end.

Definition sf_and (args_expr : L0_Value) (env : L0_Env) : M :=
  if l0_is_nil args_expr then leave_with (Val (L0_Boolean true))
  else if negb (l0_is_list args_expr) then
    eval_error "'and' arguments must form a proper list."
  else and_loop args_expr (L0_Boolean true) env.

Fixpoint or_loop (current_arg_node last_result : L0_Value) (env : L0_Env) : M :=
  match current_arg_node with
  | L0_Pair arg_expr d =>
      if l0_is_nil d then tail (ev arg_expr env)
      else
        checked (ev arg_expr env)
          (fun last_result =>
             if l0_is_truthy last_result then leave_with (Val last_result)
             else or_loop d last_result env)
  | _ => leave_with (Val last_result)
  end.

Definition sf_or (args_expr : L0_Value) (env : L0_Env) : M :=
  if l0_is_nil args_expr then leave_with (Val (L0_Boolean false))
  else if negb (l0_is_list args_expr) then
    eval_error "'or' arguments must form a proper list."
  else or_loop args_expr (L0_Boolean false) env.

Definition sf_begin (args_expr : L0_Value) (env : L0_Env) : M :=
  tail (l0_eval_sequence args_expr env).

Definition is_else (test_expr : L0_Value) : bool :=
  match test_expr with
  | L0_Symbol s => String.eqb s "else"
  | _ => false
  end.

(** The clause loop of [cond]. *)
Fixpoint cond_loop (current_clause_node : L0_Value) (env : L0_Env) : M :=
  match current_clause_node with
  | L0_Pair clause d =>
      match clause with
      | L0_Pair test_expr body_exprs =>
          if is_else test_expr then
            if negb (l0_is_nil d) then
              eval_error "'else' clause must be the last clause in 'cond'."
            else if l0_is_nil body_exprs then leave_with (Val (L0_Boolean true))
            else tail (l0_eval_sequence body_exprs env)
          else
            checked (ev test_expr env)
              (fun test_result =>
                 if l0_is_truthy test_result then
                   if l0_is_nil body_exprs then leave_with (Val test_result)
                   else tail (l0_eval_sequence body_exprs env)
                 else cond_loop d env)
      | _ => eval_error "'cond' clause must be a list."
      end
  | L0_NIL => leave_with (Val L0_NIL)
  | _ => eval_error "'cond' clauses must form a proper list."
  end.

Definition sf_cond (args_expr : L0_Value) (env : L0_Env) : M :=
  cond_loop args_expr env.

Definition sf_unquote (op_sym : string) : M :=
  eval_error (snprintf 100 ("Runtime Error: '" ++ op_sym
                            ++ "' cannot appear outside of a quasiquote.")).

(** The [SF_NONE] case: a symbol in operator position that names no
    special form.  The macro table is consulted first. *)
Definition sf_none (op_sym : string) (args_expr : L0_Value) (env : L0_Env) : M :=
  fun w =>
    match l0_env_lookup env "*macro-table*" w with
    | None =>
        eval_error "Macro check failed: Global variable '*macro-table*' not found." w
    | Some current_macro_table =>
        if negb (l0_is_list current_macro_table) then
          eval_error "Macro check failed: Global variable '*macro-table*' is not a list." w
        else
          match scan_macro_table op_sym current_macro_table with
          | Some transformer_closure =>
              if negb (l0_is_closure transformer_closure) then
                eval_error
                  (snprintf 150 ("Macro expansion error: Transformer for '" ++ op_sym
                                 ++ "' is not a closure (type "
                                 ++ string_of_Z (type_code transformer_closure) ++ ").")) w
              else
                checked (l0_apply_body transformer_closure args_expr env)
                  (fun expanded_code => tail (ev expanded_code env)) w
          | None =>
              match l0_env_lookup env op_sym w with
              | None =>
                  (Null, leave (if world_ok w then
                                  set_error L0_PARSE_ERROR_RUNTIME
                                    (Some (snprintf 100
                                       ("Unbound function/variable in operator position: "
                                        ++ op_sym))) w
                                else w))
              | Some op_value =>
                  if negb (l0_is_primitive op_value) && negb (l0_is_closure op_value) then
                    eval_error
                      (snprintf 150 ("Attempted to apply non-function value (type "
                                     ++ string_of_Z (type_code op_value)
                                     ++ ") obtained from symbol '" ++ op_sym ++ "'.")) w
                  else
                    checked (l0_eval_list args_expr env)
                      (fun evaluated_args w' =>
                         let '(apply_result, w'') :=
                           l0_apply_body op_value evaluated_args env w' in
                         (apply_result, leave w'')) w
              end
          end
    end.

(** An operator that is not a symbol is evaluated first. *)
Definition apply_expression (op_expr args_expr : L0_Value) (env : L0_Env) : M :=
  checked (ev op_expr env)
    (fun evaluated_op =>
       if negb (l0_is_primitive evaluated_op) && negb (l0_is_closure evaluated_op) then
         eval_error
           (snprintf 150 ("Attempted to apply non-function value (type "
                          ++ string_of_Z (type_code evaluated_op)
                          ++ ") obtained from evaluating operator expression."))
       else
         checked (l0_eval_list args_expr env)
           (fun evaluated_args w' =>
              let '(apply_result, w'') := l0_apply_body evaluated_op evaluated_args env w' in
              (apply_result, leave w''))).

Definition l0_eval_body (expr : L0_Value) (env : L0_Env) : M :=
  fun w0 =>
    let w := set_eval_depth (eval_depth w0 + 1) w0 in
    if MAX_EVAL_DEPTH <? eval_depth w then
      eval_error "Stack overflow suspected in l0_eval." w
    else
      match expr with
      | L0_NIL | L0_Boolean _ | L0_Integer _ | L0_Float _ | L0_String _ =>
          leave_with (Val expr) w
      | L0_Symbol name =>
          match l0_env_lookup env name w with
          | None => eval_error (snprintf 100 ("Unbound variable: " ++ name)) w
          | Some value => leave_with (Val value) w
          end
      | L0_Pair op_expr args_expr =>
          match op_expr with
          | L0_Symbol op_sym =>
              match get_special_form_type op_sym with
              | SF_QUOTE => sf_quote args_expr w
              | SF_QUASIQUOTE => sf_quasiquote args_expr env w
              | SF_IF => sf_if args_expr env w
              | SF_LAMBDA => sf_lambda args_expr env w
              | SF_DEFINE => sf_define args_expr env w
              | SF_SET => sf_set args_expr env w
              | SF_LET => sf_let args_expr env w
              | SF_DEFMACRO => sf_defmacro args_expr env w
              | SF_AND => sf_and args_expr env w
              | SF_OR => sf_or args_expr env w
              | SF_BEGIN => sf_begin args_expr env w
              | SF_COND => sf_cond args_expr env w
              | SF_UNQUOTE => sf_unquote op_sym w
              | SF_NONE => sf_none op_sym args_expr env w
              end
          | _ => apply_expression op_expr args_expr env w
          end
      | L0_Primitive _ _ | L0_Closure _ _ _ | L0_Ref _ =>
          eval_error (snprintf 100 ("Cannot evaluate value of type "
                                    ++ string_of_Z (type_code expr) ++ ".")) w
      end.

End Evaluator.

(** The evaluator with a step budget: [interp host (S n)] makes its
    recursive calls at budget [n]. *)
Fixpoint interp (host : L0_PrimitiveFunc -> Interp -> L0_Value -> L0_Env -> M)
         (fuel : nat) : Interp :=
  match fuel with
  | O => mkInterp (fun _ _ w => (OutOfFuel, w)) (fun _ _ _ w => (OutOfFuel, w))
  | S n =>
      let self := interp host n in
      mkInterp (l0_eval_body host self) (l0_apply_body host self)
  end.

Definition l0_eval host (fuel : nat) : L0_Value -> L0_Env -> M :=
  interp_eval (interp host fuel).

Definition l0_apply host (fuel : nat) : L0_Value -> L0_Value -> L0_Env -> M :=
  interp_apply (interp host fuel).

(** [find_macro_transformer(symbol, env, arena)]: [None] is the null
    pointer, returned both when no macro is found and on error. *)
Fixpoint find_in_macro_table (sym_name : string) (current_entry_node : L0_Value) (w : World)
  : option L0_Value * World :=
  match current_entry_node with
  | L0_Pair entry_pair d =>
      match entry_pair with
      | L0_Pair macro_name transformer =>
          let hit := match macro_name with
                     | L0_Symbol n => String.eqb sym_name n
                     | _ => false
                     end in
          if hit then
            if negb (l0_is_closure transformer) then
              (None, set_error L0_PARSE_ERROR_RUNTIME
                 (Some (snprintf 150 ("Internal error: Macro transformer for '" ++ sym_name
                                      ++ "' is not a closure (type "
                                      ++ string_of_Z (type_code transformer) ++ ")."))) w)
            else (Some transformer, w)
          else find_in_macro_table sym_name d w
      | _ =>
          (None, set_error L0_PARSE_ERROR_RUNTIME
             (Some "Runtime error: Malformed entry in '*macro-table*'.") w)
      end
  | L0_NIL => (None, w)
  | _ =>
      (None, set_error L0_PARSE_ERROR_RUNTIME
         (Some "Runtime error: '*macro-table*' is not a proper list.") w)
  end.

Definition find_macro_transformer (symbol : L0_Value) (env : L0_Env) (w : World)
  : option L0_Value * World :=
  match symbol with
  | L0_Symbol sym_name =>
      match l0_env_lookup env "*macro-table*" w with
      | None => (None, w)
      | Some current_macro_table =>
          if negb (l0_is_list current_macro_table) then
            (None, set_error L0_PARSE_ERROR_RUNTIME
               (Some "Runtime error: '*macro-table*' is not a list.") w)
          else find_in_macro_table sym_name current_macro_table w
      end
  | _ => (None, w)
  end.

Definition leave_macroexpand (w : World) : World :=
  set_macroexpand_depth (macroexpand_depth w - 1) w.

Definition is_quote (op : L0_Value) : bool :=
  match op with
  | L0_Symbol s => String.eqb s "quote"
  | _ => false
  end.

(** [l0_macroexpand(expr, env, arena)], with a step budget shared with
    the evaluator it calls for the transformers. *)
Fixpoint l0_macroexpand host (fuel : nat) (expr : L0_Value) (env : L0_Env) : M :=
  match fuel with
  | O => fun w => (OutOfFuel, w)
  | S n =>
      fun w0 =>
        let w := set_macroexpand_depth (macroexpand_depth w0 + 1) w0 in
        if MAX_MACROEXPAND_DEPTH <? macroexpand_depth w then
          (Null, leave_macroexpand
                   (set_error L0_PARSE_ERROR_RUNTIME
                      (Some "Stack overflow suspected in macro expansion.") w))
        else
          match expr with
          | L0_Pair op args =>
              if is_quote op then (Val expr, leave_macroexpand w)
              else
                match find_macro_transformer op env w with
                | (Some transformer, w1) =>
                    bind_or leave_macroexpand (l0_apply host n transformer args env)
                      (fun expanded_code w2 =>
                         l0_macroexpand host n expanded_code env (leave_macroexpand w2)) w1
                | (None, w1) =>
                    if negb (world_ok w1) then (Null, leave_macroexpand w1)
                    else
                      bind_or leave_macroexpand (l0_macroexpand host n op env)
                        (fun expanded_car =>
                           bind_or leave_macroexpand (l0_macroexpand host n args env)
                             (fun expanded_cdr w2 =>
                                (Val (L0_Pair expanded_car expanded_cdr),
                                 leave_macroexpand w2))) w1
                end
          | _ => (Val expr, leave_macroexpand w)
          end
  end.

(** ** The primitives as host functions *)

(** [prim_eval]: [(eval expr)] evaluates in the current environment. *)
Definition prim_eval (self : Interp) (args : L0_Value) (env : L0_Env) : M :=
  fun w =>
    match check_arg_count args 1 "eval" w with
    | (false, w') => (Null, w')
    | (true, w') =>
        match get_arg args 0 "eval" w' with
        | (Val expr_to_eval, w1) => interp_eval self expr_to_eval env w1
        | r => r
        end
    end.

(** [prim_apply]: [(apply func arg-list)]. *)
Definition prim_apply (self : Interp) (args : L0_Value) (env : L0_Env) : M :=
  fun w =>
    match check_arg_count args 2 "apply" w with
    | (false, w') => (Null, w')
    | (true, w') =>
        match get_arg args 0 "apply" w' with
        | (Val func_val, w1) =>
            match get_arg args 1 "apply" w1 with
            | (Val arg_list_val, w2) =>
                if negb (l0_is_closure func_val) && negb (l0_is_primitive func_val) then
                  runtime_error "Primitive 'apply': First argument must be a function (closure or primitive)." w2
                else if negb (l0_is_list arg_list_val) then
                  runtime_error "Primitive 'apply': Second argument must be a list." w2
                else interp_apply self func_val arg_list_val env w2
            | r => r
            end
        | r => r
        end
    end.

(** Addresses of the primitives embedded above, and the table that maps
    an address to its function.  [l0_register_primitives] registers more
    primitives than these thirteen; [l0_host] is the part of the table
    that the sample worlds below use, and an address outside of it
    designates no function of this development.  The evaluator and the
    properties stated of it take the table as a parameter [host]. *)
Module Addr.
Definition cons : L0_PrimitiveFunc := 1%N.
Definition car : L0_PrimitiveFunc := 2%N.
Definition cdr : L0_PrimitiveFunc := 3%N.
Definition list : L0_PrimitiveFunc := 4%N.
Definition add : L0_PrimitiveFunc := 5%N.
Definition subtract : L0_PrimitiveFunc := 6%N.
Definition multiply : L0_PrimitiveFunc := 7%N.
Definition divide : L0_PrimitiveFunc := 8%N.
Definition equal : L0_PrimitiveFunc := 9%N.
Definition less_than : L0_PrimitiveFunc := 10%N.
Definition greater_than : L0_PrimitiveFunc := 11%N.
Definition eval : L0_PrimitiveFunc := 12%N.
Definition apply : L0_PrimitiveFunc := 13%N.
End Addr.

Definition l0_host (f : L0_PrimitiveFunc) (self : Interp) : L0_Value -> L0_Env -> M :=
  match f with
  | 1%N => prim_cons
  | 2%N => prim_car
  | 3%N => prim_cdr
  | 4%N => prim_list
  | 5%N => prim_add
  | 6%N => prim_subtract
  | 7%N => prim_multiply
  | 8%N => prim_divide
  | 9%N => prim_equal
  | 10%N => prim_less_than
  | 11%N => prim_greater_than
  | 12%N => prim_eval self
  | 13%N => prim_apply self
  | _ => fun _ _ => null
  end.

(** [register_single_primitive(env, arena, name, func)] *)
Definition register_single_primitive (env : L0_Env) (name : string) (func : L0_PrimitiveFunc)
           (w : World) : bool * World :=
  l0_env_define env name (L0_Primitive (Some name) (Some func)) w.

(** A global environment as [l0_register_primitives] leaves it, restricted
    to the primitives of the table: an empty macro table and the
    arithmetic, comparison and list primitives. *)
Definition global_world : World :=
  let w := snd (l0_env_create None (initial_world [])) in
  let w := snd (l0_env_define 0%nat "*macro-table*" L0_NIL w) in
  fold_left (fun w '(name, f) => snd (register_single_primitive 0%nat name f w))
            [("cons", Addr.cons); ("car", Addr.car); ("cdr", Addr.cdr); ("list", Addr.list);
             ("+", Addr.add); ("-", Addr.subtract); ("*", Addr.multiply); ("/", Addr.divide);
             ("=", Addr.equal); ("<", Addr.less_than); (">", Addr.greater_than);
             ("eval", Addr.eval); ("apply", Addr.apply)] w.

Definition sym (s : string) : L0_Value := L0_Symbol s.
Definition int (i : Z) : L0_Value := L0_Integer i.

(** ** l0_parser.c *)

(** The input is a C string: reading stops at the first NUL character,
    and the end of the Rocq string reads as NUL. *)
Definition peek (s : string) : ascii :=
  match s with
  | EmptyString => Ascii.zero
  | String c _ => c
  end.

Definition is_nul (c : ascii) : bool := Ascii.eqb c Ascii.zero.

Definition newline : ascii := "010".
Definition tab : ascii := "009".
Definition double_quote : ascii := "034".
Definition backslash : ascii := "092".

Fixpoint drop (n : nat) (s : string) : string :=
  match n, s with
  | O, _ => s
  | S n', String _ r => drop n' r
  | S _, EmptyString => EmptyString
  end.

Fixpoint take (n : nat) (s : string) : string :=
  match n, s with
  | S n', String c r => String c (take n' r)
  | _, _ => EmptyString
  end.

(** <ctype.h> in the C locale. *)
Definition isspace (c : ascii) : bool :=
  let n := N_of_ascii c in
  (n =? 32)%N || ((9 <=? n)%N && (n <=? 13)%N).

Definition isdigit (c : ascii) : bool :=
  let n := N_of_ascii c in (48 <=? n)%N && (n <=? 57)%N.

Definition isalpha (c : ascii) : bool :=
  let n := N_of_ascii c in
  ((65 <=? n)%N && (n <=? 90)%N) || ((97 <=? n)%N && (n <=? 122)%N).

Definition isalnum (c : ascii) : bool := isalpha c || isdigit c.

(** [strchr(set, c) != NULL]; the terminator of [set] matches the NUL
    character. *)
Fixpoint strchr (set : string) (c : ascii) : bool :=
  match set with
  | EmptyString => is_nul c
  | String x r => Ascii.eqb x c || strchr r c
  end.

Definition is_symbol_char (c : ascii) : bool := isalnum c || strchr "_+-*/=!?<>:." c.
Definition is_symbol_start_char (c : ascii) : bool := isalpha c || strchr "_+-*/=!?<>:." c.

(** The terminators accepted after an atom. *)
Definition is_separator (c : ascii) : bool :=
  is_nul c || isspace c || Ascii.eqb c ")" || Ascii.eqb c ";".

(** [unsigned long] arithmetic of the line and column counters. *)
Definition wrap_ulong (z : Z) : Z := z mod 2 ^ 64.

Record ParserState : Type := mkState {
  current_pos : string;
  line : Z;
  col : Z
}.

(** [set_parser_error(state, status, message)] *)
Definition set_parser_error (state : option ParserState) (status : L0_ParseStatus)
           (message : option string) (w : World) : World :=
  match state with
  | Some st => set_error_pos (line st) (col st) (set_error status message w)
  | None => set_error_pos 1 1 (set_error status message w)
  end.

(** [skip_whitespace_and_comments(state)]: the two nested loops, as one
    scan that is either between tokens or inside a comment. *)
Fixpoint skip_from (in_comment : bool) (s : string) (ln cl : Z) : ParserState :=
  match s with
  | EmptyString => mkState s ln cl
  | String c r =>
      if is_nul c then mkState s ln cl
      else if Ascii.eqb c newline then skip_from false r (wrap_ulong (ln + 1)) 1
      else if in_comment then skip_from true r ln (wrap_ulong (cl + 1))
      else if isspace c then skip_from false r ln (wrap_ulong (cl + 1))
      else if Ascii.eqb c ";" then skip_from true r ln (wrap_ulong (cl + 1))
      else mkState s ln cl
  end.

Definition skip_whitespace_and_comments (state : ParserState) : ParserState :=
  skip_from false (current_pos state) (line state) (col state).

(** [state->current_pos += n; state->col += n;] *)
Definition advance_by (n : nat) (state : ParserState) : ParserState :=
  mkState (drop n (current_pos state)) (line state) (wrap_ulong (col state + Z.of_nat n)).

(** [state->current_pos++; state->col++;] *)
Definition advance (state : ParserState) : ParserState := advance_by 1 state.

(** The scan of [parse_string_literal] from the character after the
    opening quote: the decoded content, the input after the closing quote
    and the number of characters before the closing quote; [None] when
    the literal is not terminated. *)
Fixpoint scan_string_literal (s : string) (escaped : bool) : option (string * string * nat) :=
  match s with
  | EmptyString => None
  | String c r =>
      if is_nul c then None
      else if escaped then
        match scan_string_literal r false with
        | Some (content, rest, n) =>
            let decoded :=
              if Ascii.eqb c backslash then String backslash content
              else if Ascii.eqb c double_quote then String double_quote content
              else if Ascii.eqb c "n" then String newline content
              else if Ascii.eqb c "t" then String tab content
              else String backslash (String c content) in
            Some (decoded, rest, S n)
        | None => None
        end
      else if Ascii.eqb c backslash then
        match scan_string_literal r true with
        | Some (content, rest, n) => Some (content, rest, S n)
        | None => None
        end
      else if Ascii.eqb c double_quote then Some (EmptyString, r, O)
      else
        match scan_string_literal r false with
        | Some (content, rest, n) => Some (String c content, rest, S n)
        | None => None
        end
  end.

Definition parse_string_literal (state : ParserState) (w : World)
  : result * ParserState * World :=
  let state := advance state in
  match scan_string_literal (current_pos state) false with
  | None =>
      (Null, state,
       set_parser_error (Some state) L0_PARSE_ERROR_UNEXPECTED_EOF
                        (Some "Unterminated string literal") w)
  | Some (content, rest, n) =>
      (Val (L0_String content),
       mkState rest (line state) (wrap_ulong (col state + Z.of_nat n + 1)), w)
  end.

(** [strtol(start, &end, 10)]: the value, clamped to the range of [long],
    and the number of characters converted (0 when there is no digit). *)
Fixpoint count_spaces (s : string) : nat :=
  match s with
  | String c r => if isspace c then S (count_spaces r) else O
  | EmptyString => O
  end.

Fixpoint strtol_digits (s : string) (acc : Z) (n : nat) : Z * nat :=
  match s with
  | String c r =>
      if isdigit c then strtol_digits r (acc * 10 + (Z.of_N (N_of_ascii c) - 48)) (S n)
      else (acc, n)
  | EmptyString => (acc, n)
  end.

Definition strtol (s : string) : Z * nat :=
  let spaces := count_spaces s in
  let s1 := drop spaces s in
  let '(negative, sign_len) :=
    if Ascii.eqb (peek s1) "-" then (true, 1%nat)
    else if Ascii.eqb (peek s1) "+" then (false, 1%nat)
    else (false, O) in
  let '(magnitude, digits) := strtol_digits (drop sign_len s1) 0 O in
  match digits with
  | O => (0, O)
  | _ =>
      let v := if negative then - magnitude else magnitude in
      (Z.max LONG_MIN (Z.min LONG_MAX v), (spaces + sign_len + digits)%nat)
  end.

Fixpoint has_float_syntax (s : string) (n : nat) : bool :=
  match n, s with
  | S n', String c r =>
      Ascii.eqb c "." || Ascii.eqb c "e" || Ascii.eqb c "E" || has_float_syntax r n'
  | _, _ => false
  end.

Fixpoint symbol_length (s : string) : nat :=
  match s with
  | String c r => if negb (is_nul c) && is_symbol_char c then S (symbol_length r) else O
  | EmptyString => O
  end.

(** The extent of the token quoted in the "Invalid atom" message. *)
Fixpoint invalid_token_length (s : string) : nat :=
  match s with
  | String c r =>
      if negb (is_nul c) && negb (isspace c) && negb (Ascii.eqb c "(")
         && negb (Ascii.eqb c ")")
      then S (invalid_token_length r) else O
  | EmptyString => O
  end.

Definition starts_with (prefix s : string) : bool :=
  String.eqb (take (String.length prefix) s) prefix.

Section Reader.

(** [strtod] of the C library: the value, the number of characters
    converted and whether [errno] stayed 0. *)
Variable strtod : string -> float * nat * bool.

Definition parse_atom (state : ParserState) (w : World) : result * ParserState * World :=
  let start := current_pos state in
  let '(int_val, int_len) := strtol start in
  if (0 <? int_len)%nat && is_separator (peek (drop int_len start)) then
    (Val (L0_Integer int_val), advance_by int_len state, w)
  else
    let '(float_val, float_len, errno_ok) := strtod start in
    if (0 <? float_len)%nat && errno_ok && has_float_syntax start float_len
       && is_separator (peek (drop float_len start)) then
      (Val (L0_Float float_val), advance_by float_len state, w)
    else if starts_with "#t" start && is_separator (peek (drop 2 start)) then
      (Val (L0_Boolean true), advance_by 2 state, w)
    else if negb (starts_with "#t" start) && starts_with "#f" start
            && is_separator (peek (drop 2 start)) then
      (Val (L0_Boolean false), advance_by 2 state, w)
    else
      let len := S (symbol_length (drop 1 start)) in
      if is_symbol_start_char (peek start) && is_separator (peek (drop len start)) then
        (Val (L0_Symbol (take len start)), advance_by len state, w)
      else
        (Null, state,
         set_error L0_PARSE_ERROR_INVALID_SYNTAX
           (Some ("Invalid atom starting with: " ++ take (invalid_token_length start) start))
           (set_parser_error (Some state) L0_PARSE_ERROR_INVALID_SYNTAX None w)).

(** The tail shared by the three reader macros of [parse_sexpr]: wrap
    the expression parsed after the prefix as [(symbol_name expr)], or
    report the end of input when there was none. *)
Definition reader_macro (symbol_name eof_message : string)
           (parsed : result * ParserState * World) : result * ParserState * World :=
  match parsed with
  | (Val quoted_expr, state', w') =>
      (Val (L0_Pair (L0_Symbol symbol_name) (L0_Pair quoted_expr L0_NIL)), state', w')
  | (Null, state', w') =>
      (Null, state',
       if world_ok w' then
         set_parser_error (Some state') L0_PARSE_ERROR_UNEXPECTED_EOF (Some eof_message) w'
       else w')
  | (OutOfFuel, state', w') => (OutOfFuel, state', w')
  end.

(** [parse_sexpr] and the loop of [parse_list] (entered after the
    opening parenthesis is consumed), with a step budget. *)
Fixpoint parse_sexpr (fuel : nat) (state0 : ParserState) (w : World)
  : result * ParserState * World :=
  match fuel with
  | O => (OutOfFuel, state0, w)
  | S n =>
      let state := skip_whitespace_and_comments state0 in
      let next_char := peek (current_pos state) in
      if is_nul next_char then (Null, state, w)
      else if Ascii.eqb next_char "(" then parse_list_loop n [] (advance state) w
      else if Ascii.eqb next_char ")" then
        (Null, state,
         set_parser_error (Some state) L0_PARSE_ERROR_INVALID_SYNTAX
                          (Some "Unexpected closing parenthesis ')'") w)
      else if Ascii.eqb next_char "`" then
        reader_macro "quasiquote" "Unexpected end of input after quasiquote '`'"
                     (parse_sexpr n (advance state) w)
      else if Ascii.eqb next_char "," then
        if Ascii.eqb (peek (current_pos (advance state))) "@" then
          reader_macro "unquote-splicing" "Unexpected end of input after unquote ',' or ',@'"
                       (parse_sexpr n (advance (advance state)) w)
        else
          reader_macro "unquote" "Unexpected end of input after unquote ',' or ',@'"
                       (parse_sexpr n (advance state) w)
      else if Ascii.eqb next_char "'" then
        reader_macro "quote" "Unexpected end of input after quote '''"
                     (parse_sexpr n (advance state) w)
      else if Ascii.eqb next_char double_quote then parse_string_literal state w
      else parse_atom state w
  end
with parse_list_loop (fuel : nat) (elements : list L0_Value) (state0 : ParserState) (w : World)
  : result * ParserState * World :=
  match fuel with
  | O => (OutOfFuel, state0, w)
  | S n =>
      let state := skip_whitespace_and_comments state0 in
      let next_char := peek (current_pos state) in
      if Ascii.eqb next_char ")" then (Val (list_to_value elements), advance state, w)
      else if is_nul next_char then
        (Null, state,
         set_parser_error (Some state) L0_PARSE_ERROR_UNEXPECTED_EOF
                          (Some "Unexpected end of input inside list") w)
      else
        match parse_sexpr n state w with
        | (Val element, state', w') => parse_list_loop n (elements ++ [element]) state' w'
        | (Null, state', w') =>
            (Null, state',
             if world_ok w' then
               set_parser_error (Some state') L0_PARSE_ERROR_UNEXPECTED_EOF
                 (Some "Unexpected end of input inside list (expecting element or ')')") w'
             else w')
        | r => r
        end
  end.

(** Enough steps for an input of the given length: every recursive call
    is made after a character was consumed. *)
Definition parse_fuel (s : string) : nat := (2 * String.length s + 2)%nat.

(** [l0_parse_string(arena, input, &end_ptr)]: the result, the value
    stored through [end_ptr] (if any) and the world. *)
Definition l0_parse_string (input : option string) (w0 : World)
  : result * option string * World :=
  let w := set_error L0_PARSE_OK None w0 in
  match input with
  | None =>
      (Null, None,
       set_parser_error None L0_PARSE_ERROR_INVALID_SYNTAX (Some "Input string is NULL") w)
  | Some input =>
      let state := skip_whitespace_and_comments (mkState input 1 1) in
      if is_nul (peek (current_pos state)) then (Null, Some (current_pos state), w)
      else
        match parse_sexpr (parse_fuel input) state w with
        | (Val v, state', w') =>
            (Val v, Some (current_pos (skip_whitespace_and_comments state')), w')
        | (r, _, w') => (r, None, w')
        end
  end.

(** [l0_parse_stream(arena, stream, filename)]; [stream_is_null] says
    whether the [FILE*] is [NULL]. *)
Definition l0_parse_stream (stream_is_null : bool) (w0 : World) : result * World :=
  let w := set_error L0_PARSE_OK None w0 in
  if stream_is_null then
    (Null, set_parser_error None L0_PARSE_ERROR_INVALID_SYNTAX
             (Some "Input stream is NULL") w)
  else
    (Null, set_parser_error (Some (mkState EmptyString 1 1)) L0_PARSE_ERROR_INVALID_SYNTAX
             (Some "Stream parsing not yet implemented") w).

(** The loop of [l0_parse_string_all]; [rounds] bounds its iterations. *)
Fixpoint parse_all_loop (rounds fuel : nat) (exprs : list L0_Value) (state0 : ParserState)
         (w : World) : result * World :=
  match rounds with
  | O => (OutOfFuel, w)
  | S k =>
      let state := skip_whitespace_and_comments state0 in
      if is_nul (peek (current_pos state)) then (Val (list_to_value exprs), w)
      else
        match parse_sexpr fuel state w with
        | (Val expr, state', w') => parse_all_loop k fuel (exprs ++ [expr]) state' w'
        | (Null, _, w') =>
            if negb (world_ok w') then (Null, w') else (Val (list_to_value exprs), w')
        | (OutOfFuel, _, w') => (OutOfFuel, w')
        end
  end.

(** [l0_parse_string_all(arena, input, filename)] *)
Definition l0_parse_string_all (input : option string) (w0 : World) : result * World :=
  let w := set_error L0_PARSE_OK None w0 in
  match input with
  | None =>
      (Null, set_parser_error None L0_PARSE_ERROR_INVALID_SYNTAX
               (Some "Input string is NULL") w)
  | Some input =>
      parse_all_loop (S (String.length input)) (parse_fuel input) [] (mkState input 1 1) w
  end.

End Reader.

(** A [strtod] that converts nothing, for inputs without floating-point
    literals. *)
Definition strtod_no_conversion (s : string) : float * nat * bool := (0%float, O, true).

(** * Vocabulary of the properties

    The notions the statements below are phrased with, and the sample
    programs and worlds they are tried on. *)

Definition if_0_1_2 : L0_Value :=
  list_to_value [L0_Symbol "if"; L0_Integer 0; L0_Integer 1; L0_Integer 2].

Definition if_false_1 : L0_Value :=
  list_to_value [L0_Symbol "if"; L0_Boolean false; L0_Integer 1].

(** A world whose only environment binds [+] to the addition primitive
    and has no macro table, and one whose macro table is the integer 5. *)
Definition world_without_macro_table : World :=
  initial_world [mkEnv [("+", L0_Primitive (Some "+") (Some Addr.add))] None].

Definition world_with_integer_macro_table : World :=
  initial_world [mkEnv [("+", L0_Primitive (Some "+") (Some Addr.add));
                        ("*macro-table*", L0_Integer 5)] None].

Definition plus_1_2 : L0_Value := L0_Pair (L0_Symbol "+") (list_to_value [L0_Integer 1; L0_Integer 2]).

(** What [l0_env_define] does to a frame. *)
Definition frame_define (name : string) (v : L0_Value) (fr : list (string * L0_Value))
  : list (string * L0_Value) :=
  match Env.frame_update name v fr with
  | Some fr' => fr'
  | None => (name, v) :: fr
  end.

(** The frame after binding the parameters to the arguments pairwise. *)
Fixpoint bind_frame (names : list string) (actuals : list L0_Value)
         (fr : list (string * L0_Value)) : list (string * L0_Value) :=
  match names, actuals with
  | n :: ns, a :: rest => bind_frame ns rest (frame_define n a fr)
  | _, _ => fr
  end.

(** The body expressions evaluated one after the other, each succeeding
    with a clean slot: the values and the final world. *)
Fixpoint eval_each (self : Interp) (es : list L0_Value) (env : L0_Env) (w : World)
  : option (list L0_Value * World) :=
  match es with
  | [] => Some ([], w)
  | e :: rest =>
      match interp_eval self e env w with
      | (Val v, w') =>
          if world_ok w' then
            match eval_each self rest env w' with
            | Some (vs, w'') => Some (v :: vs, w'')
            | None => None
            end
          else None
      | _ => None
      end
  end.

(** [(lambda (x y) 'a y)], captured in the global environment, applied to
    the arguments 1 and 2. *)
Definition sample_closure_names : list string := ["x"; "y"].
Definition sample_closure_body : list L0_Value :=
  [list_to_value [L0_Symbol "quote"; L0_Symbol "a"]; L0_Symbol "y"].

(** The clause list of a [cond] form from (test, body) pairs. *)
Definition cond_clauses (cs : list (L0_Value * L0_Value)) : L0_Value :=
  list_to_value (map (fun c => L0_Pair (fst c) (snd c)) cs).

(** The clauses [pre] are all passed over: none is an [else] clause and
    each test evaluates, with a clean slot, to [#f].  The world after the
    last test. *)
Fixpoint cond_skip (self : Interp) (pre : list (L0_Value * L0_Value)) (env : L0_Env)
         (w : World) : option World :=
  match pre with
  | [] => Some w
  | (test, _) :: rest =>
      if is_else test then None
      else
        match interp_eval self test env w with
        | (Val v, w') =>
            if world_ok w' && negb (l0_is_truthy v) then cond_skip self rest env w'
            else None
        | _ => None
        end
  end.

(** [(cond (#t 1) (else 2) (#f 3))] *)
Definition cond_else_in_the_middle : L0_Value :=
  L0_Pair (L0_Symbol "cond")
    (cond_clauses [(L0_Boolean true, list_to_value [L0_Integer 1]);
                   (L0_Symbol "else", list_to_value [L0_Integer 2]);
                   (L0_Boolean false, list_to_value [L0_Integer 3])]).

(** [`(,@'(1 2) 3)], i.e.
    [(quasiquote ((unquote-splicing (quote (1 2))) 3))]. *)
Definition quasiquote_with_splice : L0_Value :=
  list_to_value
    [L0_Symbol "quasiquote";
     list_to_value
       [list_to_value [L0_Symbol "unquote-splicing";
                       list_to_value [L0_Symbol "quote";
                                      list_to_value [L0_Integer 1; L0_Integer 2]]];
        L0_Integer 3]].

(** [(= 1)] *)
Definition equal_one_argument : L0_Value :=
  list_to_value [L0_Symbol "="; L0_Integer 1].

(** The number an argument stands for in a comparison, if any. *)
Definition as_double (v : L0_Value) : option float :=
  match v with
  | L0_Integer i => Some (long_to_double i)
  | L0_Float f => Some f
  | _ => None
  end.

Definition is_number (v : L0_Value) : bool := l0_is_integer v || l0_is_float v.

Definition equals_double (d : float) (v : L0_Value) : bool :=
  match as_double v with
  | Some d' => (d =? d')%float
  | None => false
  end.

Definition clean_slot (w : World) : World := set_error L0_PARSE_OK None w.

(** The numbers a list of arguments stands for, when all of them are
    numbers. *)
Fixpoint as_doubles (args : list L0_Value) : option (list float) :=
  match args with
  | [] => Some []
  | v :: rest =>
      match as_double v, as_doubles rest with
      | Some d, Some ds => Some (d :: ds)
      | _, _ => None
      end
  end.

(** What the three comparison primitives compute on the numbers
    [d :: ds]: [=] compares every later number with the first, [<] and
    [>] every number with the one before it. *)
Definition all_equal (first_d : float) (ds : list float) : bool :=
  forallb (fun next_d => (first_d =? next_d)%float) ds.

Fixpoint increasing (prev_d : float) (ds : list float) : bool :=
  match ds with
  | [] => true
  | current_d :: rest => (prev_d <? current_d)%float && increasing current_d rest
  end.

Fixpoint decreasing (prev_d : float) (ds : list float) : bool :=
  match ds with
  | [] => true
  | current_d :: rest => (current_d <? prev_d)%float && decreasing current_d rest
  end.

(** The result is an Integer when every argument is one, a Float otherwise. *)
Definition kind_matches (args : list L0_Value) (v : L0_Value) : Prop :=
  l0_is_integer v = forallb l0_is_integer args /\
  l0_is_float v = negb (forallb l0_is_integer args).

Definition is_zero (v : L0_Value) : bool :=
  match as_double v with
  | Some d => (d =? 0)%float
  | None => false
  end.

(** [(/ x)] divides by [x]; [(/ x y ...)] divides by [y ...]. *)
Definition divides_by_zero (first : L0_Value) (rest : list L0_Value) : bool :=
  match rest with
  | [] => is_zero first
  | _ => existsb is_zero rest
  end.

(** Null sentinel, runtime status and a message in the slot. *)
Definition fails_at (w : World) (r : result * World) : Prop :=
  exists msg, r = (Null, set_error L0_PARSE_ERROR_RUNTIME (Some msg) w).

(** No macro call is left in [e] where [l0_macroexpand] looks: no pair
    that the walk reaches (it does not enter [quote] forms, and it visits
    the car and the cdr of every other pair) has an operator for which
    [find_macro_transformer] finds a transformer or raises an error. *)
Fixpoint macro_free (env : L0_Env) (w : World) (e : L0_Value) : bool :=
  match e with
  | L0_Pair op args =>
      is_quote op ||
      (match find_macro_transformer op env w with
       | (None, w') => world_ok w'
       | (Some _, _) => false
       end && macro_free env w op && macro_free env w args)
  | _ => true
  end.

(** The nesting of calls the walk makes on [e]. *)
Fixpoint walk_depth (e : L0_Value) : nat :=
  match e with
  | L0_Pair op args =>
      if is_quote op then 1%nat else S (Nat.max (walk_depth op) (walk_depth args))
  | _ => 1%nat
  end.

(** Two macros without parameters: [(defmacro m () 'm)], whose expansion
    is its own name, and [(defmacro k () '(f 1))]. *)
Definition defmacro_m : L0_Value :=
  list_to_value [L0_Symbol "defmacro"; L0_Symbol "m"; L0_NIL;
                 list_to_value [L0_Symbol "quote"; L0_Symbol "m"]].

Definition defmacro_k : L0_Value :=
  list_to_value [L0_Symbol "defmacro"; L0_Symbol "k"; L0_NIL;
                 list_to_value [L0_Symbol "quote";
                                list_to_value [L0_Symbol "f"; L0_Integer 1]]].

Definition transformer_m : L0_Value :=
  L0_Closure L0_NIL (list_to_value [list_to_value [L0_Symbol "quote"; L0_Symbol "m"]]) 0%nat.

Definition transformer_k : L0_Value :=
  L0_Closure L0_NIL
    (list_to_value [list_to_value [L0_Symbol "quote";
                                   list_to_value [L0_Symbol "f"; L0_Integer 1]]]) 0%nat.

Definition macro_world : World :=
  initial_world
    [mkEnv [("*macro-table*",
             list_to_value [L0_Pair (L0_Symbol "k") transformer_k;
                            L0_Pair (L0_Symbol "m") transformer_m])] None].

(** [(k)] expands to [(f 1)], which expands to itself. *)
Definition call_k : L0_Value := list_to_value [L0_Symbol "k"].
Definition form_f_1 : L0_Value := list_to_value [L0_Symbol "f"; L0_Integer 1].

(** [((m))]: a list whose only element is the macro call [(m)]. *)
Definition nested_call_m : L0_Value := list_to_value [list_to_value [L0_Symbol "m"]].

(** The value bound to [*macro-table*], as [find_macro_transformer]
    looks it up from [env]. *)
Definition macro_table (env : L0_Env) (w : World) : option L0_Value :=
  l0_env_lookup env "*macro-table*" w.

(** [op] is no macro: [find_macro_transformer] finds no transformer for
    it and raises no error. *)
Definition not_macro (env : L0_Env) (w : World) (op : L0_Value) : bool :=
  match find_macro_transformer op env w with
  | (None, w') => world_ok w'
  | (Some _, _) => false
  end.

(** The transformers of the macro table of [w] do not redefine macros:
    applied in a world with that macro table, a transformer that returns
    a value leaves the macro table and the expansion counter as they
    were. *)
Definition transformers_keep_table
           (host : L0_PrimitiveFunc -> Interp -> L0_Value -> L0_Env -> M)
           (env : L0_Env) (w : World) : Prop :=
  forall fuel op transformer args w1 expanded_code w2,
    macro_table env w1 = macro_table env w ->
    find_macro_transformer op env w1 = (Some transformer, w1) ->
    l0_apply host fuel transformer args env w1 = (Val expanded_code, w2) ->
    macro_table env w2 = macro_table env w /\
    macroexpand_depth w2 = macroexpand_depth w1.

(** With the macro table of [w], no expansion of a pair ends in a symbol
    that names a macro. *)
Definition no_macro_name_from_expansion
           (host : L0_PrimitiveFunc -> Interp -> L0_Value -> L0_Env -> M)
           (env : L0_Env) (w : World) : Prop :=
  forall fuel op args w1 s w2,
    macro_table env w1 = macro_table env w ->
    world_ok w1 = true ->
    l0_macroexpand host fuel (L0_Pair op args) env w1 = (Val (L0_Symbol s), w2) ->
    not_macro env w2 (L0_Symbol s) = true.

(** The world in which [k] is the only macro:
    [(defmacro k () '(f 1))]. *)
Definition macro_world_k : World :=
  initial_world
    [mkEnv [("*macro-table*", list_to_value [L0_Pair (L0_Symbol "k") transformer_k])] None].

(** [(g (quote (k)))]: a macro call inside a quotation. *)
Definition quoted_call_k : L0_Value :=
  list_to_value [L0_Symbol "g"; list_to_value [L0_Symbol "quote"; call_k]].

(** The slot is clean: no error and no message. *)
Definition slot_clean (w : World) : Prop :=
  l0_parser_error_status w = L0_PARSE_OK /\ l0_parser_error_message w = None.

(** The slot reports an error: a status other than OK, a non-empty
    message, and a position with line and column at least 1. *)
Definition slot_reports_error (w : World) : Prop :=
  l0_parser_error_status w <> L0_PARSE_OK /\
  (exists m, l0_parser_error_message w = Some m /\ m <> EmptyString) /\
  1 <= l0_parser_error_line w /\
  1 <= l0_parser_error_col w.

(** The input holds no expression: only white space and comments. *)
Definition no_expression (input : string) : bool :=
  is_nul (peek (current_pos (skip_whitespace_and_comments (mkState input 1 1)))).

(** Line and column stay between 1 and one more than the number of
    characters consumed. *)
Definition position_ok (input_length : Z) (st : ParserState) : Prop :=
  1 <= line st /\ 1 <= col st /\
  line st + Z.of_nat (String.length (current_pos st)) <= input_length + 1 /\
  col st + Z.of_nat (String.length (current_pos st)) <= input_length + 1.

(** A successful step consumed input and left the world alone. *)
Definition consumed_ok (input_length : Z) (st st' : ParserState) (w w' : World) : Prop :=
  w' = w /\ position_ok input_length st' /\
  (String.length (current_pos st') < String.length (current_pos st))%nat.

(** What a token parser may produce: a value after consuming input, or
    the sentinel with an error report. *)
Definition token_post (input_length : Z) (st : ParserState) (w : World)
           (out : result * ParserState * World) : Prop :=
  match out with
  | (Val _, st', w') => consumed_ok input_length st st' w w'
  | (Null, _, w') => slot_reports_error w'
  | (OutOfFuel, _, _) => False
  end.

(** [parse_sexpr] may also return the sentinel without a report, at the
    end of the input. *)
Definition sexpr_post (input_length : Z) (st : ParserState) (w : World)
           (out : result * ParserState * World) : Prop :=
  match out with
  | (Val _, st', w') => consumed_ok input_length st st' w w'
  | (Null, st', w') =>
      slot_reports_error w' \/
      (w' = w /\ position_ok input_length st' /\
       is_nul (peek (current_pos (skip_whitespace_and_comments st))) = true)
  | (OutOfFuel, _, _) => False
  end.

(** * Further functions of the runtime

    Primitives of [l0_primitives.c] that the evaluator does not take
    from the host table above, and the allocator of [l0_arena.c]. *)

(** ** l0_primitives.c: list primitives *)

(** The elements of a chain of pairs, up to its final cdr. *)
Fixpoint value_to_list (v : L0_Value) : list L0_Value :=
  match v with
  | L0_Pair a d => a :: value_to_list d
  | _ => []
  end.

(** The chain of pairs with the given elements and final cdr: what
    [tail->data.pair.cdr = rest] makes of a list whose last pair is
    [tail]. *)
Fixpoint link (elements : list L0_Value) (rest : L0_Value) : L0_Value :=
  match elements with
  | [] => rest
  | x :: r => L0_Pair x (link r rest)
  end.

(** The loop of [l0_copy_list]: a new pair for every pair of the
    original, with the same car; the last new pair receives the final cdr
    of the original (nil for a proper list). *)
Fixpoint copy_loop (current : L0_Value) : L0_Value :=
  match current with
  | L0_Pair elem d => L0_Pair elem (copy_loop d)
  | _ => current
  end.

(** [l0_copy_list(arena, list)]: [None] is the null pointer. *)
Definition l0_copy_list (list : L0_Value) : option L0_Value :=
  match list with
  | L0_NIL => Some L0_NIL
  | L0_Pair _ _ => Some (copy_loop list)
  | _ => None
  end.

(** The final cdr of a chain of pairs: the cdr of [result_tail] after
    the inner loop of [prim_append]. *)
Fixpoint last_cdr (v : L0_Value) : L0_Value :=
  match v with
  | L0_Pair _ d => last_cdr d
  | _ => v
  end.

(** The loop of [prim_append].  The list under construction is kept as
    its elements: [result_head] is [NULL] when there is none, and
    otherwise the proper list of them, [result_tail] being its last
    pair. *)
Fixpoint append_loop (current_arg_node : L0_Value) (result : list L0_Value) : M :=
  match current_arg_node with
  | L0_Pair current_list next_arg_node =>
      if negb (l0_is_list current_list) then
        runtime_error "Primitive 'append': All arguments must be lists."
      else if l0_is_nil current_list then append_loop next_arg_node result
      else if l0_is_nil next_arg_node then ret (link result current_list)
      else
        match l0_copy_list current_list with
        | None =>
            fun w =>
              (Null,
               if world_ok w then
                 set_error L0_PARSE_ERROR_MEMORY
                   (Some "Primitive 'append': Failed to copy list argument (allocation failed?).") w
               else w)
        | Some copied_list_head =>
            if l0_is_nil copied_list_head then append_loop next_arg_node result
            else if negb (l0_is_nil (last_cdr copied_list_head)) then
              runtime_error "Primitive 'append': Cannot append improper list before the last argument."
            else append_loop next_arg_node (result ++ value_to_list copied_list_head)
        end
  | L0_NIL => ret (list_to_value result)
  | _ => runtime_error "Primitive 'append': Argument list is not a proper list."
  end.

Definition prim_append (args : L0_Value) (env : L0_Env) : M :=
  if l0_is_nil args then ret L0_NIL else append_loop args [].

(** ** l0_primitives.c: string primitives *)

(** The pointer [get_arg] returns, [None] for [NULL]. *)
Definition get_arg_ptr (args : L0_Value) (n : nat) (prim_name : string) (w : World)
  : option L0_Value * World :=
  match get_arg args n prim_name w with
  | (Val v, w') => (Some v, w')
  | (_, w') => (None, w')
  end.

(** A [char*] read as a C string: the characters before the first NUL. *)
Fixpoint c_str (s : string) : string :=
  match s with
  | EmptyString => EmptyString
  | String c r => if is_nul c then EmptyString else String c (c_str r)
  end.

Definition strlen (s : string) : Z := Z.of_nat (String.length (c_str s)).

(** [l0_make_string] and [l0_make_symbol] copy their argument with
    [l0_arena_strdup]. *)
Definition l0_make_string (value : string) : L0_Value := L0_String (c_str value).
Definition l0_make_symbol (name : string) : L0_Value := L0_Symbol (c_str name).

(** [prim_string_append]: the type and list checks of the first pass and
    the [strcat] calls of the second, as one loop over the arguments. *)
Fixpoint string_append_loop (current : L0_Value) (buffer : string) : M :=
  match current with
  | L0_Pair (L0_String s) d => string_append_loop d (buffer ++ c_str s)
  | L0_Pair _ _ =>
      runtime_error "Primitive 'string-append': All arguments must be strings."
  | L0_NIL => ret (l0_make_string buffer)
  | _ => runtime_error "Primitive 'string-append': Argument list is not a proper list."
  end.

Definition prim_string_append (args : L0_Value) (env : L0_Env) : M :=
  string_append_loop args EmptyString.

Definition prim_string_to_symbol (args : L0_Value) (env : L0_Env) : M :=
  fun w =>
    match check_arg_count args 1 "string->symbol" w with
    | (false, w') => (Null, w')
    | (true, w') =>
        match get_arg_ptr args 0 "string->symbol" w' with
        | (Some (L0_String s), w1) => (Val (l0_make_symbol s), w1)
        | (_, w1) =>
            runtime_error "Primitive 'string->symbol': Argument must be a string." w1
        end
    end.

Definition prim_symbol_to_string (args : L0_Value) (env : L0_Env) : M :=
  fun w =>
    match check_arg_count args 1 "symbol->string" w with
    | (false, w') => (Null, w')
    | (true, w') =>
        match get_arg_ptr args 0 "symbol->string" w' with
        | (Some (L0_Symbol s), w1) => (Val (l0_make_string s), w1)
        | (_, w1) =>
            runtime_error "Primitive 'symbol->string': Argument must be a symbol." w1
        end
    end.

Definition primitive_string_length (args : L0_Value) (env : L0_Env) : M :=
  fun w =>
    match check_arg_count args 1 "string-length" w with
    | (false, w') => (Null, w')
    | (true, w') =>
        match get_arg_ptr args 0 "string-length" w' with
        | (Some (L0_String str), w1) =>
            let len := strlen str in
            if LONG_MAX <? len then
              runtime_error
                "Primitive 'string-length': String length exceeds maximum integer value." w1
            else (Val (L0_Integer len), w1)
        | (_, w1) =>
            runtime_error "Primitive 'string-length': Argument must be a string." w1
        end
    end.

(** [(long)(unsigned char)str[k]] *)
Definition char_at (str : string) (k : Z) : Z :=
  Z.of_N (N_of_ascii (peek (drop (Z.to_nat k) (c_str str)))).

Definition primitive_string_ref (args : L0_Value) (env : L0_Env) : M :=
  fun w =>
    match check_arg_count args 2 "string-ref" w with
    | (false, w') => (Null, w')
    | (true, w') =>
        let '(str_val, w1) := get_arg_ptr args 0 "string-ref" w' in
        let '(idx_val, w2) := get_arg_ptr args 1 "string-ref" w1 in
        match str_val with
        | Some (L0_String str) =>
            match idx_val with
            | Some (L0_Integer k) =>
                let len := strlen str in
                if (k <? 0) || (len <=? k) then
                  runtime_error
                    (snprintf 100 ("Primitive 'string-ref': Index " ++ string_of_Z k
                                   ++ " out of bounds for string of length "
                                   ++ string_of_Z len ++ ".")) w2
                else (Val (L0_Integer (char_at str k)), w2)
            | _ =>
                runtime_error
                  "Primitive 'string-ref': Second argument must be an integer index." w2
            end
        | _ => runtime_error "Primitive 'string-ref': First argument must be a string." w2
        end
    end.

Definition primitive_substring (args : L0_Value) (env : L0_Env) : M :=
  fun w =>
    let '(arg_count, current) := count_args args 0 in
    if negb (l0_is_nil current) || (negb (arg_count =? 2) && negb (arg_count =? 3)) then
      runtime_error "Primitive 'substring': Expected 2 or 3 arguments (string start [end])." w
    else
      let '(str_val, w1) := get_arg_ptr args 0 "substring" w in
      let '(start_val, w2) := get_arg_ptr args 1 "substring" w1 in
      let '(end_val, w3) :=
        if arg_count =? 3 then get_arg_ptr args 2 "substring" w2 else (None, w2) in
      match str_val with
      | Some (L0_String str) =>
          match start_val with
          | Some (L0_Integer start_idx) =>
              if match end_val with
                 | Some e => negb (l0_is_integer e)
                 | None => false
                 end
              then
                runtime_error
                  "Primitive 'substring': Third argument (end) must be an integer if provided."
                  w3
              else
                let len := strlen str in
                let end_idx := match end_val with
                               | Some (L0_Integer e) => e
                               | _ => wrap_long len
                               end in
                if (start_idx <? 0) || (len <? start_idx) || (end_idx <? start_idx)
                   || (len <? end_idx) then
                  runtime_error
                    (snprintf 150 ("Primitive 'substring': Index out of bounds (start="
                                   ++ string_of_Z start_idx ++ ", end=" ++ string_of_Z end_idx
                                   ++ ", len=" ++ string_of_Z len ++ ").")) w3
                else
                  let sub_len := Z.to_nat (end_idx - start_idx) in
                  (Val (l0_make_string (take sub_len (drop (Z.to_nat start_idx) (c_str str)))),
                   w3)
          | _ =>
              runtime_error
                "Primitive 'substring': Second argument (start) must be an integer." w3
          end
      | _ => runtime_error "Primitive 'substring': First argument must be a string." w3
      end.

(** ** l0_primitives.c: macro-table primitives *)

(** The scan of [prim_is_macro_q]. *)
Fixpoint is_macro_loop (sym : string) (current_entry_node : L0_Value) : bool :=
  match current_entry_node with
  | L0_Pair (L0_Pair (L0_Symbol macro_name) _) d =>
      if String.eqb macro_name sym then true else is_macro_loop sym d
  | L0_Pair _ d => is_macro_loop sym d
  | _ => false
  end.

Definition prim_is_macro_q (args : L0_Value) (env : L0_Env) : M :=
  fun w =>
    match check_arg_count args 2 "is-macro?" w with
    | (false, w') => (Null, w')
    | (true, w') =>
        let '(sym_val, w1) := get_arg_ptr args 0 "is-macro?" w' in
        let '(macro_table, w2) := get_arg_ptr args 1 "is-macro?" w1 in
        match sym_val with
        | Some (L0_Symbol sym) =>
            match macro_table with
            | Some table =>
                if negb (l0_is_list table) then
                  runtime_error
                    "Primitive 'is-macro?': Second argument (table) must be a list." w2
                else (Val (L0_Boolean (is_macro_loop sym table)), w2)
            | None =>
                runtime_error
                  "Primitive 'is-macro?': Second argument (table) must be a list." w2
            end
        | _ => (Val (L0_Boolean false), w2)
        end
    end.

(** The scan of [prim_get_macro_transformer]: the transformer of the
    first entry with the name, or [#f] when that transformer is not a
    closure or no entry has the name. *)
Fixpoint get_macro_transformer_loop (sym : string) (current_entry_node : L0_Value) : L0_Value :=
  match current_entry_node with
  | L0_Pair (L0_Pair (L0_Symbol macro_name) transformer) d =>
      if String.eqb macro_name sym then
        if negb (l0_is_closure transformer) then L0_Boolean false else transformer
      else get_macro_transformer_loop sym d
  | L0_Pair _ d => get_macro_transformer_loop sym d
  | _ => L0_Boolean false
  end.

Definition prim_get_macro_transformer (args : L0_Value) (env : L0_Env) : M :=
  fun w =>
    match check_arg_count args 2 "get-macro-transformer" w with
    | (false, w') => (Null, w')
    | (true, w') =>
        let '(sym_val, w1) := get_arg_ptr args 0 "get-macro-transformer" w' in
        let '(macro_table, w2) := get_arg_ptr args 1 "get-macro-transformer" w1 in
        match sym_val with
        | Some (L0_Symbol sym) =>
            match macro_table with
            | Some table =>
                if negb (l0_is_list table) then
                  runtime_error
                    "Primitive 'get-macro-transformer': Second argument (table) must be a list."
                    w2
                else (Val (get_macro_transformer_loop sym table), w2)
            | None =>
                runtime_error
                  "Primitive 'get-macro-transformer': Second argument (table) must be a list."
                  w2
            end
        | _ =>
            runtime_error
              "Primitive 'get-macro-transformer': First argument must be a symbol." w2
        end
    end.

(** A macro table built from (name, transformer) entries, newest first. *)
Definition macro_table_of (entries : list (string * L0_Value)) : L0_Value :=
  list_to_value (map (fun e => L0_Pair (L0_Symbol (fst e)) (snd e)) entries).

(** The decimal value of a list of strings' C lengths. *)
Definition total_strlen (strs : list string) : Z := fold_right Z.add 0 (map strlen strs).

(** ** l0_arena.c *)

Module Arena.

(** [size_t] and [uintptr_t] are 64-bit unsigned integers. *)
Definition wrap_size (z : Z) : Z := z mod 2 ^ 64.

Definition L0_ARENA_DEFAULT_BLOCK_SIZE : Z := 4 * 1024 * 1024.

(** [sizeof(ArenaBlock)] and [alignof(max_align_t)] on x86-64. *)
Definition sizeof_ArenaBlock : Z := 32.
Definition alignof_max_align_t : Z := 16.

(** [align_up(ptr, alignment)]: [(ptr + alignment - 1) & ~(alignment - 1)] *)
Definition align_up (ptr alignment : Z) : Z :=
  Z.land (wrap_size (ptr + alignment - 1)) (wrap_size (Z.lnot (wrap_size (alignment - 1)))).

(** [struct ArenaBlock] without its [next] field: the chain is the list
    of blocks of the arena. *)
Record ArenaBlock : Type := mkBlock {
  size : Z;
  used : Z;
  data_start : Z
}.

(** [struct L0_Arena]: [first_block] is the head of the chain and
    [current_block] the position of the current block in it ([None] for
    a null pointer). *)
Record L0_Arena : Type := mkArena {
  current_block : option nat;
  chain : list ArenaBlock
}.

(** The number of bytes [allocate_block(min_data_size)] asks of
    [malloc]. *)
Definition total_allocation_size (min_data_size : Z) : Z :=
  let base_data_size :=
    if L0_ARENA_DEFAULT_BLOCK_SIZE <? min_data_size then min_data_size
    else L0_ARENA_DEFAULT_BLOCK_SIZE in
  let header_estimate := wrap_size (sizeof_ArenaBlock + alignof_max_align_t - 1) in
  wrap_size (header_estimate + base_data_size).

(** [allocate_block(min_data_size)]; [raw_memory] is what [malloc]
    returned, [None] for [NULL].  The two [assert]s of the function are
    not part of the model. *)
Definition allocate_block (min_data_size : Z) (raw_memory : option Z) : option ArenaBlock :=
  match raw_memory with
  | None => None
  | Some raw =>
      let data_start := align_up (wrap_size (raw + sizeof_ArenaBlock)) alignof_max_align_t in
      Some (mkBlock (wrap_size (wrap_size (raw + total_allocation_size min_data_size)
                                - data_start))
                    0 data_start)
  end.

(** The alignment [l0_arena_alloc] works with: the one asked for when
    it is a power of two, [alignof(max_align_t)] otherwise. *)
Definition effective_alignment (alignment : Z) : Z :=
  if (alignment =? 0) || negb (Z.land alignment (wrap_size (alignment - 1)) =? 0)
  then alignof_max_align_t else alignment.

(** [block->used = u] for the block at position [i]. *)
Fixpoint set_used (i : nat) (u : Z) (blocks : list ArenaBlock) : list ArenaBlock :=
  match blocks, i with
  | [], _ => []
  | b :: rest, O => mkBlock (size b) u (data_start b) :: rest
  | b :: rest, S i' => b :: set_used i' u rest
  end.

(** [l0_arena_alloc(arena, size, alignment)]: the pointer returned
    ([None] for [NULL]) and the arena afterwards.  [raw_memory] is the
    result of the [malloc] call made when a new block is needed. *)
Definition l0_arena_alloc (arena : L0_Arena) (size_ alignment : Z) (raw_memory : option Z)
  : option Z * L0_Arena :=
  match current_block arena with
  | None => (None, arena)
  | Some cur =>
      match nth_error (chain arena) cur with
      | None => (None, arena)
      | Some block =>
          let alignment := effective_alignment alignment in
          let current_ptr := wrap_size (data_start block + used block) in
          let aligned_ptr := align_up current_ptr alignment in
          let padding := wrap_size (aligned_ptr - current_ptr) in
          if (size_ =? 0) && (wrap_size (used block + padding) <=? size block) then
            (Some aligned_ptr, arena)
          else
            let total_needed := wrap_size (padding + size_) in
            if wrap_size (used block + total_needed) <=? size block then
              (Some aligned_ptr,
               mkArena (Some cur)
                       (set_used cur (wrap_size (used block + total_needed)) (chain arena)))
            else
              let new_block_min_data_size :=
                if L0_ARENA_DEFAULT_BLOCK_SIZE <? size_ then size_
                else L0_ARENA_DEFAULT_BLOCK_SIZE in
              match allocate_block new_block_min_data_size raw_memory with
              | None => (None, arena)
              | Some new_block =>
                  let current_ptr := data_start new_block in
                  let aligned_ptr := align_up current_ptr alignment in
                  let padding := wrap_size (aligned_ptr - current_ptr) in
                  if size_ =? 0 then
                    if wrap_size (used new_block + padding) <=? size new_block then
                      (Some aligned_ptr, mkArena (Some O) (new_block :: chain arena))
                    else (None, mkArena (Some O) (new_block :: chain arena))
                  else
                    let total_needed := wrap_size (padding + size_) in
                    if size new_block <? total_needed then
                      (None, mkArena (Some O) (new_block :: chain arena))
                    else
                      (Some aligned_ptr,
                       mkArena (Some O)
                               (mkBlock (size new_block) total_needed (data_start new_block)
                                        :: chain arena))
              end
      end
  end.

(** [l0_arena_reset(arena)] *)
Definition l0_arena_reset (arena : L0_Arena) : L0_Arena :=
  mkArena (match chain arena with [] => None | _ => Some O end)
          (map (fun b => mkBlock (size b) 0 (data_start b)) (chain arena)).

(** [arena->current_block], dereferenced. *)
Definition current (arena : L0_Arena) : option ArenaBlock :=
  match current_block arena with
  | Some cur => nth_error (chain arena) cur
  | None => None
  end.

(** The data area of a block lies below [2 ^ 62] and [used] does not
    exceed [size]. *)
Definition block_ok (b : ArenaBlock) : Prop :=
  0 <= data_start b /\ 0 <= used b <= size b /\ data_start b + size b <= 2 ^ 62.

Definition arena_ok (arena : L0_Arena) : Prop := Forall block_ok (chain arena).

(** [malloc(n)] failed, or returned [n] bytes below [2 ^ 62]. *)
Definition malloc_ok (n : Z) (raw_memory : option Z) : Prop :=
  match raw_memory with
  | None => True
  | Some raw => 0 < raw /\ raw + n <= 2 ^ 62
  end.

Definition is_power_of_two (a : Z) : Prop := exists k, 0 <= k < 64 /\ a = 2 ^ k.

(** An arena of one default-sized block whose data area starts at
    address 4096, with [n] bytes in use. *)
Definition one_block (n : Z) : L0_Arena :=
  mkArena (Some O) [mkBlock L0_ARENA_DEFAULT_BLOCK_SIZE n 4096].

End Arena.

(** ** Vocabulary of the further properties *)

(** Every [outer] link designates a structure created earlier: the chain
    walked by [l0_env_lookup] and [l0_env_set] is finite. *)
Definition env_chain_ok (es : list L0_EnvStruct) : Prop :=
  forall i s o, nth_error es i = Some s -> outer s = Some o -> (o < i)%nat.

(** The shape of the environments: the names bound in each frame, in
    order, and the outer links. *)
Definition env_shape (es : list L0_EnvStruct) : list (list string * option L0_Env) :=
  map (fun s => (map fst (frame s), outer s)) es.

(** No pair of the template has [unquote] or [unquote-splicing] as its
    car. *)
Fixpoint unquote_free (template : L0_Value) : bool :=
  match template with
  | L0_Pair op rest =>
      negb (match op with
            | L0_Symbol s => String.eqb s "unquote" || String.eqb s "unquote-splicing"
            | _ => false
            end)
      && unquote_free op && unquote_free rest
  | _ => true
  end.

(** The expressions [es] are evaluated one after the other, each with a
    clean slot and to a value that satisfies [p]; the world after the
    last one. *)
Fixpoint eval_all_satisfy (p : L0_Value -> bool) (self : Interp) (es : list L0_Value)
         (env : L0_Env) (w : World) : option World :=
  match es with
  | [] => Some w
  | e :: rest =>
      match interp_eval self e env w with
      | (Val v, w') =>
          if world_ok w' && p v then eval_all_satisfy p self rest env w' else None
      | _ => None
      end
  end.

Definition is_false (v : L0_Value) : bool := negb (l0_is_truthy v).

(** No environment is removed or given another outer environment, and
    no name bound in a frame becomes unbound. *)
Definition envs_preserved (es es' : list L0_EnvStruct) : Prop :=
  forall i s,
    nth_error es i = Some s ->
    exists s',
      nth_error es' i = Some s' /\ outer s' = outer s /\
      forall name, Env.frame_lookup name (frame s) <> None ->
                   Env.frame_lookup name (frame s') <> None.

(** The three recursion counters moved by [k], [j] and [m], and the
    environments are preserved. *)
Definition shifted (k j m : Z) (w w' : World) : Prop :=
  eval_depth w' = eval_depth w + k /\
  eval_list_depth w' = eval_list_depth w + j /\
  macroexpand_depth w' = macroexpand_depth w + m /\
  envs_preserved (envs w) (envs w').

(** A call that returns (with a value or with the sentinel) leaves the
    world [shifted]. *)
Definition returns_shifted (k j m : Z) (c : M) : Prop :=
  forall w, fst (c w) <> OutOfFuel -> shifted k j m w (snd (c w)).

Definition interp_balanced (self : Interp) : Prop :=
  (forall expr env, returns_shifted 0 0 0 (interp_eval self expr env)) /\
  (forall func args env, returns_shifted 0 0 0 (interp_apply self func args env)).

Definition host_balanced (host : L0_PrimitiveFunc -> Interp -> L0_Value -> L0_Env -> M) : Prop :=
  forall f self args env,
    interp_balanced self -> returns_shifted 0 0 0 (host f self args env).

(** A datum: an atom the reader can produce, or a proper list of data. *)
Fixpoint is_datum (v : L0_Value) : bool :=
  match v with
  | L0_NIL | L0_Boolean _ | L0_Integer _ | L0_Float _ | L0_Symbol _ | L0_String _ => true
  | L0_Pair a d => is_datum a && is_datum d && l0_is_list d
  | L0_Primitive _ _ | L0_Closure _ _ _ | L0_Ref _ => false
  end.

Definition datum_result (r : result) : Prop :=
  match r with
  | Val v => is_datum v = true
  | _ => True
  end.

(** The line and column after reading the text [s] from line [ln],
    column [cl]: a newline starts a new line at column 1, any other
    character advances the column. *)
Fixpoint position_after (s : string) (ln cl : Z) : Z * Z :=
  match s with
  | EmptyString => (ln, cl)
  | String c r =>
      if Ascii.eqb c newline then position_after r (ln + 1) 1
      else position_after r ln (cl + 1)
  end.

(** Horner evaluation of a decimal numeral. *)
Fixpoint uint_value (u : Decimal.uint) (acc : Z) : Z :=
  match u with
  | Decimal.Nil => acc
  | Decimal.D0 r => uint_value r (acc * 10 + 0)
  | Decimal.D1 r => uint_value r (acc * 10 + 1)
  | Decimal.D2 r => uint_value r (acc * 10 + 2)
  | Decimal.D3 r => uint_value r (acc * 10 + 3)
  | Decimal.D4 r => uint_value r (acc * 10 + 4)
  | Decimal.D5 r => uint_value r (acc * 10 + 5)
  | Decimal.D6 r => uint_value r (acc * 10 + 6)
  | Decimal.D7 r => uint_value r (acc * 10 + 7)
  | Decimal.D8 r => uint_value r (acc * 10 + 8)
  | Decimal.D9 r => uint_value r (acc * 10 + 9)
  end.

(** The first character of a numeral. *)
Definition is_numeral_start (c : ascii) : bool := Ascii.eqb c "-" || isdigit c.

(** Two outcomes of the reader that differ at most in the line and
    column they carry: the same result, the same remaining input, and
    the same answer to whether the slot is clean. *)
Definition same_reading (r1 r2 : result * ParserState * World) : Prop :=
  fst (fst r1) = fst (fst r2) /\
  current_pos (snd (fst r1)) = current_pos (snd (fst r2)) /\
  world_ok (snd r1) = world_ok (snd r2).

(** Reading expression after expression with [l0_parse_string], each
    call on the text the previous one left through [end_ptr], until a
    call returns [NULL]: the list of the values when the slot is then
    clean, the sentinel when it reports an error. *)
Fixpoint read_each (strtod : string -> float * nat * bool) (rounds : nat) (input : string)
         (w : World) : result :=
  match rounds with
  | O => OutOfFuel
  | S k =>
      match l0_parse_string strtod (Some input) w with
      | (Val v, Some rest, w') =>
          match read_each strtod k rest w' with
          | Val vs => Val (L0_Pair v vs)
          | r => r
          end
      | (Val _, None, _) => Null
      | (Null, _, w') => if world_ok w' then Val L0_NIL else Null
      | (OutOfFuel, _, _) => OutOfFuel
      end
  end.

(** The values [exprs] in front of a list result. *)
Definition with_front (exprs : list L0_Value) (r : result) : result :=
  match r with
  | Val vs => Val (link exprs vs)
  | _ => r
  end.

(** * Properties *)

(** ** Bookkeeping lemmas on worlds *)

Lemma set_eval_depth_same (w : World) : set_eval_depth (eval_depth w) w = w.
Proof. destruct w; reflexivity. Qed.

Lemma leave_enter (w : World) (d : Z) :
  d = eval_depth w + 1 -> leave (set_eval_depth d w) = w.
Proof. intros ->. destruct w; unfold leave, set_eval_depth; simpl. f_equal. lia. Qed.

Lemma world_ok_set_eval_depth (d : Z) (w : World) :
  world_ok (set_eval_depth d w) = world_ok w.
Proof. reflexivity. Qed.

Lemma depth_test_pass (w : World) :
  eval_depth w + 1 <= MAX_EVAL_DEPTH ->
  (MAX_EVAL_DEPTH <? eval_depth (set_eval_depth (eval_depth w + 1) w)) = false.
Proof. intros H. simpl. apply Z.ltb_ge. exact H. Qed.

Lemma l0_eval_unfold host (n : nat) :
  l0_eval host (S n) = l0_eval_body host (interp host n).
Proof. reflexivity. Qed.

Lemma l0_apply_unfold host (n : nat) :
  l0_apply host (S n) = l0_apply_body host (interp host n).
Proof. reflexivity. Qed.

(** Evaluation of a self-evaluating atom restores the counter. *)
Lemma eval_self_evaluating host (fuel : nat) (v : L0_Value) (env : L0_Env) (w : World) :
  match v with
  | L0_NIL | L0_Boolean _ | L0_Integer _ | L0_Float _ | L0_String _ => True
  | _ => False
  end ->
  eval_depth w + 1 <= MAX_EVAL_DEPTH ->
  l0_eval host (S fuel) v env w = (Val v, w).
Proof.
  intros Hv Hd. rewrite l0_eval_unfold. unfold l0_eval_body.
  rewrite (depth_test_pass w Hd).
  destruct v; try contradiction; unfold leave_with; rewrite leave_enter; reflexivity.
Qed.

(** ** C2 *)

(** C2. [l0_is_truthy v] is false exactly when [v] is [#f]; in
    particular [0], the empty string and nil are truthy.  [if] decides
    by that truthiness, whatever its condition: when the condition
    evaluates to [v], the form continues (in tail position) with the
    second expression if [v] is truthy and with the third, or with nil
    where there is none, if [v] is [#f]; when the condition fails, so
    does the form.  Consequently, from a clean
    error slot and with room for two nested calls, [(if 0 1 2)]
    evaluates to the integer 1 and [(if #f 1)] to nil, whatever the
    environment and the host primitives. *)
Theorem C2_truthiness_and_if host (fuel : nat) (env : L0_Env) (w : World)
        (Hok : world_ok w = true) (Hdepth : eval_depth w + 2 <= MAX_EVAL_DEPTH) :
  (forall v, l0_is_truthy v = false <-> v = L0_Boolean false) /\
  l0_is_truthy (L0_Integer 0) = true /\
  l0_is_truthy (L0_String "") = true /\
  l0_is_truthy L0_NIL = true /\
  (forall condition true_expr false_expr v w1,
      l0_eval host (S fuel) condition env (set_eval_depth (eval_depth w + 1) w) = (Val v, w1) ->
      world_ok w1 = true ->
      l0_eval host (S (S fuel))
              (list_to_value [L0_Symbol "if"; condition; true_expr; false_expr]) env w
      = l0_eval host (S fuel) (if l0_is_truthy v then true_expr else false_expr) env (leave w1) /\
      l0_eval host (S (S fuel)) (list_to_value [L0_Symbol "if"; condition; true_expr]) env w
      = l0_eval host (S fuel) (if l0_is_truthy v then true_expr else L0_NIL) env (leave w1)) /\
  (forall condition true_expr false_expr r w1,
      l0_eval host (S fuel) condition env (set_eval_depth (eval_depth w + 1) w) = (r, w1) ->
      r = Null \/ (r <> OutOfFuel /\ world_ok w1 = false) ->
      l0_eval host (S (S fuel))
              (list_to_value [L0_Symbol "if"; condition; true_expr; false_expr]) env w
      = (Null, leave w1)) /\
  l0_eval host (S (S fuel)) if_0_1_2 env w = (Val (L0_Integer 1), w) /\
  l0_eval host (S (S fuel)) if_false_1 env w = (Val L0_NIL, w).
Proof.
  assert (Hd1 : eval_depth w + 1 <= MAX_EVAL_DEPTH) by lia.
  assert (Hif : forall condition true_expr false_expr v w1,
             l0_eval host (S fuel) condition env (set_eval_depth (eval_depth w + 1) w)
             = (Val v, w1) ->
             world_ok w1 = true ->
             l0_eval host (S (S fuel))
                     (list_to_value [L0_Symbol "if"; condition; true_expr; false_expr]) env w
             = l0_eval host (S fuel) (if l0_is_truthy v then true_expr else false_expr) env
                       (leave w1) /\
             l0_eval host (S (S fuel))
                     (list_to_value [L0_Symbol "if"; condition; true_expr]) env w
             = l0_eval host (S fuel) (if l0_is_truthy v then true_expr else L0_NIL) env
                       (leave w1)).
  { intros condition true_expr false_expr v w1 Heval Hok1.
    split;
      rewrite l0_eval_unfold; unfold l0_eval_body; cbn [list_to_value];
      rewrite (depth_test_pass w Hd1);
      cbn [get_special_form_type String.eqb Ascii.eqb Bool.eqb];
      unfold sf_if, checked, bind_or; fold (l0_eval host (S fuel));
      rewrite Heval, Hok1; cbv zeta;
      destruct v as [| [|] | | | | | | | |]; reflexivity. }
  split; [| split; [| split; [| split; [| split; [| split; [| split ]]]]]];
    try reflexivity.
  - intros v; split.
    + destruct v as [| [|] | | | | | | | |]; simpl; congruence.
    + intros ->; reflexivity.
  - exact Hif.
  - intros condition true_expr false_expr r w1 Heval Hfail.
    rewrite l0_eval_unfold. unfold l0_eval_body. cbn [list_to_value].
    rewrite (depth_test_pass w Hd1).
    cbn [get_special_form_type String.eqb Ascii.eqb Bool.eqb].
    unfold sf_if, checked, bind_or. fold (l0_eval host (S fuel)).
    rewrite Heval. destruct Hfail as [-> | [Hr Hbad]]; [ reflexivity |].
    destruct r as [v | |]; [ now rewrite Hbad | reflexivity | contradiction ].
  - unfold if_0_1_2.
    rewrite (proj1 (Hif (L0_Integer 0) (L0_Integer 1) (L0_Integer 2) (L0_Integer 0)
                        (set_eval_depth (eval_depth w + 1) w)
                        ltac:(apply eval_self_evaluating; [ exact I | simpl; lia ])
                        Hok)).
    rewrite leave_enter by reflexivity.
    apply eval_self_evaluating; [ exact I | exact Hd1 ].
  - unfold if_false_1.
    rewrite (proj2 (Hif (L0_Boolean false) (L0_Integer 1) L0_NIL (L0_Boolean false)
                        (set_eval_depth (eval_depth w + 1) w)
                        ltac:(apply eval_self_evaluating; [ exact I | simpl; lia ])
                        Hok)).
    rewrite leave_enter by reflexivity.
    apply eval_self_evaluating; [ exact I | exact Hd1 ].
Qed.

(** [(if 0 1 2)], [(if #f 1)] and [(if #f 1 2)] in the global
    environment. *)
Lemma C2_truthiness_and_if_witness :
  l0_eval l0_host 2 if_0_1_2 0%nat global_world = (Val (L0_Integer 1), global_world) /\
  l0_eval l0_host 2 if_false_1 0%nat global_world = (Val L0_NIL, global_world) /\
  l0_eval l0_host 2
          (list_to_value [L0_Symbol "if"; L0_Boolean false; L0_Integer 1; L0_Integer 2])
          0%nat global_world
  = (Val (L0_Integer 2), global_world).
Proof.
  assert (Hok : world_ok global_world = true) by reflexivity.
  assert (Hd : eval_depth global_world + 2 <= MAX_EVAL_DEPTH) by (vm_compute; discriminate).
  destruct (C2_truthiness_and_if l0_host 0 0%nat global_world Hok Hd)
    as (_ & _ & _ & _ & Hif & _ & H1 & H2).
  split; [ exact H1 | split; [ exact H2 |] ].
  assert (Hcond : l0_eval l0_host 1 (L0_Boolean false) 0%nat
                          (set_eval_depth (eval_depth global_world + 1) global_world)
                  = (Val (L0_Boolean false),
                     set_eval_depth (eval_depth global_world + 1) global_world))
    by (vm_compute; reflexivity).
  rewrite (proj1 (Hif (L0_Boolean false) (L0_Integer 1) (L0_Integer 2) (L0_Boolean false)
                      _ Hcond eq_refl)).
  vm_compute. reflexivity.
Defined.

(** ** C9 *)

Lemma leave_set_error_enter (s : L0_ParseStatus) (m : option string) (w : World) :
  leave (set_error s m (set_eval_depth (eval_depth w + 1) w)) = set_error s m w.
Proof.
  destruct w; unfold leave, set_error, set_eval_depth; simpl. f_equal. lia.
Qed.

(** C9. An application [(f a ...)] whose operator is a symbol naming no
    special form looks [*macro-table*] up before it looks [f] up: when
    the table is bound nowhere on the chain, or bound to a value that is
    not a list, evaluation returns the null sentinel with a runtime error
    in the slot, whatever [f] is bound to and without evaluating any
    argument. *)
Theorem C9_application_consults_macro_table host (fuel : nat) (f : string)
        (args : L0_Value) (env : L0_Env) (w : World)
        (Hsf : get_special_form_type f = SF_NONE)
        (Hdepth : eval_depth w + 1 <= MAX_EVAL_DEPTH) :
  (l0_env_lookup env "*macro-table*" w = None ->
   l0_eval host (S fuel) (L0_Pair (L0_Symbol f) args) env w =
   (Null, set_error L0_PARSE_ERROR_RUNTIME
            (Some "Macro check failed: Global variable '*macro-table*' not found.") w)) /\
  (forall table,
      l0_env_lookup env "*macro-table*" w = Some table ->
      l0_is_list table = false ->
      l0_eval host (S fuel) (L0_Pair (L0_Symbol f) args) env w =
      (Null, set_error L0_PARSE_ERROR_RUNTIME
               (Some "Macro check failed: Global variable '*macro-table*' is not a list.") w)).
Proof.
  split.
  - intros Hlook. rewrite l0_eval_unfold. unfold l0_eval_body.
    rewrite (depth_test_pass w Hdepth), Hsf. unfold sf_none.
    change (l0_env_lookup env "*macro-table*" (set_eval_depth (eval_depth w + 1) w))
      with (l0_env_lookup env "*macro-table*" w).
    rewrite Hlook. unfold eval_error. now rewrite leave_set_error_enter.
  - intros table Hlook Hlist. rewrite l0_eval_unfold. unfold l0_eval_body.
    rewrite (depth_test_pass w Hdepth), Hsf. unfold sf_none.
    change (l0_env_lookup env "*macro-table*" (set_eval_depth (eval_depth w + 1) w))
      with (l0_env_lookup env "*macro-table*" w).
    rewrite Hlook, Hlist. cbn [negb]. unfold eval_error. now rewrite leave_set_error_enter.
Qed.

Lemma C9_application_consults_macro_table_witness :
  l0_env_lookup 0%nat "+" world_without_macro_table
    = Some (L0_Primitive (Some "+") (Some Addr.add)) /\
  fst (l0_eval l0_host 3 plus_1_2 0%nat world_without_macro_table) = Null /\
  fst (l0_eval l0_host 3 plus_1_2 0%nat world_with_integer_macro_table) = Null.
Proof.
  assert (Hsf : get_special_form_type "+" = SF_NONE) by reflexivity.
  assert (Hd1 : eval_depth world_without_macro_table + 1 <= MAX_EVAL_DEPTH)
    by (vm_compute; discriminate).
  assert (Hd2 : eval_depth world_with_integer_macro_table + 1 <= MAX_EVAL_DEPTH)
    by (vm_compute; discriminate).
  split; [ reflexivity | split ].
  - destruct (C9_application_consults_macro_table l0_host 2 "+"
                (list_to_value [L0_Integer 1; L0_Integer 2]) 0%nat _ Hsf Hd1) as [H _].
    unfold plus_1_2. rewrite H; reflexivity.
  - destruct (C9_application_consults_macro_table l0_host 2 "+"
                (list_to_value [L0_Integer 1; L0_Integer 2]) 0%nat _ Hsf Hd2) as [_ H].
    unfold plus_1_2. rewrite (H (L0_Integer 5)); reflexivity.
Defined.

(** ** C5 *)

Lemma set_envs_same (w : World) : set_envs (envs w) w = w.
Proof. destruct w; reflexivity. Qed.

Lemma set_envs_set_envs (a b : list L0_EnvStruct) (w : World) :
  set_envs a (set_envs b w) = set_envs a w.
Proof. reflexivity. Qed.

Lemma replace_nth_app_last {A : Type} (l : list A) (x y : A) :
  Env.replace_nth (List.length l) y (l ++ [x])%list = (l ++ [y])%list.
Proof. induction l as [| h t IH]; simpl; [ reflexivity | now rewrite IH ]. Qed.

Lemma nth_error_app_last {A : Type} (l : list A) (x : A) :
  nth_error (l ++ [x])%list (List.length l) = Some x.
Proof. induction l as [| h t IH]; simpl; [ reflexivity | exact IH ]. Qed.

Lemma frame_lookup_update_same (name : string) (v : L0_Value) (fr fr' : list (string * L0_Value)) :
  Env.frame_update name v fr = Some fr' -> Env.frame_lookup name fr' = Some v.
Proof.
  revert fr'. induction fr as [| [s old] rest IH]; intros fr'; simpl; [ discriminate |].
  destruct (String.eqb s name) eqn:E.
  - intros [= <-]. simpl. now rewrite E.
  - destruct (Env.frame_update name v rest) as [rest' |]; [| discriminate ].
    intros [= <-]. simpl. rewrite E. now apply IH.
Qed.

Lemma frame_lookup_update_other (name other : string) (v : L0_Value)
      (fr fr' : list (string * L0_Value)) :
  name <> other ->
  Env.frame_update name v fr = Some fr' ->
  Env.frame_lookup other fr' = Env.frame_lookup other fr.
Proof.
  intros Hne. revert fr'. induction fr as [| [s old] rest IH]; intros fr'; simpl; [ discriminate |].
  destruct (String.eqb s name) eqn:E.
  - intros [= <-]. simpl. apply String.eqb_eq in E. subst s.
    destruct (String.eqb name other) eqn:E'; [ apply String.eqb_eq in E'; contradiction | reflexivity ].
  - destruct (Env.frame_update name v rest) as [rest' |]; [| discriminate ].
    intros [= <-]. simpl. destruct (String.eqb s other); [ reflexivity | now apply IH ].
Qed.

Lemma frame_lookup_define_same (name : string) (v : L0_Value) (fr : list (string * L0_Value)) :
  Env.frame_lookup name (frame_define name v fr) = Some v.
Proof.
  unfold frame_define. destruct (Env.frame_update name v fr) as [fr' |] eqn:E.
  - eapply frame_lookup_update_same; eassumption.
  - simpl. now rewrite String.eqb_refl.
Qed.

Lemma frame_lookup_define_other (name other : string) (v : L0_Value)
      (fr : list (string * L0_Value)) :
  name <> other ->
  Env.frame_lookup other (frame_define name v fr) = Env.frame_lookup other fr.
Proof.
  intros Hne. unfold frame_define. destruct (Env.frame_update name v fr) as [fr' |] eqn:E.
  - eapply frame_lookup_update_other; eassumption.
  - simpl. destruct (String.eqb name other) eqn:E'; [| reflexivity ].
    apply String.eqb_eq in E'; contradiction.
Qed.

Lemma frame_lookup_bind_frame_other (name : string) (names : list string) :
  forall (actuals : list L0_Value) (fr : list (string * L0_Value)),
    ~ In name names ->
    Env.frame_lookup name (bind_frame names actuals fr) = Env.frame_lookup name fr.
Proof.
  induction names as [| n ns IH]; intros actuals fr Hnot; [ reflexivity |].
  destruct actuals as [| a rest]; [ reflexivity |]. simpl.
  rewrite IH by (intros Hin; apply Hnot; now right).
  apply frame_lookup_define_other. intros ->. apply Hnot. now left.
Qed.

(** Each parameter is bound to the argument at its position (the last
    position, should a name be repeated). *)
Lemma frame_lookup_bind_frame (names : list string) :
  forall (actuals : list L0_Value) (fr : list (string * L0_Value)) (i : nat)
         (name : string) (v : L0_Value),
    nth_error names i = Some name ->
    nth_error actuals i = Some v ->
    ~ In name (skipn (S i) names) ->
    Env.frame_lookup name (bind_frame names actuals fr) = Some v.
Proof.
  induction names as [| n ns IH]; intros actuals fr i name v Hn Ha Hlast.
  - destruct i; discriminate.
  - destruct actuals as [| a rest]; [ destruct i; discriminate |].
    destruct i as [| i]; simpl in Hn, Ha.
    + injection Hn as ->. injection Ha as ->. simpl.
      rewrite frame_lookup_bind_frame_other by exact Hlast.
      apply frame_lookup_define_same.
    + simpl. eapply IH; eassumption.
Qed.

Lemma l0_env_define_spec (env : L0_Env) (name : string) (v : L0_Value) (w : World)
      (fr : list (string * L0_Value)) (o : option L0_Env) :
  nth_error (envs w) env = Some (mkEnv fr o) ->
  l0_env_define env name v w =
  (true, set_envs (Env.replace_nth env (mkEnv (frame_define name v fr) o) (envs w)) w).
Proof. intros H. unfold l0_env_define. rewrite H. reflexivity. Qed.

(** The binding loop on a parameter list of symbols whose target is the
    last environment of the world. *)
Lemma bind_params_spec (names : list string) :
  forall (actuals : list L0_Value) (es : list L0_EnvStruct) (fr : list (string * L0_Value))
         (o : option L0_Env) (w : World),
    envs w = (es ++ [mkEnv fr o])%list ->
    exists ps rest,
      bind_params (List.length es) (list_to_value (map L0_Symbol names))
                  (list_to_value actuals) w =
      (Some (ps, rest), set_envs (es ++ [mkEnv (bind_frame names actuals fr) o]) w) /\
      (List.length names = List.length actuals -> ps = L0_NIL /\ rest = L0_NIL) /\
      (List.length names <> List.length actuals ->
       negb (l0_is_nil ps) || negb (l0_is_nil rest) = true).
Proof.
  induction names as [| n ns IH]; intros actuals es fr o w Hw.
  - exists L0_NIL, (list_to_value actuals). simpl.
    rewrite <- Hw, set_envs_same. split; [ reflexivity | split ].
    + destruct actuals; [ now split | discriminate ].
    + destruct actuals; [ intros H; now elim H | reflexivity ].
  - destruct actuals as [| a rest].
    + exists (list_to_value (map L0_Symbol (n :: ns))), L0_NIL. simpl.
      rewrite <- Hw, set_envs_same. split; [ reflexivity | split ];
        [ discriminate | reflexivity ].
    + simpl.
      rewrite (l0_env_define_spec (List.length es) n a w fr o)
        by (rewrite Hw; apply nth_error_app_last).
      rewrite Hw, replace_nth_app_last.
      destruct (IH rest es (frame_define n a fr) o
                   (set_envs (es ++ [mkEnv (frame_define n a fr) o]) w) eq_refl)
        as (ps & rs & Heq & Hsame & Hdiff).
      exists ps, rs. rewrite Heq. split; [ reflexivity | split ].
      * intros Hlen. apply Hsame. now injection Hlen.
      * intros Hlen. apply Hdiff. intros E. apply Hlen. now f_equal.
Qed.

Lemma last_cons_default {A : Type} (l : list A) :
  forall a d d' : A, last (a :: l) d = last (a :: l) d'.
Proof.
  induction l as [| b t IH]; intros a d d'; [ reflexivity |].
  change (last (b :: t) d = last (b :: t) d'). apply IH.
Qed.

Lemma eval_sequence_loop_each (self : Interp) (env : L0_Env) (es : list L0_Value) :
  forall (r0 : L0_Value) (w w' : World) (vs : list L0_Value),
    eval_each self es env w = Some (vs, w') ->
    eval_sequence_loop self (list_to_value es) r0 env w = (Val (last vs r0), w').
Proof.
  induction es as [| e rest IH]; intros r0 w w' vs H; simpl in H.
  - injection H as <- <-. reflexivity.
  - simpl. unfold bind_or.
    destruct (interp_eval self e env w) as [[v | |] w1]; try discriminate.
    destruct (world_ok w1); [| discriminate ].
    destruct (eval_each self rest env w1) as [[vs' w''] |] eqn:E; [| discriminate ].
    injection H as <- <-. rewrite (IH v w1 w'' vs' E).
    destruct vs' as [| v' vs']; [ reflexivity |].
    change (last (v :: v' :: vs') r0) with (last (v' :: vs') r0).
    do 2 f_equal. apply last_cons_default.
Qed.

(** C5. Applying a closure to a proper argument list: a fresh frame is
    appended whose outer environment is the captured one; in it each
    parameter symbol is bound to the argument at its position; when the
    two lists differ in length the call returns the null sentinel with
    the runtime error "incorrect number of arguments"; otherwise the
    call is the evaluation of the body as a sequence in the new
    environment, which is what [(begin body...)] evaluates to there, and
    when every body expression succeeds the call returns the value of the
    last one. *)
Theorem C5_closure_application host (fuel : nat) (names : list string)
        (actuals : list L0_Value) (body : L0_Value) (cenv env : L0_Env) (w : World) :
  let func := L0_Closure (list_to_value (map L0_Symbol names)) body cenv in
  let args := list_to_value actuals in
  let call_env := List.length (envs w) in
  let new_frame := mkEnv (bind_frame names actuals []) (Some cenv) in
  let w_call := set_envs (envs w ++ [new_frame]) w in
  nth_error (envs w_call) call_env = Some new_frame /\
  (forall i name v,
      nth_error names i = Some name ->
      nth_error actuals i = Some v ->
      ~ In name (skipn (S i) names) ->
      l0_env_lookup call_env name w_call = Some v) /\
  (List.length names <> List.length actuals ->
   l0_apply host (S fuel) func args env w =
   (Null, set_error L0_PARSE_ERROR_RUNTIME
            (Some "Function called with incorrect number of arguments.") w_call)) /\
  (List.length names = List.length actuals ->
   l0_apply host (S fuel) func args env w =
   l0_eval_sequence (interp host fuel) body call_env w_call) /\
  (List.length names = List.length actuals ->
   eval_depth w + 1 <= MAX_EVAL_DEPTH ->
   l0_apply host (S fuel) func args env w =
   l0_eval host (S fuel) (L0_Pair (L0_Symbol "begin") body) call_env w_call) /\
  (forall es vs w',
      body = list_to_value es ->
      List.length names = List.length actuals ->
      eval_each (interp host fuel) es call_env w_call = Some (vs, w') ->
      l0_apply host (S fuel) func args env w = (Val (last vs L0_NIL), w')).
Proof.
  intros func args call_env new_frame w_call.
  assert (Hnth : nth_error (envs w_call) call_env = Some new_frame)
    by apply nth_error_app_last.
  assert (Happly :
    exists ps rest,
      l0_apply host (S fuel) func args env w =
      (if negb (l0_is_nil ps) || negb (l0_is_nil rest) then
         runtime_error "Function called with incorrect number of arguments." w_call
       else l0_eval_sequence (interp host fuel) body call_env w_call) /\
      (List.length names = List.length actuals -> ps = L0_NIL /\ rest = L0_NIL) /\
      (List.length names <> List.length actuals ->
       negb (l0_is_nil ps) || negb (l0_is_nil rest) = true)).
  { rewrite l0_apply_unfold. unfold func, l0_apply_body, l0_env_extend, l0_env_create.
    destruct (bind_params_spec names actuals (envs w) [] (Some cenv)
                (set_envs (envs w ++ [mkEnv [] (Some cenv)]) w) eq_refl)
      as (ps & rest & Heq & Hsame & Hdiff).
    exists ps, rest. unfold args. cbv beta iota. rewrite Heq.
    rewrite set_envs_set_envs. fold new_frame w_call call_env. now split. }
  destruct Happly as (ps & rest & Heq & Hsame & Hdiff).
  assert (Hseq : List.length names = List.length actuals ->
                 l0_apply host (S fuel) func args env w =
                 l0_eval_sequence (interp host fuel) body call_env w_call).
  { intros Hlen. destruct (Hsame Hlen) as [-> ->]. exact Heq. }
  split; [ exact Hnth | split; [| split; [| split; [| split ]]]].
  - intros i name v Hn Ha Hlast. unfold l0_env_lookup.
    cbn [Env.lookup_from]. rewrite Hnth. unfold new_frame. cbn [frame].
    now rewrite (frame_lookup_bind_frame names actuals [] i name v Hn Ha Hlast).
  - intros Hlen. rewrite Heq, (Hdiff Hlen). reflexivity.
  - exact Hseq.
  - intros Hlen Hd. rewrite (Hseq Hlen), l0_eval_unfold. unfold l0_eval_body.
    assert (Hd' : eval_depth w_call + 1 <= MAX_EVAL_DEPTH) by exact Hd.
    rewrite (depth_test_pass w_call Hd').
    cbn [get_special_form_type String.eqb Ascii.eqb Bool.eqb].
    unfold sf_begin, tail. now rewrite leave_enter.
  - intros es vs w' -> Hlen Heach. rewrite (Hseq Hlen).
    now apply eval_sequence_loop_each.
Qed.

Lemma C5_closure_application_witness :
  l0_apply l0_host 3
    (L0_Closure (list_to_value (map L0_Symbol sample_closure_names))
                (list_to_value sample_closure_body) 0%nat)
    (list_to_value [L0_Integer 1; L0_Integer 2]) 0%nat global_world
  = (Val (L0_Integer 2),
     set_envs (envs global_world ++
               [mkEnv [("y", L0_Integer 2); ("x", L0_Integer 1)] (Some 0%nat)]) global_world)
  /\
  fst (l0_apply l0_host 3
    (L0_Closure (list_to_value (map L0_Symbol sample_closure_names))
                (list_to_value sample_closure_body) 0%nat)
    (list_to_value [L0_Integer 1]) 0%nat global_world) = Null.
Proof.
  destruct (C5_closure_application l0_host 2 sample_closure_names
              [L0_Integer 1; L0_Integer 2] (list_to_value sample_closure_body)
              0%nat 0%nat global_world) as (_ & _ & _ & _ & _ & Hlast).
  destruct (C5_closure_application l0_host 2 sample_closure_names
              [L0_Integer 1] (list_to_value sample_closure_body)
              0%nat 0%nat global_world) as (_ & _ & Hmis & _).
  split.
  - apply (Hlast sample_closure_body [L0_Symbol "a"; L0_Integer 2]);
      [ reflexivity | reflexivity | vm_compute; reflexivity ].
  - rewrite Hmis; [ reflexivity | discriminate ].
Defined.

(** ** C8 *)

Lemma cond_loop_skip (self : Interp) (env : L0_Env) (pre : list (L0_Value * L0_Value)) :
  forall (rest : list (L0_Value * L0_Value)) (w w1 : World),
    cond_skip self pre env w = Some w1 ->
    cond_loop self (cond_clauses (pre ++ rest)) env w =
    cond_loop self (cond_clauses rest) env w1.
Proof.
  induction pre as [| [test body] pre IH]; intros rest w w1 H; simpl in H.
  - now injection H as <-.
  - destruct (is_else test) eqn:Helse; [ discriminate |].
    destruct (interp_eval self test env w) as [[v | |] w'] eqn:Hev; try discriminate.
    destruct (world_ok w') eqn:Hok; [| discriminate ].
    destruct (l0_is_truthy v) eqn:Ht; [ discriminate |]. simpl in H.
    unfold cond_clauses. simpl. rewrite Helse. unfold checked, bind_or.
    rewrite Hev, Hok, Ht. now apply IH.
Qed.

Lemma l0_eval_cond host (fuel : nat) (clauses : L0_Value) (env : L0_Env) (w : World) :
  eval_depth w + 1 <= MAX_EVAL_DEPTH ->
  l0_eval host (S fuel) (L0_Pair (L0_Symbol "cond") clauses) env w =
  cond_loop (interp host fuel) clauses env (set_eval_depth (eval_depth w + 1) w).
Proof.
  intros Hd. rewrite l0_eval_unfold. unfold l0_eval_body.
  rewrite (depth_test_pass w Hd). reflexivity.
Qed.

(** C8 (as amended). In a [cond] form whose clauses before some clause
    [(test body...)] are all passed over (their tests evaluate to [#f]):
    - if [test] is not [else] and evaluates to a truthy value, the body is
      evaluated as a sequence in tail position, and a clause without body
      returns the value of the test itself;
    - if [test] is [else] and clauses follow, evaluation stops with the
      runtime error "'else' clause must be the last clause in 'cond'.";
    - if [test] is [else] and the clause is the last one, its body is
      evaluated in tail position ([#t] when it has no body). *)
Theorem C8_cond_first_truthy_clause host (fuel : nat) (env : L0_Env) (w w1 : World)
        (pre post : list (L0_Value * L0_Value)) (test body : L0_Value)
        (Hdepth : eval_depth w + 1 <= MAX_EVAL_DEPTH)
        (Hskip : cond_skip (interp host fuel) pre env
                           (set_eval_depth (eval_depth w + 1) w) = Some w1) :
  let form := L0_Pair (L0_Symbol "cond") (cond_clauses (pre ++ (test, body) :: post)) in
  (is_else test = false ->
   forall v w2,
     l0_eval host fuel test env w1 = (Val v, w2) ->
     world_ok w2 = true ->
     l0_is_truthy v = true ->
     l0_eval host (S fuel) form env w =
     if l0_is_nil body then (Val v, leave w2)
     else l0_eval_sequence (interp host fuel) body env (leave w2)) /\
  (is_else test = true ->
   post <> [] ->
   l0_eval host (S fuel) form env w =
   (Null, leave (set_error L0_PARSE_ERROR_RUNTIME
                   (Some "'else' clause must be the last clause in 'cond'.") w1))) /\
  (is_else test = true ->
   post = [] ->
   l0_eval host (S fuel) form env w =
   if l0_is_nil body then (Val (L0_Boolean true), leave w1)
   else l0_eval_sequence (interp host fuel) body env (leave w1)).
Proof.
  intros form. unfold form.
  rewrite (l0_eval_cond host fuel _ env w Hdepth).
  rewrite (cond_loop_skip _ env pre _ _ w1 Hskip).
  unfold cond_clauses. cbn [map list_to_value fst snd cond_loop].
  split; [| split ].
  - intros Helse v w2 Hev Hok Htruthy. rewrite Helse.
    unfold checked, bind_or. fold (l0_eval host fuel). rewrite Hev, Hok, Htruthy.
    destruct (l0_is_nil body); reflexivity.
  - intros Helse Hpost. rewrite Helse.
    destruct post as [| c post]; [ contradiction | reflexivity ].
  - intros Helse ->. rewrite Helse. cbn [map list_to_value l0_is_nil negb].
    destruct (l0_is_nil body); reflexivity.
Qed.

(** [(cond (#f 1) (#t 2))] and [(cond (#f 1) (else 2) (#f 3))]. *)
Lemma C8_cond_first_truthy_clause_witness :
  l0_eval l0_host 3
    (L0_Pair (L0_Symbol "cond")
       (cond_clauses [(L0_Boolean false, list_to_value [L0_Integer 1]);
                      (L0_Boolean true, list_to_value [L0_Integer 2])]))
    0%nat global_world
  = l0_eval_sequence (interp l0_host 2) (list_to_value [L0_Integer 2]) 0%nat global_world /\
  l0_eval l0_host 3
    (L0_Pair (L0_Symbol "cond")
       (cond_clauses [(L0_Boolean false, list_to_value [L0_Integer 1]);
                      (L0_Symbol "else", list_to_value [L0_Integer 2]);
                      (L0_Boolean false, list_to_value [L0_Integer 3])]))
    0%nat global_world =
  (Null, set_error L0_PARSE_ERROR_RUNTIME
           (Some "'else' clause must be the last clause in 'cond'.") global_world).
Proof.
  assert (Hd : eval_depth global_world + 1 <= MAX_EVAL_DEPTH) by (vm_compute; discriminate).
  assert (Hskip : cond_skip (interp l0_host 2)
                    [(L0_Boolean false, list_to_value [L0_Integer 1])] 0%nat
                    (set_eval_depth (eval_depth global_world + 1) global_world)
                  = Some (set_eval_depth 1 global_world))
    by (vm_compute; reflexivity).
  split.
  - destruct (C8_cond_first_truthy_clause l0_host 2 0%nat global_world
                (set_eval_depth 1 global_world)
                [(L0_Boolean false, list_to_value [L0_Integer 1])] []
                (L0_Boolean true) (list_to_value [L0_Integer 2]) Hd Hskip) as (H & _ & _).
    assert (Hev : l0_eval l0_host 2 (L0_Boolean true) 0%nat (set_eval_depth 1 global_world)
                  = (Val (L0_Boolean true), set_eval_depth 1 global_world))
      by (vm_compute; reflexivity).
    exact (H eq_refl (L0_Boolean true) (set_eval_depth 1 global_world) Hev eq_refl eq_refl).
  - destruct (C8_cond_first_truthy_clause l0_host 2 0%nat global_world
                (set_eval_depth 1 global_world)
                [(L0_Boolean false, list_to_value [L0_Integer 1])]
                [(L0_Boolean false, list_to_value [L0_Integer 3])]
                (L0_Symbol "else") (list_to_value [L0_Integer 2]) Hd Hskip) as (_ & H & _).
    apply H; [ reflexivity | discriminate ].
Defined.

(** The claim as stated fails: in [(cond (#t 1) (else 2) (#f 3))] the
    [else] clause is not the last one, yet evaluation returns 1 and
    leaves the error slot clean. *)
Lemma C8_else_not_last_counterexample :
  l0_eval l0_host 3 cond_else_in_the_middle 0%nat global_world
  = (Val (L0_Integer 1), global_world) /\
  l0_parser_error_status
    (snd (l0_eval l0_host 3 cond_else_in_the_middle 0%nat global_world)) = L0_PARSE_OK.
Proof. split; vm_compute; reflexivity. Qed.

(** ** C1 *)

(** C1 (what the code does). At nesting depth 1 a template
    [(unquote-splicing . x)] is not expanded: [x] is not evaluated and
    the expander returns the null sentinel with the runtime error
    "TODO: 'unquote-splicing' is not yet implemented.", also when the
    template is an element of a surrounding list.  In particular
    [`(,@'(1 2) 3)] does not evaluate to [(1 2 3)]. *)
Theorem C1_unquote_splicing_is_rejected host (fuel : nat) (x rest : L0_Value)
        (env : L0_Env) (w : World) :
  let not_implemented :=
    set_error L0_PARSE_ERROR_RUNTIME
              (Some "TODO: 'unquote-splicing' is not yet implemented.") in
  l0_expand_quasiquote (interp host fuel) (L0_Pair (L0_Symbol "unquote-splicing") x) env 1 w
  = (Null, not_implemented w) /\
  l0_expand_quasiquote (interp host fuel)
    (L0_Pair (L0_Pair (L0_Symbol "unquote-splicing") x) rest) env 1 w
  = (Null, not_implemented w) /\
  l0_eval l0_host 3 quasiquote_with_splice 0%nat global_world
  = (Null, not_implemented global_world).
Proof.
  intros not_implemented. split; [ reflexivity | split; [ reflexivity |] ].
  vm_compute. reflexivity.
Qed.

(** ** C10 *)

Lemma get_numeric_as_double_number (v : L0_Value) (name : string) (w : World) (d : float) :
  as_double v = Some d -> get_numeric_as_double v name w = (Some d, w).
Proof. destruct v; simpl; intros [= <-] || discriminate; reflexivity. Qed.

Lemma get_numeric_as_double_other (v : L0_Value) (name : string) (w : World) :
  is_number v = false ->
  get_numeric_as_double v name w =
  (None, set_error L0_PARSE_ERROR_RUNTIME
           (Some (snprintf 100 ("Primitive '" ++ name
                                ++ "': Expected integer or float argument."))) w).
Proof. destruct v; simpl; intros H; reflexivity || discriminate. Qed.

Lemma as_double_number (v : L0_Value) :
  is_number v = true -> exists d, as_double v = Some d.
Proof. destruct v; simpl; try discriminate; eauto. Qed.

Lemma clean_slot_set_error (s : L0_ParseStatus) (m : option string) (w : World) :
  clean_slot (set_error s m w) = clean_slot w.
Proof. reflexivity. Qed.

(** Once the first argument is known not to be a number, the first
    comparison resets the slot and answers [#f]. *)
Lemma equal_loop_first_not_number (x : L0_Value) (rest : list L0_Value) (w : World) :
  equal_loop (list_to_value (x :: rest)) None w = (Val (L0_Boolean false), clean_slot w).
Proof.
  simpl. destruct (get_numeric_as_double x "=" w) as [nd w'] eqn:E.
  assert (Hw : clean_slot w' = clean_slot w).
  { destruct x; simpl in E; injection E as <- <-; reflexivity. }
  destruct nd; unfold clean_slot in *; now rewrite Hw.
Qed.

Lemma equal_loop_reaches_non_number (d : float) (pre : list L0_Value) :
  forall (x : L0_Value) (post : list L0_Value) (w : World),
    forallb (equals_double d) pre = true ->
    is_number x = false ->
    equal_loop (list_to_value (pre ++ x :: post)) (Some d) w
    = (Val (L0_Boolean false), clean_slot w).
Proof.
  induction pre as [| y pre IH]; intros x post w Hpre Hx.
  - simpl. rewrite (get_numeric_as_double_other x "=" w Hx). reflexivity.
  - simpl in Hpre. apply andb_prop in Hpre as [Hy Hpre].
    unfold equals_double in Hy. destruct (as_double y) as [dy |] eqn:Ey; [| discriminate ].
    cbn [app list_to_value equal_loop].
    rewrite (get_numeric_as_double_number y "=" w dy Ey), Hy. cbn [negb].
    now apply IH.
Qed.

Lemma equal_loop_total (args : list L0_Value) :
  forall (first_d : option float) (w : World),
    exists b, equal_loop (list_to_value args) first_d w = (Val (L0_Boolean b), w) \/
              equal_loop (list_to_value args) first_d w = (Val (L0_Boolean b), clean_slot w).
Proof.
  induction args as [| y args IH]; intros first_d w.
  - exists true. now left.
  - destruct first_d as [d |].
    + destruct (is_number y) eqn:Hy.
      * destruct (as_double_number y Hy) as [dy Ey]. cbn [list_to_value equal_loop].
        rewrite (get_numeric_as_double_number y "=" w dy Ey).
        destruct (d =? dy)%float; cbn [negb]; [ apply IH | exists false; now left ].
      * exists false. right.
        apply (equal_loop_reaches_non_number d [] y args w eq_refl Hy).
    + exists false. right. apply equal_loop_first_not_number.
Qed.

(** C10. For a proper argument list of at least two elements, as soon as
    a comparison of [=] involves an argument that is not a number (the
    first argument, or a later one reached because all those before it
    equal the first), [=] returns [#f] and resets the error slot to the
    clean state.  Consequently [=] never returns the null sentinel on a
    proper list: it returns a Boolean, with the slot either left as it
    was or reset. *)
Theorem C10_equal_on_non_numbers (env : L0_Env) (w : World) :
  (forall first next rest,
      is_number first = false ->
      prim_equal (list_to_value (first :: next :: rest)) env w
      = (Val (L0_Boolean false), clean_slot w)) /\
  (forall first d pre x post,
      as_double first = Some d ->
      forallb (equals_double d) pre = true ->
      is_number x = false ->
      prim_equal (list_to_value (first :: pre ++ x :: post)) env w
      = (Val (L0_Boolean false), clean_slot w)) /\
  (forall args,
      exists b,
        prim_equal (list_to_value args) env w = (Val (L0_Boolean b), w) \/
        prim_equal (list_to_value args) env w = (Val (L0_Boolean b), clean_slot w)).
Proof.
  split; [| split ].
  - intros first next rest Hfirst. cbn [list_to_value prim_equal].
    rewrite (get_numeric_as_double_other first "=" w Hfirst).
    change (L0_Pair next (list_to_value rest)) with (list_to_value (next :: rest)).
    rewrite equal_loop_first_not_number. now rewrite clean_slot_set_error.
  - intros first d pre x post Hfirst Hpre Hx.
    assert (Hshape : exists y ys, (pre ++ x :: post)%list = y :: ys)
      by (destruct pre; simpl; eauto).
    destruct Hshape as (y & ys & Hshape).
    cbn [list_to_value prim_equal]. rewrite Hshape. cbn [list_to_value].
    rewrite (get_numeric_as_double_number first "=" w d Hfirst).
    change (L0_Pair y (list_to_value ys)) with (list_to_value (y :: ys)).
    rewrite <- Hshape. now apply equal_loop_reaches_non_number.
  - intros [| first [| next rest]].
    + exists true. now left.
    + exists true. now left.
    + cbn [list_to_value prim_equal].
      change (L0_Pair next (list_to_value rest)) with (list_to_value (next :: rest)).
      destruct (is_number first) eqn:Hfirst.
      * destruct (as_double_number first Hfirst) as [d Ed].
        rewrite (get_numeric_as_double_number first "=" w d Ed).
        apply equal_loop_total.
      * rewrite (get_numeric_as_double_other first "=" w Hfirst).
        exists false. right. rewrite equal_loop_first_not_number.
        now rewrite clean_slot_set_error.
Qed.

(** [(= "a" 1)], [(= 1 1 #t)], and the same through the evaluator. *)
Lemma C10_equal_on_non_numbers_witness :
  prim_equal (list_to_value [L0_String "a"; L0_Integer 1]) 0%nat global_world
  = (Val (L0_Boolean false), clean_slot global_world) /\
  prim_equal (list_to_value [L0_Integer 1; L0_Integer 1; L0_Boolean true]) 0%nat global_world
  = (Val (L0_Boolean false), clean_slot global_world).
Proof.
  destruct (C10_equal_on_non_numbers 0%nat global_world) as (H1 & H2 & _).
  split.
  - apply H1. reflexivity.
  - apply (H2 (L0_Integer 1) (long_to_double 1) [L0_Integer 1] (L0_Boolean true) []);
      reflexivity.
Defined.

(** ** C7 *)

Lemma as_doubles_cons (v : L0_Value) (rest : list L0_Value) (ds : list float) :
  as_doubles (v :: rest) = Some ds ->
  exists d ds', ds = d :: ds' /\ as_double v = Some d /\ as_doubles rest = Some ds'.
Proof.
  cbn [as_doubles]. destruct (as_double v) as [d |]; [| discriminate ].
  destruct (as_doubles rest) as [ds' |]; [| discriminate ].
  intros [= <-]. eauto.
Qed.

Lemma equal_loop_numbers_all (rest : list L0_Value) (first_d : float) (w : World) :
  forall ds, as_doubles rest = Some ds ->
             equal_loop (list_to_value rest) (Some first_d) w
             = (Val (L0_Boolean (all_equal first_d ds)), w).
Proof.
  induction rest as [| next rest IH]; intros ds Hds.
  - injection Hds as <-. reflexivity.
  - destruct (as_doubles_cons _ _ _ Hds) as (d & ds' & -> & Hd & Hrest).
    cbn [list_to_value equal_loop].
    rewrite (get_numeric_as_double_number next "=" w d Hd).
    cbn [all_equal forallb]. fold (all_equal first_d ds').
    destruct (first_d =? d)%float; cbn [negb andb]; [ now apply IH | reflexivity ].
Qed.

Lemma less_than_loop_numbers (rest : list L0_Value) (w : World) :
  forall prev_d ds, as_doubles rest = Some ds ->
                    less_than_loop (list_to_value rest) prev_d w
                    = (Val (L0_Boolean (increasing prev_d ds)), w).
Proof.
  induction rest as [| current rest IH]; intros prev_d ds Hds.
  - injection Hds as <-. reflexivity.
  - destruct (as_doubles_cons _ _ _ Hds) as (d & ds' & -> & Hd & Hrest).
    cbn [list_to_value less_than_loop].
    rewrite (get_numeric_as_double_number current "<" w d Hd).
    cbn [increasing].
    destruct (prev_d <? d)%float; cbn [negb andb]; [ now apply IH | reflexivity ].
Qed.

Lemma greater_than_loop_numbers (rest : list L0_Value) (w : World) :
  forall prev_d ds, as_doubles rest = Some ds ->
                    greater_than_loop (list_to_value rest) prev_d w
                    = (Val (L0_Boolean (decreasing prev_d ds)), w).
Proof.
  induction rest as [| current rest IH]; intros prev_d ds Hds.
  - injection Hds as <-. reflexivity.
  - destruct (as_doubles_cons _ _ _ Hds) as (d & ds' & -> & Hd & Hrest).
    cbn [list_to_value greater_than_loop].
    rewrite (get_numeric_as_double_number current ">" w d Hd).
    cbn [decreasing].
    destruct (d <? prev_d)%float; cbn [negb andb]; [ now apply IH | reflexivity ].
Qed.

(** C7 (as amended). Applied to two or more numbers, [=], [<] and [>]
    return a Boolean and leave the error slot alone; the numbers are
    compared as doubles, an Integer being converted first: [=] is true
    when every later argument equals the first, [<] when every argument
    is less than the next, [>] when every argument is greater than the
    next.  No minimum number of arguments is required: applied to no
    argument or to a single argument, which is not inspected, each of
    the three returns [#t]. *)
Theorem C7_comparison_by_value (env : L0_Env) (w : World) :
  (forall first rest d ds,
      rest <> [] ->
      as_double first = Some d ->
      as_doubles rest = Some ds ->
      prim_equal (list_to_value (first :: rest)) env w
      = (Val (L0_Boolean (all_equal d ds)), w) /\
      prim_less_than (list_to_value (first :: rest)) env w
      = (Val (L0_Boolean (increasing d ds)), w) /\
      prim_greater_than (list_to_value (first :: rest)) env w
      = (Val (L0_Boolean (decreasing d ds)), w)) /\
  prim_equal L0_NIL env w = (Val (L0_Boolean true), w) /\
  prim_less_than L0_NIL env w = (Val (L0_Boolean true), w) /\
  prim_greater_than L0_NIL env w = (Val (L0_Boolean true), w) /\
  (forall v,
      prim_equal (list_to_value [v]) env w = (Val (L0_Boolean true), w) /\
      prim_less_than (list_to_value [v]) env w = (Val (L0_Boolean true), w) /\
      prim_greater_than (list_to_value [v]) env w = (Val (L0_Boolean true), w)).
Proof.
  split; [| repeat split ].
  intros first [| next rest] d ds Hne Hd Hds; [ contradiction |].
  cbn [list_to_value prim_equal prim_less_than prim_greater_than].
  rewrite (get_numeric_as_double_number first "=" w d Hd).
  rewrite (get_numeric_as_double_number first "<" w d Hd).
  rewrite (get_numeric_as_double_number first ">" w d Hd).
  split; [| split ].
  - exact (equal_loop_numbers_all (next :: rest) d w ds Hds).
  - exact (less_than_loop_numbers (next :: rest) w d ds Hds).
  - exact (greater_than_loop_numbers (next :: rest) w d ds Hds).
Qed.

(** [(= 1 1.0)] and [(< 1 2 3)] are true, [(> 1 2)] is false. *)
Lemma C7_comparison_by_value_witness :
  prim_equal (list_to_value [L0_Integer 1; L0_Float 1]) 0%nat global_world
  = (Val (L0_Boolean true), global_world) /\
  prim_less_than (list_to_value [L0_Integer 1; L0_Integer 2; L0_Integer 3]) 0%nat global_world
  = (Val (L0_Boolean true), global_world) /\
  prim_greater_than (list_to_value [L0_Integer 1; L0_Integer 2]) 0%nat global_world
  = (Val (L0_Boolean false), global_world).
Proof.
  pose proof (proj1 (C7_comparison_by_value 0%nat global_world)) as H.
  destruct (H (L0_Integer 1) [L0_Float 1] (long_to_double 1) [1%float]
              ltac:(discriminate) eq_refl eq_refl) as (He & _ & _).
  destruct (H (L0_Integer 1) [L0_Integer 2; L0_Integer 3] (long_to_double 1)
              [long_to_double 2; long_to_double 3]
              ltac:(discriminate) eq_refl eq_refl) as (_ & Hl & _).
  destruct (H (L0_Integer 1) [L0_Integer 2] (long_to_double 1) [long_to_double 2]
              ltac:(discriminate) eq_refl eq_refl) as (_ & _ & Hg).
  rewrite He, Hl, Hg. vm_compute. repeat split.
Defined.

(** The claim as stated fails: it requires a minimum of two arguments,
    yet [(= 1)] evaluates to [#t] in the global environment and leaves
    the error slot clean, and so do [<] and [>] applied to the single
    argument 1. *)
Lemma C7_one_argument_counterexample :
  l0_eval l0_host 3 equal_one_argument 0%nat global_world
  = (Val (L0_Boolean true), global_world) /\
  world_ok global_world = true /\
  prim_less_than (list_to_value [L0_Integer 1]) 0%nat global_world
  = (Val (L0_Boolean true), global_world) /\
  prim_greater_than (list_to_value [L0_Integer 1]) 0%nat global_world
  = (Val (L0_Boolean true), global_world).
Proof. vm_compute. repeat split. Qed.

(** ** C6 *)

Lemma add_loop_numbers (args : list L0_Value) :
  forall (int_sum : Z) (float_sum : float) (has_float : bool) (w : World),
    forallb is_number args = true ->
    exists v,
      add_loop (list_to_value args) int_sum float_sum has_float w = (Val v, w) /\
      l0_is_integer v = negb has_float && forallb l0_is_integer args /\
      l0_is_float v = has_float || negb (forallb l0_is_integer args).
Proof.
  induction args as [| a args IH]; intros int_sum float_sum has_float w Hnum.
  - destruct has_float; simpl; eexists; repeat split.
  - simpl in Hnum. apply andb_prop in Hnum as [Ha Hnum].
    destruct a; try discriminate; cbn [list_to_value add_loop forallb l0_is_integer].
    + destruct has_float.
      * destruct (IH int_sum (float_sum + long_to_double integer)%float true w Hnum)
          as (v & -> & Hi & Hf). exists v. now repeat split.
      * destruct (IH (wrap_long (int_sum + integer)) float_sum false w Hnum)
          as (v & -> & Hi & Hf). exists v. now repeat split.
    + destruct (IH int_sum
                   ((if has_float then float_sum else long_to_double int_sum) + float_num)%float
                   true w Hnum) as (v & -> & Hi & Hf).
      exists v. split; [ reflexivity |]. rewrite Hi, Hf.
      destruct has_float; now split.
Qed.

Lemma multiply_loop_numbers (args : list L0_Value) :
  forall (int_product : Z) (float_product : float) (has_float : bool) (w : World),
    forallb is_number args = true ->
    exists v,
      multiply_loop (list_to_value args) int_product float_product has_float w = (Val v, w) /\
      l0_is_integer v = negb has_float && forallb l0_is_integer args /\
      l0_is_float v = has_float || negb (forallb l0_is_integer args).
Proof.
  induction args as [| a args IH]; intros int_product float_product has_float w Hnum.
  - destruct has_float; simpl; eexists; repeat split.
  - simpl in Hnum. apply andb_prop in Hnum as [Ha Hnum].
    destruct a; try discriminate; cbn [list_to_value multiply_loop forallb l0_is_integer].
    + destruct has_float.
      * destruct (IH int_product (float_product * long_to_double integer)%float true w Hnum)
          as (v & -> & Hi & Hf). exists v. now repeat split.
      * destruct (IH (wrap_long (int_product * integer)) float_product false w Hnum)
          as (v & -> & Hi & Hf). exists v. now repeat split.
    + destruct (IH int_product
                   ((if has_float then float_product else long_to_double int_product)
                    * float_num)%float
                   true w Hnum) as (v & -> & Hi & Hf).
      exists v. split; [ reflexivity |]. rewrite Hi, Hf.
      destruct has_float; now split.
Qed.

Lemma subtract_loop_numbers (args : list L0_Value) :
  forall (int_result : Z) (float_result : float) (has_float : bool) (w : World),
    forallb is_number args = true ->
    exists v,
      subtract_loop (list_to_value args) int_result float_result has_float w = (Val v, w) /\
      l0_is_integer v = negb has_float && forallb l0_is_integer args /\
      l0_is_float v = has_float || negb (forallb l0_is_integer args).
Proof.
  induction args as [| a args IH]; intros int_result float_result has_float w Hnum.
  - destruct has_float; simpl; eexists; repeat split.
  - simpl in Hnum. apply andb_prop in Hnum as [Ha Hnum].
    destruct (as_double_number a Ha) as [d Ed].
    cbn [list_to_value subtract_loop forallb].
    rewrite (get_numeric_as_double_number a "-" w d Ed).
    destruct a; try discriminate; cbn [l0_is_float l0_is_integer andb orb negb].
    + destruct has_float; cbn [andb orb negb].
      * destruct (IH int_result (float_result - d)%float true w Hnum)
          as (v & -> & Hi & Hf). exists v. now repeat split.
      * destruct (IH (wrap_long (int_result - double_to_long d)) float_result false w Hnum)
          as (v & -> & Hi & Hf). exists v. now repeat split.
    + destruct has_float; cbn [andb orb negb].
      * destruct (IH int_result (float_result - d)%float true w Hnum)
          as (v & -> & Hi & Hf). exists v. now repeat split.
      * destruct (IH int_result (long_to_double int_result - d)%float true w Hnum)
          as (v & -> & Hi & Hf). exists v. now repeat split.
Qed.

Lemma divide_loop_numbers (args : list L0_Value) :
  forall (result_d : float) (w : World),
    forallb is_number args = true ->
    (existsb is_zero args = false ->
     exists f, divide_loop (list_to_value args) result_d w = (Val (L0_Float f), w)) /\
    (existsb is_zero args = true ->
     divide_loop (list_to_value args) result_d w
     = (Null, set_error L0_PARSE_ERROR_RUNTIME (Some "Primitive '/': Division by zero.") w)).
Proof.
  induction args as [| a args IH]; intros result_d w Hnum.
  - split; [ intros _; eexists; reflexivity | discriminate ].
  - simpl in Hnum. apply andb_prop in Hnum as [Ha Hnum].
    destruct (as_double_number a Ha) as [d Ed].
    cbn [list_to_value divide_loop existsb].
    rewrite (get_numeric_as_double_number a "/" w d Ed).
    unfold is_zero at 1 3. rewrite Ed.
    destruct (d =? 0)%float; cbn [orb].
    + split; [ discriminate | reflexivity ].
    + apply IH. exact Hnum.
Qed.

(** A non-number in the list makes each loop fail with a runtime error. *)
Lemma add_loop_non_number (args : list L0_Value) :
  forall (int_sum : Z) (float_sum : float) (has_float : bool) (w : World),
    forallb is_number args = false ->
    fails_at w (add_loop (list_to_value args) int_sum float_sum has_float w).
Proof.
  induction args as [| a args IH]; intros int_sum float_sum has_float w Hnum;
    [ discriminate |].
  simpl in Hnum. destruct (is_number a) eqn:Ha.
  - destruct a; try discriminate; cbn [list_to_value add_loop];
      [ destruct has_float |]; now apply IH.
  - destruct a; try discriminate; eexists; reflexivity.
Qed.

Lemma multiply_loop_non_number (args : list L0_Value) :
  forall (int_product : Z) (float_product : float) (has_float : bool) (w : World),
    forallb is_number args = false ->
    fails_at w (multiply_loop (list_to_value args) int_product float_product has_float w).
Proof.
  induction args as [| a args IH]; intros int_product float_product has_float w Hnum;
    [ discriminate |].
  simpl in Hnum. destruct (is_number a) eqn:Ha.
  - destruct a; try discriminate; cbn [list_to_value multiply_loop];
      [ destruct has_float |]; now apply IH.
  - destruct a; try discriminate; eexists; reflexivity.
Qed.

Lemma subtract_loop_non_number (args : list L0_Value) :
  forall (int_result : Z) (float_result : float) (has_float : bool) (w : World),
    forallb is_number args = false ->
    fails_at w (subtract_loop (list_to_value args) int_result float_result has_float w).
Proof.
  induction args as [| a args IH]; intros int_result float_result has_float w Hnum;
    [ discriminate |].
  simpl in Hnum. cbn [list_to_value subtract_loop]. destruct (is_number a) eqn:Ha.
  - destruct (as_double_number a Ha) as [d Ed].
    rewrite (get_numeric_as_double_number a "-" w d Ed).
    destruct (has_float || l0_is_float a && negb has_float); now apply IH.
  - rewrite (get_numeric_as_double_other a "-" w Ha). eexists; reflexivity.
Qed.

Lemma divide_loop_non_number (args : list L0_Value) :
  forall (result_d : float) (w : World),
    forallb is_number args = false ->
    fails_at w (divide_loop (list_to_value args) result_d w).
Proof.
  induction args as [| a args IH]; intros result_d w Hnum; [ discriminate |].
  simpl in Hnum. cbn [list_to_value divide_loop]. destruct (is_number a) eqn:Ha.
  - destruct (as_double_number a Ha) as [d Ed].
    rewrite (get_numeric_as_double_number a "/" w d Ed).
    destruct (d =? 0)%float; [ eexists; reflexivity | now apply IH ].
  - rewrite (get_numeric_as_double_other a "/" w Ha). eexists; reflexivity.
Qed.

(** C6 (as amended). On a proper argument list:
    - [+] and [*] of numbers return an Integer when every argument is an
      Integer and a Float otherwise;
    - [-] of a non-empty list of numbers does the same;
    - [/] of a non-empty list of numbers returns a Float unless it
      divides by zero, and fails with a runtime error when it does;
    - each of the four fails with a runtime error (null sentinel, slot
      set) when some argument is not a number;
    - [+] and [*] applied to no argument return the Integers 0 and 1;
    - [-] and [/] applied to no argument fail with the runtime error
      "Requires at least one argument.". *)
Theorem C6_arithmetic_result_kinds (env : L0_Env) (w : World) :
  (forall args,
      forallb is_number args = true ->
      (exists v, prim_add (list_to_value args) env w = (Val v, w) /\ kind_matches args v) /\
      (exists v, prim_multiply (list_to_value args) env w = (Val v, w) /\ kind_matches args v)) /\
  (forall args,
      args <> [] ->
      forallb is_number args = true ->
      exists v, prim_subtract (list_to_value args) env w = (Val v, w) /\ kind_matches args v) /\
  (forall first rest,
      forallb is_number (first :: rest) = true ->
      divides_by_zero first rest = false ->
      exists f, prim_divide (list_to_value (first :: rest)) env w = (Val (L0_Float f), w)) /\
  (forall first rest,
      forallb is_number (first :: rest) = true ->
      divides_by_zero first rest = true ->
      fails_at w (prim_divide (list_to_value (first :: rest)) env w)) /\
  (forall args,
      forallb is_number args = false ->
      fails_at w (prim_add (list_to_value args) env w) /\
      fails_at w (prim_subtract (list_to_value args) env w) /\
      fails_at w (prim_multiply (list_to_value args) env w) /\
      fails_at w (prim_divide (list_to_value args) env w)) /\
  prim_add L0_NIL env w = (Val (L0_Integer 0), w) /\
  prim_multiply L0_NIL env w = (Val (L0_Integer 1), w) /\
  prim_subtract L0_NIL env w
  = (Null, set_error L0_PARSE_ERROR_RUNTIME
             (Some "Primitive '-': Requires at least one argument.") w) /\
  prim_divide L0_NIL env w
  = (Null, set_error L0_PARSE_ERROR_RUNTIME
             (Some "Primitive '/': Requires at least one argument.") w).
Proof.
  split; [| split; [| split; [| split; [| split; [| repeat split ]]]]].
  - intros args Hnum. split.
    + destruct (add_loop_numbers args 0 0%float false w Hnum) as (v & Heq & Hi & Hf).
      exists v. split; [ exact Heq | split; assumption ].
    + destruct (multiply_loop_numbers args 1 1%float false w Hnum) as (v & Heq & Hi & Hf).
      exists v. split; [ exact Heq | split; assumption ].
  - intros [| first rest] Hne Hnum; [ contradiction |].
    simpl in Hnum. apply andb_prop in Hnum as [Hfirst Hnum].
    destruct (as_double_number first Hfirst) as [d Ed].
    cbn [list_to_value prim_subtract].
    rewrite (get_numeric_as_double_number first "-" w d Ed).
    destruct rest as [| next rest].
    + cbn [list_to_value l0_is_nil].
      destruct first; try discriminate; eexists; split; try reflexivity; now split.
    + change (l0_is_nil (list_to_value (next :: rest))) with false. cbv iota.
      destruct (subtract_loop_numbers (next :: rest) (double_to_long d) d
                  (l0_is_float first) w Hnum) as (v & Heq & Hi & Hf).
      exists v. split; [ exact Heq |]. unfold kind_matches. rewrite Hi, Hf.
      destruct first; try discriminate; now split.
  - intros first rest Hnum Hzero.
    simpl in Hnum. apply andb_prop in Hnum as [Hfirst Hnum].
    destruct (as_double_number first Hfirst) as [d Ed].
    cbn [list_to_value prim_divide].
    rewrite (get_numeric_as_double_number first "/" w d Ed).
    destruct rest as [| next rest].
    + cbn [list_to_value l0_is_nil]. unfold divides_by_zero, is_zero in Hzero.
      rewrite Ed in Hzero. rewrite Hzero. eexists; reflexivity.
    + change (l0_is_nil (list_to_value (next :: rest))) with false. cbv iota.
      now apply (divide_loop_numbers (next :: rest) d w Hnum).
  - intros first rest Hnum Hzero.
    simpl in Hnum. apply andb_prop in Hnum as [Hfirst Hnum].
    destruct (as_double_number first Hfirst) as [d Ed].
    cbn [list_to_value prim_divide].
    rewrite (get_numeric_as_double_number first "/" w d Ed).
    destruct rest as [| next rest].
    + cbn [list_to_value l0_is_nil]. unfold divides_by_zero, is_zero in Hzero.
      rewrite Ed in Hzero. rewrite Hzero. eexists; reflexivity.
    + change (l0_is_nil (list_to_value (next :: rest))) with false. cbv iota.
      destruct (divide_loop_numbers (next :: rest) d w Hnum) as [_ H].
      rewrite (H Hzero). eexists; reflexivity.
  - intros args Hnum. split; [| split; [| split ]].
    + now apply add_loop_non_number.
    + destruct args as [| first rest]; [ discriminate |].
      simpl in Hnum. cbn [list_to_value prim_subtract].
      destruct (is_number first) eqn:Hfirst.
      * destruct (as_double_number first Hfirst) as [d Ed].
        rewrite (get_numeric_as_double_number first "-" w d Ed).
        destruct rest as [| next rest]; [ discriminate |].
        change (l0_is_nil (list_to_value (next :: rest))) with false. cbv iota.
        now apply subtract_loop_non_number.
      * rewrite (get_numeric_as_double_other first "-" w Hfirst). eexists; reflexivity.
    + now apply multiply_loop_non_number.
    + destruct args as [| first rest]; [ discriminate |].
      simpl in Hnum. cbn [list_to_value prim_divide].
      destruct (is_number first) eqn:Hfirst.
      * destruct (as_double_number first Hfirst) as [d Ed].
        rewrite (get_numeric_as_double_number first "/" w d Ed).
        destruct rest as [| next rest]; [ discriminate |].
        change (l0_is_nil (list_to_value (next :: rest))) with false. cbv iota.
        now apply divide_loop_non_number.
      * rewrite (get_numeric_as_double_other first "/" w Hfirst). eexists; reflexivity.
Qed.

(** [(- 7 2)] is an Integer, [(/ 6 3)] a Float, [(/ 6 0)] and [(+ 1 "a")]
    fail. *)
Lemma C6_arithmetic_result_kinds_witness :
  (exists v, prim_subtract (list_to_value [L0_Integer 7; L0_Integer 2]) 0%nat global_world
             = (Val v, global_world) /\ l0_is_integer v = true) /\
  (exists f, prim_divide (list_to_value [L0_Integer 6; L0_Integer 3]) 0%nat global_world
             = (Val (L0_Float f), global_world)) /\
  fails_at global_world
    (prim_divide (list_to_value [L0_Integer 6; L0_Integer 0]) 0%nat global_world) /\
  fails_at global_world
    (prim_add (list_to_value [L0_Integer 1; L0_String "a"]) 0%nat global_world).
Proof.
  destruct (C6_arithmetic_result_kinds 0%nat global_world)
    as (_ & Hsub & Hdiv & Hzero & Hother & _).
  split; [| split; [| split ]].
  - destruct (Hsub [L0_Integer 7; L0_Integer 2]) as (v & Heq & Hint & _);
      [ discriminate | reflexivity |].
    exists v. split; [ exact Heq | exact Hint ].
  - apply (Hdiv (L0_Integer 6) [L0_Integer 3]); reflexivity.
  - apply (Hzero (L0_Integer 6) [L0_Integer 0]); reflexivity.
  - apply (Hother [L0_Integer 1; L0_String "a"]). reflexivity.
Defined.

(** The claim as stated fails on the empty argument list: it is a list
    of numbers, all of them Integers, yet [-] returns no Integer and [/]
    no Float; both return the null sentinel. *)
Lemma C6_no_argument_counterexample :
  forallb is_number [] = true /\
  forallb l0_is_integer [] = true /\
  prim_subtract (list_to_value []) 0%nat global_world
  = (Null, set_error L0_PARSE_ERROR_RUNTIME
             (Some "Primitive '-': Requires at least one argument.") global_world) /\
  prim_divide (list_to_value []) 0%nat global_world
  = (Null, set_error L0_PARSE_ERROR_RUNTIME
             (Some "Primitive '/': Requires at least one argument.") global_world).
Proof. repeat split. Qed.

(** ** C4 *)

Lemma find_in_macro_table_world (name : string) (table : L0_Value) (w : World) :
  forall r w', find_in_macro_table name table w = (r, w') ->
               w' = w \/ exists m, w' = set_error L0_PARSE_ERROR_RUNTIME (Some m) w.
Proof.
  induction table; intros r w'; simpl; try (intros [= <- <-]; eauto; fail).
  destruct table1; try (intros [= <- <-]; eauto; fail).
  destruct (match table1_1 with L0_Symbol n => String.eqb name n | _ => false end).
  - destruct (negb (l0_is_closure table1_2)); intros [= <- <-]; eauto.
  - apply IHtable2.
Qed.

Lemma find_macro_transformer_world (op : L0_Value) (env : L0_Env) (w : World) :
  forall r w', find_macro_transformer op env w = (r, w') ->
               w' = w \/ exists m, w' = set_error L0_PARSE_ERROR_RUNTIME (Some m) w.
Proof.
  intros r w'. unfold find_macro_transformer.
  destruct op; try (intros [= <- <-]; eauto; fail).
  destruct (l0_env_lookup env "*macro-table*" w) as [table |];
    [| intros [= <- <-]; eauto ].
  destruct (negb (l0_is_list table)); [ intros [= <- <-]; eauto |].
  apply find_in_macro_table_world.
Qed.

Lemma find_in_macro_table_set_depth (name : string) (table : L0_Value) (d : Z) (w : World) :
  find_in_macro_table name table (set_macroexpand_depth d w) =
  (fst (find_in_macro_table name table w),
   set_macroexpand_depth d (snd (find_in_macro_table name table w))).
Proof.
  induction table; simpl; try reflexivity.
  destruct table1; try reflexivity.
  destruct (match table1_1 with L0_Symbol n => String.eqb name n | _ => false end).
  - destruct (negb (l0_is_closure table1_2)); reflexivity.
  - apply IHtable2.
Qed.

Lemma find_macro_transformer_set_depth (op : L0_Value) (env : L0_Env) (d : Z) (w : World) :
  find_macro_transformer op env (set_macroexpand_depth d w) =
  (fst (find_macro_transformer op env w),
   set_macroexpand_depth d (snd (find_macro_transformer op env w))).
Proof.
  unfold find_macro_transformer. destruct op; try reflexivity.
  change (l0_env_lookup env "*macro-table*" (set_macroexpand_depth d w))
    with (l0_env_lookup env "*macro-table*" w).
  destruct (l0_env_lookup env "*macro-table*" w) as [table |]; [| reflexivity ].
  destruct (negb (l0_is_list table)); [ reflexivity |].
  apply find_in_macro_table_set_depth.
Qed.

Lemma macro_free_set_depth (env : L0_Env) (d : Z) (w : World) (e : L0_Value) :
  macro_free env (set_macroexpand_depth d w) e = macro_free env w e.
Proof.
  induction e; try reflexivity. simpl.
  rewrite IHe1, IHe2, find_macro_transformer_set_depth.
  destruct (find_macro_transformer e1 env w) as [[t |] w']; reflexivity.
Qed.

Lemma leave_macroexpand_enter (w : World) :
  leave_macroexpand (set_macroexpand_depth (macroexpand_depth w + 1) w) = w.
Proof.
  destruct w; unfold leave_macroexpand, set_macroexpand_depth; simpl. f_equal. lia.
Qed.

Lemma walk_depth_pos (e : L0_Value) : (1 <= walk_depth e)%nat.
Proof. destruct e; simpl; try lia. destruct (is_quote e1); lia. Qed.

Lemma macroexpand_depth_test_pass (w : World) :
  macroexpand_depth w + 1 <= MAX_MACROEXPAND_DEPTH ->
  (MAX_MACROEXPAND_DEPTH <?
   macroexpand_depth (set_macroexpand_depth (macroexpand_depth w + 1) w)) = false.
Proof. intros H. simpl. apply Z.ltb_ge. exact H. Qed.

(** On a form without macro calls the expander is the identity and
    restores its counter. *)
Lemma l0_macroexpand_macro_free host (env : L0_Env) (e : L0_Value) :
  forall (fuel : nat) (w : World),
    world_ok w = true ->
    macro_free env w e = true ->
    macroexpand_depth w + Z.of_nat (walk_depth e) <= MAX_MACROEXPAND_DEPTH ->
    (walk_depth e <= fuel)%nat ->
    l0_macroexpand host fuel e env w = (Val e, w).
Proof.
  induction e as [| | | | op IHop args IHargs | | | | |];
    intros fuel w Hok Hfree Hdepth Hfuel;
    match type of Hfuel with
    | (walk_depth ?e <= _)%nat => pose proof (walk_depth_pos e) as Hpos
    end;
    (destruct fuel as [| n]; [ lia |]);
    cbn [l0_macroexpand];
    rewrite macroexpand_depth_test_pass by lia;
    try (now rewrite leave_macroexpand_enter).
  cbn [macro_free walk_depth] in Hfree, Hdepth, Hfuel.
  destruct (is_quote op) eqn:Hq; [ now rewrite leave_macroexpand_enter |].
  cbn [orb] in Hfree.
  apply andb_prop in Hfree as [Hfree Hfargs]. apply andb_prop in Hfree as [Hfind Hfop].
  rewrite find_macro_transformer_set_depth.
  destruct (find_macro_transformer op env w) as [[t |] w1] eqn:Efind; [ discriminate |].
  cbn [fst snd].
  assert (Hw1 : w1 = w).
  { destruct (find_macro_transformer_world op env w _ _ Efind) as [-> | [m ->]];
      [ reflexivity | discriminate ]. }
  subst w1.
  set (w_in := set_macroexpand_depth (macroexpand_depth w + 1) w).
  assert (Hok_in : world_ok w_in = true) by exact Hok.
  assert (Hmd : macroexpand_depth w_in = macroexpand_depth w + 1) by reflexivity.
  rewrite Hok_in. cbn [negb]. unfold bind_or.
  rewrite (IHop n w_in Hok_in);
    [| unfold w_in; now rewrite macro_free_set_depth | lia | lia ].
  rewrite Hok_in.
  rewrite (IHargs n w_in Hok_in);
    [| unfold w_in; now rewrite macro_free_set_depth | lia | lia ].
  rewrite Hok_in. unfold w_in. now rewrite leave_macroexpand_enter.
Qed.

Lemma find_in_macro_table_some (name : string) (table : L0_Value) (w : World) :
  forall t w', find_in_macro_table name table w = (Some t, w') -> w' = w.
Proof.
  induction table; intros t w'; simpl; try discriminate.
  destruct table1; try discriminate.
  destruct (match table1_1 with L0_Symbol n => String.eqb name n | _ => false end).
  - destruct (negb (l0_is_closure table1_2)); [ discriminate | now intros [= _ <-] ].
  - apply IHtable2.
Qed.

Lemma find_macro_transformer_some (op : L0_Value) (env : L0_Env) (w : World) :
  forall t w', find_macro_transformer op env w = (Some t, w') -> w' = w.
Proof.
  intros t w'. unfold find_macro_transformer.
  destruct op; try discriminate.
  destruct (l0_env_lookup env "*macro-table*" w) as [table |]; [| discriminate ].
  destruct (negb (l0_is_list table)); [ discriminate |].
  apply find_in_macro_table_some.
Qed.

Lemma find_in_macro_table_same (name : string) (table : L0_Value) (w1 w2 : World) :
  world_ok w1 = world_ok w2 ->
  match find_in_macro_table name table w1 with
  | (None, w') => world_ok w'
  | (Some _, _) => false
  end
  = match find_in_macro_table name table w2 with
    | (None, w') => world_ok w'
    | (Some _, _) => false
    end.
Proof.
  intros Hok. induction table; simpl; try reflexivity; try exact Hok.
  destruct table1; try reflexivity.
  destruct (match table1_1 with L0_Symbol n => String.eqb name n | _ => false end).
  - destruct (negb (l0_is_closure table1_2)); reflexivity.
  - apply IHtable2.
Qed.

Lemma not_macro_same (env : L0_Env) (w1 w2 : World) (op : L0_Value) :
  macro_table env w1 = macro_table env w2 ->
  world_ok w1 = world_ok w2 ->
  not_macro env w1 op = not_macro env w2 op.
Proof.
  unfold macro_table, not_macro, find_macro_transformer. intros Htable Hok.
  destruct op; try exact Hok.
  rewrite Htable.
  destruct (l0_env_lookup env "*macro-table*" w2) as [table |]; [| exact Hok ].
  destruct (negb (l0_is_list table)); [ reflexivity |].
  now apply find_in_macro_table_same.
Qed.

Lemma macro_free_not_macro (env : L0_Env) (w : World) (op args : L0_Value) :
  macro_free env w (L0_Pair op args)
  = is_quote op || (not_macro env w op && macro_free env w op && macro_free env w args).
Proof. reflexivity. Qed.

Lemma macro_free_same (env : L0_Env) (w1 w2 : World) (e : L0_Value) :
  macro_table env w1 = macro_table env w2 ->
  world_ok w1 = world_ok w2 ->
  macro_free env w1 e = macro_free env w2 e.
Proof.
  intros Htable Hok. induction e; try reflexivity.
  rewrite !macro_free_not_macro, IHe1, IHe2, (not_macro_same env w1 w2 e1 Htable Hok).
  reflexivity.
Qed.

Lemma not_macro_not_symbol (env : L0_Env) (w : World) (v : L0_Value) :
  l0_is_symbol v = false -> not_macro env w v = world_ok w.
Proof. destruct v; try discriminate; reflexivity. Qed.

Lemma not_macro_find (env : L0_Env) (w : World) (op : L0_Value) :
  not_macro env w op = true -> find_macro_transformer op env w = (None, w).
Proof.
  unfold not_macro. destruct (find_macro_transformer op env w) as [[t |] w'] eqn:E;
    [ discriminate |].
  intros Hok.
  destruct (find_macro_transformer_world op env w _ _ E) as [-> | [m ->]];
    [ reflexivity | discriminate ].
Qed.

Section Expanded.

Variable host : L0_PrimitiveFunc -> Interp -> L0_Value -> L0_Env -> M.
Variable env : L0_Env.
Variable w0 : World.
Hypothesis Hpure : transformers_keep_table host env w0.
Hypothesis Hsym : no_macro_name_from_expansion host env w0.

(** What a successful expansion returns has no macro call left where the
    expander looks, and the walk over it stays within the budget and the
    depth limit of the expansion that produced it. *)
Lemma macroexpand_result_expanded (fuel : nat) :
  forall e w r w',
    macro_table env w = macro_table env w0 ->
    world_ok w = true ->
    l0_macroexpand host fuel e env w = (Val r, w') ->
    macro_table env w' = macro_table env w0 /\
    world_ok w' = true /\
    macroexpand_depth w' = macroexpand_depth w /\
    macro_free env w' r = true /\
    (walk_depth r <= fuel)%nat /\
    macroexpand_depth w + Z.of_nat (walk_depth r) <= MAX_MACROEXPAND_DEPTH.
Proof.
  induction fuel as [| n IH]; intros e w r w' Htable Hok; [ discriminate |].
  cbn [l0_macroexpand]. cbv zeta.
  set (w_in := set_macroexpand_depth (macroexpand_depth w + 1) w).
  destruct (MAX_MACROEXPAND_DEPTH <? macroexpand_depth w_in) eqn:Hguard; [ discriminate |].
  apply Z.ltb_ge in Hguard. cbn [w_in macroexpand_depth set_macroexpand_depth] in Hguard.
  assert (Hunchanged : forall x,
             (Val x, leave_macroexpand w_in) = (Val r, w') ->
             macro_free env w x = true -> walk_depth x = 1%nat ->
             macro_table env w' = macro_table env w0 /\
             world_ok w' = true /\
             macroexpand_depth w' = macroexpand_depth w /\
             macro_free env w' r = true /\
             (walk_depth r <= S n)%nat /\
             macroexpand_depth w + Z.of_nat (walk_depth r) <= MAX_MACROEXPAND_DEPTH).
  { intros x Heq Hfree Hwalk. unfold w_in in Heq. rewrite leave_macroexpand_enter in Heq.
    injection Heq as <- <-. rewrite Hwalk. repeat split; try assumption; lia. }
  destruct e as [| b | i | s | op args | s | p f | params body cenv | f | x];
    try (intros Heq; apply (Hunchanged _ Heq); reflexivity).
  destruct (is_quote op) eqn:Hquote.
  { intros Heq. apply (Hunchanged _ Heq).
    - rewrite macro_free_not_macro, Hquote. reflexivity.
    - cbn [walk_depth]. now rewrite Hquote. }
  assert (Htable_in : macro_table env w_in = macro_table env w0) by exact Htable.
  assert (Hok_in : world_ok w_in = true) by exact Hok.
  destruct (find_macro_transformer op env w_in) as [[transformer |] w1] eqn:Efind.
  - (* a macro call *)
    pose proof (find_macro_transformer_some op env w_in _ _ Efind) as ->.
    unfold bind_or.
    destruct (l0_apply host n transformer args env w_in) as [[expanded_code | |] w2] eqn:Eapply;
      try discriminate.
    destruct (world_ok w2) eqn:Hok2; [| discriminate ].
    destruct (Hpure n op transformer args w_in expanded_code w2 Htable_in Efind Eapply)
      as [Htable2 Hdepth2].
    intros Hrest.
    destruct (IH expanded_code (leave_macroexpand w2) r w' Htable2 Hok2 Hrest)
      as (Ht & Ho & Hd & Hf & Hw & Hm).
    assert (Hleave : macroexpand_depth (leave_macroexpand w2) = macroexpand_depth w)
      by (cbn [leave_macroexpand macroexpand_depth set_macroexpand_depth];
          rewrite Hdepth2; cbn [w_in macroexpand_depth set_macroexpand_depth]; lia).
    rewrite Hleave in Hd, Hm.
    repeat split; try assumption; lia.
  - (* not a macro call: the car and the cdr are expanded *)
    destruct (world_ok w1) eqn:Hok1; cbn [negb]; [| discriminate ].
    assert (Hw1 : w1 = w_in).
    { destruct (find_macro_transformer_world op env w_in _ _ Efind) as [-> | [m ->]];
        [ reflexivity | discriminate ]. }
    subst w1. unfold bind_or.
    destruct (l0_macroexpand host n op env w_in) as [[expanded_car | |] wa] eqn:Ecar;
      try discriminate.
    destruct (world_ok wa) eqn:Hoka; [| discriminate ].
    destruct (l0_macroexpand host n args env wa) as [[expanded_cdr | |] wb] eqn:Ecdr;
      try discriminate.
    destruct (world_ok wb) eqn:Hokb; [| discriminate ].
    intros [= <- <-].
    destruct (IH op w_in expanded_car wa Htable_in Hok_in Ecar)
      as (Hta & _ & Hda & Hfa & Hwa & Hma).
    destruct (IH args wa expanded_cdr wb Hta Hoka Ecdr)
      as (Htb & _ & Hdb & Hfb & Hwb & Hmb).
    assert (Htable' : macro_table env (leave_macroexpand wb) = macro_table env w0)
      by exact Htb.
    assert (Hok' : world_ok (leave_macroexpand wb) = true) by exact Hokb.
    assert (Hdepth_in : macroexpand_depth w_in = macroexpand_depth w + 1) by reflexivity.
    split; [ exact Htable' |]. split; [ exact Hok' |].
    split; [ cbn [leave_macroexpand macroexpand_depth set_macroexpand_depth]; lia |].
    split; [| cbn [walk_depth]; destruct (is_quote expanded_car); split; lia ].
    rewrite macro_free_not_macro.
    destruct (is_quote expanded_car); [ reflexivity |]. cbn [orb].
    rewrite (macro_free_same env (leave_macroexpand wb) wa expanded_car
               (eq_trans Htable' (eq_sym Hta)) (eq_trans Hok' (eq_sym Hoka))).
    rewrite (macro_free_same env (leave_macroexpand wb) wb expanded_cdr eq_refl eq_refl).
    rewrite Hfa, Hfb, !andb_true_r.
    destruct (l0_is_symbol expanded_car) eqn:Hsymb;
      [| rewrite not_macro_not_symbol by exact Hsymb; exact Hok' ].
    destruct expanded_car as [| | | s | | | | | |]; try discriminate.
    destruct op as [| b | i | s' | op1 op2 | s' | p f | params body cenv | f | x].
    all: try (destruct n as [| n']; [ discriminate |];
              cbn [l0_macroexpand] in Ecar; cbv zeta in Ecar;
              destruct (MAX_MACROEXPAND_DEPTH <? _) in Ecar; discriminate).
    + (* the operator is this symbol, which is no macro *)
      destruct n as [| n']; [ discriminate |].
      cbn [l0_macroexpand] in Ecar. cbv zeta in Ecar.
      destruct (MAX_MACROEXPAND_DEPTH <? _) in Ecar; [ discriminate |].
      injection Ecar as <- _.
      rewrite (not_macro_same env (leave_macroexpand wb) w_in (L0_Symbol s')
                 (eq_trans Htable' (eq_sym Htable_in)) (eq_trans Hok' (eq_sym Hok_in))).
      unfold not_macro. now rewrite Efind.
    + (* the operator was a pair whose expansion is a symbol *)
      rewrite (not_macro_same env (leave_macroexpand wb) wa (L0_Symbol s)
                 (eq_trans Htable' (eq_sym Hta)) (eq_trans Hok' (eq_sym Hoka))).
      exact (Hsym n op1 op2 w_in s wa Htable_in Hok_in Ecar).
Qed.

End Expanded.


(** *** The macro table with the single macro [k] *)

Lemma lookup_from_app_some (name : string) (extra : list L0_EnvStruct) (v : L0_Value) :
  forall (h : nat) (es : list L0_EnvStruct) (e : option L0_Env),
    Env.lookup_from h es e name = Some v ->
    forall h', (h <= h')%nat -> Env.lookup_from h' (es ++ extra)%list e name = Some v.
Proof.
  induction h as [| h IH]; intros es e Hlook h' Hle; [ discriminate |].
  destruct h' as [| h']; [ lia |].
  destruct e as [e |]; [| discriminate ].
  cbn [Env.lookup_from] in *.
  destruct (nth_error es e) as [s |] eqn:Hs; [| discriminate ].
  rewrite (nth_error_app1 es extra) by (apply nth_error_Some; congruence).
  rewrite Hs.
  destruct (Env.frame_lookup name (frame s)); [ exact Hlook |].
  apply IH; [ exact Hlook | lia ].
Qed.

Lemma macro_table_extend_same (env outer_env : L0_Env) (w : World) :
  (exists table, macro_table env w = Some table) ->
  macro_table env (snd (l0_env_extend outer_env w)) = macro_table env w.
Proof.
  intros [table H]. rewrite H. revert H.
  unfold macro_table, l0_env_lookup, l0_env_extend, l0_env_create.
  cbn [snd envs set_envs]. intros H.
  apply (lookup_from_app_some _ _ _ _ _ _ H). rewrite length_app. lia.
Qed.

Lemma apply_transformer_k host (fuel : nat) (args : L0_Value) (w1 : World)
      (expanded_code : L0_Value) (w2 : World) :
  l0_apply host fuel transformer_k args 0%nat w1 = (Val expanded_code, w2) ->
  expanded_code = form_f_1 /\ w2 = snd (l0_env_extend 0%nat w1).
Proof.
  destruct fuel as [| n]; [ discriminate |].
  rewrite l0_apply_unfold. unfold l0_apply_body, transformer_k.
  destruct (l0_env_extend 0%nat w1) as [call_env w1a] eqn:Eext. cbn [snd].
  cbn [bind_params list_to_value].
  destruct (l0_is_nil args); cbn [negb orb l0_is_nil]; [| discriminate ].
  unfold l0_eval_sequence. cbn [eval_sequence_loop]. unfold bind_or.
  destruct n as [| n']; [ discriminate |].
  fold (l0_eval host (S n')). rewrite l0_eval_unfold. unfold l0_eval_body.
  destruct (MAX_EVAL_DEPTH <? _); [ discriminate |].
  cbn [get_special_form_type String.eqb Ascii.eqb Bool.eqb sf_quote].
  unfold leave_with. rewrite leave_enter by reflexivity.
  destruct (world_ok w1a); [| discriminate ].
  cbn [eval_sequence_loop ret]. intros [= <- <-]. split; reflexivity.
Qed.

Lemma find_macro_transformer_k (op : L0_Value) (env : L0_Env) (w1 : World)
      (transformer : L0_Value) (w2 : World) :
  macro_table env w1 = macro_table 0%nat macro_world_k ->
  find_macro_transformer op env w1 = (Some transformer, w2) ->
  transformer = transformer_k.
Proof.
  unfold macro_table at 1. intros Htable. unfold find_macro_transformer.
  destruct op as [| | | name | | | | | |]; try discriminate.
  rewrite Htable.
  change (macro_table 0%nat macro_world_k)
    with (Some (list_to_value [L0_Pair (L0_Symbol "k") transformer_k])).
  cbn [negb l0_is_list list_to_value find_in_macro_table l0_is_closure transformer_k].
  destruct (String.eqb name "k"); [ now intros [= <- _] | discriminate ].
Qed.

Lemma transformers_keep_table_k host :
  transformers_keep_table host 0%nat macro_world_k.
Proof.
  intros fuel op transformer args w1 expanded_code w2 Htable Hfind Happly.
  rewrite (find_macro_transformer_k op 0%nat w1 transformer w1 Htable Hfind) in Happly.
  destruct (apply_transformer_k host fuel args w1 expanded_code w2 Happly) as [_ ->].
  split; [| reflexivity ].
  rewrite <- Htable. apply macro_table_extend_same. rewrite Htable. eexists. reflexivity.
Qed.

(** With that table a pair only expands to a pair. *)
Lemma pair_expands_to_pair_k host (fuel : nat) :
  forall op args w1 r w2,
    macro_table 0%nat w1 = macro_table 0%nat macro_world_k ->
    l0_macroexpand host fuel (L0_Pair op args) 0%nat w1 = (Val r, w2) ->
    l0_is_pair r = true.
Proof.
  induction fuel as [| n IH]; intros op args w1 r w2 Htable; [ discriminate |].
  cbn [l0_macroexpand]. cbv zeta.
  set (w_in := set_macroexpand_depth (macroexpand_depth w1 + 1) w1).
  destruct (MAX_MACROEXPAND_DEPTH <? macroexpand_depth w_in); [ discriminate |].
  destruct (is_quote op); [ now intros [= <- _] |].
  assert (Htable_in : macro_table 0%nat w_in = macro_table 0%nat macro_world_k)
    by exact Htable.
  destruct (find_macro_transformer op 0%nat w_in) as [[transformer |] wf] eqn:Efind.
  - pose proof (find_macro_transformer_some op 0%nat w_in _ _ Efind) as ->.
    rewrite (find_macro_transformer_k op 0%nat w_in transformer w_in Htable_in Efind).
    unfold bind_or.
    destruct (l0_apply host n transformer_k args 0%nat w_in)
      as [[expanded_code | |] wa] eqn:Eapply; try discriminate.
    destruct (world_ok wa); [| discriminate ].
    destruct (apply_transformer_k host n args w_in expanded_code wa Eapply) as [-> ->].
    apply IH.
    change (macro_table 0%nat (snd (l0_env_extend 0%nat w_in))
            = macro_table 0%nat macro_world_k).
    rewrite <- Htable_in. apply macro_table_extend_same.
    rewrite Htable_in. eexists. reflexivity.
  - destruct (negb (world_ok wf)); [ discriminate |]. unfold bind_or.
    destruct (l0_macroexpand host n op 0%nat wf) as [[expanded_car | |] wa];
      try discriminate.
    destruct (world_ok wa); [| discriminate ].
    destruct (l0_macroexpand host n args 0%nat wa) as [[expanded_cdr | |] wb];
      try discriminate.
    destruct (world_ok wb); [| discriminate ].
    now intros [= <- _].
Qed.

Lemma no_macro_name_from_expansion_k host :
  no_macro_name_from_expansion host 0%nat macro_world_k.
Proof.
  intros fuel op args w1 s w2 Htable _ Hexp.
  now apply (pair_expands_to_pair_k host fuel op args w1 _ w2 Htable) in Hexp.
Qed.


(** [macro_world] is the world after the two definitions. *)
Lemma macro_world_from_defmacro :
  let w0 := initial_world [mkEnv [("*macro-table*", L0_NIL)] None] in
  let w1 := snd (l0_eval l0_host 3 defmacro_m 0%nat w0) in
  snd (l0_eval l0_host 3 defmacro_k 0%nat w1) = macro_world.
Proof. vm_compute. reflexivity. Qed.


(** ** C3 *)

Lemma wrap_ulong_small (z : Z) : 0 <= z < 2 ^ 64 -> wrap_ulong z = z.
Proof. intros H. unfold wrap_ulong. now apply Z.mod_small. Qed.

Lemma length_drop (n : nat) :
  forall s, String.length (drop n s) = (String.length s - n)%nat.
Proof.
  induction n as [| n IH]; intros s; simpl; [ lia |].
  destruct s; simpl; [ reflexivity | apply IH ].
Qed.

Lemma peek_not_nul_length (s : string) :
  is_nul (peek s) = false -> (1 <= String.length s)%nat.
Proof. destruct s; simpl; [ discriminate | lia ]. Qed.

Lemma strtol_digits_count (s : string) :
  forall acc n, (snd (strtol_digits s acc n) <= n + String.length s)%nat.
Proof.
  induction s as [| c r IH]; intros acc n; simpl; [ lia |].
  destruct (isdigit c); simpl; [| lia ].
  specialize (IH (acc * 10 + (Z.of_N (N_of_ascii c) - 48)) (S n)). lia.
Qed.

Lemma count_spaces_length (s : string) : (count_spaces s <= String.length s)%nat.
Proof.
  induction s as [| c r IH]; simpl; [ lia |]. destruct (isspace c); simpl; lia.
Qed.

(** [strtol] converts characters of the string only. *)
Lemma strtol_length (s : string) : (snd (strtol s) <= String.length s)%nat.
Proof.
  unfold strtol.
  pose proof (count_spaces_length s) as Hsp.
  set (s1 := drop (count_spaces s) s).
  assert (Hs1 : String.length s1 = (String.length s - count_spaces s)%nat)
    by apply length_drop.
  assert (Hsign : forall b k, (b, k) =
        (if Ascii.eqb (peek s1) "-" then (true, 1%nat)
         else if Ascii.eqb (peek s1) "+" then (false, 1%nat) else (false, O)) ->
        (k <= String.length s1)%nat).
  { intros b k. destruct s1 as [| c r]; simpl.
    - intros [= -> ->]. lia.
    - destruct (Ascii.eqb c "-"); [ intros [= -> ->]; lia |].
      destruct (Ascii.eqb c "+"); intros [= -> ->]; lia. }
  destruct (if Ascii.eqb (peek s1) "-" then (true, 1%nat)
            else if Ascii.eqb (peek s1) "+" then (false, 1%nat) else (false, O))
    as [negative sign_len] eqn:Esign.
  specialize (Hsign negative sign_len eq_refl).
  pose proof (strtol_digits_count (drop sign_len s1) 0 O) as Hd.
  rewrite length_drop in Hd.
  destruct (strtol_digits (drop sign_len s1) 0 0) as [magnitude digits].
  simpl in Hd. destruct digits; simpl; lia.
Qed.

Lemma scan_string_literal_length (s : string) :
  forall escaped content rest n,
    scan_string_literal s escaped = Some (content, rest, n) ->
    (String.length rest + n + 1 = String.length s)%nat.
Proof.
  induction s as [| c r IH]; intros escaped content rest n; simpl; [ discriminate |].
  destruct (is_nul c); [ discriminate |].
  destruct escaped.
  - destruct (scan_string_literal r false) as [[[ct rs] k] |] eqn:E; [| discriminate ].
    intros [= <- <- <-]. specialize (IH false ct rs k E). lia.
  - destruct (Ascii.eqb c backslash).
    + destruct (scan_string_literal r true) as [[[ct rs] k] |] eqn:E; [| discriminate ].
      intros [= <- <- <-]. specialize (IH true ct rs k E). lia.
    + destruct (Ascii.eqb c double_quote).
      * intros [= <- <- <-]. lia.
      * destruct (scan_string_literal r false) as [[[ct rs] k] |] eqn:E; [| discriminate ].
        intros [= <- <- <-]. specialize (IH false ct rs k E). lia.
Qed.

Lemma starts_with_length (prefix s : string) :
  starts_with prefix s = true -> (String.length prefix <= String.length s)%nat.
Proof.
  unfold starts_with. intros H. apply String.eqb_eq in H.
  assert (Htake : forall n t, (String.length (take n t) <= String.length t)%nat).
  { induction n as [| n IH]; intros t; simpl; [ lia |].
    destruct t; simpl; [ lia | specialize (IH t); lia ]. }
  specialize (Htake (String.length prefix) s). rewrite H in Htake. exact Htake.
Qed.

Lemma symbol_length_bound (s : string) : (symbol_length s <= String.length s)%nat.
Proof.
  induction s as [| c r IH]; simpl; [ lia |].
  destruct (negb (is_nul c) && is_symbol_char c); simpl; lia.
Qed.

Section ReaderProperties.

(** The C library function and its contract: it converts characters of
    the string it is given. *)
Variable strtod : string -> float * nat * bool.
Hypothesis strtod_within :
  forall s, (snd (fst (strtod s)) <= String.length s)%nat.

(** The length of the whole input; a C string is shorter than the
    address space. *)
Variable input_length : Z.
Hypothesis input_fits : input_length + 1 < 2 ^ 64.

Lemma skip_from_ok (s : string) :
  forall in_comment ln cl,
    position_ok input_length (mkState s ln cl) ->
    position_ok input_length (skip_from in_comment s ln cl) /\
    (String.length (current_pos (skip_from in_comment s ln cl)) <= String.length s)%nat.
Proof.
  induction s as [| c r IH]; intros in_comment ln cl Hpos;
    cbn [skip_from]; [ split; [ exact Hpos | cbn [current_pos]; lia ] |].
  destruct (is_nul c); [ split; [ exact Hpos | cbn [current_pos]; lia ] |].
  destruct Hpos as (Hl & Hc & Hlb & Hcb).
  cbn [current_pos line col String.length] in Hl, Hc, Hlb, Hcb.
  assert (Hcol : position_ok input_length (mkState r ln (wrap_ulong (cl + 1)))).
  { rewrite wrap_ulong_small by lia.
    unfold position_ok; cbn [current_pos line col]. lia. }
  assert (Hnext : forall b,
            position_ok input_length (skip_from b r ln (wrap_ulong (cl + 1))) /\
            (String.length (current_pos (skip_from b r ln (wrap_ulong (cl + 1))))
             <= String.length (String c r))%nat).
  { intros b. destruct (IH b ln (wrap_ulong (cl + 1)) Hcol) as [H1 H2].
    split; [ exact H1 | cbn [String.length]; lia ]. }
  destruct (Ascii.eqb c newline).
  - assert (Hline : position_ok input_length (mkState r (wrap_ulong (ln + 1)) 1)).
    { rewrite wrap_ulong_small by lia.
      unfold position_ok; cbn [current_pos line col]. lia. }
    destruct (IH false _ _ Hline) as [H1 H2].
    split; [ exact H1 | cbn [String.length]; lia ].
  - destruct in_comment; [ apply Hnext |].
    destruct (isspace c); [ apply Hnext |].
    destruct (Ascii.eqb c ";"); [ apply Hnext |].
    split; [ unfold position_ok; cbn [current_pos line col String.length]; lia
           | cbn [current_pos]; lia ].
Qed.

Lemma skip_whitespace_and_comments_ok (st : ParserState) :
  position_ok input_length st ->
  position_ok input_length (skip_whitespace_and_comments st) /\
  (String.length (current_pos (skip_whitespace_and_comments st))
   <= String.length (current_pos st))%nat.
Proof.
  intros H. unfold skip_whitespace_and_comments. apply skip_from_ok.
  destruct st; exact H.
Qed.

Lemma advance_by_ok (n : nat) (st : ParserState) :
  position_ok input_length st ->
  (n <= String.length (current_pos st))%nat ->
  position_ok input_length (advance_by n st) /\
  String.length (current_pos (advance_by n st)) = (String.length (current_pos st) - n)%nat.
Proof.
  intros (Hl & Hc & Hlb & Hcb) Hn. unfold advance_by, position_ok.
  cbn [current_pos line col]. rewrite length_drop.
  rewrite wrap_ulong_small by lia. lia.
Qed.

Lemma slot_reports_error_not_ok (w : World) : slot_reports_error w -> world_ok w = false.
Proof.
  intros (Hs & _). unfold world_ok. destruct (l0_parser_error_status w); [ contradiction | | | |]; reflexivity.
Qed.

Lemma set_parser_error_reports (st : ParserState) (status : L0_ParseStatus)
      (msg : string) (w : World) :
  position_ok input_length st ->
  status <> L0_PARSE_OK ->
  msg <> EmptyString ->
  slot_reports_error (set_parser_error (Some st) status (Some msg) w).
Proof.
  intros (Hl & Hc & _) Hs Hm. unfold slot_reports_error. cbn.
  repeat split; try assumption. exists msg. now split.
Qed.

Lemma parse_string_literal_ok (st : ParserState) (w : World) :
  position_ok input_length st ->
  is_nul (peek (current_pos st)) = false ->
  token_post input_length st w (parse_string_literal st w).
Proof.
  intros Hpos Hnul. pose proof (peek_not_nul_length _ Hnul) as Hlen.
  unfold parse_string_literal.
  destruct (advance_by_ok 1 st Hpos Hlen) as [Hadv Hadvlen]. fold (advance st) in Hadv, Hadvlen.
  destruct (scan_string_literal (current_pos (advance st)) false) as [[[content rest] n] |] eqn:E.
  - pose proof (scan_string_literal_length _ _ _ _ _ E) as Hscan.
    destruct Hadv as (Hl & Hc & Hlb & Hcb).
    unfold token_post, consumed_ok, position_ok. cbn [current_pos line col].
    rewrite wrap_ulong_small by lia. split; [ reflexivity | lia ].
  - cbn [token_post]. apply set_parser_error_reports; [ exact Hadv | discriminate | discriminate ].
Qed.

Lemma parse_atom_ok (st : ParserState) (w : World) :
  position_ok input_length st ->
  is_nul (peek (current_pos st)) = false ->
  token_post input_length st w (parse_atom strtod st w).
Proof.
  intros Hpos Hnul. pose proof (peek_not_nul_length _ Hnul) as Hlen.
  assert (Hstep : forall n v,
             (0 <? n)%nat = true ->
             (n <= String.length (current_pos st))%nat ->
             token_post input_length st w (Val v, advance_by n st, w)).
  { intros n v Hn Hle. apply Nat.ltb_lt in Hn.
    destruct (advance_by_ok n st Hpos Hle) as [Hadv Hadvlen].
    cbn [token_post]. unfold consumed_ok. split; [ reflexivity | split; [ exact Hadv | lia ] ]. }
  unfold parse_atom.
  pose proof (strtol_length (current_pos st)) as Hint.
  destruct (strtol (current_pos st)) as [int_val int_len]. cbn [snd] in Hint.
  destruct ((0 <? int_len)%nat && is_separator (peek (drop int_len (current_pos st)))) eqn:Eint.
  { apply andb_prop in Eint as [Eint _]. now apply Hstep. }
  pose proof (strtod_within (current_pos st)) as Hfloat.
  destruct (strtod (current_pos st)) as [[float_val float_len] errno_ok].
  cbn [fst snd] in Hfloat.
  destruct ((0 <? float_len)%nat && errno_ok && has_float_syntax (current_pos st) float_len
            && is_separator (peek (drop float_len (current_pos st)))) eqn:Efloat.
  { apply andb_prop in Efloat as [Efloat _]. apply andb_prop in Efloat as [Efloat _].
    apply andb_prop in Efloat as [Efloat _]. now apply Hstep. }
  destruct (starts_with "#t" (current_pos st)
            && is_separator (peek (drop 2 (current_pos st)))) eqn:Etrue.
  { apply andb_prop in Etrue as [Etrue _]. apply starts_with_length in Etrue.
    apply Hstep; [ reflexivity | exact Etrue ]. }
  destruct (negb (starts_with "#t" (current_pos st)) && starts_with "#f" (current_pos st)
            && is_separator (peek (drop 2 (current_pos st)))) eqn:Efalse.
  { apply andb_prop in Efalse as [Efalse _]. apply andb_prop in Efalse as [_ Efalse].
    apply starts_with_length in Efalse. apply Hstep; [ reflexivity | exact Efalse ]. }
  destruct (is_symbol_start_char (peek (current_pos st))
            && is_separator
                 (peek (drop (S (symbol_length (drop 1 (current_pos st)))) (current_pos st))))
    eqn:Esym.
  { apply Hstep; [ reflexivity |].
    pose proof (symbol_length_bound (drop 1 (current_pos st))) as Hs.
    rewrite length_drop in Hs. lia. }
  cbn [token_post]. destruct Hpos as (Hl & Hc & _).
  unfold slot_reports_error. cbn. repeat split; try assumption; try discriminate.
  eexists; split; [ reflexivity | discriminate ].
Qed.

(** A reader macro around a parse that obeys [sexpr_post] obeys
    [token_post]: the missing expression is reported. *)
Lemma reader_macro_ok (symbol_name eof_message : string) (st st_in : ParserState)
      (w : World) (parsed : result * ParserState * World) :
  world_ok w = true ->
  eof_message <> EmptyString ->
  (String.length (current_pos st_in) <= String.length (current_pos st))%nat ->
  sexpr_post input_length st_in w parsed ->
  token_post input_length st w (reader_macro symbol_name eof_message parsed).
Proof.
  intros Hok Hmsg Hlen. destruct parsed as [[[v | |] st'] w']; cbn [sexpr_post reader_macro token_post].
  - intros (-> & Hpos & Hlt). split; [ reflexivity | split; [ exact Hpos | lia ] ].
  - intros [Herr | (-> & Hpos & _)].
    + now rewrite (slot_reports_error_not_ok _ Herr).
    + rewrite Hok. apply set_parser_error_reports; [ exact Hpos | discriminate | exact Hmsg ].
  - intros [].
Qed.

Lemma token_post_sexpr_post (st0 st : ParserState) (w : World)
      (out : result * ParserState * World) :
  (String.length (current_pos st) <= String.length (current_pos st0))%nat ->
  token_post input_length st w out -> sexpr_post input_length st0 w out.
Proof.
  intros Hlen. destruct out as [[[v | |] st'] w']; cbn [sexpr_post token_post].
  - intros (-> & Hpos & Hlt). split; [ reflexivity | split; [ exact Hpos | lia ] ].
  - intros H. now left.
  - intros [].
Qed.

(** The two mutually recursive parsers, by induction on the budget:
    with a clean slot on entry and a budget of twice the remaining input
    (plus one, plus two for the list loop) they answer, and obey their
    postconditions. *)
Lemma parse_sexpr_list_ok (fuel : nat) :
  (forall st w,
      position_ok input_length st -> world_ok w = true ->
      (2 * String.length (current_pos st) + 1 <= fuel)%nat ->
      sexpr_post input_length st w (parse_sexpr strtod fuel st w)) /\
  (forall elements st w,
      position_ok input_length st -> world_ok w = true ->
      (2 * String.length (current_pos st) + 2 <= fuel)%nat ->
      token_post input_length st w (parse_list_loop strtod fuel elements st w)).
Proof.
  induction fuel as [| n [IHs IHl]]; [ split; intros; lia |].
  split.
  - intros st0 w Hpos0 Hok Hfuel. cbn [parse_sexpr].
    destruct (skip_whitespace_and_comments_ok st0 Hpos0) as [Hpos Hskip].
    set (st := skip_whitespace_and_comments st0) in *.
    destruct (is_nul (peek (current_pos st))) eqn:Hnul.
    { cbn [sexpr_post]. right. split; [ reflexivity | split; [ exact Hpos | exact Hnul ] ]. }
    pose proof (peek_not_nul_length _ Hnul) as Hlen.
    destruct (advance_by_ok 1 st Hpos Hlen) as [Hadv Hadvlen].
    fold (advance st) in Hadv, Hadvlen.
    assert (Hmacro : forall name msg,
               msg <> EmptyString ->
               sexpr_post input_length st0 w (reader_macro name msg (parse_sexpr strtod n (advance st) w))).
    { intros name msg Hmsg. apply (token_post_sexpr_post st0 st); [ exact Hskip |].
      apply (reader_macro_ok name msg st (advance st)); [ exact Hok | exact Hmsg | lia |].
      apply IHs; [ exact Hadv | exact Hok | lia ]. }
    destruct (Ascii.eqb (peek (current_pos st)) "(").
    { apply (token_post_sexpr_post st0 (advance st)); [ lia |].
      apply IHl; [ exact Hadv | exact Hok | lia ]. }
    destruct (Ascii.eqb (peek (current_pos st)) ")").
    { cbn [sexpr_post]. left.
      apply set_parser_error_reports; [ exact Hpos | discriminate | discriminate ]. }
    destruct (Ascii.eqb (peek (current_pos st)) "`"); [ apply Hmacro; discriminate |].
    destruct (Ascii.eqb (peek (current_pos st)) ",").
    { destruct (Ascii.eqb (peek (current_pos (advance st))) "@") eqn:Hat;
        [| apply Hmacro; discriminate ].
      assert (Hnul2 : is_nul (peek (current_pos (advance st))) = false).
      { destruct (peek (current_pos (advance st))) as [[] [] [] [] [] [] [] []];
          try discriminate; reflexivity. }
      pose proof (peek_not_nul_length _ Hnul2) as Hlen2.
      destruct (advance_by_ok 1 (advance st) Hadv Hlen2) as [Hadv2 Hadvlen2].
      fold (advance (advance st)) in Hadv2, Hadvlen2.
      apply (token_post_sexpr_post st0 st); [ exact Hskip |].
      apply (reader_macro_ok _ _ st (advance (advance st)));
        [ exact Hok | discriminate | lia |].
      apply IHs; [ exact Hadv2 | exact Hok | lia ]. }
    destruct (Ascii.eqb (peek (current_pos st)) "'"); [ apply Hmacro; discriminate |].
    destruct (Ascii.eqb (peek (current_pos st)) double_quote).
    { apply (token_post_sexpr_post st0 st); [ exact Hskip |].
      now apply parse_string_literal_ok. }
    apply (token_post_sexpr_post st0 st); [ exact Hskip |].
    now apply parse_atom_ok.
  - intros elements st0 w Hpos0 Hok Hfuel. cbn [parse_list_loop].
    destruct (skip_whitespace_and_comments_ok st0 Hpos0) as [Hpos Hskip].
    set (st := skip_whitespace_and_comments st0) in *.
    destruct (Ascii.eqb (peek (current_pos st)) ")") eqn:Hclose.
    { assert (Hnul : is_nul (peek (current_pos st)) = false).
      { destruct (peek (current_pos st)) as [[] [] [] [] [] [] [] []];
          try discriminate; reflexivity. }
      pose proof (peek_not_nul_length _ Hnul) as Hlen.
      destruct (advance_by_ok 1 st Hpos Hlen) as [Hadv Hadvlen].
      fold (advance st) in Hadv, Hadvlen.
      cbn [token_post]. split; [ reflexivity | split; [ exact Hadv | lia ] ]. }
    destruct (is_nul (peek (current_pos st))) eqn:Hnul.
    { cbn [token_post].
      apply set_parser_error_reports; [ exact Hpos | discriminate | discriminate ]. }
    assert (Hsub : sexpr_post input_length st w (parse_sexpr strtod n st w))
      by (apply IHs; [ exact Hpos | exact Hok | lia ]).
    destruct (parse_sexpr strtod n st w) as [[[element | |] st'] w'];
      cbn [sexpr_post] in Hsub.
    + destruct Hsub as (-> & Hpos' & Hlt).
      assert (Hrest : token_post input_length st' w (parse_list_loop strtod n (elements ++ [element]) st' w))
        by (apply IHl; [ exact Hpos' | exact Hok | lia ]).
      destruct (parse_list_loop strtod n (elements ++ [element]) st' w)
        as [[[v | |] st''] w'']; cbn [token_post] in *; [| exact Hrest | exact Hrest ].
      destruct Hrest as (-> & Hpos'' & Hlt'').
      split; [ reflexivity | split; [ exact Hpos'' | lia ] ].
    + cbn [token_post]. destruct Hsub as [Herr | (-> & Hpos' & _)].
      * now rewrite (slot_reports_error_not_ok _ Herr).
      * rewrite Hok.
        apply set_parser_error_reports; [ exact Hpos' | discriminate | discriminate ].
    + destruct Hsub.
Qed.

(** The loop of [l0_parse_string_all] answers with the list and an
    untouched world, or with the sentinel and an error report. *)
Lemma parse_all_loop_ok (fuel rounds : nat) :
  forall exprs st w,
    position_ok input_length st -> world_ok w = true ->
    (String.length (current_pos st) < rounds)%nat ->
    (2 * String.length (current_pos st) + 1 <= fuel)%nat ->
    match parse_all_loop strtod rounds fuel exprs st w with
    | (Val _, w') => w' = w
    | (Null, w') => slot_reports_error w'
    | (OutOfFuel, _) => False
    end.
Proof.
  induction rounds as [| k IH]; intros exprs st0 w Hpos0 Hok Hrounds Hfuel; [ lia |].
  cbn [parse_all_loop].
  destruct (skip_whitespace_and_comments_ok st0 Hpos0) as [Hpos Hskip].
  set (st := skip_whitespace_and_comments st0) in *.
  destruct (is_nul (peek (current_pos st))); [ reflexivity |].
  assert (Hsub : sexpr_post input_length st w (parse_sexpr strtod fuel st w))
    by (apply (proj1 (parse_sexpr_list_ok fuel)); [ exact Hpos | exact Hok | lia ]).
  destruct (parse_sexpr strtod fuel st w) as [[[expr | |] st'] w']; cbn [sexpr_post] in Hsub.
  - destruct Hsub as (-> & Hpos' & Hlt). apply IH; [ exact Hpos' | exact Hok | lia | lia ].
  - destruct Hsub as [Herr | (-> & _)].
    + now rewrite (slot_reports_error_not_ok _ Herr).
    + now rewrite Hok.
  - destruct Hsub.
Qed.

End ReaderProperties.

(** Skipping again after a skip changes nothing. *)
Lemma skip_from_idempotent (s : string) :
  forall in_comment ln cl,
    skip_whitespace_and_comments (skip_from in_comment s ln cl)
    = skip_from in_comment s ln cl.
Proof.
  unfold skip_whitespace_and_comments.
  induction s as [| c r IH]; intros in_comment ln cl; cbn [skip_from]; [ reflexivity |].
  destruct (is_nul c) eqn:Enul; [ cbn [current_pos line col skip_from]; now rewrite Enul |].
  destruct (Ascii.eqb c newline) eqn:Enl; [ apply IH |].
  destruct in_comment; [ apply IH |].
  destruct (isspace c) eqn:Esp; [ apply IH |].
  destruct (Ascii.eqb c ";") eqn:Esemi; [ apply IH |].
  cbn [current_pos line col skip_from]. now rewrite Enul, Enl, Esp, Esemi.
Qed.

Lemma skip_whitespace_and_comments_idempotent (st : ParserState) :
  skip_whitespace_and_comments (skip_whitespace_and_comments st)
  = skip_whitespace_and_comments st.
Proof. unfold skip_whitespace_and_comments at 2 3. apply skip_from_idempotent. Qed.

Lemma initial_position_ok (input : string) :
  position_ok (Z.of_nat (String.length input)) (mkState input 1 1).
Proof. unfold position_ok. cbn [current_pos line col]. lia. Qed.

Lemma slot_clean_reset (w : World) : slot_clean (set_error L0_PARSE_OK None w).
Proof. split; reflexivity. Qed.

Lemma null_input_reports (status : L0_ParseStatus) (msg : string) (w : World) :
  status <> L0_PARSE_OK -> msg <> EmptyString ->
  slot_reports_error (set_parser_error None status (Some msg) w).
Proof.
  intros Hs Hm. unfold slot_reports_error. cbn.
  repeat split; try assumption; try lia. exists msg. now split.
Qed.

(** C3 (as amended). For every input string (and a [strtod] that
    converts characters of its argument only):
    - [l0_parse_string] returns a value and leaves the slot clean, or
      returns the sentinel; in the latter case either the input holds no
      expression (only white space and comments) and the slot is left
      clean, or the slot reports an error with a non-empty message, line
      at least 1 and column at least 1;
    - [l0_parse_string_all] returns a value and leaves the slot clean, or
      returns the sentinel and reports such an error;
    - a null input string, and every call of [l0_parse_stream], returns
      the sentinel and reports such an error. *)
Theorem C3_parse_value_or_error (strtod : string -> float * nat * bool)
        (input : string) (w : World)
        (Hstrtod : forall s, (snd (fst (strtod s)) <= String.length s)%nat)
        (Hfits : Z.of_nat (String.length input) + 1 < 2 ^ 64) :
  match l0_parse_string strtod (Some input) w with
  | (Val _, _, w') => no_expression input = false /\ slot_clean w'
  | (Null, _, w') =>
      if no_expression input then slot_clean w' else slot_reports_error w'
  | (OutOfFuel, _, _) => False
  end /\
  match l0_parse_string_all strtod (Some input) w with
  | (Val _, w') => slot_clean w'
  | (Null, w') => slot_reports_error w'
  | (OutOfFuel, _) => False
  end /\
  (fst (fst (l0_parse_string strtod None w)) = Null /\
   slot_reports_error (snd (l0_parse_string strtod None w))) /\
  (fst (l0_parse_string_all strtod None w) = Null /\
   slot_reports_error (snd (l0_parse_string_all strtod None w))) /\
  (forall stream_is_null,
      fst (l0_parse_stream stream_is_null w) = Null /\
      slot_reports_error (snd (l0_parse_stream stream_is_null w))).
Proof.
  set (L := Z.of_nat (String.length input)).
  set (w0 := set_error L0_PARSE_OK None w).
  assert (Hclean : slot_clean w0) by apply slot_clean_reset.
  assert (Hok : world_ok w0 = true) by reflexivity.
  pose proof (initial_position_ok input) as Hinit. fold L in Hinit.
  split; [| split; [| split; [| split ]]].
  - unfold l0_parse_string. fold w0. unfold no_expression.
    destruct (skip_whitespace_and_comments_ok L Hfits (mkState input 1 1) Hinit)
      as [Hpos Hskip].
    cbn [current_pos] in Hskip.
    set (st := skip_whitespace_and_comments (mkState input 1 1)) in *.
    destruct (is_nul (peek (current_pos st))) eqn:Hnul; [ exact Hclean |].
    assert (Hsub : sexpr_post L st w0 (parse_sexpr strtod (parse_fuel input) st w0)).
    { apply (proj1 (parse_sexpr_list_ok strtod Hstrtod L Hfits (parse_fuel input)));
        [ exact Hpos | exact Hok | unfold parse_fuel; lia ]. }
    destruct (parse_sexpr strtod (parse_fuel input) st w0) as [[[v | |] st'] w'];
      cbn [sexpr_post] in Hsub.
    + destruct Hsub as (-> & _). split; [ reflexivity | exact Hclean ].
    + destruct Hsub as [Herr | (_ & _ & Hnul')]; [ exact Herr |].
      unfold st in Hnul'. rewrite skip_whitespace_and_comments_idempotent in Hnul'.
      fold st in Hnul'. congruence.
    + destruct Hsub.
  - unfold l0_parse_string_all. fold w0.
    pose proof (parse_all_loop_ok strtod Hstrtod L Hfits (parse_fuel input)
                  (S (String.length input)) [] (mkState input 1 1) w0 Hinit Hok) as Hall.
    cbn [current_pos] in Hall.
    specialize (Hall ltac:(lia) ltac:(unfold parse_fuel; lia)).
    destruct (parse_all_loop strtod (S (String.length input)) (parse_fuel input) []
                (mkState input 1 1) w0) as [[v | |] w'].
    + now subst w'.
    + exact Hall.
    + exact Hall.
  - split; [ reflexivity |]. apply null_input_reports; discriminate.
  - split; [ reflexivity |]. apply null_input_reports; discriminate.
  - intros [|]; (split; [ reflexivity |]).
    + apply null_input_reports; discriminate.
    + unfold l0_parse_stream, slot_reports_error. cbn.
      repeat split; try discriminate; try lia. eexists; split; [ reflexivity | discriminate ].
Qed.

Lemma strtod_no_conversion_within :
  forall s, (snd (fst (strtod_no_conversion s)) <= String.length s)%nat.
Proof. intros s. cbn. lia. Qed.

(** The unterminated list [(1 2] is reported; the list [(1 2)] is parsed
    with a clean slot. *)
Lemma C3_parse_value_or_error_witness :
  slot_reports_error
    (snd (l0_parse_string strtod_no_conversion (Some "(1 2") (initial_world []))) /\
  slot_clean
    (snd (l0_parse_string strtod_no_conversion (Some "(1 2)") (initial_world []))).
Proof.
  split.
  - assert (Hfits : Z.of_nat (String.length "(1 2") + 1 < 2 ^ 64) by (vm_compute; reflexivity).
    destruct (C3_parse_value_or_error strtod_no_conversion "(1 2" (initial_world [])
                strtod_no_conversion_within Hfits) as [H _].
    assert (Hexpr : no_expression "(1 2" = false) by (vm_compute; reflexivity).
    rewrite Hexpr in H.
    destruct (l0_parse_string strtod_no_conversion (Some "(1 2") (initial_world []))
      as [[[v | |] end_ptr] w'] eqn:Hparse;
      [ vm_compute in Hparse; discriminate | exact H | contradiction ].
  - assert (Hfits : Z.of_nat (String.length "(1 2)") + 1 < 2 ^ 64) by (vm_compute; reflexivity).
    destruct (C3_parse_value_or_error strtod_no_conversion "(1 2)" (initial_world [])
                strtod_no_conversion_within Hfits) as [H _].
    destruct (l0_parse_string strtod_no_conversion (Some "(1 2)") (initial_world []))
      as [[[v | |] end_ptr] w'] eqn:Hparse;
      [ exact (proj2 H) | vm_compute in Hparse; discriminate | contradiction ].
Defined.

(** The claim as stated fails on the empty input: [l0_parse_string]
    returns the null sentinel and the slot holds no message (the status
    is OK).  The same happens for an input of white space and comments. *)
Lemma C3_empty_input_counterexample :
  fst (fst (l0_parse_string strtod_no_conversion (Some "") (initial_world []))) = Null /\
  l0_parser_error_message
    (snd (l0_parse_string strtod_no_conversion (Some "") (initial_world []))) = None /\
  l0_parser_error_status
    (snd (l0_parse_string strtod_no_conversion (Some "") (initial_world []))) = L0_PARSE_OK /\
  fst (fst (l0_parse_string strtod_no_conversion (Some "  ; only a comment")
                            (initial_world []))) = Null /\
  l0_parser_error_message
    (snd (l0_parse_string strtod_no_conversion (Some "  ; only a comment")
                          (initial_world []))) = None.
Proof. repeat split; vm_compute; reflexivity. Qed.

(** * Further properties

    ** Environments *)

(** ** l0_env.c: bindings *)

Lemma nth_error_replace_nth {A : Type} (l : list A) :
  forall (n m : nat) (x : A),
    nth_error (Env.replace_nth n x l) m =
    if Nat.eqb n m then match nth_error l m with Some _ => Some x | None => None end
    else nth_error l m.
Proof.
  induction l as [| h t IH]; intros n m x.
  - destruct n, m; simpl; try reflexivity. destruct (Nat.eqb n m); reflexivity.
  - destruct n as [| n], m as [| m]; simpl; try reflexivity. apply IH.
Qed.

Lemma length_replace_nth {A : Type} (l : list A) :
  forall (n : nat) (x : A), List.length (Env.replace_nth n x l) = List.length l.
Proof.
  induction l as [| h t IH]; intros [| n] x; simpl; try reflexivity. now rewrite IH.
Qed.

Lemma frame_update_none (name : string) (v : L0_Value) (fr : list (string * L0_Value)) :
  Env.frame_update name v fr = None <-> Env.frame_lookup name fr = None.
Proof.
  induction fr as [| [s old] rest IH]; simpl.
  - tauto.
  - destruct (String.eqb s name).
    + split; discriminate.
    + destruct (Env.frame_update name v rest); split; intros H;
        try discriminate; try reflexivity; try (apply IH; exact H).
      apply (proj2 IH) in H. discriminate.
Qed.

Lemma frame_update_names (name : string) (v : L0_Value) :
  forall fr fr' : list (string * L0_Value),
    Env.frame_update name v fr = Some fr' -> map fst fr' = map fst fr.
Proof.
  induction fr as [| [s old] rest IH]; simpl; intros fr' H.
  - discriminate.
  - destruct (String.eqb s name).
    + injection H as <-. reflexivity.
    + destruct (Env.frame_update name v rest) as [rest' |]; [| discriminate ].
      injection H as <-. simpl. f_equal. now apply IH.
Qed.

(** Replacing a structure by one with the same outer link and the same
    binding for [name] does not change any lookup of [name]. *)
Lemma lookup_from_replace (es : list L0_EnvStruct) (e : nat) (s' : L0_EnvStruct)
      (name : string) :
  (forall s, nth_error es e = Some s ->
             outer s' = outer s /\
             Env.frame_lookup name (frame s') = Env.frame_lookup name (frame s)) ->
  forall (hops : nat) (env : option L0_Env),
    Env.lookup_from hops (Env.replace_nth e s' es) env name = Env.lookup_from hops es env name.
Proof.
  intros Hsame. induction hops as [| h IH]; intros env; [ reflexivity |].
  destruct env as [i |]; [| reflexivity ]. simpl.
  rewrite nth_error_replace_nth.
  destruct (Nat.eqb e i) eqn:Hei.
  - apply Nat.eqb_eq in Hei. subst i.
    destruct (nth_error es e) as [s |] eqn:Hs; [| reflexivity ].
    destruct (Hsame s eq_refl) as [Ho Hf]. rewrite Hf, Ho.
    destruct (Env.frame_lookup name (frame s)); [ reflexivity | apply IH ].
  - destruct (nth_error es i) as [s |]; [| reflexivity ].
    destruct (Env.frame_lookup name (frame s)); [ reflexivity | apply IH ].
Qed.

Lemma env_shape_replace (es : list L0_EnvStruct) :
  forall (e : nat) (s s' : L0_EnvStruct),
    nth_error es e = Some s ->
    map fst (frame s') = map fst (frame s) -> outer s' = outer s ->
    env_shape (Env.replace_nth e s' es) = env_shape es.
Proof.
  induction es as [| h t IH]; intros [| e] s s' Hs Hn Ho; simpl in *; try discriminate.
  - injection Hs as ->. unfold env_shape. simpl. now rewrite Hn, Ho.
  - unfold env_shape in *. simpl. f_equal. now apply (IH e s s').
Qed.

(** What a successful [set_from] did: it updated the frame of one
    structure, the first on the chain that binds the name. *)
Lemma set_from_found (name : string) (v : L0_Value) (es : list L0_EnvStruct) :
  forall (hops : nat) (env : option L0_Env) (es' : list L0_EnvStruct),
    Env.set_from hops es env name v = Some es' ->
    exists e s fr',
      nth_error es e = Some s /\ Env.frame_update name v (frame s) = Some fr' /\
      es' = Env.replace_nth e (mkEnv fr' (outer s)) es.
Proof.
  induction hops as [| h IH]; intros env es' H; [ discriminate |].
  destruct env as [i |]; [| discriminate ]. simpl in H.
  destruct (nth_error es i) as [s |] eqn:Hs; [| discriminate ].
  destruct (Env.frame_update name v (frame s)) as [fr' |] eqn:Hu.
  - injection H as <-. now exists i, s, fr'.
  - now apply (IH (outer s)).
Qed.

Lemma set_from_none_iff (name : string) (v : L0_Value) (es : list L0_EnvStruct) :
  forall (hops : nat) (env : option L0_Env),
    Env.set_from hops es env name v = None <-> Env.lookup_from hops es env name = None.
Proof.
  induction hops as [| h IH]; intros env; [ simpl; tauto |].
  destruct env as [i |]; [| simpl; tauto ]. simpl.
  destruct (nth_error es i) as [s |]; [| tauto ].
  destruct (Env.frame_update name v (frame s)) as [fr' |] eqn:Hu.
  - destruct (Env.frame_lookup name (frame s)) eqn:Hl.
    + split; discriminate.
    + apply (proj2 (frame_update_none name v _)) in Hl. rewrite Hl in Hu. discriminate.
  - apply (proj1 (frame_update_none name v _)) in Hu. rewrite Hu. apply IH.
Qed.

Lemma set_from_lookup (name : string) (v : L0_Value) (es : list L0_EnvStruct) :
  forall (hops : nat) (env : option L0_Env) (es' : list L0_EnvStruct),
    Env.set_from hops es env name v = Some es' ->
    Env.lookup_from hops es' env name = Some v.
Proof.
  induction hops as [| h IH]; intros env es' H; [ discriminate |].
  destruct env as [i |]; [| discriminate ]. simpl in H. simpl.
  destruct (nth_error es i) as [s |] eqn:Hs; [| discriminate ].
  destruct (Env.frame_update name v (frame s)) as [fr' |] eqn:Hu.
  - injection H as <-. rewrite nth_error_replace_nth, Nat.eqb_refl, Hs. simpl.
    now rewrite (frame_lookup_update_same _ _ _ _ Hu).
  - pose proof (IH _ _ H) as Hrest.
    destruct (set_from_found _ _ _ _ _ _ H) as (e & s2 & fr2 & Hs2 & Hu2 & ->).
    rewrite nth_error_replace_nth.
    destruct (Nat.eqb e i) eqn:Hei.
    + apply Nat.eqb_eq in Hei. subst e. congruence.
    + rewrite Hs. apply (proj1 (frame_update_none name v _)) in Hu. rewrite Hu. exact Hrest.
Qed.

Lemma env_chain_ok_replace (es : list L0_EnvStruct) (e : nat) (s s' : L0_EnvStruct) :
  env_chain_ok es -> nth_error es e = Some s -> outer s' = outer s ->
  env_chain_ok (Env.replace_nth e s' es).
Proof.
  intros Hok Hs Ho i x o Hx Hox. rewrite nth_error_replace_nth in Hx.
  destruct (Nat.eqb e i) eqn:Hei.
  - apply Nat.eqb_eq in Hei. subst i. rewrite Hs in Hx. injection Hx as <-.
    apply (Hok e s o Hs). congruence.
  - now apply (Hok i x o).
Qed.

(** On a well-founded chain a lookup that starts below [n] only reads
    structures below [n], and the number of hops allowed does not matter
    once it exceeds the starting index. *)
Lemma lookup_from_agree (es es2 : list L0_EnvStruct) (name : string) (n : nat) :
  env_chain_ok es ->
  (forall i, (i < n)%nat -> nth_error es2 i = nth_error es i) ->
  forall (e h h2 : nat),
    (e < n)%nat -> (e < h)%nat -> (e < h2)%nat ->
    Env.lookup_from h2 es2 (Some e) name = Env.lookup_from h es (Some e) name.
Proof.
  intros Hok Hagree e. induction e as [e IH] using lt_wf_ind. intros h h2 Hn Hh Hh2.
  destruct h as [| h]; [ lia |]. destruct h2 as [| h2]; [ lia |]. simpl.
  rewrite (Hagree e Hn).
  destruct (nth_error es e) as [s |] eqn:Hs; [| reflexivity ].
  destruct (Env.frame_lookup name (frame s)); [ reflexivity |].
  destruct (outer s) as [o |] eqn:Ho.
  - pose proof (Hok e s o Hs Ho). apply IH; lia.
  - destruct h, h2; reflexivity.
Qed.

Lemma lookup_from_S (h : nat) (es : list L0_EnvStruct) (e : nat) (name : string) :
  Env.lookup_from (S h) es (Some e) name =
  match nth_error es e with
  | Some s =>
      match Env.frame_lookup name (frame s) with
      | Some v => Some v
      | None => Env.lookup_from h es (outer s) name
      end
  | None => None
  end.
Proof. reflexivity. Qed.

Lemma l0_env_define_lookup (env : L0_Env) (name : string) (v : L0_Value) (w : World) :
  (env < List.length (envs w))%nat ->
  fst (l0_env_define env name v w) = true /\
  l0_env_lookup env name (snd (l0_env_define env name v w)) = Some v /\
  (forall env' other,
      other <> name ->
      l0_env_lookup env' other (snd (l0_env_define env name v w)) = l0_env_lookup env' other w).
Proof.
  intros Hvalid.
  destruct (nth_error (envs w) env) as [s |] eqn:Hs;
    [| apply nth_error_None in Hs; lia ].
  destruct s as [fr o].
  rewrite (l0_env_define_spec env name v w fr o Hs). cbn [fst snd].
  split; [ reflexivity |]. split.
  - unfold l0_env_lookup. cbn [envs set_envs]. rewrite length_replace_nth.
    cbn [Env.lookup_from]. rewrite nth_error_replace_nth, Nat.eqb_refl, Hs.
    cbn [frame]. now rewrite frame_lookup_define_same.
  - intros env' other Hne. unfold l0_env_lookup. cbn [envs set_envs].
    rewrite length_replace_nth. apply lookup_from_replace.
    intros s Hs'. rewrite Hs in Hs'. injection Hs' as <-. cbn [frame outer].
    split; [ reflexivity |]. apply frame_lookup_define_other. congruence.
Qed.

Lemma frame_define_nodup (name : string) (v : L0_Value) (fr : list (string * L0_Value)) :
  NoDup (map fst fr) -> NoDup (map fst (frame_define name v fr)).
Proof.
  intros Hnd. unfold frame_define.
  destruct (Env.frame_update name v fr) as [fr' |] eqn:Hu.
  - now rewrite (frame_update_names _ _ _ _ Hu).
  - cbn [map fst]. constructor; [| exact Hnd ].
    apply (proj1 (frame_update_none name v _)) in Hu. clear - Hu.
    induction fr as [| [s x] rest IH]; simpl in *; [ tauto |].
    destruct (String.eqb s name) eqn:E; [ discriminate |].
    apply String.eqb_neq in E. intros [H | H]; [ congruence | now apply IH ].
Qed.

(** X1.  [l0_env_define] on an existing environment succeeds.  Afterwards
    a lookup of the name from that environment gives the defined value,
    the lookup of every other name from any environment is unchanged, the
    environment keeps its outer link, and a frame without duplicate names
    stays without duplicates: a redefinition replaces the binding. *)
Theorem env_define_then_lookup (env : L0_Env) (name : string) (v : L0_Value) (w : World)
        (Hvalid : (env < List.length (envs w))%nat) :
  let w' := snd (l0_env_define env name v w) in
  fst (l0_env_define env name v w) = true /\
  l0_env_lookup env name w' = Some v /\
  (forall env' other, other <> name -> l0_env_lookup env' other w' = l0_env_lookup env' other w) /\
  (forall s s', nth_error (envs w) env = Some s -> nth_error (envs w') env = Some s' ->
                outer s' = outer s /\
                (NoDup (map fst (frame s)) -> NoDup (map fst (frame s')))).
Proof.
  cbn zeta. destruct (l0_env_define_lookup env name v w Hvalid) as (Htrue & Hsame & Hother).
  split; [ exact Htrue |]. split; [ exact Hsame |]. split; [ exact Hother |].
  intros [fr o] s' Hs. rewrite (l0_env_define_spec env name v w fr o Hs).
  cbn [snd envs set_envs]. rewrite nth_error_replace_nth, Nat.eqb_refl, Hs.
  intros [= <-]. cbn [frame outer]. split; [ reflexivity | apply frame_define_nodup ].
Qed.

Lemma env_define_then_lookup_witness :
  l0_env_lookup 0%nat "x" (snd (l0_env_define 0%nat "x" (L0_Integer 7) global_world))
  = Some (L0_Integer 7).
Proof.
  assert (Hvalid : (0 < List.length (envs global_world))%nat) by (vm_compute; lia).
  exact (proj1 (proj2 (env_define_then_lookup 0%nat "x" (L0_Integer 7) global_world Hvalid))).
Defined.

Lemma l0_env_set_lookup (env : L0_Env) (name : string) (v : L0_Value) (w : World) :
  (l0_env_lookup env name w = None -> l0_env_set env name v w = (false, w)) /\
  (l0_env_lookup env name w <> None ->
   fst (l0_env_set env name v w) = true /\
   l0_env_lookup env name (snd (l0_env_set env name v w)) = Some v) /\
  (forall env' other,
      other <> name ->
      l0_env_lookup env' other (snd (l0_env_set env name v w)) = l0_env_lookup env' other w).
Proof.
  unfold l0_env_set, l0_env_lookup.
  destruct (Env.set_from (S (List.length (envs w))) (envs w) (Some env) name v)
    as [es' |] eqn:Hset; cbn [fst snd].
  - destruct (set_from_found _ _ _ _ _ _ Hset) as (e & s & fr' & Hs & Hu & ->).
    cbn [envs set_envs]. rewrite length_replace_nth.
    split; [| split ].
    + intros Hnone. apply set_from_none_iff with (v := v) in Hnone. congruence.
    + intros _. split; [ reflexivity |]. now apply set_from_lookup with (es := envs w).
    + intros env' other Hne. apply lookup_from_replace.
      intros s0 Hs0. rewrite Hs in Hs0. injection Hs0 as <-. cbn [frame outer].
      split; [ reflexivity |].
      apply (frame_lookup_update_other name other v); [ congruence | exact Hu ].
  - split; [| split ]; try reflexivity.
    intros Hbound. apply set_from_none_iff in Hset. contradiction.
Qed.

Lemma l0_env_set_shape (env : L0_Env) (name : string) (v : L0_Value) (w : World) :
  env_shape (envs (snd (l0_env_set env name v w))) = env_shape (envs w).
Proof.
  unfold l0_env_set.
  destruct (Env.set_from (S (List.length (envs w))) (envs w) (Some env) name v)
    as [es' |] eqn:Hset; cbn [snd]; [| reflexivity ].
  destruct (set_from_found _ _ _ _ _ _ Hset) as (e & s & fr' & Hs & Hu & ->).
  cbn [envs set_envs]. apply (env_shape_replace _ e s); [ exact Hs | | reflexivity ].
  cbn [frame]. now apply frame_update_names with (name := name) (v := v).
Qed.

(** X2.  [l0_env_set] on a name that [l0_env_lookup] does not find
    returns [false] and changes nothing; on a name that is found it
    returns [true] and a lookup from the same environment then gives the
    new value.  In both cases the lookup of every other name is unchanged
    and no frame gains or loses a name or changes its outer link. *)
Theorem env_set_updates_nearest_binding (env : L0_Env) (name : string) (v : L0_Value)
        (w : World) :
  let w' := snd (l0_env_set env name v w) in
  (l0_env_lookup env name w = None -> l0_env_set env name v w = (false, w)) /\
  (l0_env_lookup env name w <> None ->
   fst (l0_env_set env name v w) = true /\ l0_env_lookup env name w' = Some v) /\
  (forall env' other, other <> name ->
                      l0_env_lookup env' other w' = l0_env_lookup env' other w) /\
  env_shape (envs w') = env_shape (envs w).
Proof.
  cbn zeta. destruct (l0_env_set_lookup env name v w) as (Hnone & Hbound & Hother).
  split; [ exact Hnone |]. split; [ exact Hbound |]. split; [ exact Hother |].
  apply l0_env_set_shape.
Qed.

(** X3.  Where every outer link designates an environment created
    earlier, the environment made by [l0_env_extend] sees exactly the
    bindings of its outer environment.  A definition made in it is found
    from it, leaves the other names it sees as they were, and is not
    visible from any environment that existed before the extension. *)
Theorem env_extend_sees_outer (outer_env : L0_Env) (w : World)
        (Hok : env_chain_ok (envs w))
        (Hvalid : (outer_env < List.length (envs w))%nat) :
  let new_env := fst (l0_env_extend outer_env w) in
  let w1 := snd (l0_env_extend outer_env w) in
  env_chain_ok (envs w1) /\
  (forall name, l0_env_lookup new_env name w1 = l0_env_lookup outer_env name w) /\
  (forall name v,
      let w2 := snd (l0_env_define new_env name v w1) in
      env_chain_ok (envs w2) /\
      l0_env_lookup new_env name w2 = Some v /\
      (forall other, other <> name ->
                     l0_env_lookup new_env other w2 = l0_env_lookup outer_env other w) /\
      (forall env other, (env < List.length (envs w))%nat ->
                         l0_env_lookup env other w2 = l0_env_lookup env other w)).
Proof.
  unfold l0_env_extend, l0_env_create. cbn [fst snd].
  set (es := envs w) in *. set (new := mkEnv [] (Some outer_env)).
  assert (Hagree : forall i, (i < List.length es)%nat ->
                             nth_error (es ++ [new])%list i = nth_error es i).
  { intros i Hi. now rewrite nth_error_app1. }
  assert (Hok1 : env_chain_ok (es ++ [new])%list).
  { intros i s o Hs Ho. destruct (Nat.lt_ge_cases i (List.length es)) as [Hi | Hi].
    - rewrite nth_error_app1 in Hs by exact Hi. now apply (Hok i s o).
    - rewrite nth_error_app2 in Hs by exact Hi.
      destruct (i - List.length es)%nat as [| k] eqn:Hk; simpl in Hs.
      + injection Hs as <-. cbn [outer new] in Ho. injection Ho as <-. lia.
      + destruct k; discriminate. }
  assert (Hnew : forall name,
             l0_env_lookup (List.length es) name (set_envs (es ++ [new]) w)
             = l0_env_lookup outer_env name w).
  { intros name. unfold l0_env_lookup. cbn [envs set_envs]. fold es.
    rewrite (lookup_from_S (List.length (es ++ [new])) (es ++ [new])%list (List.length es)).
    rewrite nth_error_app_last. cbn [frame new Env.frame_lookup outer].
    rewrite length_app. cbn [List.length].
    apply (lookup_from_agree es _ name (List.length es) Hok Hagree); lia. }
  split; [ exact Hok1 |]. split; [ exact Hnew |].
  intros name v.
  assert (Hs : nth_error (envs (set_envs (es ++ [new]) w)) (List.length es) = Some new).
  { cbn [envs set_envs]. apply nth_error_app_last. }
  assert (Hlen : (List.length es < List.length (envs (set_envs (es ++ [new]) w)))%nat).
  { cbn [envs set_envs]. rewrite length_app. cbn [List.length]. lia. }
  destruct (l0_env_define_lookup (List.length es) name v _ Hlen)
    as (_ & Hsame & Hother).
  rewrite (l0_env_define_spec _ name v _ [] (Some outer_env) Hs) in *. cbn [snd] in *.
  cbn [envs set_envs] in *. rewrite replace_nth_app_last in *.
  split; [| split; [| split ]].
  - intros i s o Hi Ho. destruct (Nat.lt_ge_cases i (List.length es)) as [Hlt | Hge].
    + rewrite nth_error_app1 in Hi by exact Hlt. now apply (Hok i s o).
    + rewrite nth_error_app2 in Hi by exact Hge.
      destruct (i - List.length es)%nat as [| k] eqn:Hk; simpl in Hi.
      * injection Hi as <-. cbn [outer] in Ho. injection Ho as <-. lia.
      * destruct k; discriminate.
  - exact Hsame.
  - intros other Hne. rewrite (Hother _ other Hne). apply Hnew.
  - intros env other Henv. unfold l0_env_lookup. cbn [envs set_envs]. fold es.
    apply (lookup_from_agree es _ other (List.length es) Hok).
    + intros i Hi. now rewrite nth_error_app1.
    + exact Henv.
    + lia.
    + rewrite length_app. cbn [List.length]. lia.
Qed.

Lemma global_world_chain_ok : env_chain_ok (envs global_world).
Proof.
  assert (Houter : map outer (envs global_world) = [None]) by (vm_compute; reflexivity).
  intros i s o Hs Ho. apply (map_nth_error outer) in Hs. rewrite Houter, Ho in Hs.
  destruct i as [| [| i]]; discriminate.
Qed.

Lemma env_extend_sees_outer_witness :
  l0_env_lookup (fst (l0_env_extend 0%nat global_world)) "car"
                (snd (l0_env_extend 0%nat global_world))
  = l0_env_lookup 0%nat "car" global_world.
Proof.
  assert (Hvalid : (0 < List.length (envs global_world))%nat) by (vm_compute; lia).
  exact (proj1 (proj2 (env_extend_sees_outer 0%nat global_world
                         global_world_chain_ok Hvalid)) "car").
Defined.

(** ** Argument checking and list primitives *)

(** ** l0_primitives.c: argument lists and list primitives *)

Lemma value_to_list_list_to_value (l : list L0_Value) :
  value_to_list (list_to_value l) = l.
Proof. induction l as [| x r IH]; simpl; [ reflexivity | now rewrite IH ]. Qed.

Lemma l0_is_list_list_to_value (l : list L0_Value) : l0_is_list (list_to_value l) = true.
Proof. induction l as [| x r IH]; simpl; [ reflexivity | exact IH ]. Qed.

Lemma list_to_value_value_to_list (v : L0_Value) :
  l0_is_list v = true -> list_to_value (value_to_list v) = v.
Proof.
  induction v; simpl; intros H; try discriminate; try reflexivity.
  now rewrite IHv2.
Qed.

Lemma count_args_spec (args : L0_Value) :
  forall count,
    fst (count_args args count) = count + Z.of_nat (List.length (value_to_list args)) /\
    l0_is_nil (snd (count_args args count)) = l0_is_list args.
Proof.
  induction args; intros count; simpl;
    try (split; [ lia | reflexivity ]).
  destruct (IHargs2 (count + 1)) as [H1 H2]. split; [ rewrite H1; lia | exact H2 ].
Qed.

Lemma check_arg_count_ok (l : list L0_Value) (n : Z) (prim_name : string) (w : World) :
  Z.of_nat (List.length l) = n ->
  check_arg_count (list_to_value l) n prim_name w = (true, w).
Proof.
  intros Hn. unfold check_arg_count.
  destruct (count_args_spec (list_to_value l) 0) as [H1 H2].
  destruct (count_args (list_to_value l) 0) as [count last]. cbn [fst snd] in *.
  rewrite H2, l0_is_list_list_to_value. cbn [negb].
  rewrite value_to_list_list_to_value in H1.
  replace (count =? n) with true by (symmetry; apply Z.eqb_eq; lia). reflexivity.
Qed.

Lemma check_arg_count_wrong (l : list L0_Value) (n : Z) (prim_name : string) (w : World) :
  Z.of_nat (List.length l) <> n ->
  exists msg,
    check_arg_count (list_to_value l) n prim_name w
    = (false, set_error L0_PARSE_ERROR_RUNTIME (Some msg) w).
Proof.
  intros Hn. unfold check_arg_count.
  destruct (count_args_spec (list_to_value l) 0) as [H1 H2].
  destruct (count_args (list_to_value l) 0) as [count last]. cbn [fst snd] in *.
  rewrite H2, l0_is_list_list_to_value. cbn [negb].
  rewrite value_to_list_list_to_value in H1.
  replace (count =? n) with false by (symmetry; apply Z.eqb_neq; lia).
  cbn [negb]. eexists. reflexivity.
Qed.

Lemma get_arg_from_nth (l : list L0_Value) :
  forall (i : nat) (n : Z) (prim_name : string) (v : L0_Value) (w : World),
    nth_error l i = Some v ->
    get_arg_from (list_to_value l) i n prim_name w = (Val v, w).
Proof.
  induction l as [| x r IH]; intros [| i] n prim_name v w H; simpl in *; try discriminate.
  - now injection H as <-.
  - now apply IH.
Qed.

(** X4.  [check_arg_count] succeeds exactly when the arguments are a
    proper list of the expected length.  A success leaves the world as it
    was and [get_arg] then returns every argument by its index; a failure
    stores a runtime error. *)
Theorem check_arg_count_exact (args : L0_Value) (n : Z) (prim_name : string) (w : World) :
  let r := check_arg_count args n prim_name w in
  (fst r = true <->
   l0_is_list args = true /\ Z.of_nat (List.length (value_to_list args)) = n) /\
  (fst r = true -> snd r = w) /\
  (fst r = false ->
   exists msg, snd r = set_error L0_PARSE_ERROR_RUNTIME (Some msg) w) /\
  (fst r = true ->
   forall i v, nth_error (value_to_list args) i = Some v ->
               get_arg args i prim_name w = (Val v, w)).
Proof.
  cbn zeta. unfold check_arg_count.
  destruct (count_args_spec args 0) as [H1 H2].
  destruct (count_args args 0) as [count last]. cbn [fst snd] in *.
  rewrite H2. destruct (l0_is_list args) eqn:Hlist; cbn [negb].
  - destruct (count =? n) eqn:Hn; cbn [negb fst snd].
    + apply Z.eqb_eq in Hn. split; [| split; [| split ]].
      * split; [ intros _; split; [ reflexivity | lia ] | reflexivity ].
      * reflexivity.
      * discriminate.
      * intros _ i v Hi. unfold get_arg.
        rewrite <- (list_to_value_value_to_list args Hlist) at 1.
        now apply get_arg_from_nth.
    + apply Z.eqb_neq in Hn. split; [| split; [| split ]].
      * split; [ discriminate | intros [_ H]; lia ].
      * discriminate.
      * intros _. eexists. reflexivity.
      * discriminate.
  - cbn [fst snd]. split; [| split; [| split ]].
    + split; [ discriminate | intros [H _]; discriminate ].
    + discriminate.
    + intros _. eexists. reflexivity.
    + discriminate.
Qed.

Lemma check_arg_count_exact_witness :
  get_arg (list_to_value [L0_Integer 1; L0_Integer 2]) 1 "cons" global_world
  = (Val (L0_Integer 2), global_world).
Proof.
  assert (Hok : fst (check_arg_count (list_to_value [L0_Integer 1; L0_Integer 2]) 2 "cons"
                                     global_world) = true) by (vm_compute; reflexivity).
  exact (proj2 (proj2 (proj2 (check_arg_count_exact _ 2 "cons" global_world))) Hok
               1%nat (L0_Integer 2) eq_refl).
Defined.

(** X5.  [car] and [cdr] of a pair give the two components [cons] was
    given.  [car] and [cdr] of a value that is not a pair fail with their
    message, and so do [cons] with other than two and [car] and [cdr] with
    other than one argument. *)
Theorem cons_car_cdr (env : L0_Env) (w : World) :
  (forall a d,
      prim_cons (list_to_value [a; d]) env w = (Val (L0_Pair a d), w) /\
      prim_car (list_to_value [L0_Pair a d]) env w = (Val a, w) /\
      prim_cdr (list_to_value [L0_Pair a d]) env w = (Val d, w)) /\
  (forall v,
      l0_is_pair v = false ->
      prim_car (list_to_value [v]) env w
      = (Null, set_error L0_PARSE_ERROR_RUNTIME
                 (Some "Primitive 'car': Argument must be a pair.") w) /\
      prim_cdr (list_to_value [v]) env w
      = (Null, set_error L0_PARSE_ERROR_RUNTIME
                 (Some "Primitive 'cdr': Argument must be a pair.") w)) /\
  (forall l,
      (List.length l <> 2%nat -> fails_at w (prim_cons (list_to_value l) env w)) /\
      (List.length l <> 1%nat ->
       fails_at w (prim_car (list_to_value l) env w) /\
       fails_at w (prim_cdr (list_to_value l) env w))).
Proof.
  split; [| split ].
  - intros a d. repeat split; reflexivity.
  - intros v Hv. split; destruct v; try discriminate; reflexivity.
  - intros l. split.
    + intros Hl. unfold prim_cons.
      destruct (check_arg_count_wrong l 2 "cons" w) as [msg ->]; [ lia |].
      now exists msg.
    + intros Hl. split.
      * unfold prim_car.
        destruct (check_arg_count_wrong l 1 "car" w) as [msg ->]; [ lia |].
        now exists msg.
      * unfold prim_cdr.
        destruct (check_arg_count_wrong l 1 "cdr" w) as [msg ->]; [ lia |].
        now exists msg.
Qed.

Lemma cons_car_cdr_witness :
  fails_at global_world (prim_car (list_to_value [L0_Integer 1; L0_Integer 2]) 0%nat global_world) /\
  fst (prim_car (list_to_value [L0_Integer 5]) 0%nat global_world) = Null.
Proof.
  split.
  - apply (proj2 (proj2 (proj2 (cons_car_cdr 0%nat global_world))
                   [L0_Integer 1; L0_Integer 2])). simpl. lia.
  - rewrite (proj1 (proj1 (proj2 (cons_car_cdr 0%nat global_world)) (L0_Integer 5) eq_refl)).
    reflexivity.
Defined.

(** ** Integer arithmetic *)

Lemma wrap_long_idem_add (x y : Z) : wrap_long (wrap_long x + y) = wrap_long (x + y).
Proof.
  unfold wrap_long. f_equal.
  replace ((x + 2 ^ 63) mod 2 ^ 64 - 2 ^ 63 + y + 2 ^ 63) with ((x + 2 ^ 63) mod 2 ^ 64 + y) by lia.
  rewrite Z.add_mod_idemp_l by lia. f_equal. lia.
Qed.

Lemma wrap_long_idem_mul (x y : Z) : wrap_long (wrap_long x * y) = wrap_long (x * y).
Proof.
  unfold wrap_long. f_equal.
  replace (((x + 2 ^ 63) mod 2 ^ 64 - 2 ^ 63) * y + 2 ^ 63)
    with ((x + 2 ^ 63) mod 2 ^ 64 * y + (2 ^ 63 - 2 ^ 63 * y)) by lia.
  rewrite <- Z.add_mod_idemp_l by lia.
  rewrite Z.mul_mod_idemp_l by lia.
  rewrite Z.add_mod_idemp_l by lia. f_equal. lia.
Qed.

Lemma wrap_long_in_range (z : Z) : LONG_MIN <= z <= LONG_MAX -> wrap_long z = z.
Proof.
  unfold LONG_MIN, LONG_MAX, wrap_long. intros H.
  rewrite Z.mod_small by lia. lia.
Qed.

Lemma add_loop_integers (zs : list Z) :
  forall (int_sum : Z) (float_sum : float) (w : World),
    add_loop (list_to_value (map L0_Integer zs)) int_sum float_sum false w
    = (Val (L0_Integer (fold_left (fun acc i => wrap_long (acc + i)) zs int_sum)), w).
Proof.
  induction zs as [| z r IH]; intros int_sum float_sum w; simpl; [ reflexivity | apply IH ].
Qed.

Lemma multiply_loop_integers (zs : list Z) :
  forall (int_product : Z) (float_product : float) (w : World),
    multiply_loop (list_to_value (map L0_Integer zs)) int_product float_product false w
    = (Val (L0_Integer (fold_left (fun acc i => wrap_long (acc * i)) zs int_product)), w).
Proof.
  induction zs as [| z r IH]; intros int_product float_product w; simpl;
    [ reflexivity | apply IH ].
Qed.

Lemma fold_wrap_add (zs : list Z) :
  forall acc, wrap_long (fold_left (fun acc i => wrap_long (acc + i)) zs acc)
              = wrap_long (acc + fold_right Z.add 0 zs).
Proof.
  induction zs as [| z r IH]; intros acc; simpl.
  - f_equal. lia.
  - rewrite IH, wrap_long_idem_add. f_equal. lia.
Qed.

Lemma fold_wrap_mul (zs : list Z) :
  forall acc, wrap_long (fold_left (fun acc i => wrap_long (acc * i)) zs acc)
              = wrap_long (acc * fold_right Z.mul 1 zs).
Proof.
  induction zs as [| z r IH]; intros acc; simpl.
  - f_equal. lia.
  - rewrite IH, wrap_long_idem_mul. f_equal. lia.
Qed.

Lemma wrap_long_idem (z : Z) : wrap_long (wrap_long z) = wrap_long z.
Proof.
  replace (wrap_long z) with (wrap_long z + 0) at 1 by lia.
  rewrite wrap_long_idem_add. f_equal. lia.
Qed.

Lemma fold_wrap_add_wrapped (zs : list Z) (acc : Z) :
  wrap_long acc = acc ->
  wrap_long (fold_left (fun acc i => wrap_long (acc + i)) zs acc)
  = fold_left (fun acc i => wrap_long (acc + i)) zs acc.
Proof.
  revert acc. induction zs as [| z r IH]; intros acc Hacc; simpl.
  - exact Hacc.
  - apply IH. apply wrap_long_idem.
Qed.

Lemma fold_wrap_mul_wrapped (zs : list Z) (acc : Z) :
  wrap_long acc = acc ->
  wrap_long (fold_left (fun acc i => wrap_long (acc * i)) zs acc)
  = fold_left (fun acc i => wrap_long (acc * i)) zs acc.
Proof.
  revert acc. induction zs as [| z r IH]; intros acc Hacc; simpl.
  - exact Hacc.
  - apply IH. apply wrap_long_idem.
Qed.

(** X6.  [+] and [*] applied to integers return the sum and the product
    of the arguments reduced to a 64-bit two's-complement [long] (0 and 1
    when there is no argument); a sum or product within the range of
    [long] is returned exactly.  The world is unchanged. *)
Theorem integer_sum_and_product (zs : list Z) (env : L0_Env) (w : World) :
  let sum := fold_right Z.add 0 zs in
  let product := fold_right Z.mul 1 zs in
  prim_add (list_to_value (map L0_Integer zs)) env w = (Val (L0_Integer (wrap_long sum)), w) /\
  prim_multiply (list_to_value (map L0_Integer zs)) env w
  = (Val (L0_Integer (wrap_long product)), w) /\
  (LONG_MIN <= sum <= LONG_MAX ->
   prim_add (list_to_value (map L0_Integer zs)) env w = (Val (L0_Integer sum), w)) /\
  (LONG_MIN <= product <= LONG_MAX ->
   prim_multiply (list_to_value (map L0_Integer zs)) env w = (Val (L0_Integer product), w)).
Proof.
  cbn zeta.
  assert (Hadd : prim_add (list_to_value (map L0_Integer zs)) env w
                 = (Val (L0_Integer (wrap_long (fold_right Z.add 0 zs))), w)).
  { unfold prim_add. rewrite add_loop_integers.
    rewrite <- (fold_wrap_add_wrapped zs 0) by reflexivity.
    rewrite fold_wrap_add. reflexivity. }
  assert (Hmul : prim_multiply (list_to_value (map L0_Integer zs)) env w
                 = (Val (L0_Integer (wrap_long (fold_right Z.mul 1 zs))), w)).
  { unfold prim_multiply. rewrite multiply_loop_integers.
    rewrite <- (fold_wrap_mul_wrapped zs 1) by reflexivity.
    rewrite fold_wrap_mul. rewrite Z.mul_1_l. reflexivity. }
  repeat split; try assumption.
  - intros H. rewrite Hadd. now rewrite wrap_long_in_range.
  - intros H. rewrite Hmul. now rewrite wrap_long_in_range.
Qed.

Lemma integer_sum_and_product_witness :
  prim_add (list_to_value (map L0_Integer [1; 2; 3])) 0%nat global_world
  = (Val (L0_Integer 6), global_world) /\
  prim_multiply (list_to_value (map L0_Integer [LONG_MAX; 2])) 0%nat global_world
  = (Val (L0_Integer (-2)), global_world).
Proof.
  split.
  - apply (proj1 (proj2 (proj2 (integer_sum_and_product [1; 2; 3] 0%nat global_world)))).
    vm_compute. split; discriminate.
  - exact (proj1 (proj2 (integer_sum_and_product [LONG_MAX; 2] 0%nat global_world))).
Defined.

(** ** append *)

Lemma copy_loop_id (v : L0_Value) : copy_loop v = v.
Proof. induction v; simpl; try reflexivity. now rewrite IHv2. Qed.

Lemma last_cdr_list (v : L0_Value) : l0_is_list v = true -> last_cdr v = L0_NIL.
Proof. induction v; simpl; intros H; try discriminate; [ reflexivity | now apply IHv2 ]. Qed.

Lemma link_app (a b : list L0_Value) (rest : L0_Value) :
  link (a ++ b) rest = link a (link b rest).
Proof. induction a as [| x r IH]; simpl; [ reflexivity | now rewrite IH ]. Qed.

Lemma link_nil (l : list L0_Value) : link l L0_NIL = list_to_value l.
Proof. induction l as [| x r IH]; simpl; [ reflexivity | now rewrite IH ]. Qed.

Lemma link_list_to_value (a b : list L0_Value) :
  link a (list_to_value b) = list_to_value (a ++ b).
Proof. induction a as [| x r IH]; simpl; [ reflexivity | now rewrite IH ]. Qed.

Lemma append_loop_lists (ls : list (list L0_Value)) :
  forall (result : list L0_Value) (w : World),
    append_loop (list_to_value (map list_to_value ls)) result w
    = (Val (list_to_value (result ++ List.concat ls)), w).
Proof.
  induction ls as [| l rest IH]; intros result w; cbn [map list_to_value List.concat append_loop].
  - now rewrite app_nil_r.
  - rewrite l0_is_list_list_to_value. cbn [negb].
    destruct l as [| x l']; cbn [list_to_value l0_is_nil].
    + rewrite IH. reflexivity.
    + destruct rest as [| l2 rest']; cbn [map list_to_value l0_is_nil].
      * cbn [List.concat]. rewrite app_nil_r.
        change (L0_Pair x (list_to_value l')) with (list_to_value (x :: l')).
        now rewrite link_list_to_value.
      * cbn [l0_copy_list]. rewrite copy_loop_id. cbn [l0_is_nil].
        change (L0_Pair x (list_to_value l')) with (list_to_value (x :: l')).
        rewrite last_cdr_list by apply l0_is_list_list_to_value.
        cbn [l0_is_nil negb]. rewrite value_to_list_list_to_value.
        change (L0_Pair (list_to_value l2) (list_to_value (map list_to_value rest')))
          with (list_to_value (map list_to_value (l2 :: rest'))).
        rewrite IH. now rewrite <- app_assoc.
Qed.

Lemma append_loop_not_list (args : list L0_Value) :
  forall (result : list L0_Value) (w : World),
    forallb l0_is_list args = false ->
    append_loop (list_to_value args) result w
    = (Null, set_error L0_PARSE_ERROR_RUNTIME
               (Some "Primitive 'append': All arguments must be lists.") w).
Proof.
  induction args as [| a rest IH]; intros result w H; [ discriminate |].
  cbn [forallb] in H. cbn [list_to_value append_loop].
  destruct (l0_is_list a) eqn:Ha; cbn [negb]; [| reflexivity ].
  cbn [andb] in H.
  destruct (l0_is_nil a) eqn:Hnil; [ now apply IH |].
  destruct rest as [| b rest']; [ discriminate |].
  cbn [list_to_value l0_is_nil].
  destruct a; try discriminate. cbn [l0_copy_list]. rewrite copy_loop_id. cbn [l0_is_nil].
  rewrite last_cdr_list by exact Ha. cbn [l0_is_nil negb].
  now apply IH.
Qed.

(** X7.  [append] applied to proper lists returns their concatenation
    and leaves the world unchanged; when one of its arguments is not a
    list it fails with the message that all arguments must be lists. *)
Theorem append_concatenates (env : L0_Env) (w : World) :
  (forall ls : list (list L0_Value),
      prim_append (list_to_value (map list_to_value ls)) env w
      = (Val (list_to_value (List.concat ls)), w)) /\
  (forall args : list L0_Value,
      forallb l0_is_list args = false ->
      prim_append (list_to_value args) env w
      = (Null, set_error L0_PARSE_ERROR_RUNTIME
                 (Some "Primitive 'append': All arguments must be lists.") w)).
Proof.
  split.
  - intros ls. unfold prim_append. destruct ls as [| l rest]; [ reflexivity |].
    cbn [map list_to_value l0_is_nil].
    change (L0_Pair (list_to_value l) (list_to_value (map list_to_value rest)))
      with (list_to_value (map list_to_value (l :: rest))).
    now rewrite append_loop_lists.
  - intros args H. unfold prim_append. destruct args as [| a rest]; [ discriminate |].
    cbn [list_to_value l0_is_nil].
    change (L0_Pair a (list_to_value rest)) with (list_to_value (a :: rest)).
    now apply append_loop_not_list.
Qed.

Lemma append_concatenates_witness :
  prim_append (list_to_value [list_to_value [L0_Integer 1]; L0_Integer 2]) 0%nat global_world
  = (Null, set_error L0_PARSE_ERROR_RUNTIME
             (Some "Primitive 'append': All arguments must be lists.") global_world).
Proof.
  apply (proj2 (append_concatenates 0%nat global_world)
               [list_to_value [L0_Integer 1]; L0_Integer 2]).
  reflexivity.
Defined.

(** ** String and macro-table primitives *)

(** ** C strings *)

Lemma c_str_idem (s : string) : c_str (c_str s) = c_str s.
Proof.
  induction s as [| c r IH]; simpl; [ reflexivity |].
  destruct (is_nul c) eqn:E; simpl; [ reflexivity |]. now rewrite E, IH.
Qed.

Lemma length_append (a b : string) :
  String.length (a ++ b) = (String.length a + String.length b)%nat.
Proof. induction a as [| c r IH]; simpl; [ reflexivity | now rewrite IH ]. Qed.

Lemma append_assoc (a b c : string) : ((a ++ b) ++ c = a ++ (b ++ c))%string.
Proof. induction a as [| x r IH]; simpl; [ reflexivity | now rewrite IH ]. Qed.

Lemma append_empty_r (a : string) : (a ++ "")%string = a.
Proof. induction a as [| x r IH]; simpl; [ reflexivity | now rewrite IH ]. Qed.

Lemma c_str_append (a b : string) : c_str a = a -> c_str (a ++ b) = (a ++ c_str b)%string.
Proof.
  induction a as [| c r IH]; simpl; intros H; [ reflexivity |].
  destruct (is_nul c) eqn:E; [ discriminate |]. injection H as H. now rewrite IH.
Qed.

Lemma c_str_take (n : nat) : forall s, c_str s = s -> c_str (take n s) = take n s.
Proof.
  induction n as [| n IH]; intros [| c r] H; simpl in *; try reflexivity.
  destruct (is_nul c) eqn:E; [ discriminate |]. injection H as H. now rewrite IH.
Qed.

Lemma c_str_drop (n : nat) : forall s, c_str s = s -> c_str (drop n s) = drop n s.
Proof.
  induction n as [| n IH]; intros [| c r] H; simpl in *; try reflexivity; try exact H.
  destruct (is_nul c) eqn:E; [ discriminate |]. injection H as H. now apply IH.
Qed.

Lemma take_drop (n : nat) : forall s, (take n s ++ drop n s)%string = s.
Proof.
  induction n as [| n IH]; intros [| c r]; simpl; try reflexivity. now rewrite IH.
Qed.

Lemma length_take (n : nat) :
  forall s, String.length (take n s) = Nat.min n (String.length s).
Proof.
  induction n as [| n IH]; intros [| c r]; simpl; try reflexivity. now rewrite IH.
Qed.

Lemma drop_drop (a : nat) : forall (b : nat) (s : string), drop b (drop a s) = drop (a + b) s.
Proof.
  induction a as [| a IH]; intros b s; simpl; [ reflexivity |].
  destruct s as [| c r]; [| apply IH ]. destruct b; reflexivity.
Qed.

Lemma peek_drop_take (i : nat) :
  forall (n : nat) (s : string), (i < n)%nat -> peek (drop i (take n s)) = peek (drop i s).
Proof.
  induction i as [| i IH]; intros [| n] [| c r] H; simpl; try reflexivity; try lia.
  apply IH. lia.
Qed.

Lemma drop_all (s : string) : drop (String.length s) s = EmptyString.
Proof. induction s as [| c r IH]; simpl; [ reflexivity | exact IH ]. Qed.

Lemma take_all (s : string) : take (String.length s) s = s.
Proof. induction s as [| c r IH]; simpl; [ reflexivity | now rewrite IH ]. Qed.

Lemma peek_c_str_not_nul (s : string) (i : nat) :
  (i < String.length (c_str s))%nat -> is_nul (peek (drop i (c_str s))) = false.
Proof.
  revert i. induction s as [| c r IH]; intros i H; simpl in *; [ lia |].
  destruct (is_nul c) eqn:E; simpl in *; [ lia |].
  destruct i as [| i]; simpl; [ exact E | apply IH; lia ].
Qed.

(** ** String primitives *)

Lemma string_append_loop_strings (strs : list string) :
  forall (buffer : string) (w : World),
    string_append_loop (list_to_value (map L0_String strs)) buffer w
    = (Val (l0_make_string (buffer ++ fold_right append EmptyString (map c_str strs))), w).
Proof.
  induction strs as [| s r IH]; intros buffer w; simpl.
  - now rewrite append_empty_r.
  - rewrite IH. now rewrite append_assoc.
Qed.

Lemma c_str_concat (strs : list string) :
  c_str (fold_right append EmptyString (map c_str strs))
  = fold_right append EmptyString (map c_str strs).
Proof.
  induction strs as [| s r IH]; simpl; [ reflexivity |].
  rewrite c_str_append by apply c_str_idem. now rewrite IH.
Qed.

Lemma strlen_concat (strs : list string) :
  strlen (fold_right append EmptyString (map c_str strs)) = total_strlen strs.
Proof.
  unfold strlen, total_strlen. rewrite c_str_concat.
  induction strs as [| s r IH]; simpl; [ reflexivity |].
  rewrite length_append, Nat2Z.inj_add, IH. reflexivity.
Qed.

Lemma string_append_loop_not_string (args : list L0_Value) :
  forall (buffer : string) (w : World),
    forallb l0_is_string args = false ->
    string_append_loop (list_to_value args) buffer w
    = (Null, set_error L0_PARSE_ERROR_RUNTIME
               (Some "Primitive 'string-append': All arguments must be strings.") w).
Proof.
  induction args as [| a rest IH]; intros buffer w H; [ discriminate |].
  cbn [forallb] in H. cbn [list_to_value string_append_loop].
  destruct a; try reflexivity. cbn [l0_is_string andb] in H. now apply IH.
Qed.

Lemma primitive_string_length_string (s : string) (env : L0_Env) (w : World) :
  strlen s <= LONG_MAX ->
  primitive_string_length (list_to_value [L0_String s]) env w = (Val (L0_Integer (strlen s)), w).
Proof.
  intros H. unfold primitive_string_length.
  rewrite (check_arg_count_ok [L0_String s]) by reflexivity.
  cbn [get_arg_ptr get_arg get_arg_from list_to_value ret].
  replace (LONG_MAX <? strlen s) with false by (symmetry; apply Z.ltb_ge; exact H).
  reflexivity.
Qed.

(** X8.  [string-append] applied to strings returns their concatenation,
    and [string-length] of the result is the sum of their lengths.
    [string-append] with an argument that is not a string and
    [string-length] of a value that is not a string fail with their
    messages. *)
Theorem string_append_length (env : L0_Env) (w : World) :
  (forall strs : list string,
      let joined := fold_right append EmptyString (map c_str strs) in
      prim_string_append (list_to_value (map L0_String strs)) env w
      = (Val (L0_String joined), w) /\
      (total_strlen strs <= LONG_MAX ->
       primitive_string_length (list_to_value [L0_String joined]) env w
       = (Val (L0_Integer (total_strlen strs)), w))) /\
  (forall args : list L0_Value,
      forallb l0_is_string args = false ->
      prim_string_append (list_to_value args) env w
      = (Null, set_error L0_PARSE_ERROR_RUNTIME
                 (Some "Primitive 'string-append': All arguments must be strings.") w)) /\
  (forall v : L0_Value,
      l0_is_string v = false ->
      primitive_string_length (list_to_value [v]) env w
      = (Null, set_error L0_PARSE_ERROR_RUNTIME
                 (Some "Primitive 'string-length': Argument must be a string.") w)).
Proof.
  split; [| split ].
  - intros strs joined. unfold prim_string_append.
    rewrite string_append_loop_strings. cbn [append]. unfold l0_make_string.
    rewrite c_str_concat. split; [ reflexivity |].
    intros Hfits. subst joined. rewrite <- strlen_concat in *.
    now apply primitive_string_length_string.
  - intros args H. now apply string_append_loop_not_string.
  - intros v Hv. unfold primitive_string_length.
    rewrite (check_arg_count_ok [v]) by reflexivity.
    cbn [get_arg_ptr get_arg get_arg_from list_to_value ret].
    destruct v; try discriminate; reflexivity.
Qed.

Lemma string_append_length_witness :
  primitive_string_length (list_to_value [L0_String "foobar"]) 0%nat global_world
  = (Val (L0_Integer 6), global_world) /\
  fst (prim_string_append (list_to_value [L0_String "a"; L0_Integer 1]) 0%nat global_world)
  = Null.
Proof.
  split.
  - apply (proj2 (proj1 (string_append_length 0%nat global_world) ["foo"; "bar"])).
    vm_compute. discriminate.
  - rewrite (proj1 (proj2 (string_append_length 0%nat global_world))
                   [L0_String "a"; L0_Integer 1] eq_refl).
    reflexivity.
Defined.

Lemma strlen_nonneg (s : string) : 0 <= strlen s.
Proof. unfold strlen. lia. Qed.

Lemma primitive_substring_3 (str : string) (start_idx end_idx : Z) (env : L0_Env) (w : World) :
  primitive_substring
    (list_to_value [L0_String str; L0_Integer start_idx; L0_Integer end_idx]) env w =
  if (start_idx <? 0) || (strlen str <? start_idx) || (end_idx <? start_idx)
     || (strlen str <? end_idx) then
    runtime_error
      (snprintf 150 ("Primitive 'substring': Index out of bounds (start="
                     ++ string_of_Z start_idx ++ ", end=" ++ string_of_Z end_idx
                     ++ ", len=" ++ string_of_Z (strlen str) ++ ").")) w
  else
    (Val (l0_make_string (take (Z.to_nat (end_idx - start_idx))
                               (drop (Z.to_nat start_idx) (c_str str)))), w).
Proof. reflexivity. Qed.

Lemma primitive_substring_2 (str : string) (start_idx : Z) (env : L0_Env) (w : World) :
  primitive_substring (list_to_value [L0_String str; L0_Integer start_idx]) env w =
  primitive_substring
    (list_to_value [L0_String str; L0_Integer start_idx; L0_Integer (wrap_long (strlen str))])
    env w.
Proof. reflexivity. Qed.

Lemma c_str_sub (str : string) (n k : nat) :
  c_str (take n (drop k (c_str str))) = take n (drop k (c_str str)).
Proof. apply c_str_take, c_str_drop, c_str_idem. Qed.

(** X9.  [(substring str start end)] with [0 <= start <= end <= length]
    returns the [end - start] characters of the string from index
    [start]; with any other indices it fails.  Leaving [end] out means
    the length of the string, and the substring before an index and the
    one from it append to the string. *)
Theorem substring_bounds (str : string) (start_idx end_idx : Z) (env : L0_Env) (w : World) :
  let len := strlen str in
  let sub := take (Z.to_nat (end_idx - start_idx)) (drop (Z.to_nat start_idx) (c_str str)) in
  let call :=
    primitive_substring
      (list_to_value [L0_String str; L0_Integer start_idx; L0_Integer end_idx]) env w in
  (0 <= start_idx <= end_idx /\ end_idx <= len ->
   call = (Val (L0_String sub), w) /\
   strlen sub = end_idx - start_idx /\
   (forall i, 0 <= i < end_idx - start_idx -> char_at sub i = char_at str (start_idx + i))) /\
  (~ (0 <= start_idx <= end_idx /\ end_idx <= len) -> fails_at w call) /\
  (len <= LONG_MAX ->
   primitive_substring (list_to_value [L0_String str; L0_Integer start_idx]) env w
   = primitive_substring
       (list_to_value [L0_String str; L0_Integer start_idx; L0_Integer len]) env w) /\
  (0 <= start_idx <= len -> len <= LONG_MAX ->
   exists a b,
     primitive_substring
       (list_to_value [L0_String str; L0_Integer 0; L0_Integer start_idx]) env w = (Val a, w) /\
     primitive_substring (list_to_value [L0_String str; L0_Integer start_idx]) env w
     = (Val b, w) /\
     prim_string_append (list_to_value [a; b]) env w = (Val (L0_String (c_str str)), w)).
Proof.
  cbn zeta. pose proof (strlen_nonneg str) as Hlen.
  split; [| split; [| split ]].
  - intros [[H0 H1] H2]. rewrite primitive_substring_3.
    replace (start_idx <? 0) with false by (symmetry; apply Z.ltb_ge; lia).
    replace (strlen str <? start_idx) with false by (symmetry; apply Z.ltb_ge; lia).
    replace (end_idx <? start_idx) with false by (symmetry; apply Z.ltb_ge; lia).
    replace (strlen str <? end_idx) with false by (symmetry; apply Z.ltb_ge; lia).
    cbn [orb]. unfold l0_make_string. rewrite c_str_sub.
    split; [ reflexivity |]. split.
    + unfold strlen in *. rewrite c_str_sub, length_take, length_drop. lia.
    + intros i Hi. unfold char_at. rewrite c_str_sub.
      rewrite peek_drop_take by lia. rewrite drop_drop.
      replace (Z.to_nat start_idx + Z.to_nat i)%nat with (Z.to_nat (start_idx + i)) by lia.
      reflexivity.
  - intros Hout. rewrite primitive_substring_3.
    destruct ((start_idx <? 0) || (strlen str <? start_idx) || (end_idx <? start_idx)
              || (strlen str <? end_idx)) eqn:Hc.
    + eexists. reflexivity.
    + exfalso. apply Hout.
      apply orb_false_elim in Hc. destruct Hc as [Hc H4].
      apply orb_false_elim in Hc. destruct Hc as [Hc H3].
      apply orb_false_elim in Hc. destruct Hc as [H1 H2].
      apply Z.ltb_ge in H1, H2, H3, H4. lia.
  - intros Hfits. rewrite primitive_substring_2.
    rewrite wrap_long_in_range; [ reflexivity |]. unfold LONG_MIN. lia.
  - intros Hk Hfits.
    exists (L0_String (take (Z.to_nat start_idx) (c_str str))),
           (L0_String (drop (Z.to_nat start_idx) (c_str str))).
    split; [| split ].
    + rewrite primitive_substring_3.
      replace (0 <? 0) with false by reflexivity.
      replace (strlen str <? 0) with false by (symmetry; apply Z.ltb_ge; lia).
      replace (start_idx <? 0) with false by (symmetry; apply Z.ltb_ge; lia).
      replace (strlen str <? start_idx) with false by (symmetry; apply Z.ltb_ge; lia).
      cbn [orb]. unfold l0_make_string. rewrite Z.sub_0_r.
      change (Z.to_nat 0) with O. cbn [drop].
      now rewrite c_str_take by apply c_str_idem.
    + rewrite primitive_substring_2, primitive_substring_3.
      rewrite wrap_long_in_range by (unfold LONG_MIN; lia).
      replace (start_idx <? 0) with false by (symmetry; apply Z.ltb_ge; lia).
      replace (strlen str <? start_idx) with false by (symmetry; apply Z.ltb_ge; lia).
      replace (strlen str <? strlen str) with false by (symmetry; apply Z.ltb_ge; lia).
      cbn [orb]. unfold l0_make_string. rewrite c_str_sub.
      do 3 f_equal.
      replace (Z.to_nat (strlen str - start_idx))
        with (String.length (drop (Z.to_nat start_idx) (c_str str)))
        by (rewrite length_drop; unfold strlen; lia).
      apply take_all.
    + unfold prim_string_append. cbn [list_to_value string_append_loop append ret].
      unfold l0_make_string.
      rewrite c_str_take, c_str_drop by apply c_str_idem.
      rewrite take_drop. now rewrite c_str_idem.
Qed.

Lemma substring_bounds_witness :
  primitive_substring
    (list_to_value [L0_String "hello"; L0_Integer 1; L0_Integer 3]) 0%nat global_world
  = (Val (L0_String "el"), global_world) /\
  fails_at global_world
    (primitive_substring
       (list_to_value [L0_String "hello"; L0_Integer 3; L0_Integer 6]) 0%nat global_world).
Proof.
  split.
  - apply (proj1 (substring_bounds "hello" 1 3 0%nat global_world)).
    vm_compute. repeat split; discriminate.
  - apply (proj1 (proj2 (substring_bounds "hello" 3 6 0%nat global_world))).
    vm_compute. intros [_ H]. apply H. reflexivity.
Defined.

Lemma char_at_range (str : string) (k : Z) :
  0 <= k < strlen str -> 0 < char_at str k < 256.
Proof.
  intros Hk. unfold char_at.
  assert (Hnn : is_nul (peek (drop (Z.to_nat k) (c_str str))) = false).
  { apply peek_c_str_not_nul. unfold strlen in Hk. lia. }
  set (c := peek (drop (Z.to_nat k) (c_str str))) in *.
  pose proof (N_ascii_bounded c) as Hb. split; [| lia ].
  destruct (N_of_ascii c) eqn:Hc; [| lia ].
  exfalso. unfold is_nul in Hnn. apply Ascii.eqb_neq in Hnn. apply Hnn.
  rewrite <- (ascii_N_embedding c), Hc. reflexivity.
Qed.

(** X10.  [string-ref] returns the code of the character at an index
    inside the string, a number from 1 to 255, and fails for an index
    outside of it. *)
Theorem string_ref_bounds (str : string) (k : Z) (env : L0_Env) (w : World) :
  let call := primitive_string_ref (list_to_value [L0_String str; L0_Integer k]) env w in
  (0 <= k < strlen str ->
   call = (Val (L0_Integer (char_at str k)), w) /\ 0 < char_at str k < 256) /\
  (~ (0 <= k < strlen str) -> fails_at w call).
Proof.
  cbn zeta. unfold primitive_string_ref.
  rewrite (check_arg_count_ok [L0_String str; L0_Integer k]) by reflexivity.
  cbn [get_arg_ptr get_arg get_arg_from list_to_value ret].
  split.
  - intros Hk.
    replace (k <? 0) with false by (symmetry; apply Z.ltb_ge; lia).
    replace (strlen str <=? k) with false by (symmetry; apply Z.leb_gt; lia).
    cbn [orb]. split; [ reflexivity | now apply char_at_range ].
  - intros Hout. destruct ((k <? 0) || (strlen str <=? k)) eqn:Hc.
    + eexists. reflexivity.
    + exfalso. apply Hout. apply orb_false_elim in Hc. destruct Hc as [H1 H2].
      apply Z.ltb_ge in H1. apply Z.leb_gt in H2. lia.
Qed.

Lemma string_ref_bounds_witness :
  primitive_string_ref (list_to_value [L0_String "hello"; L0_Integer 1]) 0%nat global_world
  = (Val (L0_Integer 101), global_world) /\
  fails_at global_world
    (primitive_string_ref (list_to_value [L0_String "hello"; L0_Integer 5]) 0%nat global_world).
Proof.
  split.
  - apply (proj1 (string_ref_bounds "hello" 1 0%nat global_world)).
    vm_compute. split; [ discriminate | reflexivity ].
  - apply (proj2 (string_ref_bounds "hello" 5 0%nat global_world)).
    vm_compute. intros [_ H]. discriminate.
Defined.

(** X11.  For a name without NUL character, [symbol->string] of the
    symbol is the string and [string->symbol] of the string is the
    symbol.  [symbol->string] fails on a value that is not a symbol and
    [string->symbol] on one that is not a string. *)
Theorem symbol_string_round_trip (s : string) (env : L0_Env) (w : World)
        (Hc : c_str s = s) :
  (prim_symbol_to_string (list_to_value [L0_Symbol s]) env w = (Val (L0_String s), w) /\
   prim_string_to_symbol (list_to_value [L0_String s]) env w = (Val (L0_Symbol s), w)) /\
  (forall v, l0_is_symbol v = false ->
             fails_at w (prim_symbol_to_string (list_to_value [v]) env w)) /\
  (forall v, l0_is_string v = false ->
             fails_at w (prim_string_to_symbol (list_to_value [v]) env w)).
Proof.
  split; [| split ].
  - unfold prim_symbol_to_string, prim_string_to_symbol.
    rewrite (check_arg_count_ok [L0_Symbol s]), (check_arg_count_ok [L0_String s])
      by reflexivity.
    cbn [get_arg_ptr get_arg get_arg_from list_to_value ret].
    unfold l0_make_string, l0_make_symbol. now rewrite Hc.
  - intros v Hv. unfold prim_symbol_to_string.
    rewrite (check_arg_count_ok [v]) by reflexivity.
    cbn [get_arg_ptr get_arg get_arg_from list_to_value ret].
    destruct v; try discriminate; eexists; reflexivity.
  - intros v Hv. unfold prim_string_to_symbol.
    rewrite (check_arg_count_ok [v]) by reflexivity.
    cbn [get_arg_ptr get_arg get_arg_from list_to_value ret].
    destruct v; try discriminate; eexists; reflexivity.
Qed.

Lemma symbol_string_round_trip_witness :
  prim_symbol_to_string (list_to_value [L0_Symbol "lambda"]) 0%nat global_world
  = (Val (L0_String "lambda"), global_world).
Proof.
  exact (proj1 (proj1 (symbol_string_round_trip "lambda" 0%nat global_world eq_refl))).
Defined.

(** ** The four scans of the macro table *)

Lemma scan_macro_table_of (name : string) (entries : list (string * L0_Value)) :
  scan_macro_table name (macro_table_of entries) = Env.frame_lookup name entries.
Proof.
  induction entries as [| [n c] rest IH]; [ reflexivity |].
  unfold macro_table_of in *. cbn [map list_to_value fst snd scan_macro_table Env.frame_lookup].
  rewrite String.eqb_sym. destruct (String.eqb n name); [ reflexivity | exact IH ].
Qed.

Lemma find_in_macro_table_of (name : string) (entries : list (string * L0_Value)) (w : World) :
  forallb (fun e => l0_is_closure (snd e)) entries = true ->
  find_in_macro_table name (macro_table_of entries) w = (Env.frame_lookup name entries, w).
Proof.
  induction entries as [| [n c] rest IH]; intros H; [ reflexivity |].
  cbn [forallb snd] in H. apply andb_prop in H. destruct H as [Hc Hrest].
  unfold macro_table_of in *.
  cbn [map list_to_value fst snd find_in_macro_table Env.frame_lookup].
  rewrite String.eqb_sym. destruct (String.eqb n name).
  - rewrite Hc. reflexivity.
  - now apply IH.
Qed.

Lemma is_macro_loop_of (name : string) (entries : list (string * L0_Value)) :
  is_macro_loop name (macro_table_of entries)
  = match Env.frame_lookup name entries with Some _ => true | None => false end.
Proof.
  induction entries as [| [n c] rest IH]; [ reflexivity |].
  unfold macro_table_of in *. cbn [map list_to_value fst snd is_macro_loop Env.frame_lookup].
  destruct (String.eqb n name); [ reflexivity | exact IH ].
Qed.

Lemma get_macro_transformer_loop_of (name : string) (entries : list (string * L0_Value)) :
  forallb (fun e => l0_is_closure (snd e)) entries = true ->
  get_macro_transformer_loop name (macro_table_of entries)
  = match Env.frame_lookup name entries with Some c => c | None => L0_Boolean false end.
Proof.
  induction entries as [| [n c] rest IH]; intros H; [ reflexivity |].
  cbn [forallb snd] in H. apply andb_prop in H. destruct H as [Hc Hrest].
  unfold macro_table_of in *.
  cbn [map list_to_value fst snd get_macro_transformer_loop Env.frame_lookup].
  destruct (String.eqb n name).
  - rewrite Hc. reflexivity.
  - now apply IH.
Qed.

(** X12.  On a macro table made of (name . closure) entries the scan of
    the evaluator, [find_macro_transformer]'s table search and the
    primitives [is-macro?] and [get-macro-transformer] agree: each finds
    the first entry with the name.  They part on a table that starts with
    an entry that is not a pair: the scan skips it, the search reports a
    malformed table. *)
Theorem macro_table_lookups_agree (entries : list (string * L0_Value)) (name : string)
        (env : L0_Env) (w : World)
        (Hclosures : forallb (fun e => l0_is_closure (snd e)) entries = true) :
  let table := macro_table_of entries in
  let found := Env.frame_lookup name entries in
  scan_macro_table name table = found /\
  find_in_macro_table name table w = (found, w) /\
  prim_is_macro_q (list_to_value [L0_Symbol name; table]) env w
  = (Val (L0_Boolean (match found with Some _ => true | None => false end)), w) /\
  prim_get_macro_transformer (list_to_value [L0_Symbol name; table]) env w
  = (Val (match found with Some c => c | None => L0_Boolean false end), w) /\
  (forall junk,
      l0_is_pair junk = false ->
      scan_macro_table name (L0_Pair junk table) = found /\
      find_in_macro_table name (L0_Pair junk table) w
      = (None, set_error L0_PARSE_ERROR_RUNTIME
                 (Some "Runtime error: Malformed entry in '*macro-table*'.") w)).
Proof.
  cbn zeta.
  assert (Hlist : l0_is_list (macro_table_of entries) = true)
    by apply l0_is_list_list_to_value.
  split; [ apply scan_macro_table_of |].
  split; [ now apply find_in_macro_table_of |].
  split; [| split ].
  - unfold prim_is_macro_q.
    rewrite (check_arg_count_ok [L0_Symbol name; macro_table_of entries]) by reflexivity.
    cbn [get_arg_ptr get_arg get_arg_from list_to_value ret].
    rewrite Hlist. cbn [negb]. now rewrite is_macro_loop_of.
  - unfold prim_get_macro_transformer.
    rewrite (check_arg_count_ok [L0_Symbol name; macro_table_of entries]) by reflexivity.
    cbn [get_arg_ptr get_arg get_arg_from list_to_value ret].
    rewrite Hlist. cbn [negb]. now rewrite get_macro_transformer_loop_of.
  - intros junk Hj. split.
    + destruct junk; try discriminate; apply scan_macro_table_of.
    + destruct junk; try discriminate; reflexivity.
Qed.

Lemma macro_table_lookups_agree_witness :
  prim_get_macro_transformer
    (list_to_value [L0_Symbol "m"; macro_table_of [("k", transformer_k); ("m", transformer_m)]])
    0%nat global_world
  = (Val transformer_m, global_world).
Proof.
  exact (proj1 (proj2 (proj2 (proj2
           (macro_table_lookups_agree [("k", transformer_k); ("m", transformer_m)] "m"
              0%nat global_world eq_refl))))).
Defined.

(** ** Special forms *)

(** ** l0_eval.c: quasiquote *)

Lemma expand_quasiquote_pair (self : Interp) (op rest : L0_Value) (env : L0_Env) (depth : Z) :
  match op with
  | L0_Symbol s => String.eqb s "unquote" || String.eqb s "unquote-splicing"
  | _ => false
  end = false ->
  exists depth',
    l0_expand_quasiquote self (L0_Pair op rest) env depth =
    bind_or (fun w => w) (l0_expand_quasiquote self op env depth')
      (fun expanded_car =>
         bind_or (fun w => w) (l0_expand_quasiquote self rest env depth')
           (fun expanded_cdr => ret (L0_Pair expanded_car expanded_cdr))).
Proof.
  intros H. destruct op; try (exists depth; reflexivity).
  apply orb_false_elim in H. destruct H as [H1 H2].
  cbn [l0_expand_quasiquote]. rewrite H1, H2.
  destruct (String.eqb symbol "quasiquote"); eexists; reflexivity.
Qed.

Lemma expand_quasiquote_unquote_free (self : Interp) (env : L0_Env) (template : L0_Value) :
  forall (depth : Z) (w : World),
    world_ok w = true ->
    unquote_free template = true ->
    l0_expand_quasiquote self template env depth w = (Val template, w).
Proof.
  induction template; intros depth w Hok Hfree; try reflexivity.
  cbn [unquote_free] in Hfree.
  apply andb_prop in Hfree as [Hfree Hrest]. apply andb_prop in Hfree as [Hop Hcar].
  apply negb_true_iff in Hop.
  destruct (expand_quasiquote_pair self template1 template2 env depth Hop) as [depth' ->].
  unfold bind_or. rewrite (IHtemplate1 depth' w Hok Hcar), Hok.
  rewrite (IHtemplate2 depth' w Hok Hrest), Hok. reflexivity.
Qed.

(** X13.  A [quasiquote] whose template contains no [unquote] and no
    [unquote-splicing] evaluates to the template itself and leaves the
    world unchanged, as [quote] does. *)
Theorem quasiquote_without_unquote host (fuel : nat) (template : L0_Value)
        (env : L0_Env) (w : World)
        (Hok : world_ok w = true)
        (Hdepth : eval_depth w + 1 <= MAX_EVAL_DEPTH)
        (Hfree : unquote_free template = true) :
  l0_eval host (S fuel) (list_to_value [L0_Symbol "quasiquote"; template]) env w
  = (Val template, w) /\
  l0_eval host (S fuel) (list_to_value [L0_Symbol "quote"; template]) env w
  = (Val template, w).
Proof.
  split.
  - rewrite l0_eval_unfold. unfold l0_eval_body.
    rewrite (depth_test_pass w Hdepth).
    cbn [list_to_value get_special_form_type String.eqb Ascii.eqb Bool.eqb sf_quasiquote].
    rewrite expand_quasiquote_unquote_free by assumption.
    now rewrite leave_enter.
  - rewrite l0_eval_unfold. unfold l0_eval_body.
    rewrite (depth_test_pass w Hdepth).
    cbn [list_to_value get_special_form_type String.eqb Ascii.eqb Bool.eqb sf_quote].
    unfold leave_with. now rewrite leave_enter.
Qed.

Lemma quasiquote_without_unquote_witness :
  l0_eval l0_host 1
    (list_to_value [L0_Symbol "quasiquote";
                    list_to_value [L0_Symbol "a"; list_to_value [L0_Integer 1]]])
    0%nat global_world
  = (Val (list_to_value [L0_Symbol "a"; list_to_value [L0_Integer 1]]), global_world).
Proof.
  apply (quasiquote_without_unquote l0_host 0
           (list_to_value [L0_Symbol "a"; list_to_value [L0_Integer 1]]) 0%nat global_world).
  - vm_compute. reflexivity.
  - vm_compute. discriminate.
  - vm_compute. reflexivity.
Defined.

(** ** l0_eval.c: define and set! *)

Lemma l0_env_lookup_set_eval_depth (env : L0_Env) (name : string) (d : Z) (w : World) :
  l0_env_lookup env name (set_eval_depth d w) = l0_env_lookup env name w.
Proof. reflexivity. Qed.

Lemma l0_eval_symbol host (fuel : nat) (name : string) (env : L0_Env) (w : World) :
  eval_depth w + 1 <= MAX_EVAL_DEPTH ->
  l0_eval host (S fuel) (L0_Symbol name) env w =
  match l0_env_lookup env name w with
  | Some v => (Val v, w)
  | None =>
      (Null, set_error L0_PARSE_ERROR_RUNTIME
               (Some (snprintf 100 ("Unbound variable: " ++ name))) w)
  end.
Proof.
  intros Hd. rewrite l0_eval_unfold. unfold l0_eval_body.
  rewrite (depth_test_pass w Hd). rewrite l0_env_lookup_set_eval_depth.
  destruct (l0_env_lookup env name w).
  - unfold leave_with. now rewrite leave_enter.
  - unfold eval_error. now rewrite leave_set_error_enter.
Qed.

Lemma leave_depth (w : World) : eval_depth (leave w) = eval_depth w - 1.
Proof. reflexivity. Qed.

Lemma l0_env_lookup_leave (env : L0_Env) (name : string) (w : World) :
  l0_env_lookup env name (leave w) = l0_env_lookup env name w.
Proof. reflexivity. Qed.

(** X14.  [(define name expr)], where [expr] evaluates to a value,
    returns nil and binds the name in the current environment: the name
    then looks up and evaluates to that value, and the other names are
    bound as the evaluation of [expr] left them. *)
Theorem define_then_evaluate host (fuel fuel' : nat) (name : string)
        (value_expr v : L0_Value) (env : L0_Env) (w w1 : World)
        (Hdepth : eval_depth w + 1 <= MAX_EVAL_DEPTH)
        (Heval : l0_eval host fuel value_expr env (set_eval_depth (eval_depth w + 1) w)
                 = (Val v, w1))
        (Hok : world_ok w1 = true)
        (Hvalid : (env < List.length (envs w1))%nat) :
  let form := list_to_value [L0_Symbol "define"; L0_Symbol name; value_expr] in
  let w2 := leave (snd (l0_env_define env name v w1)) in
  l0_eval host (S fuel) form env w = (Val L0_NIL, w2) /\
  l0_env_lookup env name w2 = Some v /\
  (forall env' other, other <> name ->
                      l0_env_lookup env' other w2 = l0_env_lookup env' other w1) /\
  (eval_depth w2 + 1 <= MAX_EVAL_DEPTH ->
   l0_eval host (S fuel') (L0_Symbol name) env w2 = (Val v, w2)).
Proof.
  cbn zeta.
  destruct (l0_env_define_lookup env name v w1 Hvalid) as (Htrue & Hsame & Hother).
  split; [| split; [| split ]].
  - rewrite l0_eval_unfold. unfold l0_eval_body.
    rewrite (depth_test_pass w Hdepth).
    cbn [list_to_value get_special_form_type String.eqb Ascii.eqb Bool.eqb sf_define].
    unfold checked, bind_or. fold (l0_eval host fuel). rewrite Heval, Hok.
    unfold define_or.
    destruct (l0_env_define env name v w1) as [[|] w'] eqn:Hdef;
      [ reflexivity | discriminate ].
  - rewrite l0_env_lookup_leave. exact Hsame.
  - intros env' other Hne. rewrite l0_env_lookup_leave. now apply Hother.
  - intros Hd. rewrite l0_eval_symbol by exact Hd.
    rewrite l0_env_lookup_leave, Hsame. reflexivity.
Qed.

Lemma define_then_evaluate_witness :
  l0_env_lookup 0%nat "x"
    (snd (l0_eval l0_host 2 (list_to_value [L0_Symbol "define"; L0_Symbol "x"; L0_Integer 5])
            0%nat global_world))
  = Some (L0_Integer 5).
Proof.
  assert (Heval : l0_eval l0_host 1 (L0_Integer 5) 0%nat
                    (set_eval_depth (eval_depth global_world + 1) global_world)
                  = (Val (L0_Integer 5),
                     set_eval_depth (eval_depth global_world + 1) global_world))
    by (vm_compute; reflexivity).
  assert (Hdepth : eval_depth global_world + 1 <= MAX_EVAL_DEPTH) by (vm_compute; discriminate).
  assert (Hvalid : (0 < List.length (envs (set_eval_depth (eval_depth global_world + 1)
                                                          global_world)))%nat)
    by (vm_compute; lia).
  destruct (define_then_evaluate l0_host 1 0 "x" (L0_Integer 5) (L0_Integer 5) 0%nat
              global_world _ Hdepth Heval eq_refl Hvalid) as (Hform & Hlook & _).
  rewrite Hform. exact Hlook.
Defined.

(** X15.  The shorthand [(define (f . params) body)] with a single body
    expression behaves as [(define f (lambda params body))]: both return
    nil and bind [f] to the closure of [params] and [body] over the
    current environment. *)
Theorem define_function_shorthand host (fuel : nat) (f : string)
        (params body : L0_Value) (env : L0_Env) (w : World)
        (Hok : world_ok w = true)
        (Hdepth : eval_depth w + 2 <= MAX_EVAL_DEPTH)
        (Hparams : check_params params = ParamsOk)
        (Hvalid : (env < List.length (envs w))%nat) :
  let shorthand :=
    list_to_value [L0_Symbol "define"; L0_Pair (L0_Symbol f) params; body] in
  let explicit :=
    list_to_value [L0_Symbol "define"; L0_Symbol f;
                   list_to_value [L0_Symbol "lambda"; params; body]] in
  l0_eval host (S (S fuel)) shorthand env w = l0_eval host (S (S fuel)) explicit env w /\
  l0_eval host (S (S fuel)) shorthand env w
  = (Val L0_NIL,
     snd (l0_env_define env f (L0_Closure params (list_to_value [body]) env) w)).
Proof.
  cbn zeta.
  assert (Hd1 : eval_depth w + 1 <= MAX_EVAL_DEPTH) by lia.
  set (w1 := set_eval_depth (eval_depth w + 1) w).
  assert (Hlambda :
            l0_eval host (S fuel) (list_to_value [L0_Symbol "lambda"; params; body]) env w1
            = (Val (L0_Closure params (list_to_value [body]) env), w1)).
  { rewrite l0_eval_unfold. unfold l0_eval_body.
    rewrite (depth_test_pass w1) by (unfold w1; simpl; lia).
    cbn [list_to_value get_special_form_type String.eqb Ascii.eqb Bool.eqb sf_lambda].
    rewrite Hparams. unfold leave_with. now rewrite leave_enter. }
  assert (Hshort :
            l0_eval host (S (S fuel))
              (list_to_value [L0_Symbol "define"; L0_Pair (L0_Symbol f) params; body]) env w
            = define_or "Failed to define function in environment." env f
                (L0_Closure params (list_to_value [body]) env) (leave_with (Val L0_NIL)) w1).
  { rewrite l0_eval_unfold. unfold l0_eval_body.
    rewrite (depth_test_pass w Hd1).
    cbn [list_to_value get_special_form_type String.eqb Ascii.eqb Bool.eqb sf_define].
    now rewrite Hparams. }
  assert (Hexpl :
            l0_eval host (S (S fuel))
              (list_to_value [L0_Symbol "define"; L0_Symbol f;
                              list_to_value [L0_Symbol "lambda"; params; body]]) env w
            = define_or "Failed to define variable in environment." env f
                (L0_Closure params (list_to_value [body]) env) (leave_with (Val L0_NIL)) w1).
  { rewrite l0_eval_unfold. unfold l0_eval_body.
    rewrite (depth_test_pass w Hd1).
    cbn [list_to_value get_special_form_type String.eqb Ascii.eqb Bool.eqb sf_define].
    unfold checked, bind_or. fold (l0_eval host (S fuel)). fold w1.
    change (L0_Pair (L0_Symbol "lambda") (L0_Pair params (L0_Pair body L0_NIL)))
      with (list_to_value [L0_Symbol "lambda"; params; body]).
    rewrite Hlambda. now rewrite (Hok : world_ok w1 = true). }
  assert (Hvalid_case :
            forall msg,
              define_or msg env f (L0_Closure params (list_to_value [body]) env)
                        (leave_with (Val L0_NIL)) w1
              = (Val L0_NIL,
                 snd (l0_env_define env f (L0_Closure params (list_to_value [body]) env) w))).
  { intros msg. unfold define_or, l0_env_define. cbn [envs w1 set_eval_depth].
    destruct (nth_error (envs w) env) as [s |] eqn:Hs;
      [| apply nth_error_None in Hs; lia ].
    unfold leave_with, leave. cbn [snd]. f_equal.
    unfold set_envs, set_eval_depth. cbn. f_equal. lia. }
  split.
  - rewrite Hshort, Hexpl. now rewrite !Hvalid_case.
  - rewrite Hshort. apply Hvalid_case.
Qed.

Lemma define_function_shorthand_witness :
  l0_eval l0_host 2
    (list_to_value [L0_Symbol "define";
                    L0_Pair (L0_Symbol "id") (list_to_value [L0_Symbol "x"]);
                    L0_Symbol "x"]) 0%nat global_world
  = (Val L0_NIL,
     snd (l0_env_define 0%nat "id"
            (L0_Closure (list_to_value [L0_Symbol "x"]) (list_to_value [L0_Symbol "x"]) 0%nat)
            global_world)).
Proof.
  assert (Hdepth : eval_depth global_world + 2 <= MAX_EVAL_DEPTH) by (vm_compute; discriminate).
  assert (Hvalid : (0 < List.length (envs global_world))%nat) by (vm_compute; lia).
  exact (proj2 (define_function_shorthand l0_host 0 "id" (list_to_value [L0_Symbol "x"])
                  (L0_Symbol "x") 0%nat global_world eq_refl Hdepth eq_refl Hvalid)).
Defined.

(** X16.  [(set! name expr)] on a name that is bound, where [expr]
    evaluates to a value, returns nil; the name then looks up and
    evaluates to that value, the other names are unchanged and no
    environment gains a binding. *)
Theorem set_then_evaluate host (fuel fuel' : nat) (name : string)
        (value_expr v : L0_Value) (env : L0_Env) (w w1 : World)
        (Hdepth : eval_depth w + 1 <= MAX_EVAL_DEPTH)
        (Heval : l0_eval host fuel value_expr env (set_eval_depth (eval_depth w + 1) w)
                 = (Val v, w1))
        (Hok : world_ok w1 = true)
        (Hbound : l0_env_lookup env name w1 <> None) :
  let form := list_to_value [L0_Symbol "set!"; L0_Symbol name; value_expr] in
  let w2 := leave (snd (l0_env_set env name v w1)) in
  l0_eval host (S fuel) form env w = (Val L0_NIL, w2) /\
  l0_env_lookup env name w2 = Some v /\
  (forall env' other, other <> name ->
                      l0_env_lookup env' other w2 = l0_env_lookup env' other w1) /\
  env_shape (envs w2) = env_shape (envs w1) /\
  (eval_depth w2 + 1 <= MAX_EVAL_DEPTH ->
   l0_eval host (S fuel') (L0_Symbol name) env w2 = (Val v, w2)).
Proof.
  cbn zeta.
  destruct (l0_env_set_lookup env name v w1) as (_ & Hset & Hother).
  destruct (Hset Hbound) as [Htrue Hsame].
  split; [| split; [| split; [| split ]]].
  - rewrite l0_eval_unfold. unfold l0_eval_body.
    rewrite (depth_test_pass w Hdepth).
    cbn [list_to_value get_special_form_type String.eqb Ascii.eqb Bool.eqb sf_set].
    unfold checked, bind_or. fold (l0_eval host fuel). rewrite Heval, Hok.
    destruct (l0_env_set env name v w1) as [[|] w'] eqn:Hs; [ reflexivity | discriminate ].
  - rewrite l0_env_lookup_leave. exact Hsame.
  - intros env' other Hne. rewrite l0_env_lookup_leave. now apply Hother.
  - apply l0_env_set_shape.
  - intros Hd. rewrite l0_eval_symbol by exact Hd.
    rewrite l0_env_lookup_leave, Hsame. reflexivity.
Qed.

Lemma set_then_evaluate_witness :
  l0_env_lookup 0%nat "*macro-table*"
    (snd (l0_eval l0_host 2
            (list_to_value [L0_Symbol "set!"; L0_Symbol "*macro-table*"; L0_Integer 5])
            0%nat global_world))
  = Some (L0_Integer 5).
Proof.
  assert (Heval : l0_eval l0_host 1 (L0_Integer 5) 0%nat
                    (set_eval_depth (eval_depth global_world + 1) global_world)
                  = (Val (L0_Integer 5),
                     set_eval_depth (eval_depth global_world + 1) global_world))
    by (vm_compute; reflexivity).
  assert (Hdepth : eval_depth global_world + 1 <= MAX_EVAL_DEPTH) by (vm_compute; discriminate).
  assert (Hbound : l0_env_lookup 0%nat "*macro-table*"
                     (set_eval_depth (eval_depth global_world + 1) global_world) <> None)
    by (vm_compute; discriminate).
  destruct (set_then_evaluate l0_host 1 0 "*macro-table*" (L0_Integer 5) (L0_Integer 5) 0%nat
              global_world _ Hdepth Heval eq_refl Hbound) as (Hform & Hlook & _).
  rewrite Hform. exact Hlook.
Defined.

(** ** l0_eval.c: defmacro *)

Lemma l0_env_set_set_eval_depth (env : L0_Env) (name : string) (v : L0_Value) (d : Z)
      (w : World) :
  l0_env_set env name v (set_eval_depth d w)
  = (fst (l0_env_set env name v w), set_eval_depth d (snd (l0_env_set env name v w))).
Proof.
  unfold l0_env_set. cbn [envs set_eval_depth].
  destruct (Env.set_from _ _ _ _ _); reflexivity.
Qed.

Lemma eval_depth_l0_env_set (env : L0_Env) (name : string) (v : L0_Value) (w : World) :
  eval_depth (snd (l0_env_set env name v w)) = eval_depth w.
Proof. unfold l0_env_set. destruct (Env.set_from _ _ _ _ _); reflexivity. Qed.

(** X17.  [(defmacro name params body ...)] returns nil and puts the
    entry of the name, with the closure of [params] and the body over the
    current environment, in front of the list bound to [*macro-table*].
    [find_macro_transformer] then finds that closure for the name, and
    the entries of the other names are found as before. *)
Theorem defmacro_registers_transformer host (fuel : nat) (name : string)
        (params b1 brest table : L0_Value) (env : L0_Env) (w : World)
        (Hdepth : eval_depth w + 1 <= MAX_EVAL_DEPTH)
        (Hparams : check_params params = ParamsOk)
        (Htable : l0_env_lookup env "*macro-table*" w = Some table)
        (Hlist : l0_is_list table = true) :
  let transformer := L0_Closure params (L0_Pair b1 brest) env in
  let form :=
    L0_Pair (L0_Symbol "defmacro") (L0_Pair (L0_Symbol name) (L0_Pair params (L0_Pair b1 brest))) in
  let new_table := L0_Pair (L0_Pair (L0_Symbol name) transformer) table in
  let w' := snd (l0_env_set env "*macro-table*" new_table w) in
  l0_eval host (S fuel) form env w = (Val L0_NIL, w') /\
  l0_env_lookup env "*macro-table*" w' = Some new_table /\
  scan_macro_table name new_table = Some transformer /\
  find_macro_transformer (L0_Symbol name) env w' = (Some transformer, w') /\
  (forall other,
      other <> name ->
      scan_macro_table other new_table = scan_macro_table other table).
Proof.
  cbn zeta.
  set (transformer := L0_Closure params (L0_Pair b1 brest) env).
  set (new_table := L0_Pair (L0_Pair (L0_Symbol name) transformer) table).
  destruct (l0_env_set_lookup env "*macro-table*" new_table w) as (_ & Hset & _).
  destruct Hset as [Htrue Hsame]; [ congruence |].
  split; [| split; [| split; [| split ]]].
  - rewrite l0_eval_unfold. unfold l0_eval_body.
    rewrite (depth_test_pass w Hdepth).
    cbn [get_special_form_type String.eqb Ascii.eqb Bool.eqb sf_defmacro].
    rewrite Hparams. rewrite l0_env_lookup_set_eval_depth, Htable.
    fold transformer. fold new_table.
    rewrite l0_env_set_set_eval_depth, Htrue. f_equal.
    apply leave_enter. now rewrite eval_depth_l0_env_set.
  - exact Hsame.
  - unfold new_table. cbn [scan_macro_table]. now rewrite String.eqb_refl.
  - unfold find_macro_transformer. rewrite Hsame.
    unfold new_table at 1. cbn [l0_is_list]. rewrite Hlist. cbn [negb].
    unfold new_table. cbn [find_in_macro_table]. rewrite String.eqb_refl.
    reflexivity.
  - intros other Hne. unfold new_table. cbn [scan_macro_table].
    destruct (String.eqb other name) eqn:E; [| reflexivity ].
    apply String.eqb_eq in E. contradiction.
Qed.

Lemma defmacro_registers_transformer_witness :
  find_macro_transformer (L0_Symbol "m") 0%nat
    (snd (l0_eval l0_host 1 defmacro_m 0%nat global_world))
  = (Some transformer_m, snd (l0_eval l0_host 1 defmacro_m 0%nat global_world)).
Proof.
  assert (Hdepth : eval_depth global_world + 1 <= MAX_EVAL_DEPTH) by (vm_compute; discriminate).
  assert (Htable : l0_env_lookup 0%nat "*macro-table*" global_world = Some L0_NIL)
    by (vm_compute; reflexivity).
  destruct (defmacro_registers_transformer l0_host 0 "m" L0_NIL
              (list_to_value [L0_Symbol "quote"; L0_Symbol "m"]) L0_NIL L0_NIL 0%nat
              global_world Hdepth eq_refl Htable eq_refl) as (Hform & _ & _ & Hfind & _).
  change (L0_Pair (L0_Symbol "defmacro")
            (L0_Pair (L0_Symbol "m")
               (L0_Pair L0_NIL (L0_Pair (list_to_value [L0_Symbol "quote"; L0_Symbol "m"]) L0_NIL))))
    with defmacro_m in Hform.
  rewrite Hform. exact Hfind.
Defined.

(** ** l0_eval.c: and, or *)

Lemma list_to_value_is_nil (l : list L0_Value) : l0_is_nil (list_to_value l) = true -> l = [].
Proof. destruct l; [ reflexivity | discriminate ]. Qed.

Lemma and_loop_skip (self : Interp) (env : L0_Env) (pre : list L0_Value) :
  forall (e : L0_Value) (post : list L0_Value) (last last' : L0_Value) (w w1 : World),
    eval_all_satisfy l0_is_truthy self pre env w = Some w1 ->
    and_loop self (list_to_value (pre ++ e :: post)) last env w
    = and_loop self (list_to_value (e :: post)) last' env w1.
Proof.
  induction pre as [| p pre IH]; intros e post last last' w w1 H.
  - injection H as <-. reflexivity.
  - cbn [eval_all_satisfy] in H.
    destruct (interp_eval self p env w) as [[v | |] w'] eqn:Hp; try discriminate.
    destruct (world_ok w') eqn:Hok; [| discriminate ].
    destruct (l0_is_truthy v) eqn:Hv; [| discriminate ]. cbn [andb] in H.
    cbn [app list_to_value and_loop].
    destruct (l0_is_nil (list_to_value (pre ++ e :: post))) eqn:Hnil.
    { apply list_to_value_is_nil in Hnil. destruct pre; discriminate. }
    unfold checked, bind_or. rewrite Hp, Hok.
    destruct v as [| [|] | | | | | | | |]; try discriminate; exact (IH e post _ last' _ _ H).
Qed.

Lemma or_loop_skip (self : Interp) (env : L0_Env) (pre : list L0_Value) :
  forall (e : L0_Value) (post : list L0_Value) (last last' : L0_Value) (w w1 : World),
    eval_all_satisfy is_false self pre env w = Some w1 ->
    or_loop self (list_to_value (pre ++ e :: post)) last env w
    = or_loop self (list_to_value (e :: post)) last' env w1.
Proof.
  induction pre as [| p pre IH]; intros e post last last' w w1 H.
  - injection H as <-. reflexivity.
  - cbn [eval_all_satisfy] in H.
    destruct (interp_eval self p env w) as [[v | |] w'] eqn:Hp; try discriminate.
    destruct (world_ok w') eqn:Hok; [| discriminate ].
    unfold is_false in H at 1.
    destruct (l0_is_truthy v) eqn:Hv; [ discriminate |]. cbn [andb negb] in H.
    cbn [app list_to_value or_loop].
    destruct (l0_is_nil (list_to_value (pre ++ e :: post))) eqn:Hnil.
    { apply list_to_value_is_nil in Hnil. destruct pre; discriminate. }
    unfold checked, bind_or. rewrite Hp, Hok, Hv. exact (IH e post _ last' _ _ H).
Qed.

Lemma l0_eval_and host (fuel : nat) (args : list L0_Value) (env : L0_Env) (w : World) :
  eval_depth w + 1 <= MAX_EVAL_DEPTH ->
  l0_eval host (S fuel) (L0_Pair (L0_Symbol "and") (list_to_value args)) env w =
  match args with
  | [] => (Val (L0_Boolean true), w)
  | _ => and_loop (interp host fuel) (list_to_value args) (L0_Boolean true) env
                  (set_eval_depth (eval_depth w + 1) w)
  end.
Proof.
  intros Hd. rewrite l0_eval_unfold. unfold l0_eval_body.
  rewrite (depth_test_pass w Hd).
  cbn [get_special_form_type String.eqb Ascii.eqb Bool.eqb]. unfold sf_and.
  destruct args as [| a r].
  - cbn [list_to_value l0_is_nil]. unfold leave_with. now rewrite leave_enter.
  - rewrite l0_is_list_list_to_value. reflexivity.
Qed.

Lemma l0_eval_or host (fuel : nat) (args : list L0_Value) (env : L0_Env) (w : World) :
  eval_depth w + 1 <= MAX_EVAL_DEPTH ->
  l0_eval host (S fuel) (L0_Pair (L0_Symbol "or") (list_to_value args)) env w =
  match args with
  | [] => (Val (L0_Boolean false), w)
  | _ => or_loop (interp host fuel) (list_to_value args) (L0_Boolean false) env
                 (set_eval_depth (eval_depth w + 1) w)
  end.
Proof.
  intros Hd. rewrite l0_eval_unfold. unfold l0_eval_body.
  rewrite (depth_test_pass w Hd).
  cbn [get_special_form_type String.eqb Ascii.eqb Bool.eqb]. unfold sf_or.
  destruct args as [| a r].
  - cbn [list_to_value l0_is_nil]. unfold leave_with. now rewrite leave_enter.
  - rewrite l0_is_list_list_to_value. reflexivity.
Qed.

(** X18.  [(and)] is true and [(or)] is false.  [and] evaluates its
    expressions from the left while they are truthy, [or] while they are
    false: the first expression that decides otherwise gives the result
    and the later ones are not evaluated; when none does, the result is
    that of the last expression. *)
Theorem and_or_short_circuit host (fuel : nat) (env : L0_Env) (w w1 : World)
        (pre post : list L0_Value) (e : L0_Value)
        (Hdepth : eval_depth w + 1 <= MAX_EVAL_DEPTH) :
  let w_in := set_eval_depth (eval_depth w + 1) w in
  let and_form := L0_Pair (L0_Symbol "and") (list_to_value (pre ++ e :: post)) in
  let or_form := L0_Pair (L0_Symbol "or") (list_to_value (pre ++ e :: post)) in
  l0_eval host (S fuel) (L0_Pair (L0_Symbol "and") L0_NIL) env w = (Val (L0_Boolean true), w) /\
  l0_eval host (S fuel) (L0_Pair (L0_Symbol "or") L0_NIL) env w = (Val (L0_Boolean false), w) /\
  (eval_all_satisfy l0_is_truthy (interp host fuel) pre env w_in = Some w1 ->
   (post = [] -> l0_eval host (S fuel) and_form env w = l0_eval host fuel e env (leave w1)) /\
   (post <> [] ->
    forall w2,
      l0_eval host fuel e env w1 = (Val (L0_Boolean false), w2) ->
      world_ok w2 = true ->
      l0_eval host (S fuel) and_form env w = (Val (L0_Boolean false), leave w2))) /\
  (eval_all_satisfy is_false (interp host fuel) pre env w_in = Some w1 ->
   (post = [] -> l0_eval host (S fuel) or_form env w = l0_eval host fuel e env (leave w1)) /\
   (post <> [] ->
    forall v w2,
      l0_eval host fuel e env w1 = (Val v, w2) ->
      world_ok w2 = true ->
      l0_is_truthy v = true ->
      l0_eval host (S fuel) or_form env w = (Val v, leave w2))).
Proof.
  cbn zeta.
  split; [ exact (l0_eval_and host fuel [] env w Hdepth) |].
  split; [ exact (l0_eval_or host fuel [] env w Hdepth) |].
  split.
  - intros Hpre. rewrite (l0_eval_and host fuel (pre ++ e :: post) env w Hdepth).
    destruct (pre ++ e :: post)%list as [| a r] eqn:Happ; [ destruct pre; discriminate |].
    rewrite <- Happ.
    rewrite (and_loop_skip _ env pre e post _ (L0_Boolean true) _ w1 Hpre).
    split.
    + intros ->. reflexivity.
    + intros Hpost w2 He Hok. cbn [list_to_value and_loop].
      destruct post as [| p post']; [ contradiction |]. cbn [list_to_value l0_is_nil].
      unfold checked, bind_or. fold (l0_eval host fuel). rewrite He, Hok. reflexivity.
  - intros Hpre. rewrite (l0_eval_or host fuel (pre ++ e :: post) env w Hdepth).
    destruct (pre ++ e :: post)%list as [| a r] eqn:Happ; [ destruct pre; discriminate |].
    rewrite <- Happ.
    rewrite (or_loop_skip _ env pre e post _ (L0_Boolean false) _ w1 Hpre).
    split.
    + intros ->. reflexivity.
    + intros Hpost v w2 He Hok Hv. cbn [list_to_value or_loop].
      destruct post as [| p post']; [ contradiction |]. cbn [list_to_value l0_is_nil].
      unfold checked, bind_or. fold (l0_eval host fuel). rewrite He, Hok, Hv. reflexivity.
Qed.

Lemma and_or_short_circuit_witness :
  l0_eval l0_host 2
    (L0_Pair (L0_Symbol "and")
       (list_to_value ([L0_Integer 1] ++ L0_Boolean false :: [L0_Symbol "unbound"])))
    0%nat global_world
  = (Val (L0_Boolean false), global_world) /\
  l0_eval l0_host 2
    (L0_Pair (L0_Symbol "or")
       (list_to_value ([L0_Boolean false] ++ L0_Integer 1 :: [L0_Symbol "unbound"])))
    0%nat global_world
  = (Val (L0_Integer 1), global_world).
Proof.
  assert (Hdepth : eval_depth global_world + 1 <= MAX_EVAL_DEPTH) by (vm_compute; discriminate).
  set (w1 := set_eval_depth (eval_depth global_world + 1) global_world).
  assert (Hleave : leave w1 = global_world) by (vm_compute; reflexivity).
  split.
  - assert (Hpre : eval_all_satisfy l0_is_truthy (interp l0_host 1) [L0_Integer 1] 0%nat w1
                   = Some w1) by (vm_compute; reflexivity).
    assert (He : l0_eval l0_host 1 (L0_Boolean false) 0%nat w1 = (Val (L0_Boolean false), w1))
      by (vm_compute; reflexivity).
    rewrite <- Hleave at 2.
    apply (proj2 (proj1 (proj2 (proj2
             (and_or_short_circuit l0_host 1 0%nat global_world w1 [L0_Integer 1]
                [L0_Symbol "unbound"] (L0_Boolean false) Hdepth))) Hpre));
      [ discriminate | exact He | reflexivity ].
  - assert (Hpre : eval_all_satisfy is_false (interp l0_host 1) [L0_Boolean false] 0%nat w1
                   = Some w1) by (vm_compute; reflexivity).
    assert (He : l0_eval l0_host 1 (L0_Integer 1) 0%nat w1 = (Val (L0_Integer 1), w1))
      by (vm_compute; reflexivity).
    rewrite <- Hleave at 2.
    apply (proj2 (proj2 (proj2 (proj2
             (and_or_short_circuit l0_host 1 0%nat global_world w1 [L0_Boolean false]
                [L0_Symbol "unbound"] (L0_Integer 1) Hdepth))) Hpre));
      [ discriminate | exact He | reflexivity | reflexivity ].
Defined.

(** ** The recursion counters and the environments across a call *)

(** ** The recursion counters and the environments across a call *)

Lemma envs_preserved_refl (es : list L0_EnvStruct) : envs_preserved es es.
Proof. intros i s Hs. exists s. repeat split; auto. Qed.

Lemma envs_preserved_trans (a b c : list L0_EnvStruct) :
  envs_preserved a b -> envs_preserved b c -> envs_preserved a c.
Proof.
  intros Hab Hbc i s Hs.
  destruct (Hab i s Hs) as (s1 & Hs1 & Ho1 & Hn1).
  destruct (Hbc i s1 Hs1) as (s2 & Hs2 & Ho2 & Hn2).
  exists s2. split; [ exact Hs2 |]. split; [ congruence |].
  intros name Hb. apply Hn2, Hn1, Hb.
Qed.

Lemma envs_preserved_app (es : list L0_EnvStruct) (s : L0_EnvStruct) :
  envs_preserved es (es ++ [s]).
Proof.
  intros i x Hx. exists x. split; [| split; auto ].
  rewrite nth_error_app1; [ exact Hx |]. apply nth_error_Some. congruence.
Qed.

Lemma envs_preserved_replace (es : list L0_EnvStruct) (e : nat) (s s' : L0_EnvStruct) :
  nth_error es e = Some s -> outer s' = outer s ->
  (forall name, Env.frame_lookup name (frame s) <> None ->
                Env.frame_lookup name (frame s') <> None) ->
  envs_preserved es (Env.replace_nth e s' es).
Proof.
  intros Hs Ho Hn i x Hx. rewrite nth_error_replace_nth.
  destruct (Nat.eqb e i) eqn:Hei.
  - apply Nat.eqb_eq in Hei. subst i. rewrite Hx. exists s'.
    rewrite Hs in Hx. injection Hx as <-. auto.
  - exists x. auto.
Qed.

Lemma frame_lookup_define_bound (name other : string) (v : L0_Value)
      (fr : list (string * L0_Value)) :
  Env.frame_lookup other fr <> None -> Env.frame_lookup other (frame_define name v fr) <> None.
Proof.
  intros H. destruct (String.eqb name other) eqn:E.
  - apply String.eqb_eq in E. subst other. rewrite frame_lookup_define_same. discriminate.
  - apply String.eqb_neq in E. now rewrite frame_lookup_define_other.
Qed.

Lemma frame_lookup_update_bound (name other : string) (v : L0_Value)
      (fr fr' : list (string * L0_Value)) :
  Env.frame_update name v fr = Some fr' ->
  Env.frame_lookup other fr <> None -> Env.frame_lookup other fr' <> None.
Proof.
  intros Hu H. destruct (String.eqb name other) eqn:E.
  - apply String.eqb_eq in E. subst other.
    rewrite (frame_lookup_update_same _ _ _ _ Hu). discriminate.
  - apply String.eqb_neq in E. now rewrite (frame_lookup_update_other name other v fr fr').
Qed.

Lemma envs_preserved_define (env : L0_Env) (name : string) (v : L0_Value) (w : World) :
  envs_preserved (envs w) (envs (snd (l0_env_define env name v w))).
Proof.
  unfold l0_env_define. destruct (nth_error (envs w) env) as [s |] eqn:Hs; cbn [snd].
  - cbn [envs set_envs]. apply (envs_preserved_replace _ env s); [ exact Hs | reflexivity |].
    cbn [frame]. intros other. apply (frame_lookup_define_bound name other v).
  - apply envs_preserved_refl.
Qed.

Lemma envs_preserved_set (env : L0_Env) (name : string) (v : L0_Value) (w : World) :
  envs_preserved (envs w) (envs (snd (l0_env_set env name v w))).
Proof.
  unfold l0_env_set.
  destruct (Env.set_from (S (List.length (envs w))) (envs w) (Some env) name v)
    as [es' |] eqn:Hset; cbn [snd]; [| apply envs_preserved_refl ].
  destruct (set_from_found _ _ _ _ _ _ Hset) as (e & s & fr' & Hs & Hu & ->).
  cbn [envs set_envs]. apply (envs_preserved_replace _ e s); [ exact Hs | reflexivity |].
  cbn [frame]. intros other. now apply (frame_lookup_update_bound name other v).
Qed.

Create HintDb shifted.

#[local] Hint Resolve envs_preserved_refl envs_preserved_app envs_preserved_define
  envs_preserved_set : shifted.

Lemma shifted_trans (a1 a2 a3 b1 b2 b3 : Z) (w w1 w2 : World) :
  shifted a1 a2 a3 w w1 -> shifted b1 b2 b3 w1 w2 ->
  shifted (a1 + b1) (a2 + b2) (a3 + b3) w w2.
Proof.
  intros (H1 & H2 & H3 & H4) (K1 & K2 & K3 & K4).
  repeat split; try lia. now apply (envs_preserved_trans _ (envs w1)).
Qed.

(** Worlds that differ from [w] in the error slot and in counters only. *)
Ltac shifted_leaf :=
  solve [ unfold shifted, leave, leave_list, leave_macroexpand;
          cbn [eval_depth eval_list_depth macroexpand_depth envs set_error set_error_pos
               set_eval_depth set_eval_list_depth set_macroexpand_depth set_envs];
          repeat split; try lia; auto with shifted ].

Lemma shifted_step (a1 a2 a3 b1 b2 b3 c1 c2 c3 : Z) (w w1 w2 : World) :
  shifted a1 a2 a3 w w1 -> shifted b1 b2 b3 w1 w2 ->
  c1 = a1 + b1 -> c2 = a2 + b2 -> c3 = a3 + b3 ->
  shifted c1 c2 c3 w w2.
Proof. intros H K -> -> ->. now apply (shifted_trans _ _ _ _ _ _ w w1 w2). Qed.

Lemma rs_ret (v : L0_Value) : returns_shifted 0 0 0 (ret v).
Proof. intros w _. unfold ret. cbn [snd]. shifted_leaf. Qed.

Lemma rs_null : returns_shifted 0 0 0 null.
Proof. intros w _. unfold null. cbn [snd]. shifted_leaf. Qed.

Lemma rs_runtime_error (msg : string) : returns_shifted 0 0 0 (runtime_error msg).
Proof. intros w _. unfold runtime_error. cbn [snd]. shifted_leaf. Qed.

Lemma rs_bind_or (a1 a2 a3 b1 b2 b3 c1 c2 c3 : Z) (onfail : World -> World) (m : M)
      (k : L0_Value -> M) :
  returns_shifted a1 a2 a3 m ->
  (forall w, shifted b1 b2 b3 w (onfail w)) ->
  (forall v, returns_shifted b1 b2 b3 (k v)) ->
  c1 = a1 + b1 -> c2 = a2 + b2 -> c3 = a3 + b3 ->
  returns_shifted c1 c2 c3 (bind_or onfail m k).
Proof.
  intros Hm Hfail Hk -> -> -> w. unfold bind_or. specialize (Hm w).
  destruct (m w) as [[v | |] w1]; cbn [fst snd] in *.
  - assert (Hs : shifted a1 a2 a3 w w1) by (apply Hm; discriminate).
    destruct (world_ok w1).
    + intros Hne. apply (shifted_trans _ _ _ _ _ _ w w1); [ exact Hs | now apply Hk ].
    + intros _. cbn [snd]. apply (shifted_trans _ _ _ _ _ _ w w1); [ exact Hs | apply Hfail ].
  - intros _. apply (shifted_trans _ _ _ _ _ _ w w1); [ apply Hm; discriminate | apply Hfail ].
  - intros H. contradiction.
Qed.

Lemma shifted_leave (w : World) : shifted (-1) 0 0 w (leave w).
Proof. shifted_leaf. Qed.

Lemma shifted_id (w : World) : shifted 0 0 0 w w.
Proof. shifted_leaf. Qed.

Lemma rs_checked (m : M) (k : L0_Value -> M) :
  returns_shifted 0 0 0 m ->
  (forall v, returns_shifted (-1) 0 0 (k v)) ->
  returns_shifted (-1) 0 0 (checked m k).
Proof.
  intros Hm Hk. unfold checked.
  apply (rs_bind_or 0 0 0 (-1) 0 0); auto using shifted_leave.
Qed.

Lemma rs_tail (call : M) : returns_shifted 0 0 0 call -> returns_shifted (-1) 0 0 (tail call).
Proof.
  intros Hc w Hne. unfold tail in *.
  apply (shifted_step (-1) 0 0 0 0 0 _ _ _ w (leave w));
    [ apply shifted_leave | now apply Hc | lia | lia | lia ].
Qed.

Lemma rs_leave_with (r : result) : returns_shifted (-1) 0 0 (leave_with r).
Proof. intros w _. unfold leave_with. cbn [snd]. apply shifted_leave. Qed.

Lemma rs_eval_error (msg : string) : returns_shifted (-1) 0 0 (eval_error msg).
Proof. intros w _. unfold eval_error. cbn [snd]. shifted_leaf. Qed.

Lemma shifted_define (env : L0_Env) (name : string) (v : L0_Value) (w : World) :
  shifted 0 0 0 w (snd (l0_env_define env name v w)).
Proof.
  unfold shifted. repeat split; auto with shifted;
    unfold l0_env_define; destruct (nth_error (envs w) env); cbn; lia.
Qed.

Lemma shifted_set (env : L0_Env) (name : string) (v : L0_Value) (w : World) :
  shifted 0 0 0 w (snd (l0_env_set env name v w)).
Proof.
  unfold shifted. repeat split; auto with shifted;
    unfold l0_env_set; destruct (Env.set_from _ _ _ _ _); cbn; lia.
Qed.

Lemma shifted_extend (outer_env : L0_Env) (w : World) :
  shifted 0 0 0 w (snd (l0_env_extend outer_env w)).
Proof. unfold l0_env_extend, l0_env_create. cbn [snd]. shifted_leaf. Qed.

Lemma rs_define_or (msg : string) (env : L0_Env) (name : string) (v : L0_Value) (k : M) :
  returns_shifted (-1) 0 0 k -> returns_shifted (-1) 0 0 (define_or msg env name v k).
Proof.
  intros Hk w. unfold define_or.
  pose proof (shifted_define env name v w) as Hd.
  destruct (l0_env_define env name v w) as [[|] w1]; cbn [snd] in Hd.
  - intros Hne. apply (shifted_step 0 0 0 (-1) 0 0 _ _ _ w w1);
      [ exact Hd | now apply Hk | lia | lia | lia ].
  - intros _. cbn [snd]. apply (shifted_step 0 0 0 (-1) 0 0 _ _ _ w w1);
      [ exact Hd | | lia | lia | lia ].
    destruct (world_ok w1); shifted_leaf.
Qed.

Section Balanced.

Variable host : L0_PrimitiveFunc -> Interp -> L0_Value -> L0_Env -> M.
Variable self : Interp.
Hypothesis Hhost : host_balanced host.
Hypothesis Hself : interp_balanced self.

Lemma rs_ev (expr : L0_Value) (env : L0_Env) :
  returns_shifted 0 0 0 (interp_eval self expr env).
Proof. apply Hself. Qed.

Lemma rs_eval_sequence_loop (env : L0_Env) (seq : L0_Value) :
  forall result, returns_shifted 0 0 0 (eval_sequence_loop self seq result env).
Proof.
  induction seq; intros result; cbn [eval_sequence_loop];
    try apply rs_runtime_error; try apply rs_ret.
  apply (rs_bind_or 0 0 0 0 0 0); auto using rs_ev, shifted_id.
Qed.

Lemma rs_eval_sequence (seq : L0_Value) (env : L0_Env) :
  returns_shifted 0 0 0 (l0_eval_sequence self seq env).
Proof. apply rs_eval_sequence_loop. Qed.

Lemma shifted_bind_params (call_env : L0_Env) (params : L0_Value) :
  forall args w, shifted 0 0 0 w (snd (bind_params call_env params args w)).
Proof.
  induction params; intros args w; cbn [bind_params]; try apply shifted_id.
  destruct args; cbn [snd]; try apply shifted_id.
  destruct params1; cbn [snd]; try apply shifted_id.
  pose proof (shifted_define call_env symbol args1 w) as Hd.
  destruct (l0_env_define call_env symbol args1 w) as [[|] w1]; cbn [snd] in *.
  - apply (shifted_step 0 0 0 0 0 0 _ _ _ w w1); [ exact Hd | apply IHparams2 | lia | lia | lia ].
  - apply (shifted_step 0 0 0 0 0 0 _ _ _ w w1); [ exact Hd | | lia | lia | lia ].
    destruct (world_ok w1); shifted_leaf.
Qed.

Lemma rs_apply_body (func args : L0_Value) (env : L0_Env) :
  returns_shifted 0 0 0 (l0_apply_body host self func args env).
Proof.
  unfold l0_apply_body. destruct func; try apply rs_runtime_error.
  - destruct func; [ now apply Hhost | apply rs_runtime_error ].
  - intros w. unfold l0_env_extend, l0_env_create.
    set (w1 := set_envs _ w).
    assert (H1 : shifted 0 0 0 w w1) by (unfold w1; shifted_leaf).
    pose proof (shifted_bind_params (List.length (envs w)) func1 args w1) as H2.
    destruct (bind_params (List.length (envs w)) func1 args w1) as [[[p a] |] w2];
      cbn [snd] in H2.
    + assert (H12 : shifted 0 0 0 w w2)
        by (apply (shifted_step 0 0 0 0 0 0 _ _ _ w w1); auto; lia).
      destruct (negb (l0_is_nil p) || negb (l0_is_nil a)).
      * intros _. apply (shifted_step 0 0 0 0 0 0 _ _ _ w w2); [ exact H12 | | lia | lia | lia ].
        now apply rs_runtime_error.
      * intros Hne. apply (shifted_step 0 0 0 0 0 0 _ _ _ w w2); [ exact H12 | | lia | lia | lia ].
        now apply rs_eval_sequence.
    + intros _. cbn [snd]. apply (shifted_step 0 0 0 0 0 0 _ _ _ w w1); auto; lia.
Qed.

Lemma rs_eval_list (env : L0_Env) (list : L0_Value) :
  returns_shifted 0 0 0 (l0_eval_list self list env).
Proof.
  induction list; intros w; cbn [l0_eval_list]; cbv zeta;
    (destruct (1000 <? _); [ intros _; cbn [snd]; shifted_leaf |]);
    try (intros _; cbn [snd]; shifted_leaf).
  intros Hne.
  apply (shifted_step 0 1 0 0 (-1) 0 _ _ _ w (set_eval_list_depth (eval_list_depth w + 1) w));
    [ shifted_leaf | | lia | lia | lia ].
  revert Hne. generalize (set_eval_list_depth (eval_list_depth w + 1) w). clear w.
  change (returns_shifted 0 (-1) 0
            (bind_or leave_list (interp_eval self list1 env)
               (fun first_evaled =>
                  bind_or leave_list (l0_eval_list self list2 env)
                    (fun rest_evaled w' =>
                       (Val (L0_Pair first_evaled rest_evaled), leave_list w'))))).
  apply (rs_bind_or 0 0 0 0 (-1) 0); try lia.
  - apply rs_ev.
  - intros w. shifted_leaf.
  - intros v. apply (rs_bind_or 0 0 0 0 (-1) 0); try lia.
    + exact IHlist2.
    + intros w. shifted_leaf.
    + intros v2 w _. cbn [snd]. shifted_leaf.
Qed.

Lemma expand_quasiquote_cases (op rest : L0_Value) (env : L0_Env) (depth : Z) :
  (exists e, l0_expand_quasiquote self (L0_Pair op rest) env depth = interp_eval self e env) \/
  (exists msg, l0_expand_quasiquote self (L0_Pair op rest) env depth = runtime_error msg) \/
  (exists depth',
      l0_expand_quasiquote self (L0_Pair op rest) env depth =
      bind_or (fun w => w) (l0_expand_quasiquote self op env depth')
        (fun expanded_car =>
           bind_or (fun w => w) (l0_expand_quasiquote self rest env depth')
             (fun expanded_cdr => ret (L0_Pair expanded_car expanded_cdr)))).
Proof.
  destruct op; try (right; right; exists depth; reflexivity).
  cbn [l0_expand_quasiquote].
  destruct (String.eqb symbol "unquote").
  - destruct (depth =? 1).
    + destruct rest as [| | | | e r | | | | |];
        try (right; left; eexists; reflexivity).
      destruct r; try (right; left; eexists; reflexivity).
      left. eexists. reflexivity.
    + right. right. eexists. reflexivity.
  - destruct (String.eqb symbol "unquote-splicing").
    + destruct (depth =? 1).
      * right. left. eexists. reflexivity.
      * right. right. eexists. reflexivity.
    + destruct (String.eqb symbol "quasiquote"); right; right; eexists; reflexivity.
Qed.

Lemma rs_expand_quasiquote (env : L0_Env) (template : L0_Value) :
  forall depth, returns_shifted 0 0 0 (l0_expand_quasiquote self template env depth).
Proof.
  induction template; intros depth; try apply rs_ret.
  destruct (expand_quasiquote_cases template1 template2 env depth)
    as [[e ->] | [[msg ->] | [depth' ->]]].
  - apply rs_ev.
  - apply rs_runtime_error.
  - apply (rs_bind_or 0 0 0 0 0 0); auto using shifted_id.
    intros v. apply (rs_bind_or 0 0 0 0 0 0); auto using shifted_id, rs_ret.
Qed.

Ltac rs_step :=
  lazymatch goal with
  | |- returns_shifted _ _ _ (checked _ _) => apply rs_checked; [| intro ]
  | |- returns_shifted _ _ _ (tail _) => apply rs_tail
  | |- returns_shifted _ _ _ (leave_with _) => apply rs_leave_with
  | |- returns_shifted _ _ _ (eval_error _) => apply rs_eval_error
  | |- returns_shifted _ _ _ (define_or _ _ _ _ _) => apply rs_define_or
  | |- returns_shifted _ _ _ (interp_eval _ _ _) => apply rs_ev
  | |- returns_shifted _ _ _ (l0_eval_sequence _ _ _) => apply rs_eval_sequence
  | |- returns_shifted _ _ _ (if ?b then _ else _) => destruct b
  | |- returns_shifted _ _ _ (match ?x with _ => _ end) => destruct x
  end.

Lemma rs_sf_quote (args_expr : L0_Value) : returns_shifted (-1) 0 0 (sf_quote args_expr).
Proof. unfold sf_quote. repeat rs_step. Qed.

Lemma rs_sf_quasiquote (args_expr : L0_Value) (env : L0_Env) :
  returns_shifted (-1) 0 0 (sf_quasiquote self args_expr env).
Proof.
  unfold sf_quasiquote. destruct args_expr; try apply rs_eval_error.
  destruct args_expr2; try apply rs_eval_error.
  intros w. pose proof (rs_expand_quasiquote env args_expr1 1 w) as H.
  destruct (l0_expand_quasiquote self args_expr1 env 1 w) as [r w1]. cbn [fst snd] in *.
  intros Hne. apply (shifted_step 0 0 0 (-1) 0 0 _ _ _ w w1);
    [ now apply H | apply shifted_leave | lia | lia | lia ].
Qed.

Lemma rs_sf_if (args_expr : L0_Value) (env : L0_Env) :
  returns_shifted (-1) 0 0 (sf_if self args_expr env).
Proof. unfold sf_if. repeat rs_step. Qed.

Lemma rs_sf_lambda (args_expr : L0_Value) (env : L0_Env) :
  returns_shifted (-1) 0 0 (sf_lambda args_expr env).
Proof. unfold sf_lambda. repeat rs_step. Qed.

Lemma rs_sf_define (args_expr : L0_Value) (env : L0_Env) :
  returns_shifted (-1) 0 0 (sf_define self args_expr env).
Proof. unfold sf_define. repeat rs_step. Qed.

Lemma rs_sf_set (args_expr : L0_Value) (env : L0_Env) :
  returns_shifted (-1) 0 0 (sf_set self args_expr env).
Proof.
  unfold sf_set. repeat rs_step.
  intros w _. pose proof (shifted_set env symbol v w) as H.
  destruct (l0_env_set env symbol v w) as [[|] w1]; cbn [snd] in *;
    apply (shifted_step 0 0 0 (-1) 0 0 _ _ _ w w1); auto using shifted_leave; lia.
Qed.

Lemma rs_let_loop (body : L0_Value) (let_env env : L0_Env) (current_binding : L0_Value) :
  returns_shifted (-1) 0 0 (let_loop self current_binding body let_env env).
Proof.
  induction current_binding; cbn [let_loop]; repeat rs_step.
  exact IHcurrent_binding2.
Qed.

Lemma rs_sf_let (args_expr : L0_Value) (env : L0_Env) :
  returns_shifted (-1) 0 0 (sf_let self args_expr env).
Proof.
  unfold sf_let. repeat rs_step.
  intros w. pose proof (shifted_extend env w) as H.
  destruct (l0_env_extend env w) as [let_env w1]. cbn [snd] in H.
  intros Hne. apply (shifted_step 0 0 0 (-1) 0 0 _ _ _ w w1);
    [ exact H | now apply rs_let_loop | lia | lia | lia ].
Qed.

Lemma rs_sf_defmacro (args_expr : L0_Value) (env : L0_Env) :
  returns_shifted (-1) 0 0 (sf_defmacro args_expr env).
Proof.
  unfold sf_defmacro. repeat rs_step.
  intros w. destruct (l0_env_lookup env "*macro-table*" w) as [table |];
    [| apply rs_eval_error ].
  set (new_table := L0_Pair _ table).
  pose proof (shifted_set env "*macro-table*" new_table w) as H.
  destruct (l0_env_set env "*macro-table*" new_table w) as [[|] w1]; cbn [snd] in *.
  - intros _. apply (shifted_step 0 0 0 (-1) 0 0 _ _ _ w w1); auto using shifted_leave; lia.
  - intros Hne. apply (shifted_step 0 0 0 (-1) 0 0 _ _ _ w w1);
      [ exact H | now apply rs_eval_error | lia | lia | lia ].
Qed.

Lemma rs_and_loop (env : L0_Env) (current_arg_node : L0_Value) :
  forall last_result, returns_shifted (-1) 0 0 (and_loop self current_arg_node last_result env).
Proof.
  induction current_arg_node; intros last_result; cbn [and_loop]; repeat rs_step;
    apply IHcurrent_arg_node2.
Qed.

Lemma rs_or_loop (env : L0_Env) (current_arg_node : L0_Value) :
  forall last_result, returns_shifted (-1) 0 0 (or_loop self current_arg_node last_result env).
Proof.
  induction current_arg_node; intros last_result; cbn [or_loop]; repeat rs_step;
    apply IHcurrent_arg_node2.
Qed.

Lemma rs_sf_and (args_expr : L0_Value) (env : L0_Env) :
  returns_shifted (-1) 0 0 (sf_and self args_expr env).
Proof. unfold sf_and. repeat rs_step. apply rs_and_loop. Qed.

Lemma rs_sf_or (args_expr : L0_Value) (env : L0_Env) :
  returns_shifted (-1) 0 0 (sf_or self args_expr env).
Proof. unfold sf_or. repeat rs_step. apply rs_or_loop. Qed.

Lemma rs_sf_begin (args_expr : L0_Value) (env : L0_Env) :
  returns_shifted (-1) 0 0 (sf_begin self args_expr env).
Proof. unfold sf_begin. repeat rs_step. Qed.

Lemma rs_cond_loop (env : L0_Env) (current_clause_node : L0_Value) :
  returns_shifted (-1) 0 0 (cond_loop self current_clause_node env).
Proof.
  induction current_clause_node; cbn [cond_loop]; repeat rs_step.
  exact IHcurrent_clause_node2.
Qed.

Lemma rs_sf_unquote (op_sym : string) : returns_shifted (-1) 0 0 (sf_unquote op_sym).
Proof. unfold sf_unquote. apply rs_eval_error. Qed.

(** A call followed by [eval_depth--]. *)
Lemma rs_then_leave (call : M) :
  returns_shifted 0 0 0 call ->
  returns_shifted (-1) 0 0 (fun w => let '(r, w') := call w in (r, leave w')).
Proof.
  intros Hc w. specialize (Hc w). destruct (call w) as [r w1]. cbn [fst snd] in *.
  intros Hne. apply (shifted_step 0 0 0 (-1) 0 0 _ _ _ w w1);
    [ now apply Hc | apply shifted_leave | lia | lia | lia ].
Qed.

Lemma rs_sf_none (op_sym : string) (args_expr : L0_Value) (env : L0_Env) :
  returns_shifted (-1) 0 0 (sf_none host self op_sym args_expr env).
Proof.
  intros w. unfold sf_none.
  destruct (l0_env_lookup env "*macro-table*" w) as [table |]; [| apply rs_eval_error ].
  destruct (negb (l0_is_list table)); [ apply rs_eval_error |].
  destruct (scan_macro_table op_sym table) as [transformer |].
  - destruct (negb (l0_is_closure transformer)); [ apply rs_eval_error |].
    apply rs_checked; [ apply rs_apply_body | intros v; apply rs_tail, rs_ev ].
  - destruct (l0_env_lookup env op_sym w) as [op_value |].
    + destruct (negb (l0_is_primitive op_value) && negb (l0_is_closure op_value));
        [ apply rs_eval_error |].
      apply rs_checked; [ apply rs_eval_list |].
      intros v. apply (rs_then_leave (l0_apply_body host self op_value v env)).
      apply rs_apply_body.
    + intros _. cbn [snd]. destruct (world_ok w); shifted_leaf.
Qed.

Lemma rs_apply_expression (op_expr args_expr : L0_Value) (env : L0_Env) :
  returns_shifted (-1) 0 0 (apply_expression host self op_expr args_expr env).
Proof.
  unfold apply_expression. apply rs_checked; [ apply rs_ev |].
  intros v. destruct (negb (l0_is_primitive v) && negb (l0_is_closure v));
    [ apply rs_eval_error |].
  apply rs_checked; [ apply rs_eval_list |].
  intros a. apply (rs_then_leave (l0_apply_body host self v a env)). apply rs_apply_body.
Qed.

Lemma rs_eval_body (expr : L0_Value) (env : L0_Env) :
  returns_shifted 0 0 0 (l0_eval_body host self expr env).
Proof.
  intros w. unfold l0_eval_body.
  set (w1 := set_eval_depth (eval_depth w + 1) w).
  assert (H1 : shifted 1 0 0 w w1) by (unfold w1; shifted_leaf).
  assert (Hstep : forall c : M,
             returns_shifted (-1) 0 0 c ->
             fst (c w1) <> OutOfFuel -> shifted 0 0 0 w (snd (c w1))).
  { intros c Hc Hne. apply (shifted_step 1 0 0 (-1) 0 0 _ _ _ w w1);
      [ exact H1 | now apply Hc | lia | lia | lia ]. }
  destruct (MAX_EVAL_DEPTH <? eval_depth w1); [ apply Hstep, rs_eval_error |].
  destruct expr; try (apply Hstep; apply rs_leave_with); try (apply Hstep; apply rs_eval_error).
  - apply (Hstep (fun w => match l0_env_lookup env symbol w with
                           | Some value => leave_with (Val value) w
                           | None => eval_error (snprintf 100 ("Unbound variable: " ++ symbol)) w
                           end)).
    intros w2. destruct (l0_env_lookup env symbol w2);
      [ apply rs_leave_with | apply rs_eval_error ].
  - destruct expr1; try (apply Hstep; apply rs_apply_expression).
    destruct (get_special_form_type symbol); apply Hstep.
    + apply rs_sf_none.
    + apply rs_sf_quote.
    + apply rs_sf_quasiquote.
    + apply rs_sf_if.
    + apply rs_sf_lambda.
    + apply rs_sf_define.
    + apply rs_sf_set.
    + apply rs_sf_let.
    + apply rs_sf_defmacro.
    + apply rs_sf_and.
    + apply rs_sf_or.
    + apply rs_sf_begin.
    + apply rs_cond_loop.
    + apply rs_sf_unquote.
Qed.

End Balanced.

Lemma interp_is_balanced host (Hhost : host_balanced host) (fuel : nat) :
  interp_balanced (interp host fuel).
Proof.
  induction fuel as [| n IH].
  - split; intros; intros w H; exfalso; apply H; reflexivity.
  - split.
    + intros expr env. exact (rs_eval_body host (interp host n) Hhost IH expr env).
    + intros func args env. exact (rs_apply_body host (interp host n) Hhost IH func args env).
Qed.

(** ** The primitives of the table only touch the error slot *)

Lemma shifted_trans0 (w w1 w2 : World) :
  shifted 0 0 0 w w1 -> shifted 0 0 0 w1 w2 -> shifted 0 0 0 w w2.
Proof. intros H K. apply (shifted_step 0 0 0 0 0 0 _ _ _ w w1 w2); auto; lia. Qed.

Lemma shifted_set_error_r (w w' : World) (s : L0_ParseStatus) (m : option string) :
  shifted 0 0 0 w w' -> shifted 0 0 0 w (set_error s m w').
Proof. intros H. apply (shifted_trans0 w w'); [ exact H | shifted_leaf ]. Qed.

Ltac shifted_chain :=
  cbn [snd];
  repeat lazymatch goal with
    | |- shifted 0 0 0 ?w ?w => apply shifted_id
    | |- shifted 0 0 0 ?w (set_error ?s ?m ?w') => apply (shifted_set_error_r w w' s m)
    | H : shifted 0 0 0 ?w1 ?w2 |- shifted 0 0 0 ?w ?w2 =>
        apply (shifted_trans0 w w1 w2); [| exact H ]
    end.

Lemma shifted_check_arg_count (args : L0_Value) (n : Z) (prim_name : string) (w : World) :
  shifted 0 0 0 w (snd (check_arg_count args n prim_name w)).
Proof.
  unfold check_arg_count. destruct (count_args args 0) as [count last].
  destruct (negb (l0_is_nil last)); [ shifted_chain |].
  destruct (negb (count =? n)); shifted_chain.
Qed.

Lemma rs_get_arg_from (prim_name : string) (n : Z) (i : nat) :
  forall current_arg_pair, returns_shifted 0 0 0 (get_arg_from current_arg_pair i n prim_name).
Proof.
  induction i as [| i IH]; intros current_arg_pair; destruct current_arg_pair;
    cbn [get_arg_from]; try apply rs_ret; try apply IH; intros w _; shifted_chain.
Qed.

Lemma shifted_get_arg (args : L0_Value) (n : nat) (prim_name : string) (w : World) :
  fst (get_arg args n prim_name w) <> OutOfFuel /\
  shifted 0 0 0 w (snd (get_arg args n prim_name w)).
Proof.
  unfold get_arg.
  assert (Hne : forall i a, fst (get_arg_from a i (Z.of_nat n) prim_name w) <> OutOfFuel).
  { induction i as [| i IH]; intros a; destruct a; cbn [get_arg_from];
      try discriminate; apply IH. }
  split; [ apply Hne | apply rs_get_arg_from, Hne ].
Qed.

Lemma shifted_get_numeric (val : L0_Value) (prim_name : string) (w : World) :
  shifted 0 0 0 w (snd (get_numeric_as_double val prim_name w)).
Proof. destruct val; cbn [get_numeric_as_double]; shifted_chain. Qed.

(** One step of a primitive: name the result of a helper call and
    record what it did to the world. *)
Ltac prim_step :=
  lazymatch goal with
  | |- context [check_arg_count ?a ?n ?p ?w] =>
      let H := fresh "H" in
      pose proof (shifted_check_arg_count a n p w) as H;
      destruct (check_arg_count a n p w) as [[|] ?]; cbn [snd] in H
  | |- context [get_arg ?a ?n ?p ?w] =>
      let H := fresh "H" in
      pose proof (proj2 (shifted_get_arg a n p w)) as H;
      destruct (get_arg a n p w) as [[?| |] ?]; cbn [snd] in H
  | |- context [get_numeric_as_double ?v ?p ?w] =>
      let H := fresh "H" in
      pose proof (shifted_get_numeric v p w) as H;
      destruct (get_numeric_as_double v p w) as [[?|] ?]; cbn [snd] in H
  end.

Ltac prim_leaf :=
  first [ intros _; shifted_chain; fail
        | intros Hne; exfalso; apply Hne; reflexivity ].

Lemma rs_prim_cons (args : L0_Value) (env : L0_Env) : returns_shifted 0 0 0 (prim_cons args env).
Proof. intros w. unfold prim_cons. repeat prim_step; prim_leaf. Qed.

Lemma rs_prim_car (args : L0_Value) (env : L0_Env) : returns_shifted 0 0 0 (prim_car args env).
Proof.
  intros w. unfold prim_car, runtime_error. repeat prim_step; try prim_leaf.
  match goal with |- context [match ?x with _ => _ end] => destruct x end; prim_leaf.
Qed.

Lemma rs_prim_cdr (args : L0_Value) (env : L0_Env) : returns_shifted 0 0 0 (prim_cdr args env).
Proof.
  intros w. unfold prim_cdr, runtime_error. repeat prim_step; try prim_leaf.
  match goal with |- context [match ?x with _ => _ end] => destruct x end; prim_leaf.
Qed.

Lemma rs_prim_list (args : L0_Value) (env : L0_Env) : returns_shifted 0 0 0 (prim_list args env).
Proof.
  unfold prim_list. destruct (l0_is_list args); [ apply rs_ret | apply rs_runtime_error ].
Qed.

Lemma rs_add_loop (current : L0_Value) :
  forall int_sum float_sum has_float,
    returns_shifted 0 0 0 (add_loop current int_sum float_sum has_float).
Proof.
  induction current; intros int_sum float_sum has_float; cbn [add_loop];
    try apply rs_runtime_error.
  - destruct has_float; apply rs_ret.
  - destruct current1; try apply rs_runtime_error.
    + destruct has_float; apply IHcurrent2.
    + apply IHcurrent2.
Qed.

Lemma rs_multiply_loop (current : L0_Value) :
  forall int_product float_product has_float,
    returns_shifted 0 0 0 (multiply_loop current int_product float_product has_float).
Proof.
  induction current; intros int_product float_product has_float; cbn [multiply_loop];
    try apply rs_runtime_error.
  - destruct has_float; apply rs_ret.
  - destruct current1; try apply rs_runtime_error.
    + destruct has_float; apply IHcurrent2.
    + apply IHcurrent2.
Qed.

Lemma rs_subtract_loop (current : L0_Value) :
  forall int_result float_result has_float,
    returns_shifted 0 0 0 (subtract_loop current int_result float_result has_float).
Proof.
  induction current; intros int_result float_result has_float; cbn [subtract_loop];
    try apply rs_runtime_error.
  - destruct has_float; apply rs_ret.
  - intros w. prim_step; [| prim_leaf ].
    destruct (has_float || (l0_is_float current1 && negb has_float));
      intros Hne; (eapply shifted_trans0; [ exact H |]); now apply IHcurrent2.
Qed.

Lemma rs_divide_loop (current : L0_Value) :
  forall result_d, returns_shifted 0 0 0 (divide_loop current result_d).
Proof.
  induction current; intros result_d; cbn [divide_loop];
    try apply rs_runtime_error; try apply rs_ret.
  intros w. prim_step; [| prim_leaf ].
  destruct (f =? 0)%float.
  - unfold runtime_error. prim_leaf.
  - intros Hne. (eapply shifted_trans0; [ exact H |]); now apply IHcurrent2.
Qed.

Lemma rs_equal_loop (current : L0_Value) :
  forall first_d, returns_shifted 0 0 0 (equal_loop current first_d).
Proof.
  induction current; intros first_d; cbn [equal_loop];
    try apply rs_runtime_error; try apply rs_ret.
  intros w. pose proof (shifted_get_numeric current1 "=" w) as H.
  destruct (get_numeric_as_double current1 "=" w) as [next_d w1]. cbn [snd] in H.
  destruct first_d as [x |]; [| prim_leaf ].
  destruct next_d as [y |]; [| prim_leaf ].
  destruct (negb (x =? y)%float); [ prim_leaf |].
  intros Hne. (eapply shifted_trans0; [ exact H |]); now apply IHcurrent2.
Qed.

Lemma rs_less_than_loop (current_pair : L0_Value) :
  forall prev_d, returns_shifted 0 0 0 (less_than_loop current_pair prev_d).
Proof.
  induction current_pair; intros prev_d; cbn [less_than_loop];
    try apply rs_runtime_error; try apply rs_ret.
  intros w. prim_step; [| prim_leaf ].
  destruct (negb (prev_d <? f)%float); [ prim_leaf |].
  intros Hne. (eapply shifted_trans0; [ exact H |]); now apply IHcurrent_pair2.
Qed.

Lemma rs_greater_than_loop (current_pair : L0_Value) :
  forall prev_d, returns_shifted 0 0 0 (greater_than_loop current_pair prev_d).
Proof.
  induction current_pair; intros prev_d; cbn [greater_than_loop];
    try apply rs_runtime_error; try apply rs_ret.
  intros w. prim_step; [| prim_leaf ].
  destruct (negb (f <? prev_d)%float); [ prim_leaf |].
  intros Hne. (eapply shifted_trans0; [ exact H |]); now apply IHcurrent_pair2.
Qed.

Lemma rs_prim_subtract (args : L0_Value) (env : L0_Env) :
  returns_shifted 0 0 0 (prim_subtract args env).
Proof.
  unfold prim_subtract. destruct args; try apply rs_null; try apply rs_runtime_error.
  intros w. prim_step; [| prim_leaf ].
  destruct (l0_is_nil args2).
  - destruct (l0_is_float args1); prim_leaf.
  - intros Hne. (eapply shifted_trans0; [ exact H |]); now apply rs_subtract_loop.
Qed.

Lemma rs_prim_divide (args : L0_Value) (env : L0_Env) :
  returns_shifted 0 0 0 (prim_divide args env).
Proof.
  unfold prim_divide. destruct args; try apply rs_null; try apply rs_runtime_error.
  intros w. prim_step; [| prim_leaf ].
  destruct (l0_is_nil args2).
  - destruct (f =? 0)%float; unfold runtime_error; prim_leaf.
  - intros Hne. (eapply shifted_trans0; [ exact H |]); now apply rs_divide_loop.
Qed.

Lemma rs_prim_equal (args : L0_Value) (env : L0_Env) :
  returns_shifted 0 0 0 (prim_equal args env).
Proof.
  unfold prim_equal. destruct args; try apply rs_null; try apply rs_ret.
  destruct args2; try apply rs_ret;
    intros w; pose proof (shifted_get_numeric args1 "=" w) as H;
    destruct (get_numeric_as_double args1 "=" w) as [first_d w1]; cbn [snd] in H;
    intros Hne; (eapply shifted_trans0; [ exact H |]); now apply rs_equal_loop.
Qed.

Lemma rs_prim_less_than (args : L0_Value) (env : L0_Env) :
  returns_shifted 0 0 0 (prim_less_than args env).
Proof.
  unfold prim_less_than. destruct args; try apply rs_null; try apply rs_ret.
  destruct args2; try apply rs_ret;
    intros w; (prim_step; [| prim_leaf ]);
    intros Hne; (eapply shifted_trans0; [ exact H |]); now apply rs_less_than_loop.
Qed.

Lemma rs_prim_greater_than (args : L0_Value) (env : L0_Env) :
  returns_shifted 0 0 0 (prim_greater_than args env).
Proof.
  unfold prim_greater_than. destruct args; try apply rs_null; try apply rs_ret.
  destruct args2; try apply rs_ret;
    intros w; (prim_step; [| prim_leaf ]);
    intros Hne; (eapply shifted_trans0; [ exact H |]); now apply rs_greater_than_loop.
Qed.

Lemma rs_prim_eval (self : Interp) (args : L0_Value) (env : L0_Env) :
  interp_balanced self -> returns_shifted 0 0 0 (prim_eval self args env).
Proof.
  intros Hself w. unfold prim_eval. repeat prim_step; try prim_leaf.
  intros Hne. eapply shifted_trans0; [| now apply (proj1 Hself) ]. shifted_chain.
Qed.

Lemma rs_prim_apply (self : Interp) (args : L0_Value) (env : L0_Env) :
  interp_balanced self -> returns_shifted 0 0 0 (prim_apply self args env).
Proof.
  intros Hself w. unfold prim_apply, runtime_error. repeat prim_step; try prim_leaf.
  match goal with |- context [if ?b then _ else _] => destruct b end; [ prim_leaf |].
  match goal with |- context [if ?b then _ else _] => destruct b end; [ prim_leaf |].
  intros Hne. eapply shifted_trans0; [| now apply (proj2 Hself) ]. shifted_chain.
Qed.

Lemma l0_host_balanced : host_balanced l0_host.
Proof.
  intros f self args env Hself. unfold l0_host.
  repeat match goal with
         | |- context [match ?x with _ => _ end] => destruct x
         end;
    first [ apply rs_prim_cons | apply rs_prim_car | apply rs_prim_cdr | apply rs_prim_list
          | apply rs_add_loop | apply rs_prim_subtract | apply rs_multiply_loop
          | apply rs_prim_divide | apply rs_prim_equal | apply rs_prim_less_than
          | apply rs_prim_greater_than | now apply rs_prim_eval | now apply rs_prim_apply
          | apply rs_null ].
Qed.

(** ** l0_macroexpand *)

Lemma shifted_find_macro_transformer (op : L0_Value) (env : L0_Env) (w : World) :
  shifted 0 0 0 w (snd (find_macro_transformer op env w)).
Proof.
  destruct (find_macro_transformer op env w) as [t w1] eqn:E.
  destruct (find_macro_transformer_world op env w t w1 E) as [-> | [m ->]];
    cbn [snd]; shifted_chain.
Qed.

Lemma rs_macroexpand host (Hhost : host_balanced host) (fuel : nat) :
  forall expr env, returns_shifted 0 0 0 (l0_macroexpand host fuel expr env).
Proof.
  induction fuel as [| n IH]; intros expr env w.
  - intros H. exfalso. apply H. reflexivity.
  - cbn [l0_macroexpand]. cbv zeta.
    set (w1 := set_macroexpand_depth (macroexpand_depth w + 1) w).
    assert (H1 : shifted 0 0 1 w w1) by (unfold w1; shifted_leaf).
    assert (Hstep : forall c : M,
               returns_shifted 0 0 (-1) c ->
               fst (c w1) <> OutOfFuel -> shifted 0 0 0 w (snd (c w1))).
    { intros c Hc Hne. apply (shifted_step 0 0 1 0 0 (-1) _ _ _ w w1);
        [ exact H1 | now apply Hc | lia | lia | lia ]. }
    assert (Hleave : forall x, shifted 0 0 (-1) x (leave_macroexpand x))
      by (intros x; shifted_leaf).
    destruct (MAX_MACROEXPAND_DEPTH <? macroexpand_depth w1).
    { apply (Hstep (fun x => (Null, leave_macroexpand
                                      (set_error L0_PARSE_ERROR_RUNTIME
                                         (Some "Stack overflow suspected in macro expansion.")
                                         x)))).
      intros x _. cbn [snd]. shifted_leaf. }
    destruct expr;
      try (apply (Hstep (fun x => (Val _, leave_macroexpand x))); intros x _; apply Hleave).
    destruct (is_quote expr1).
    { apply (Hstep (fun x => (Val _, leave_macroexpand x))); intros x _; apply Hleave. }
    pose proof (shifted_find_macro_transformer expr1 env w1) as Hfind.
    destruct (find_macro_transformer expr1 env w1) as [[transformer |] w2]; cbn [snd] in Hfind.
    + intros Hne.
      apply (shifted_step 0 0 1 0 0 (-1) _ _ _ w w2);
        [ apply (shifted_step 0 0 1 0 0 0 _ _ _ w w1); auto; lia | | lia | lia | lia ].
      revert Hne. generalize w2.
      apply (rs_bind_or 0 0 0 0 0 (-1)); try lia.
      * apply (interp_is_balanced host Hhost n).
      * intros x. shifted_leaf.
      * intros v x Hne.
        apply (shifted_step 0 0 (-1) 0 0 0 _ _ _ x (leave_macroexpand x));
          [ shifted_leaf | now apply IH | lia | lia | lia ].
    + destruct (negb (world_ok w2)).
      * intros _. cbn [snd].
        apply (shifted_step 0 0 1 0 0 (-1) _ _ _ w w2);
          [ apply (shifted_step 0 0 1 0 0 0 _ _ _ w w1); auto; lia | apply Hleave
          | lia | lia | lia ].
      * intros Hne.
        apply (shifted_step 0 0 1 0 0 (-1) _ _ _ w w2);
          [ apply (shifted_step 0 0 1 0 0 0 _ _ _ w w1); auto; lia | | lia | lia | lia ].
        revert Hne. generalize w2.
        apply (rs_bind_or 0 0 0 0 0 (-1)); try lia.
        -- apply IH.
        -- intros x. shifted_leaf.
        -- intros v. apply (rs_bind_or 0 0 0 0 0 (-1)); try lia.
           ++ apply IH.
           ++ intros x. shifted_leaf.
           ++ intros v2 x _. cbn [snd]. shifted_leaf.
Qed.

(** X19.  Let every primitive of the table, called with an interpreter
    that is balanced, be balanced itself: when it returns it has changed
    none of the three recursion counters, removed no environment,
    changed no outer link and unbound no name.  Then every call of
    [l0_eval], [l0_apply] and [l0_macroexpand] that returns, with a value
    or with [NULL], leaves the three recursion counters at the values
    they had on entry; it removes no environment, changes no outer link
    and unbinds no name, and the number of environments does not
    decrease.  The thirteen primitives of [l0_host] meet the condition. *)
Theorem evaluation_is_balanced host (Hhost : host_balanced host)
        (fuel : nat) (env : L0_Env) (w : World) :
  (forall expr,
      fst (l0_eval host fuel expr env w) <> OutOfFuel ->
      shifted 0 0 0 w (snd (l0_eval host fuel expr env w))) /\
  (forall func args,
      fst (l0_apply host fuel func args env w) <> OutOfFuel ->
      shifted 0 0 0 w (snd (l0_apply host fuel func args env w))) /\
  (forall expr,
      fst (l0_macroexpand host fuel expr env w) <> OutOfFuel ->
      shifted 0 0 0 w (snd (l0_macroexpand host fuel expr env w))) /\
  (forall expr,
      fst (l0_eval host fuel expr env w) <> OutOfFuel ->
      (List.length (envs w) <= List.length (envs (snd (l0_eval host fuel expr env w))))%nat).
Proof.
  pose proof (interp_is_balanced host Hhost fuel) as [Heval Happly].
  split; [| split; [| split ]].
  - intros expr. apply Heval.
  - intros func args. apply Happly.
  - intros expr. apply (rs_macroexpand host Hhost).
  - intros expr Hne. destruct (Heval expr env w Hne) as (_ & _ & _ & Henvs).
    fold (l0_eval host fuel) in Henvs.
    destruct (Nat.le_gt_cases (List.length (envs w))
                (List.length (envs (snd (l0_eval host fuel expr env w))))) as [H | H];
      [ exact H | exfalso ].
    destruct (nth_error (envs w) (List.length (envs w) - 1)) as [s |] eqn:Hs.
    + destruct (Henvs _ s Hs) as (s' & Hs' & _).
      assert (Hlt : (List.length (envs w) - 1
                     < List.length (envs (snd (l0_eval host fuel expr env w))))%nat)
        by (apply nth_error_Some; congruence).
      lia.
    + apply nth_error_None in Hs. lia.
Qed.

(** The table [l0_host] meets the condition, and [(+ 1 2)] evaluated
    with it leaves the evaluation depth where it was. *)
Lemma evaluation_is_balanced_witness :
  host_balanced l0_host /\
  eval_depth (snd (l0_eval l0_host 3 plus_1_2 0%nat global_world)) = eval_depth global_world + 0.
Proof.
  assert (Hne : fst (l0_eval l0_host 3 plus_1_2 0%nat global_world) <> OutOfFuel)
    by (vm_compute; discriminate).
  split; [ exact l0_host_balanced |].
  exact (proj1 (proj1 (evaluation_is_balanced l0_host l0_host_balanced 3 0%nat global_world)
                      plus_1_2 Hne)).
Defined.

(** ** The reader *)

(** ** l0_parser.c: what the reader builds *)

Lemma is_datum_list_to_value (l : list L0_Value) :
  is_datum (list_to_value l) = forallb is_datum l.
Proof.
  induction l as [| x r IH]; cbn [list_to_value is_datum forallb]; [ reflexivity |].
  rewrite IH, l0_is_list_list_to_value. now rewrite andb_true_r.
Qed.

Lemma parse_atom_datum strtod (st : ParserState) (w : World) :
  datum_result (fst (fst (parse_atom strtod st w))).
Proof.
  unfold parse_atom.
  destruct (strtol (current_pos st)) as [int_val int_len].
  destruct ((0 <? int_len)%nat && _); [ reflexivity |].
  destruct (strtod (current_pos st)) as [[float_val float_len] errno_ok].
  repeat match goal with
         | |- context [if ?b then _ else _] => destruct b; try reflexivity
         end.
Qed.

Lemma parse_string_literal_datum (st : ParserState) (w : World) :
  datum_result (fst (fst (parse_string_literal st w))).
Proof.
  unfold parse_string_literal.
  destruct (scan_string_literal _ _) as [[[content rest] n] |]; reflexivity.
Qed.

Lemma reader_macro_datum (symbol_name eof_message : string)
      (parsed : result * ParserState * World) :
  datum_result (fst (fst parsed)) ->
  datum_result (fst (fst (reader_macro symbol_name eof_message parsed))).
Proof.
  destruct parsed as [[[v | |] st] w]; cbn [reader_macro fst datum_result]; auto.
  intros H. cbn [is_datum l0_is_list]. now rewrite H.
Qed.

Lemma parse_datum strtod (fuel : nat) :
  (forall st w, datum_result (fst (fst (parse_sexpr strtod fuel st w)))) /\
  (forall elements st w,
      forallb is_datum elements = true ->
      datum_result (fst (fst (parse_list_loop strtod fuel elements st w)))).
Proof.
  induction fuel as [| n [IHs IHl]]; [ split; intros; exact I |].
  split.
  - intros st0 w. cbn [parse_sexpr]. cbv zeta.
    set (st := skip_whitespace_and_comments st0).
    repeat match goal with
           | |- context [if ?b then _ else _] => destruct b
           end;
      try exact I;
      try (apply reader_macro_datum; apply IHs);
      try (apply IHl; reflexivity);
      try apply parse_string_literal_datum;
      try apply parse_atom_datum.
  - intros elements st0 w Hel. cbn [parse_list_loop]. cbv zeta.
    set (st := skip_whitespace_and_comments st0).
    destruct (Ascii.eqb (peek (current_pos st)) ")").
    { cbn [fst datum_result]. now rewrite is_datum_list_to_value. }
    destruct (is_nul (peek (current_pos st))); [ exact I |].
    pose proof (IHs st w) as Hsub.
    destruct (parse_sexpr strtod n st w) as [[[element | |] st'] w']; try exact I.
    cbn [fst datum_result] in Hsub. apply IHl.
    rewrite forallb_app, Hel. cbn [forallb]. now rewrite Hsub.
Qed.

Lemma parse_all_loop_datum strtod (fuel rounds : nat) :
  forall exprs st w,
    forallb is_datum exprs = true ->
    datum_result (fst (parse_all_loop strtod rounds fuel exprs st w)).
Proof.
  induction rounds as [| k IH]; intros exprs st0 w Hex; [ exact I |].
  cbn [parse_all_loop]. cbv zeta.
  set (st := skip_whitespace_and_comments st0).
  destruct (is_nul (peek (current_pos st))).
  { cbn [fst datum_result]. now rewrite is_datum_list_to_value. }
  pose proof (proj1 (parse_datum strtod fuel) st w) as Hsub.
  destruct (parse_sexpr strtod fuel st w) as [[[expr | |] st'] w']; try exact I.
  - cbn [fst datum_result] in Hsub. apply IH.
    rewrite forallb_app, Hex. cbn [forallb]. now rewrite Hsub.
  - destruct (negb (world_ok w')); [ exact I |].
    cbn [fst datum_result]. now rewrite is_datum_list_to_value.
Qed.

(** X20.  Whatever the input, a value returned by [l0_parse_string] is a
    datum: an atom or a proper list of data, never a closure, a primitive
    or a reference.  A value returned by [l0_parse_string_all] is a proper
    list of data. *)
Theorem reader_yields_data strtod (input : option string) (w : World) :
  datum_result (fst (fst (l0_parse_string strtod input w))) /\
  datum_result (fst (l0_parse_string_all strtod input w)) /\
  (forall v, fst (l0_parse_string_all strtod input w) = Val v -> l0_is_list v = true).
Proof.
  split; [| split ].
  - unfold l0_parse_string. destruct input as [input |]; [| exact I ]. cbv zeta.
    destruct (is_nul _); [ exact I |].
    pose proof (proj1 (parse_datum strtod (parse_fuel input))
                  (skip_whitespace_and_comments (mkState input 1 1))
                  (set_error L0_PARSE_OK None w)) as H.
    destruct (parse_sexpr strtod (parse_fuel input) _ _) as [[[v | |] st'] w']; auto.
  - unfold l0_parse_string_all. destruct input as [input |]; [| exact I ].
    now apply parse_all_loop_datum.
  - unfold l0_parse_string_all. destruct input as [input |]; [ | discriminate ].
    cbv zeta. generalize (S (String.length input)) as rounds.
    generalize (mkState input 1 1) as st0. generalize (@nil L0_Value) as exprs.
    generalize (set_error L0_PARSE_OK None w) as w0.
    intros w0 exprs st0 rounds. revert w0 exprs st0.
    induction rounds as [| k IH]; intros w0 exprs st0 v; [ discriminate |].
    cbn [parse_all_loop]. cbv zeta.
    destruct (is_nul _).
    { intros [= <-]. apply l0_is_list_list_to_value. }
    destruct (parse_sexpr strtod (parse_fuel input) _ w0) as [[[expr | |] st'] w'].
    + apply IH.
    + destruct (negb (world_ok w')); [ discriminate |].
      intros [= <-]. apply l0_is_list_list_to_value.
    + discriminate.
Qed.

Lemma reader_yields_data_witness :
  l0_is_list (list_to_value [list_to_value [L0_Integer 1; L0_Integer 2]; L0_Symbol "x"]) = true.
Proof.
  apply (proj2 (proj2 (reader_yields_data strtod_no_conversion (Some "(1 2) x")
                         (initial_world [])))).
  vm_compute. reflexivity.
Defined.

(** ** l0_parser.c: white space, comments and the position *)

Lemma skip_from_tracks (s : string) :
  forall in_comment ln cl,
    0 <= ln -> 0 <= cl ->
    ln + Z.of_nat (String.length s) < 2 ^ 64 ->
    cl + Z.of_nat (String.length s) < 2 ^ 64 ->
    exists k,
      (k <= String.length s)%nat /\
      current_pos (skip_from in_comment s ln cl) = drop k s /\
      (line (skip_from in_comment s ln cl), col (skip_from in_comment s ln cl))
      = position_after (take k s) ln cl.
Proof.
  induction s as [| c r IH]; intros in_comment ln cl Hl Hc Hlb Hcb; cbn [skip_from].
  - exists O. repeat split; try reflexivity; cbn; lia.
  - assert (Hstop : exists k,
               (k <= String.length (String c r))%nat /\
               current_pos (mkState (String c r) ln cl) = drop k (String c r) /\
               (line (mkState (String c r) ln cl), col (mkState (String c r) ln cl))
               = position_after (take k (String c r)) ln cl).
    { exists O. repeat split; try reflexivity; cbn; lia. }
    cbn [String.length] in Hlb, Hcb.
    assert (Hnext : forall b,
               Ascii.eqb c newline = false ->
               exists k,
                 (k <= String.length (String c r))%nat /\
                 current_pos (skip_from b r ln (wrap_ulong (cl + 1))) = drop k (String c r) /\
                 (line (skip_from b r ln (wrap_ulong (cl + 1))),
                  col (skip_from b r ln (wrap_ulong (cl + 1))))
                 = position_after (take k (String c r)) ln cl).
    { intros b Hnl. rewrite wrap_ulong_small by lia.
      destruct (IH b ln (cl + 1)) as (k & Hk & Hpos & Hlc); try lia.
      exists (S k). cbn [String.length drop take position_after]. rewrite Hnl.
      repeat split; [ lia | exact Hpos | exact Hlc ]. }
    destruct (is_nul c); [ exact Hstop |].
    destruct (Ascii.eqb c newline) eqn:Hnl.
    + rewrite wrap_ulong_small by lia.
      destruct (IH false (ln + 1) 1) as (k & Hk & Hpos & Hlc); try lia.
      exists (S k). cbn [String.length drop take position_after]. rewrite Hnl.
      repeat split; [ lia | exact Hpos | exact Hlc ].
    + destruct in_comment; [ now apply Hnext |].
      destruct (isspace c); [ now apply Hnext |].
      destruct (Ascii.eqb c ";"); [ now apply Hnext | exact Hstop ].
Qed.

Lemma skip_from_stops (s : string) :
  forall in_comment ln cl,
    let c := peek (current_pos (skip_from in_comment s ln cl)) in
    is_nul c = true \/ (isspace c = false /\ Ascii.eqb c ";" = false).
Proof.
  induction s as [| c r IH]; intros in_comment ln cl; cbn [skip_from].
  - left. reflexivity.
  - destruct (is_nul c) eqn:Hnul; [ left; exact Hnul |].
    destruct (Ascii.eqb c newline); [ apply IH |].
    destruct in_comment; [ apply IH |].
    destruct (isspace c) eqn:Hsp; [ apply IH |].
    destruct (Ascii.eqb c ";") eqn:Hsemi; [ apply IH |].
    right. cbn [current_pos peek]. now split.
Qed.

(** X21.  As long as the counters do not overflow,
    [skip_whitespace_and_comments] removes a prefix of the input and
    moves the line and column as that prefix dictates (a newline starts
    the next line at column 1, any other character advances the column).
    It stops at the end of the input or at a character that is neither
    white space nor [;], and skipping again changes nothing. *)
Theorem skip_tracks_position (st : ParserState)
        (Hline : 0 <= line st) (Hcol : 0 <= col st)
        (Hline_fits : line st + Z.of_nat (String.length (current_pos st)) < 2 ^ 64)
        (Hcol_fits : col st + Z.of_nat (String.length (current_pos st)) < 2 ^ 64) :
  let st' := skip_whitespace_and_comments st in
  let c := peek (current_pos st') in
  (exists k,
      (k <= String.length (current_pos st))%nat /\
      current_pos st' = drop k (current_pos st) /\
      (line st', col st') = position_after (take k (current_pos st)) (line st) (col st)) /\
  (is_nul c = true \/ (isspace c = false /\ Ascii.eqb c ";" = false)) /\
  skip_whitespace_and_comments st' = st'.
Proof.
  cbn zeta. split; [| split ].
  - now apply skip_from_tracks.
  - apply skip_from_stops.
  - apply skip_whitespace_and_comments_idempotent.
Qed.

Lemma skip_tracks_position_witness :
  skip_whitespace_and_comments
    (skip_whitespace_and_comments (mkState ("  ; note" ++ String newline "  (a)") 1 1))
  = skip_whitespace_and_comments (mkState ("  ; note" ++ String newline "  (a)") 1 1).
Proof.
  apply (skip_tracks_position (mkState ("  ; note" ++ String newline "  (a)") 1 1));
    vm_compute; try reflexivity; discriminate.
Defined.

(** ** l0_parser.c: integer literals *)

Lemma strtol_digits_uint (u : Decimal.uint) :
  forall acc n,
    strtol_digits (NilEmpty.string_of_uint u) acc n
    = (uint_value u acc, (n + String.length (NilEmpty.string_of_uint u))%nat).
Proof.
  induction u; intros acc n;
    cbn [NilEmpty.string_of_uint strtol_digits uint_value String.length];
    [ f_equal; lia | .. ];
    (change (isdigit _) with true; cbv iota; rewrite IHu; f_equal; try reflexivity; lia).
Qed.

Lemma uint_value_of_uint_acc (u : Decimal.uint) :
  forall acc : positive, Z.pos (Pos.of_uint_acc u acc) = uint_value u (Z.pos acc).
Proof.
  induction u; intros acc; cbn [Pos.of_uint_acc uint_value]; [ reflexivity | .. ];
    rewrite IHu; f_equal; lia.
Qed.

Lemma uint_value_of_uint (u : Decimal.uint) : Z.of_N (Pos.of_uint u) = uint_value u 0.
Proof.
  induction u; cbn [Pos.of_uint uint_value];
    [ reflexivity | exact IHu | .. ];
    cbn [Z.of_N]; rewrite uint_value_of_uint_acc; reflexivity.
Qed.

Lemma uint_value_to_uint (p : positive) : uint_value (Pos.to_uint p) 0 = Z.pos p.
Proof. now rewrite <- uint_value_of_uint, DecimalPos.Unsigned.of_to. Qed.


Lemma string_of_uint_start (u : Decimal.uint) :
  u <> Decimal.Nil ->
  exists c r, NilEmpty.string_of_uint u = String c r /\ isdigit c = true.
Proof.
  destruct u; intros H; [ contradiction | .. ];
    cbn [NilEmpty.string_of_uint]; eexists; eexists; split; reflexivity.
Qed.

Lemma isdigit_not_space (c : ascii) : isdigit c = true -> isspace c = false.
Proof. destruct c as [[] [] [] [] [] [] [] []]; try discriminate; reflexivity. Qed.

Lemma isdigit_not_sign (c : ascii) :
  isdigit c = true -> Ascii.eqb c "-" = false /\ Ascii.eqb c "+" = false.
Proof. destruct c as [[] [] [] [] [] [] [] []]; try discriminate; split; reflexivity. Qed.

Lemma strtol_unsigned (u : Decimal.uint) :
  u <> Decimal.Nil ->
  strtol (NilEmpty.string_of_uint u)
  = (Z.max LONG_MIN (Z.min LONG_MAX (uint_value u 0)),
     String.length (NilEmpty.string_of_uint u)).
Proof.
  intros Hu. destruct (string_of_uint_start u Hu) as (c & r & Hs & Hd).
  unfold strtol.
  assert (Hsp : count_spaces (NilEmpty.string_of_uint u) = O).
  { rewrite Hs. cbn [count_spaces]. now rewrite (isdigit_not_space c Hd). }
  rewrite Hsp. cbn [drop].
  assert (Hpeek : peek (NilEmpty.string_of_uint u) = c) by now rewrite Hs.
  rewrite Hpeek. destruct (isdigit_not_sign c Hd) as [-> ->].
  cbn [drop]. rewrite strtol_digits_uint. cbn [Nat.add].
  rewrite Hs at 1. cbn [String.length]. reflexivity.
Qed.

Lemma strtol_negative (u : Decimal.uint) :
  u <> Decimal.Nil ->
  strtol (String "-" (NilEmpty.string_of_uint u))
  = (Z.max LONG_MIN (Z.min LONG_MAX (- uint_value u 0)),
     S (String.length (NilEmpty.string_of_uint u))).
Proof.
  intros Hu. destruct (string_of_uint_start u Hu) as (c & r & Hs & Hd).
  unfold strtol.
  change (count_spaces (String "-" (NilEmpty.string_of_uint u))) with O.
  cbn [drop peek]. change (Ascii.eqb "-" "-") with true. cbv iota.
  cbn [drop]. rewrite strtol_digits_uint. cbn [Nat.add].
  rewrite Hs at 1. cbn [String.length]. reflexivity.
Qed.

Lemma string_of_Z_pos (p : positive) :
  string_of_Z (Z.pos p) = NilEmpty.string_of_uint (Pos.to_uint p).
Proof.
  unfold string_of_Z. cbn [Z.to_int NilZero.string_of_int]. unfold NilZero.string_of_uint.
  pose proof (DecimalPos.Unsigned.to_uint_nonnil p) as H.
  destruct (Pos.to_uint p); [ contradiction | reflexivity .. ].
Qed.

Lemma string_of_Z_neg (p : positive) :
  string_of_Z (Z.neg p) = String "-" (NilEmpty.string_of_uint (Pos.to_uint p)).
Proof.
  unfold string_of_Z. cbn [Z.to_int NilZero.string_of_int]. unfold NilZero.string_of_uint.
  pose proof (DecimalPos.Unsigned.to_uint_nonnil p) as H.
  destruct (Pos.to_uint p); [ contradiction | reflexivity .. ].
Qed.

Lemma strtol_string_of_Z (z : Z) :
  LONG_MIN <= z <= LONG_MAX ->
  strtol (string_of_Z z) = (z, String.length (string_of_Z z)).
Proof.
  intros Hz. destruct z as [| p | p].
  - reflexivity.
  - rewrite string_of_Z_pos.
    rewrite strtol_unsigned by apply DecimalPos.Unsigned.to_uint_nonnil.
    rewrite uint_value_to_uint. f_equal. lia.
  - rewrite string_of_Z_neg.
    rewrite strtol_negative by apply DecimalPos.Unsigned.to_uint_nonnil.
    rewrite uint_value_to_uint. cbn [String.length]. f_equal. lia.
Qed.

Lemma string_of_Z_start (z : Z) :
  exists c r, string_of_Z z = String c r /\ is_numeral_start c = true.
Proof.
  destruct z as [| p | p].
  - exists "0"%char, EmptyString. split; reflexivity.
  - rewrite string_of_Z_pos.
    destruct (string_of_uint_start _ (DecimalPos.Unsigned.to_uint_nonnil p))
      as (c & r & -> & Hd).
    exists c, r. split; [ reflexivity |]. unfold is_numeral_start. rewrite Hd. apply orb_true_r.
  - rewrite string_of_Z_neg. exists "-"%char, (NilEmpty.string_of_uint (Pos.to_uint p)).
    split; reflexivity.
Qed.

Lemma numeral_start_chars (c : ascii) :
  is_numeral_start c = true ->
  is_nul c = false /\ Ascii.eqb c newline = false /\ isspace c = false /\
  Ascii.eqb c ";" = false /\ Ascii.eqb c "(" = false /\ Ascii.eqb c ")" = false /\
  Ascii.eqb c "`" = false /\ Ascii.eqb c "," = false /\ Ascii.eqb c "'" = false /\
  Ascii.eqb c double_quote = false.
Proof.
  destruct c as [[] [] [] [] [] [] [] []]; try discriminate; repeat split; reflexivity.
Qed.

Lemma drop_length (s : string) : drop (String.length s) s = EmptyString.
Proof. induction s as [| c r IH]; [ reflexivity | exact IH ]. Qed.

(** X22.  The decimal text of a [long], as [%ld] prints it, reads back
    as that number: [strtol] converts all of it to the number,
    [l0_parse_string] returns the integer with nothing left of the input,
    and [l0_parse_string_all] returns the list of that one integer. *)
Theorem integer_literal_round_trip strtod (z : Z) (w : World)
        (Hz : LONG_MIN <= z <= LONG_MAX) :
  strtol (string_of_Z z) = (z, String.length (string_of_Z z)) /\
  l0_parse_string strtod (Some (string_of_Z z)) w
  = (Val (L0_Integer z), Some EmptyString, set_error L0_PARSE_OK None w) /\
  l0_parse_string_all strtod (Some (string_of_Z z)) w
  = (Val (list_to_value [L0_Integer z]), set_error L0_PARSE_OK None w).
Proof.
  pose proof (strtol_string_of_Z z Hz) as Hstrtol.
  destruct (string_of_Z_start z) as (c & r & Hs & Hc).
  destruct (numeral_start_chars c Hc)
    as (Hnul & Hnl & Hsp & Hsemi & Hopen & Hclose & Hbq & Hcomma & Hq & Hdq).
  set (s := string_of_Z z) in *.
  assert (Hskip : forall ln cl,
             skip_whitespace_and_comments (mkState s ln cl) = mkState s ln cl).
  { intros ln cl. unfold skip_whitespace_and_comments. cbn [current_pos line col].
    rewrite Hs. cbn [skip_from]. now rewrite Hnul, Hnl, Hsp, Hsemi. }
  assert (Hpeek : peek s = c) by now rewrite Hs.
  assert (Hatom : forall ln cl w0,
             parse_atom strtod (mkState s ln cl) w0
             = (Val (L0_Integer z), advance_by (String.length s) (mkState s ln cl), w0)).
  { intros ln cl w0. unfold parse_atom. cbn [current_pos]. rewrite Hstrtol.
    rewrite drop_length.
    replace (0 <? String.length s)%nat with true
      by (symmetry; apply Nat.ltb_lt; rewrite Hs; cbn [String.length]; lia).
    reflexivity. }
  assert (Hsexpr : forall n ln cl w0,
             parse_sexpr strtod (S n) (mkState s ln cl) w0
             = (Val (L0_Integer z), advance_by (String.length s) (mkState s ln cl), w0)).
  { intros n ln cl w0. cbn [parse_sexpr]. cbv zeta. rewrite Hskip. cbn [current_pos].
    rewrite Hpeek, Hnul, Hopen, Hclose, Hbq, Hcomma, Hq, Hdq. apply Hatom. }
  assert (Hend : forall ln cl,
             current_pos (skip_whitespace_and_comments
                            (advance_by (String.length s) (mkState s ln cl)))
             = EmptyString).
  { intros ln cl. unfold skip_whitespace_and_comments, advance_by.
    cbn [current_pos line col]. rewrite drop_length. reflexivity. }
  split; [ exact Hstrtol |]. split.
  - unfold l0_parse_string. cbv zeta. rewrite Hskip. cbn [current_pos].
    rewrite Hpeek, Hnul. unfold parse_fuel.
    replace (2 * String.length s + 2)%nat with (S (2 * String.length s + 1)) by lia.
    rewrite Hsexpr. now rewrite Hend.
  - assert (Hlen : exists k, String.length s = S k)
      by (rewrite Hs; cbn [String.length]; eauto).
    destruct Hlen as [k Hk].
    unfold l0_parse_string_all, parse_fuel.
    replace (S (String.length s)) with (S (S k)) by lia.
    replace (2 * String.length s + 2)%nat with (S (2 * String.length s + 1)) by lia.
    cbn [parse_all_loop]. cbv zeta. rewrite Hskip.
    cbn [current_pos]. rewrite Hpeek, Hnul, Hsexpr, Hend. reflexivity.
Qed.

Lemma integer_literal_round_trip_witness :
  l0_parse_string strtod_no_conversion (Some (string_of_Z (-42))) (initial_world [])
  = (Val (L0_Integer (-42)), Some EmptyString, set_error L0_PARSE_OK None (initial_world [])).
Proof.
  apply (integer_literal_round_trip strtod_no_conversion (-42) (initial_world [])).
  vm_compute. split; discriminate.
Defined.

(** ** [l0_parse_string_all] and repeated [l0_parse_string] *)

Lemma skip_from_current_pos (s : string) :
  forall in_comment ln cl ln' cl',
    current_pos (skip_from in_comment s ln cl) = current_pos (skip_from in_comment s ln' cl').
Proof.
  induction s as [| c r IH]; intros in_comment ln cl ln' cl'; cbn [skip_from];
    [ reflexivity |].
  destruct (is_nul c); [ reflexivity |].
  destruct (Ascii.eqb c newline); [ apply IH |].
  destruct in_comment; [ apply IH |].
  destruct (isspace c); [ apply IH |].
  destruct (Ascii.eqb c ";"); [ apply IH | reflexivity ].
Qed.

Lemma skip_current_pos (st1 st2 : ParserState) :
  current_pos st1 = current_pos st2 ->
  current_pos (skip_whitespace_and_comments st1)
  = current_pos (skip_whitespace_and_comments st2).
Proof.
  intros H. unfold skip_whitespace_and_comments. rewrite H. apply skip_from_current_pos.
Qed.

Lemma advance_by_current_pos (n : nat) (st1 st2 : ParserState) :
  current_pos st1 = current_pos st2 ->
  current_pos (advance_by n st1) = current_pos (advance_by n st2).
Proof. intros H. unfold advance_by. cbn [current_pos]. now rewrite H. Qed.

Section SameReading.

Variable strtod : string -> float * nat * bool.

Lemma parse_atom_same (st1 st2 : ParserState) (w1 w2 : World) :
  current_pos st1 = current_pos st2 -> world_ok w1 = world_ok w2 ->
  same_reading (parse_atom strtod st1 w1) (parse_atom strtod st2 w2).
Proof.
  intros Hcp Hok. unfold parse_atom. rewrite Hcp.
  destruct (strtol (current_pos st2)) as [int_val int_len].
  destruct (strtod (current_pos st2)) as [[float_val float_len] errno_ok].
  repeat match goal with
         | |- context [if ?b then _ else _] => destruct b
         end;
    unfold same_reading; cbn [fst snd];
    (split; [ reflexivity | split; [| first [ exact Hok | reflexivity ] ] ]);
    first [ now apply advance_by_current_pos | exact Hcp ].
Qed.

Lemma parse_string_literal_same (st1 st2 : ParserState) (w1 w2 : World) :
  current_pos st1 = current_pos st2 -> world_ok w1 = world_ok w2 ->
  same_reading (parse_string_literal st1 w1) (parse_string_literal st2 w2).
Proof.
  intros Hcp Hok. unfold parse_string_literal, advance.
  rewrite (advance_by_current_pos 1 st1 st2 Hcp).
  destruct (scan_string_literal (current_pos (advance_by 1 st2)) false)
    as [[[content rest] n] |]; unfold same_reading; cbn [fst snd current_pos].
  - split; [ reflexivity | split; [ reflexivity | exact Hok ] ].
  - split; [ reflexivity | split; [ now apply advance_by_current_pos | reflexivity ] ].
Qed.

Lemma reader_macro_same (symbol_name eof_message : string)
      (p1 p2 : result * ParserState * World) :
  same_reading p1 p2 ->
  same_reading (reader_macro symbol_name eof_message p1)
               (reader_macro symbol_name eof_message p2).
Proof.
  destruct p1 as [[[v1 | |] s1] w1], p2 as [[[v2 | |] s2] w2];
    unfold same_reading; cbn [fst snd reader_macro]; intros (Hr & Hc & Hw);
    try discriminate.
  - inversion Hr; subst. split; [ reflexivity | split; assumption ].
  - split; [ reflexivity | split; [ exact Hc |] ].
    rewrite Hw. destruct (world_ok w2) eqn:E; [ reflexivity | now rewrite Hw, E ].
  - split; [ reflexivity | split; assumption ].
Qed.

Lemma reader_macro_returns (symbol_name eof_message : string)
      (p : result * ParserState * World) :
  fst (fst (reader_macro symbol_name eof_message p)) <> OutOfFuel ->
  fst (fst p) <> OutOfFuel.
Proof. destruct p as [[[v | |] s] w]; cbn; congruence. Qed.

Lemma parse_sexpr_list_same (fuel1 : nat) :
  (forall fuel2 st1 st2 w1 w2,
      current_pos st1 = current_pos st2 -> world_ok w1 = world_ok w2 ->
      fst (fst (parse_sexpr strtod fuel1 st1 w1)) <> OutOfFuel ->
      fst (fst (parse_sexpr strtod fuel2 st2 w2)) <> OutOfFuel ->
      same_reading (parse_sexpr strtod fuel1 st1 w1) (parse_sexpr strtod fuel2 st2 w2)) /\
  (forall fuel2 elements st1 st2 w1 w2,
      current_pos st1 = current_pos st2 -> world_ok w1 = world_ok w2 ->
      fst (fst (parse_list_loop strtod fuel1 elements st1 w1)) <> OutOfFuel ->
      fst (fst (parse_list_loop strtod fuel2 elements st2 w2)) <> OutOfFuel ->
      same_reading (parse_list_loop strtod fuel1 elements st1 w1)
                   (parse_list_loop strtod fuel2 elements st2 w2)).
Proof.
  induction fuel1 as [| n1 [IHs IHl]];
    [ split; intros; cbn in *; congruence |].
  split.
  - intros [| n2] st01 st02 w1 w2 Hcp0 Hok; [ cbn; congruence |].
    cbn [parse_sexpr].
    pose proof (skip_current_pos st01 st02 Hcp0) as Hcp.
    set (st1 := skip_whitespace_and_comments st01) in *.
    set (st2 := skip_whitespace_and_comments st02) in *.
    pose proof (advance_by_current_pos 1 st1 st2 Hcp) as Hadv.
    fold (advance st1) (advance st2) in Hadv.
    pose proof (advance_by_current_pos 1 _ _ Hadv) as Hadv2.
    fold (advance (advance st1)) (advance (advance st2)) in Hadv2.
    rewrite Hcp, Hadv.
    assert (Hmacro : forall name msg a1 a2,
               current_pos a1 = current_pos a2 ->
               fst (fst (reader_macro name msg (parse_sexpr strtod n1 a1 w1))) <> OutOfFuel ->
               fst (fst (reader_macro name msg (parse_sexpr strtod n2 a2 w2))) <> OutOfFuel ->
               same_reading (reader_macro name msg (parse_sexpr strtod n1 a1 w1))
                            (reader_macro name msg (parse_sexpr strtod n2 a2 w2))).
    { intros name msg a1 a2 Ha H1 H2. apply reader_macro_same.
      apply IHs; [ exact Ha | exact Hok | |]; eapply reader_macro_returns; eassumption. }
    destruct (is_nul (peek (current_pos st2))).
    { intros _ _. split; [ reflexivity | split; [ exact Hcp | exact Hok ] ]. }
    destruct (Ascii.eqb (peek (current_pos st2)) "(").
    { intros H1 H2. now apply IHl. }
    destruct (Ascii.eqb (peek (current_pos st2)) ")").
    { intros _ _. split; [ reflexivity | split; [ exact Hcp | reflexivity ] ]. }
    destruct (Ascii.eqb (peek (current_pos st2)) "`"); [ now apply Hmacro |].
    destruct (Ascii.eqb (peek (current_pos st2)) ",").
    { destruct (Ascii.eqb (peek (current_pos (advance st2))) "@"); now apply Hmacro. }
    destruct (Ascii.eqb (peek (current_pos st2)) "'"); [ now apply Hmacro |].
    destruct (Ascii.eqb (peek (current_pos st2)) double_quote).
    { intros _ _. now apply parse_string_literal_same. }
    intros _ _. now apply parse_atom_same.
  - intros [| n2] elements st01 st02 w1 w2 Hcp0 Hok; [ cbn; congruence |].
    cbn [parse_list_loop].
    pose proof (skip_current_pos st01 st02 Hcp0) as Hcp.
    set (st1 := skip_whitespace_and_comments st01) in *.
    set (st2 := skip_whitespace_and_comments st02) in *.
    pose proof (advance_by_current_pos 1 st1 st2 Hcp) as Hadv.
    fold (advance st1) (advance st2) in Hadv.
    rewrite Hcp.
    destruct (Ascii.eqb (peek (current_pos st2)) ")").
    { intros _ _. split; [ reflexivity | split; [ exact Hadv | exact Hok ] ]. }
    destruct (is_nul (peek (current_pos st2))).
    { intros _ _. split; [ reflexivity | split; [ exact Hcp | reflexivity ] ]. }
    pose proof (IHs n2 st1 st2 w1 w2 Hcp Hok) as Hsub.
    destruct (parse_sexpr strtod n1 st1 w1) as [[[e1 | |] s1'] w1'];
      destruct (parse_sexpr strtod n2 st2 w2) as [[[e2 | |] s2'] w2'];
      cbn [fst snd] in *; intros H1 H2; try congruence;
      destruct (Hsub ltac:(congruence) ltac:(congruence)) as (Hr & Hc & Hw);
      cbn [fst snd] in Hr, Hc, Hw; try discriminate.
    + inversion Hr; subst e2. now apply IHl.
    + split; [ reflexivity | split; [ exact Hc |] ]. cbn [fst snd].
      rewrite Hw. destruct (world_ok w2') eqn:E; [ reflexivity | now rewrite Hw, E ].
Qed.

End SameReading.

Section ReadEach.

Variable strtod : string -> float * nat * bool.
Hypothesis strtod_within :
  forall s, (snd (fst (strtod s)) <= String.length s)%nat.
Variable input_length : Z.
Hypothesis input_fits : input_length + 1 < 2 ^ 64.

Lemma rest_position_ok (st : ParserState) :
  position_ok input_length st ->
  position_ok input_length
              (mkState (current_pos (skip_whitespace_and_comments st)) 1 1).
Proof.
  intros Hpos.
  destruct (skip_whitespace_and_comments_ok input_length input_fits st Hpos) as [_ Hlen].
  unfold position_ok in *. cbn [current_pos line col]. lia.
Qed.

Lemma rest_current_pos (st1 st2 : ParserState) :
  current_pos st1 = current_pos st2 ->
  current_pos (skip_whitespace_and_comments st1)
  = current_pos (skip_whitespace_and_comments
                   (mkState (current_pos (skip_whitespace_and_comments st2)) 1 1)).
Proof.
  intros Hcp.
  rewrite (skip_current_pos
             (mkState (current_pos (skip_whitespace_and_comments st2)) 1 1)
             (skip_whitespace_and_comments st2) eq_refl).
  rewrite skip_whitespace_and_comments_idempotent. now apply skip_current_pos.
Qed.

Lemma parse_all_loop_read_each (fuel rounds : nat) :
  forall exprs st input w1 w2,
    position_ok input_length st ->
    position_ok input_length (mkState input 1 1) ->
    current_pos (skip_whitespace_and_comments st)
    = current_pos (skip_whitespace_and_comments (mkState input 1 1)) ->
    world_ok w1 = true ->
    (2 * String.length (current_pos st) + 1 <= fuel)%nat ->
    fst (parse_all_loop strtod rounds fuel exprs st w1)
    = with_front exprs (read_each strtod rounds input w2).
Proof.
  induction rounds as [| k IH]; intros exprs st0 input w1 w2 Hpos0 Hposi Hcp Hok Hfuel;
    [ reflexivity |].
  cbn [parse_all_loop read_each]. unfold l0_parse_string.
  destruct (skip_whitespace_and_comments_ok input_length input_fits st0 Hpos0) as [Hpos1 Hlen1].
  destruct (skip_whitespace_and_comments_ok input_length input_fits _ Hposi) as [Hpos2 Hlen2].
  cbn [current_pos] in Hlen2.
  set (st1 := skip_whitespace_and_comments st0) in *.
  set (st2 := skip_whitespace_and_comments (mkState input 1 1)) in *.
  set (w2' := set_error L0_PARSE_OK None w2).
  assert (Hok2 : world_ok w2' = true) by reflexivity.
  rewrite Hcp.
  destruct (is_nul (peek (current_pos st2))).
  { cbn [fst]. rewrite Hok2. cbn [with_front]. now rewrite link_nil. }
  destruct (parse_sexpr_list_ok strtod strtod_within input_length input_fits fuel)
    as [Hpost1 _].
  specialize (Hpost1 st1 w1 Hpos1 Hok ltac:(lia)).
  destruct (parse_sexpr_list_ok strtod strtod_within input_length input_fits
                                (parse_fuel input)) as [Hpost2 _].
  specialize (Hpost2 st2 w2' Hpos2 Hok2 ltac:(unfold parse_fuel; lia)).
  destruct (parse_sexpr_list_same strtod fuel) as [Hsame _].
  specialize (Hsame (parse_fuel input) st1 st2 w1 w2' Hcp (eq_trans Hok (eq_sym Hok2))).
  destruct (parse_sexpr strtod fuel st1 w1) as [[[e1 | |] s1'] w1'];
    destruct (parse_sexpr strtod (parse_fuel input) st2 w2') as [[[e2 | |] s2'] w2''];
    cbn [sexpr_post] in Hpost1, Hpost2; try contradiction;
    destruct (Hsame ltac:(cbn; congruence) ltac:(cbn; congruence)) as (Hr & Hc & Hw);
    cbn [fst snd] in Hr, Hc, Hw; try discriminate.
  - inversion Hr; subst e2.
    destruct Hpost1 as (-> & Hpos1' & Hlt1). destruct Hpost2 as (-> & Hpos2' & Hlt2).
    rewrite (IH (exprs ++ [e1])%list s1' (current_pos (skip_whitespace_and_comments s2')) w1 w2');
      [| exact Hpos1' | now apply rest_position_ok | now apply rest_current_pos
       | exact Hok | lia ].
    destruct (read_each strtod k (current_pos (skip_whitespace_and_comments s2')) w2')
      as [vs | |]; cbn [with_front]; try reflexivity.
    now rewrite link_app.
  - rewrite Hw. destruct (world_ok w2''); cbn [negb fst with_front]; [| reflexivity ].
    now rewrite link_nil.
Qed.

End ReadEach.

(** X28.  For an input shorter than the address space,
    [l0_parse_string_all] returns what reading expression after
    expression with [l0_parse_string] gives, each call on the text the
    previous one left through [end_ptr]: the list of the values when the
    reading ends at the end of the input, [NULL] when a call reports an
    error.  It always returns. *)
Theorem parse_all_collects_parse_string (strtod : string -> float * nat * bool)
        (input : string) (w : World)
        (Hstrtod : forall s, (snd (fst (strtod s)) <= String.length s)%nat)
        (Hfits : Z.of_nat (String.length input) + 1 < 2 ^ 64) :
  fst (l0_parse_string_all strtod (Some input) w)
  = read_each strtod (S (String.length input)) input w /\
  fst (l0_parse_string_all strtod (Some input) w) <> OutOfFuel.
Proof.
  pose proof (initial_position_ok input) as Hpos.
  assert (Hok : world_ok (set_error L0_PARSE_OK None w) = true) by reflexivity.
  split.
  - unfold l0_parse_string_all.
    rewrite (parse_all_loop_read_each strtod Hstrtod _ Hfits (parse_fuel input)
               (S (String.length input)) [] (mkState input 1 1) input
               (set_error L0_PARSE_OK None w) w Hpos Hpos eq_refl Hok);
      [| unfold parse_fuel; cbn [current_pos]; lia ].
    destruct (read_each strtod (S (String.length input)) input w); reflexivity.
  - pose proof (parse_all_loop_ok strtod Hstrtod _ Hfits (parse_fuel input)
                  (S (String.length input)) [] (mkState input 1 1)
                  (set_error L0_PARSE_OK None w) Hpos Hok) as Hall.
    unfold l0_parse_string_all.
    destruct (parse_all_loop strtod (S (String.length input)) (parse_fuel input) []
                             (mkState input 1 1) (set_error L0_PARSE_OK None w))
      as [[v | |] w']; cbn [fst]; try discriminate.
    intros _. apply Hall; [ cbn [current_pos]; lia | unfold parse_fuel; cbn [current_pos]; lia ].
Qed.

Lemma parse_all_collects_parse_string_witness :
  fst (l0_parse_string_all strtod_no_conversion (Some "(a b) 'c 42") (initial_world []))
  = read_each strtod_no_conversion 12 "(a b) 'c 42" (initial_world []).
Proof.
  assert (Hfits : Z.of_nat (String.length "(a b) 'c 42") + 1 < 2 ^ 64)
    by (vm_compute; reflexivity).
  exact (proj1 (parse_all_collects_parse_string strtod_no_conversion "(a b) 'c 42"
                  (initial_world []) strtod_no_conversion_within Hfits)).
Defined.

(** ** l0_arena.c: alignment and bump allocation *)

Lemma testbit_above (x n i : Z) : 0 <= x < 2 ^ n -> 0 <= n <= i -> Z.testbit x i = false.
Proof.
  intros Hx Hi. destruct (Z.eq_dec x 0) as [-> | Hnz]; [ apply Z.bits_0 |].
  apply Z.bits_above_log2; [ lia |].
  assert (Z.log2 x < n) by (apply Z.log2_lt_pow2; lia). lia.
Qed.

Lemma land_high_mask (x k : Z) :
  0 <= k <= 64 -> 0 <= x < 2 ^ 64 -> Z.land x (2 ^ 64 - 2 ^ k) = x - x mod 2 ^ k.
Proof.
  intros Hk Hx.
  assert (Hmask : 2 ^ 64 - 2 ^ k = Z.shiftl (Z.ones (64 - k)) k).
  { rewrite Z.shiftl_mul_pow2, Z.ones_equiv by lia.
    replace (2 ^ 64) with (2 ^ (64 - k) * 2 ^ k)
      by (rewrite <- Z.pow_add_r by lia; f_equal; lia).
    lia. }
  assert (Hres : x - x mod 2 ^ k = Z.shiftl (Z.shiftr x k) k).
  { rewrite Z.shiftl_mul_pow2, Z.shiftr_div_pow2 by lia.
    pose proof (Z.div_mod x (2 ^ k)) as Hdm.
    assert (2 ^ k <> 0) by (apply Z.pow_nonzero; lia). specialize (Hdm H). lia. }
  rewrite Hmask, Hres. apply Z.bits_inj'. intros i Hi.
  rewrite Z.land_spec.
  destruct (Z.lt_ge_cases i k) as [Hlt | Hge].
  - rewrite !Z.shiftl_spec_low by lia. apply andb_false_r.
  - rewrite !Z.shiftl_spec by lia. rewrite Z.shiftr_spec by lia.
    replace (i - k + k) with i by lia.
    rewrite Z.testbit_ones_nonneg by lia.
    destruct (Z.ltb_spec (i - k) (64 - k)) as [Hin | Hout]; [ apply andb_true_r |].
    rewrite (testbit_above x 64 i) by lia. reflexivity.
Qed.

Lemma align_up_value (ptr k : Z) :
  0 <= k < 64 -> 0 <= ptr -> ptr + 2 ^ k <= 2 ^ 64 ->
  Arena.align_up ptr (2 ^ k) = (ptr + 2 ^ k - 1) - (ptr + 2 ^ k - 1) mod 2 ^ k.
Proof.
  intros Hk Hptr Hfit. unfold Arena.align_up, Arena.wrap_size.
  assert (Hpos : 0 < 2 ^ k) by (apply Z.pow_pos_nonneg; lia).
  assert (Hlt : 2 ^ k < 2 ^ 64) by (apply Z.pow_lt_mono_r; lia).
  rewrite (Z.mod_small (ptr + 2 ^ k - 1)) by lia.
  rewrite (Z.mod_small (2 ^ k - 1)) by lia.
  replace (Z.lnot (2 ^ k - 1) mod 2 ^ 64) with (2 ^ 64 - 2 ^ k).
  - apply land_high_mask; lia.
  - unfold Z.lnot. replace (Z.pred (- (2 ^ k - 1))) with (- 2 ^ k) by lia.
    symmetry. rewrite <- (Z.mod_small (2 ^ 64 - 2 ^ k) (2 ^ 64)) by lia.
    replace (2 ^ 64 - 2 ^ k) with (- 2 ^ k + 1 * 2 ^ 64) by lia.
    now rewrite Z.mod_add by lia.
Qed.

Lemma align_up_spec (ptr alignment : Z) :
  Arena.is_power_of_two alignment -> 0 <= ptr -> ptr + alignment <= 2 ^ 64 ->
  ptr <= Arena.align_up ptr alignment < ptr + alignment /\
  Arena.align_up ptr alignment mod alignment = 0.
Proof.
  intros (k & Hk & ->) Hptr Hfit. rewrite align_up_value by assumption.
  assert (Hpos : 0 < 2 ^ k) by (apply Z.pow_pos_nonneg; lia).
  pose proof (Z.mod_pos_bound (ptr + 2 ^ k - 1) (2 ^ k) Hpos) as Hm.
  split; [ lia |].
  pose proof (Z.div_mod (ptr + 2 ^ k - 1) (2 ^ k)) as Hdm.
  assert (Hnz : 2 ^ k <> 0) by lia. specialize (Hdm Hnz).
  replace (ptr + 2 ^ k - 1 - (ptr + 2 ^ k - 1) mod 2 ^ k)
    with ((ptr + 2 ^ k - 1) / 2 ^ k * 2 ^ k) by lia.
  apply Z.mod_mul. exact Hnz.
Qed.

(** X23.  For a power of two [alignment] and an address that leaves room
    for it below [2 ^ 64], [align_up] returns the least multiple of the
    alignment that is not below the address: it moves the address by less
    than the alignment and leaves an aligned address where it is. *)
Theorem align_up_rounds_up (ptr alignment : Z)
        (Hpow : Arena.is_power_of_two alignment)
        (Hptr : 0 <= ptr) (Hfit : ptr + alignment <= 2 ^ 64) :
  let r := Arena.align_up ptr alignment in
  ptr <= r < ptr + alignment /\
  r mod alignment = 0 /\
  (ptr mod alignment = 0 -> r = ptr) /\
  (forall q, ptr <= q -> q mod alignment = 0 -> r <= q).
Proof.
  cbn zeta. destruct (align_up_spec ptr alignment Hpow Hptr Hfit) as [Hrange Hmod].
  destruct Hpow as (k & Hk & ->).
  assert (Hpos : 0 < 2 ^ k) by (apply Z.pow_pos_nonneg; lia).
  split; [ exact Hrange |]. split; [ exact Hmod |].
  assert (Hleast : forall q, ptr <= q -> q mod 2 ^ k = 0 -> Arena.align_up ptr (2 ^ k) <= q).
  { intros q Hq Hqm.
    apply Z.mod_divide in Hqm; [| lia ]. destruct Hqm as [a ->].
    apply Z.mod_divide in Hmod; [| lia ]. destruct Hmod as [b Hb].
    rewrite Hb in Hrange |- *.
    assert (Hlt : b * 2 ^ k < (a + 1) * 2 ^ k) by lia.
    apply Z.mul_lt_mono_pos_r in Hlt; [| exact Hpos ].
    apply Z.mul_le_mono_nonneg_r; lia. }
  split; [| exact Hleast ].
  intros Haligned. specialize (Hleast ptr (Z.le_refl ptr) Haligned). lia.
Qed.

Lemma align_up_rounds_up_witness :
  13 <= Arena.align_up 13 8 < 13 + 8 /\ Arena.align_up 13 8 mod 8 = 0.
Proof.
  assert (Hpow : Arena.is_power_of_two 8) by (exists 3; split; [ lia | reflexivity ]).
  assert (Hptr : 0 <= 13) by lia.
  assert (Hfit : 13 + 8 <= 2 ^ 64) by lia.
  split.
  - exact (proj1 (align_up_rounds_up 13 8 Hpow Hptr Hfit)).
  - exact (proj1 (proj2 (align_up_rounds_up 13 8 Hpow Hptr Hfit))).
Defined.

Lemma wrap_size_small (z : Z) : 0 <= z < 2 ^ 64 -> Arena.wrap_size z = z.
Proof. intros H. unfold Arena.wrap_size. now apply Z.mod_small. Qed.

Lemma land_pred_power_of_two (a : Z) :
  0 < a -> Z.land a (a - 1) = 0 -> a = 2 ^ Z.log2 a.
Proof.
  intros Hpos Hland.
  destruct (Z.log2_spec a Hpos) as [Hlo Hhi].
  destruct (Z.eq_dec a (2 ^ Z.log2 a)) as [E | Hne]; [ exact E | exfalso ].
  assert (Hk : 0 <= Z.log2 a) by apply Z.log2_nonneg.
  assert (Hbit : Z.testbit (Z.land a (a - 1)) (Z.log2 a) = true).
  { rewrite Z.land_spec, Z.bit_log2 by exact Hpos.
    assert (Hpow : 0 < 2 ^ Z.log2 a) by (apply Z.pow_pos_nonneg; lia).
    assert (Hlog : Z.log2 (a - 1) = Z.log2 a).
    { apply Z.log2_unique; [ exact Hk |]. lia. }
    rewrite <- Hlog. rewrite Z.bit_log2 by lia. reflexivity. }
  rewrite Hland, Z.bits_0 in Hbit. discriminate.
Qed.

Lemma effective_alignment_power_of_two (alignment : Z) :
  0 <= alignment < 2 ^ 64 -> Arena.is_power_of_two (Arena.effective_alignment alignment).
Proof.
  intros Hrange. unfold Arena.effective_alignment.
  destruct (Z.eqb_spec alignment 0) as [E | Hnz]; cbn [orb].
  - exists 4. split; [ lia | reflexivity ].
  - rewrite wrap_size_small by lia.
    destruct (Z.eqb_spec (Z.land alignment (alignment - 1)) 0) as [Hland | Hland];
      cbn [negb].
    + exists (Z.log2 alignment). split.
      * split; [ apply Z.log2_nonneg |]. apply Z.log2_lt_pow2; lia.
      * apply land_pred_power_of_two; [ lia | exact Hland ].
    + exists 4. split; [ lia | reflexivity ].
Qed.

Lemma effective_alignment_le (alignment : Z) :
  0 <= alignment <= 2 ^ 62 -> 0 < Arena.effective_alignment alignment <= 2 ^ 62.
Proof.
  intros Hrange. unfold Arena.effective_alignment.
  destruct (Z.eqb_spec alignment 0) as [E | Hnz]; cbn [orb].
  - unfold Arena.alignof_max_align_t. lia.
  - destruct (negb _); [ unfold Arena.alignof_max_align_t |]; lia.
Qed.

Lemma effective_alignment_of_power (alignment : Z) :
  Arena.is_power_of_two alignment -> Arena.effective_alignment alignment = alignment.
Proof.
  intros (k & Hk & ->). unfold Arena.effective_alignment.
  assert (Hpos : 0 < 2 ^ k) by (apply Z.pow_pos_nonneg; lia).
  assert (Hlt : 2 ^ k < 2 ^ 64) by (apply Z.pow_lt_mono_r; lia).
  destruct (Z.eqb_spec (2 ^ k) 0) as [E | _]; [ lia |]. cbn [orb].
  rewrite wrap_size_small by lia.
  replace (2 ^ k - 1) with (Z.ones k) by (rewrite Z.ones_equiv; lia).
  rewrite Z.land_ones by lia. rewrite Z.mod_same by lia. reflexivity.
Qed.

(** The arithmetic of one bump: no step of it wraps around. *)
Lemma bump_arithmetic (ptr a used_ size_ : Z) :
  Arena.is_power_of_two a -> a <= 2 ^ 62 ->
  0 <= ptr <= 2 ^ 62 -> 0 <= used_ <= 2 ^ 62 -> 0 <= size_ <= 2 ^ 62 ->
  let aligned_ptr := Arena.align_up ptr a in
  let padding := Arena.wrap_size (aligned_ptr - ptr) in
  ptr <= aligned_ptr < ptr + a /\
  aligned_ptr mod a = 0 /\
  padding = aligned_ptr - ptr /\
  Arena.wrap_size (used_ + padding) = used_ + padding /\
  Arena.wrap_size (padding + size_) = padding + size_ /\
  Arena.wrap_size (used_ + (padding + size_)) = used_ + (padding + size_).
Proof.
  intros Hpow Ha Hptr Hused Hsize. cbn zeta.
  destruct (align_up_spec ptr a Hpow) as [Hrange Hmod]; [ lia | lia |].
  assert (H62 : 2 ^ 62 * 4 = 2 ^ 64) by reflexivity.
  assert (Hpad : Arena.wrap_size (Arena.align_up ptr a - ptr) = Arena.align_up ptr a - ptr)
    by (apply wrap_size_small; lia).
  rewrite Hpad.
  repeat split; try lia; try exact Hmod; apply wrap_size_small; lia.
Qed.

Lemma nth_error_set_used (i : nat) (u : Z) (blocks : list Arena.ArenaBlock) (b : Arena.ArenaBlock) :
  nth_error blocks i = Some b ->
  nth_error (Arena.set_used i u blocks) i
  = Some (Arena.mkBlock (Arena.size b) u (Arena.data_start b)).
Proof.
  revert i. induction blocks as [| x rest IH]; intros [| i] H; cbn in *; try discriminate.
  - now inversion H.
  - now apply IH.
Qed.

Lemma length_set_used (i : nat) (u : Z) (blocks : list Arena.ArenaBlock) :
  List.length (Arena.set_used i u blocks) = List.length blocks.
Proof.
  revert i. induction blocks as [| x rest IH]; intros [| i]; cbn; try reflexivity.
  now rewrite IH.
Qed.

Lemma Forall_set_used (i : nat) (u : Z) (blocks : list Arena.ArenaBlock) (b : Arena.ArenaBlock) :
  nth_error blocks i = Some b ->
  Forall Arena.block_ok blocks ->
  Arena.block_ok (Arena.mkBlock (Arena.size b) u (Arena.data_start b)) ->
  Forall Arena.block_ok (Arena.set_used i u blocks).
Proof.
  revert i. induction blocks as [| x rest IH]; intros [| i] H Hall Hb; cbn in *;
    try discriminate.
  - inversion H; subst. inversion Hall; subst. now constructor.
  - inversion Hall; subst. constructor; [ assumption |]. now apply IH.
Qed.

Lemma total_allocation_size_value (min_data_size : Z) :
  0 <= min_data_size <= 2 ^ 62 ->
  Arena.total_allocation_size min_data_size
  = 47 + Z.max min_data_size Arena.L0_ARENA_DEFAULT_BLOCK_SIZE.
Proof.
  intros H. unfold Arena.total_allocation_size, Arena.sizeof_ArenaBlock,
    Arena.alignof_max_align_t, Arena.L0_ARENA_DEFAULT_BLOCK_SIZE.
  rewrite (wrap_size_small (32 + 16 - 1)) by lia.
  destruct (Z.ltb_spec (4 * 1024 * 1024) min_data_size); rewrite wrap_size_small; lia.
Qed.

Lemma total_allocation_size_max (size_ : Z) :
  Arena.total_allocation_size
    (if Arena.L0_ARENA_DEFAULT_BLOCK_SIZE <? size_ then size_
     else Arena.L0_ARENA_DEFAULT_BLOCK_SIZE)
  = Arena.total_allocation_size size_.
Proof.
  unfold Arena.total_allocation_size.
  destruct (Z.ltb_spec Arena.L0_ARENA_DEFAULT_BLOCK_SIZE size_) as [H | H].
  - destruct (Z.ltb_spec Arena.L0_ARENA_DEFAULT_BLOCK_SIZE size_); [ reflexivity | lia ].
  - rewrite Z.ltb_irrefl. reflexivity.
Qed.

Lemma sixteen_power_of_two : Arena.is_power_of_two 16.
Proof. exists 4. split; [ lia | reflexivity ]. Qed.

Lemma allocate_block_spec (min_data_size raw : Z) :
  0 <= min_data_size <= 2 ^ 62 ->
  Arena.malloc_ok (Arena.total_allocation_size min_data_size) (Some raw) ->
  exists b,
    Arena.allocate_block min_data_size (Some raw) = Some b /\
    Arena.used b = 0 /\
    raw + Arena.sizeof_ArenaBlock <= Arena.data_start b /\
    Arena.data_start b mod Arena.alignof_max_align_t = 0 /\
    Arena.data_start b + Arena.size b = raw + Arena.total_allocation_size min_data_size /\
    Z.max min_data_size Arena.L0_ARENA_DEFAULT_BLOCK_SIZE <= Arena.size b.
Proof.
  intros Hmin [Hraw Hend]. unfold Arena.allocate_block. cbv zeta.
  eexists. split; [ reflexivity |]. cbn [Arena.used Arena.data_start Arena.size].
  rewrite total_allocation_size_value in * by assumption.
  unfold Arena.sizeof_ArenaBlock, Arena.alignof_max_align_t in *.
  assert (Hdef : 0 <= Arena.L0_ARENA_DEFAULT_BLOCK_SIZE)
    by (unfold Arena.L0_ARENA_DEFAULT_BLOCK_SIZE; lia).
  assert (H62 : 2 ^ 62 * 4 = 2 ^ 64) by reflexivity.
  rewrite (wrap_size_small (raw + 32)) by lia.
  rewrite (wrap_size_small (raw + _)) by lia.
  destruct (align_up_spec (raw + 32) 16 sixteen_power_of_two) as [Hrange Hmod];
    [ lia | lia |].
  rewrite wrap_size_small by lia.
  repeat split; first [ exact Hmod | lia ].
Qed.

Lemma block_ok_bounds (b : Arena.ArenaBlock) :
  Arena.block_ok b ->
  0 <= Arena.data_start b + Arena.used b <= 2 ^ 62 /\ 0 <= Arena.used b <= 2 ^ 62.
Proof. unfold Arena.block_ok. lia. Qed.

(** What a successful [l0_arena_alloc] returns and leaves behind. *)
Lemma l0_arena_alloc_spec (arena arena' : Arena.L0_Arena) (size_ alignment p : Z)
      (raw_memory : option Z) :
  Arena.arena_ok arena ->
  0 <= size_ <= 2 ^ 62 -> 0 <= alignment <= 2 ^ 62 ->
  Arena.malloc_ok (Arena.total_allocation_size size_) raw_memory ->
  Arena.l0_arena_alloc arena size_ alignment raw_memory = (Some p, arena') ->
  Arena.arena_ok arena' /\
  exists b',
    Arena.current arena' = Some b' /\
    p mod Arena.effective_alignment alignment = 0 /\
    Arena.data_start b' <= p /\
    p + size_ <= Arena.data_start b' + Arena.size b' /\
    (0 < size_ -> p + size_ = Arena.data_start b' + Arena.used b') /\
    (List.length (Arena.chain arena') = List.length (Arena.chain arena) ->
     exists b, Arena.current arena = Some b /\
               Arena.data_start b' = Arena.data_start b /\
               Arena.size b' = Arena.size b /\
               Arena.data_start b + Arena.used b <= p).
Proof.
  intros Hok Hsize Halign Hmalloc Halloc.
  assert (Hpow : Arena.is_power_of_two (Arena.effective_alignment alignment))
    by (apply effective_alignment_power_of_two;
        assert (2 ^ 62 < 2 ^ 64) by reflexivity; lia).
  pose proof (effective_alignment_le alignment Halign) as Hale.
  set (a := Arena.effective_alignment alignment) in *.
  unfold Arena.l0_arena_alloc in Halloc.
  destruct (Arena.current_block arena) as [cur |] eqn:Ecur; [| discriminate ].
  destruct (nth_error (Arena.chain arena) cur) as [block |] eqn:Eblock; [| discriminate ].
  cbv zeta in Halloc. fold a in Halloc.
  assert (Hblock : Arena.block_ok block).
  { unfold Arena.arena_ok in Hok. rewrite Forall_forall in Hok.
    apply Hok. eapply nth_error_In. exact Eblock. }
  assert (Hcurrent : Arena.current arena = Some block)
    by (unfold Arena.current; now rewrite Ecur).
  destruct (block_ok_bounds block Hblock) as [Hptr Hused].
  rewrite (wrap_size_small (Arena.data_start block + Arena.used block)) in Halloc
    by (assert (2 ^ 62 < 2 ^ 64) by reflexivity; lia).
  destruct (bump_arithmetic (Arena.data_start block + Arena.used block) a
              (Arena.used block) size_ Hpow (proj2 Hale) Hptr Hused Hsize)
    as (Hrange & Hmod & Hpad & Hw1 & Hw2 & Hw3).
  cbv zeta in Hrange, Hmod, Hpad, Hw1, Hw2, Hw3.
  rewrite Hw1, Hw2, Hw3 in Halloc. rewrite Hpad in Halloc.
  destruct Hblock as (Hds & Hus & Hend).
  destruct ((size_ =? 0) && _) eqn:Ezero.
  { apply andb_prop in Ezero. destruct Ezero as [Ez Hfit].
    apply Z.eqb_eq in Ez. apply Z.leb_le in Hfit.
    inversion Halloc; subst p arena'. split; [ exact Hok |].
    exists block. split; [ exact Hcurrent |].
    split; [ exact Hmod |]. split; [ lia |]. split; [ lia |]. split; [ lia |].
    intros _. exists block. repeat split; first [ exact Hcurrent | reflexivity | lia ]. }
  destruct (Z.leb_spec (Arena.used block
                        + (Arena.align_up (Arena.data_start block + Arena.used block) a
                           - (Arena.data_start block + Arena.used block) + size_))
                       (Arena.size block)) as [Hfit | Hnofit].
  { inversion Halloc; subst p arena'. split.
    - unfold Arena.arena_ok. cbn [Arena.chain].
      apply (Forall_set_used cur _ _ block Eblock Hok).
      unfold Arena.block_ok. cbn [Arena.used Arena.size Arena.data_start]. lia.
    - eexists. split.
      + unfold Arena.current. cbn [Arena.current_block Arena.chain].
        apply nth_error_set_used. exact Eblock.
      + cbn [Arena.used Arena.size Arena.data_start].
        split; [ exact Hmod |]. split; [ lia |]. split; [ lia |]. split; [ lia |].
        intros _. exists block. repeat split; first [ exact Hcurrent | reflexivity | lia ]. }
  unfold Arena.allocate_block in Halloc. rewrite total_allocation_size_max in Halloc. fold (Arena.allocate_block size_ raw_memory) in Halloc.
  destruct raw_memory as [raw |]; [| discriminate ].
  destruct (allocate_block_spec size_ raw Hsize Hmalloc)
    as (nb & Enb & Hnused & Hnstart & _ & Hnend & Hncap).
  rewrite Enb in Halloc.
  rewrite total_allocation_size_value in Hnend, Hmalloc by assumption.
  destruct Hmalloc as [Hraw Hrend].
  unfold Arena.sizeof_ArenaBlock in Hnstart.
  assert (Hdef : Arena.L0_ARENA_DEFAULT_BLOCK_SIZE = 4194304) by reflexivity.
  assert (Hnb : Arena.block_ok nb) by (unfold Arena.block_ok; lia).
  destruct (bump_arithmetic (Arena.data_start nb) a (Arena.used nb) size_ Hpow
              (proj2 Hale)) as (Hr' & Hm' & Hp' & Hv1 & Hv2 & _); try lia.
  cbv zeta in Hr', Hm', Hp', Hv1, Hv2.
  rewrite Hv1, Hv2, Hp' in Halloc.
  assert (Hlen : forall x : Arena.ArenaBlock,
             List.length (x :: Arena.chain arena) <> List.length (Arena.chain arena))
    by (intros x; cbn [List.length]; lia).
  destruct (Z.eqb_spec size_ 0) as [Ez | Hnz].
  { destruct (Z.leb_spec (Arena.used nb + (Arena.align_up (Arena.data_start nb) a
                                           - Arena.data_start nb)) (Arena.size nb))
      as [Hfit | _]; [| discriminate ].
    inversion Halloc; subst p arena'. split.
    - unfold Arena.arena_ok. cbn [Arena.chain]. now constructor.
    - exists nb. split; [ reflexivity |].
      split; [ exact Hm' |]. split; [ lia |]. split; [ lia |]. split; [ lia |].
      cbn [Arena.chain]. intros Heq. now apply Hlen in Heq. }
  destruct (Z.ltb_spec (Arena.size nb)
                       (Arena.align_up (Arena.data_start nb) a - Arena.data_start nb + size_))
    as [_ | Hfit]; [ discriminate |].
  inversion Halloc; subst p arena'. split.
  - unfold Arena.arena_ok. cbn [Arena.chain]. constructor; [| exact Hok ].
    unfold Arena.block_ok. cbn [Arena.used Arena.size Arena.data_start]. lia.
  - eexists. split; [ reflexivity |].
    cbn [Arena.used Arena.size Arena.data_start].
    split; [ exact Hm' |]. split; [ lia |]. split; [ lia |]. split; [ lia |].
    cbn [Arena.chain]. intros Heq. now apply Hlen in Heq.
Qed.

Lemma one_block_ok (n : Z) :
  0 <= n <= Arena.L0_ARENA_DEFAULT_BLOCK_SIZE -> Arena.arena_ok (Arena.one_block n).
Proof.
  intros H. unfold Arena.arena_ok, Arena.one_block. cbn [Arena.chain].
  constructor; [| constructor ].
  unfold Arena.block_ok, Arena.L0_ARENA_DEFAULT_BLOCK_SIZE in *.
  cbn [Arena.used Arena.size Arena.data_start]. lia.
Qed.

(** X24.  With addresses, sizes and alignments up to [2 ^ 62], a
    successful [l0_arena_alloc] returns an address aligned as asked
    ([alignof(max_align_t)] when the alignment is not a power of two)
    whose [size] bytes lie inside the data area of the current block;
    for a size above 0 the block's [used] mark is the end of the
    allocation.  Every block keeps [used <= size]. *)
Theorem arena_alloc_in_bounds (arena arena' : Arena.L0_Arena) (size_ alignment p : Z)
        (raw_memory : option Z)
        (Hok : Arena.arena_ok arena)
        (Hsize : 0 <= size_ <= 2 ^ 62) (Halign : 0 <= alignment <= 2 ^ 62)
        (Hmalloc : Arena.malloc_ok (Arena.total_allocation_size size_) raw_memory)
        (Halloc : Arena.l0_arena_alloc arena size_ alignment raw_memory = (Some p, arena')) :
  Arena.arena_ok arena' /\
  exists b',
    Arena.current arena' = Some b' /\
    p mod Arena.effective_alignment alignment = 0 /\
    (Arena.is_power_of_two alignment -> p mod alignment = 0) /\
    Arena.data_start b' <= p /\
    p + size_ <= Arena.data_start b' + Arena.size b' /\
    (0 < size_ -> p + size_ = Arena.data_start b' + Arena.used b').
Proof.
  destruct (l0_arena_alloc_spec arena arena' size_ alignment p raw_memory
              Hok Hsize Halign Hmalloc Halloc)
    as (Hok' & b' & Hcur & Hmod & Hlo & Hhi & Hbump & _).
  split; [ exact Hok' |]. exists b'.
  split; [ exact Hcur |]. split; [ exact Hmod |].
  split; [| split; [ exact Hlo | split; [ exact Hhi | exact Hbump ] ] ].
  intros Hpow. now rewrite (effective_alignment_of_power alignment Hpow) in Hmod.
Qed.

Lemma arena_alloc_in_bounds_witness :
  Arena.arena_ok (Arena.one_block 24) /\
  exists b', Arena.current (Arena.one_block 24) = Some b' /\
             4096 + 24 = Arena.data_start b' + Arena.used b'.
Proof.
  assert (Hok : Arena.arena_ok (Arena.one_block 0))
    by (apply one_block_ok; unfold Arena.L0_ARENA_DEFAULT_BLOCK_SIZE; lia).
  assert (Hsize : 0 <= 24 <= 2 ^ 62) by lia.
  assert (Halign : 0 <= 8 <= 2 ^ 62) by lia.
  assert (Halloc : Arena.l0_arena_alloc (Arena.one_block 0) 24 8 None
                   = (Some 4096, Arena.one_block 24)) by (vm_compute; reflexivity).
  destruct (arena_alloc_in_bounds (Arena.one_block 0) (Arena.one_block 24) 24 8 4096 None
              Hok Hsize Halign I Halloc)
    as (Hok' & b' & Hcur & _ & _ & _ & _ & Hbump).
  split; [ exact Hok' |]. exists b'. split; [ exact Hcur |]. apply Hbump. lia.
Defined.

(** X25.  Two successive allocations from an arena that are served by
    the same block do not overlap: the second begins at or after the end
    of the first. *)
Theorem arena_allocations_do_not_overlap
        (arena arena1 arena2 : Arena.L0_Arena)
        (size1 alignment1 p1 size2 alignment2 p2 : Z) (raw1 raw2 : option Z)
        (Hok : Arena.arena_ok arena)
        (Hsize1 : 0 < size1 <= 2 ^ 62) (Halign1 : 0 <= alignment1 <= 2 ^ 62)
        (Hsize2 : 0 <= size2 <= 2 ^ 62) (Halign2 : 0 <= alignment2 <= 2 ^ 62)
        (Hmalloc1 : Arena.malloc_ok (Arena.total_allocation_size size1) raw1)
        (Hmalloc2 : Arena.malloc_ok (Arena.total_allocation_size size2) raw2)
        (Halloc1 : Arena.l0_arena_alloc arena size1 alignment1 raw1 = (Some p1, arena1))
        (Halloc2 : Arena.l0_arena_alloc arena1 size2 alignment2 raw2 = (Some p2, arena2))
        (Hsame : List.length (Arena.chain arena2) = List.length (Arena.chain arena1)) :
  p1 + size1 <= p2.
Proof.
  assert (Hsize1' : 0 <= size1 <= 2 ^ 62) by lia.
  destruct (l0_arena_alloc_spec arena arena1 size1 alignment1 p1 raw1
              Hok Hsize1' Halign1 Hmalloc1 Halloc1)
    as (Hok1 & b1 & Hcur1 & _ & _ & _ & Hbump1 & _).
  destruct (l0_arena_alloc_spec arena1 arena2 size2 alignment2 p2 raw2
              Hok1 Hsize2 Halign2 Hmalloc2 Halloc2)
    as (_ & b2 & _ & _ & _ & _ & _ & Hprev).
  destruct (Hprev Hsame) as (b & Hcur & _ & _ & Hafter).
  rewrite Hcur1 in Hcur. inversion Hcur; subst b.
  rewrite (Hbump1 (proj1 Hsize1)). exact Hafter.
Qed.

Lemma arena_allocations_do_not_overlap_witness : 4096 + 24 <= 4128.
Proof.
  assert (Hok : Arena.arena_ok (Arena.one_block 0))
    by (apply one_block_ok; unfold Arena.L0_ARENA_DEFAULT_BLOCK_SIZE; lia).
  assert (Hsize1 : 0 < 24 <= 2 ^ 62) by lia.
  assert (Halign1 : 0 <= 8 <= 2 ^ 62) by lia.
  assert (Hsize2 : 0 <= 10 <= 2 ^ 62) by lia.
  assert (Halign2 : 0 <= 16 <= 2 ^ 62) by lia.
  assert (Halloc1 : Arena.l0_arena_alloc (Arena.one_block 0) 24 8 None
                    = (Some 4096, Arena.one_block 24)) by (vm_compute; reflexivity).
  assert (Halloc2 : Arena.l0_arena_alloc (Arena.one_block 24) 10 16 None
                    = (Some 4128, Arena.one_block 42)) by (vm_compute; reflexivity).
  exact (arena_allocations_do_not_overlap
           (Arena.one_block 0) (Arena.one_block 24) (Arena.one_block 42)
           24 8 4096 10 16 4128 None None
           Hok Hsize1 Halign1 Hsize2 Halign2 I I Halloc1 Halloc2 eq_refl).
Defined.

(** X26.  The block [allocate_block] makes of the memory [malloc]
    returned is empty; its data area starts after the header at a
    multiple of [alignof(max_align_t)], ends where the memory ends and
    holds at least the size asked for and at least the default block
    size. *)
Theorem allocate_block_capacity (min_data_size raw : Z)
        (Hmin : 0 <= min_data_size <= 2 ^ 62)
        (Hmalloc : Arena.malloc_ok (Arena.total_allocation_size min_data_size) (Some raw)) :
  exists b,
    Arena.allocate_block min_data_size (Some raw) = Some b /\
    Arena.used b = 0 /\
    raw + Arena.sizeof_ArenaBlock <= Arena.data_start b /\
    Arena.data_start b mod Arena.alignof_max_align_t = 0 /\
    Arena.data_start b + Arena.size b = raw + Arena.total_allocation_size min_data_size /\
    min_data_size <= Arena.size b /\
    Arena.L0_ARENA_DEFAULT_BLOCK_SIZE <= Arena.size b.
Proof.
  destruct (allocate_block_spec min_data_size raw Hmin Hmalloc)
    as (b & Eb & Hused & Hstart & Hmod & Hend & Hcap).
  exists b. repeat split; try assumption; lia.
Qed.

Lemma allocate_block_capacity_witness :
  exists b, Arena.allocate_block 100 (Some 4104) = Some b /\ 100 <= Arena.size b.
Proof.
  assert (Hmin : 0 <= 100 <= 2 ^ 62) by lia.
  assert (Hmalloc : Arena.malloc_ok (Arena.total_allocation_size 100) (Some 4104))
    by (vm_compute; split; [ reflexivity | discriminate ]).
  destruct (allocate_block_capacity 100 4104 Hmin Hmalloc)
    as (b & Eb & _ & _ & _ & _ & Hcap & _).
  exists b. split; [ exact Eb | exact Hcap ].
Defined.

Lemma l0_arena_reset_ok (arena : Arena.L0_Arena) :
  Arena.arena_ok arena -> Arena.arena_ok (Arena.l0_arena_reset arena).
Proof.
  unfold Arena.arena_ok, Arena.l0_arena_reset. cbn [Arena.chain].
  induction 1 as [| x xs Hx Hxs IH]; cbn [map]; constructor; [| exact IH ].
  unfold Arena.block_ok in *. cbn [Arena.used Arena.size Arena.data_start]. lia.
Qed.

Lemma l0_arena_reset_used (arena : Arena.L0_Arena) :
  Forall (fun x => Arena.used x = 0) (Arena.chain (Arena.l0_arena_reset arena)).
Proof.
  unfold Arena.l0_arena_reset. cbn [Arena.chain].
  induction (Arena.chain arena); cbn [map]; constructor; [ reflexivity | assumption ].
Qed.

(** X27.  [l0_arena_reset] marks every block empty and keeps the blocks.
    An allocation after it that fits in the first block is served from
    the start of that block's data area, so the addresses handed out
    before the reset are handed out again, and no memory is requested
    from [malloc]. *)
Theorem reset_then_alloc_reuses_first_block
        (arena : Arena.L0_Arena) (b : Arena.ArenaBlock) (rest : list Arena.ArenaBlock)
        (size_ alignment : Z) (raw_memory : option Z)
        (Hok : Arena.arena_ok arena)
        (Hchain : Arena.chain arena = b :: rest)
        (Hsize : 0 < size_ <= 2 ^ 62) (Halign : 0 <= alignment <= 2 ^ 62)
        (Hfit : Arena.align_up (Arena.data_start b) (Arena.effective_alignment alignment)
                - Arena.data_start b + size_ <= Arena.size b) :
  let p := Arena.align_up (Arena.data_start b) (Arena.effective_alignment alignment) in
  Arena.arena_ok (Arena.l0_arena_reset arena) /\
  Forall (fun x => Arena.used x = 0) (Arena.chain (Arena.l0_arena_reset arena)) /\
  Arena.l0_arena_alloc (Arena.l0_arena_reset arena) size_ alignment raw_memory
  = (Some p,
     Arena.mkArena (Some O)
       (Arena.mkBlock (Arena.size b) (p - Arena.data_start b + size_) (Arena.data_start b)
        :: Arena.chain (Arena.l0_arena_reset (Arena.mkArena None rest)))).
Proof.
  cbn zeta.
  assert (Hpow : Arena.is_power_of_two (Arena.effective_alignment alignment))
    by (apply effective_alignment_power_of_two;
        assert (2 ^ 62 < 2 ^ 64) by reflexivity; lia).
  pose proof (effective_alignment_le alignment Halign) as Hale.
  assert (Hb : Arena.block_ok b).
  { unfold Arena.arena_ok in Hok. rewrite Hchain in Hok. now inversion Hok. }
  destruct Hb as (Hds & Hus & Hend).
  split; [| split ].
  - apply l0_arena_reset_ok. exact Hok.
  - apply l0_arena_reset_used.
  - unfold Arena.l0_arena_reset, Arena.l0_arena_alloc. rewrite Hchain.
    cbn [Arena.current_block Arena.chain map nth_error Arena.used Arena.size
         Arena.data_start Arena.set_used]. cbv zeta.
    set (a := Arena.effective_alignment alignment) in *.
    rewrite Z.add_0_r.
    assert (H62 : 2 ^ 62 * 4 = 2 ^ 64) by reflexivity.
    rewrite (wrap_size_small (Arena.data_start b)) by lia.
    destruct (bump_arithmetic (Arena.data_start b) a 0 size_ Hpow (proj2 Hale))
      as (Hrange & Hmod & Hpad & Hw1 & Hw2 & Hw3); try lia.
    cbv zeta in Hrange, Hmod, Hpad, Hw1, Hw2, Hw3.
    rewrite Hw1, Hw2, Hw3, Hpad. cbn [Z.add].
    destruct (Z.eqb_spec size_ 0) as [E | _]; [ lia |]. cbn [andb].
    destruct (Z.leb_spec (Arena.align_up (Arena.data_start b) a - Arena.data_start b + size_)
                         (Arena.size b)) as [_ | Hno]; [ reflexivity | lia ].
Qed.

Lemma reset_then_alloc_reuses_first_block_witness :
  Arena.l0_arena_alloc (Arena.l0_arena_reset (Arena.one_block 42)) 24 8 None
  = (Some 4096, Arena.one_block 24).
Proof.
  assert (Hok : Arena.arena_ok (Arena.one_block 42))
    by (apply one_block_ok; unfold Arena.L0_ARENA_DEFAULT_BLOCK_SIZE; lia).
  assert (Hsize : 0 < 24 <= 2 ^ 62) by lia.
  assert (Halign : 0 <= 8 <= 2 ^ 62) by lia.
  assert (Hfit : Arena.align_up 4096 (Arena.effective_alignment 8) - 4096 + 24
                 <= Arena.L0_ARENA_DEFAULT_BLOCK_SIZE) by (vm_compute; discriminate).
  exact (proj2 (proj2 (reset_then_alloc_reuses_first_block
                         (Arena.one_block 42)
                         (Arena.mkBlock Arena.L0_ARENA_DEFAULT_BLOCK_SIZE 42 4096) []
                         24 8 None Hok eq_refl Hsize Halign Hfit))).
Defined.
